(** * Blockly.Block (core/block.js): a shallow embedding and its properties

    The JavaScript heap of blocks, connections, bound variables and type
    variables is an explicit store; every method of [Blockly.Block] is a
    computation over that store which either returns, throws (the store it
    had reached is kept, as in JavaScript), or exhausts the recursion budget
    of the model.  Methods keep the names they have in the source. *)

From stdpp Require Import gmap strings list fin_maps pretty.

Set Default Proof Using "Type".

(** ** Data model *)

(** Structural type expressions.  Constructor nodes are immutable after
    creation, so they are embedded as terms; a type variable is a mutable
    object and is named by the index of its cell in the store. *)
Inductive TypeExpr :=
| BOOL
| INT
| FLOAT
| LIST (element_type : TypeExpr)
| PAIR (first_type second_type : TypeExpr)
| FUN (arg_type return_type : TypeExpr)
| TVAR (cell : nat).

Global Instance TypeExpr_eq_dec : EqDecision TypeExpr.
Proof. solve_decision. Defined.

(** The entries of [Blockly.Blocks] defined in block.js; [untyped_block]
    stands for any prototype registered elsewhere (it carries none of the
    typed hooks). *)
Inductive BlockType :=
| logic_boolean_typed
| logic_compare_typed
| logic_ternary_typed
| int_typed
| int_arithmetic_typed
| float_typed
| float_arithmetic_typed
| lists_create_with_typed
| pair_create_typed
| pair_first_typed
| pair_second_typed
| lambda_typed
| lambda_app_typed
| match_typed
| variables_get_typed
| let_typed
| untyped_block (prototypeName : string).

Global Instance BlockType_eq_dec : EqDecision BlockType.
Proof. solve_decision. Defined.

Inductive ConnectionType :=
| INPUT_VALUE
| OUTPUT_VALUE
| NEXT_STATEMENT
| PREVIOUS_STATEMENT.

Global Instance ConnectionType_eq_dec : EqDecision ConnectionType.
Proof. solve_decision. Defined.

(** What [field.referencesVariables()] answers. *)
Inductive FieldVariableKind :=
| FIELD_VARIABLE_NONE
| FIELD_VARIABLE_DEFAULT
| FIELD_VARIABLE_BINDING.

Global Instance FieldVariableKind_eq_dec : EqDecision FieldVariableKind.
Proof. solve_decision. Defined.

Record Field := mkField {
  field_name : option string;
  referencesVariables : FieldVariableKind;
  getVariable : option nat;
  getText : string;
}.

Global Instance Field_eq_dec : EqDecision Field.
Proof. solve_decision. Defined.

Record Input := mkInput {
  name : string;
  fieldRow : list Field;
  connection : option nat;
}.

Global Instance Input_eq_dec : EqDecision Input.
Proof. solve_decision. Defined.

Record Connection := mkConnection {
  sourceBlock_ : nat;
  type_ : ConnectionType;
  targetConnection : option nat;
  check_ : option (list string);
  typeExpr : option TypeExpr;
  inDB_ : bool;
}.

Global Instance Connection_eq_dec : EqDecision Connection.
Proof. solve_decision. Defined.

(** A bound variable is a Value (declaration) or a Reference (use); only a
    Reference has a [value_] link. *)
Record BoundVariable := mkBoundVariable {
  isReference : bool;
  getVariableName : string;
  value_ : option nat;
  variable_typeExpr : TypeExpr;
  variable_disposed : bool;
}.

Global Instance BoundVariable_eq_dec : EqDecision BoundVariable.
Proof. solve_decision. Defined.

Record Block := mkBlock {
  type : BlockType;
  workspace : bool;            (* false once [this.workspace = null] *)
  outputConnection : option nat;
  nextConnection : option nat;
  previousConnection : option nat;
  inputList : list Input;
  typedValue : list (string * nat);   (* in insertion order, as Object.keys *)
  parentBlock_ : option nat;
  childBlocks_ : list nat;
  itemCount_ : nat;
}.

(** Ghost record of what a run did, in order.  It is an output of a run
    only; no method reads it. *)
Inductive Event :=
| EvUnplug (block : nat) (healStack : bool)
| EvBlockDelete (block : nat)
| EvDisposeChild (block child : nat)
| EvInputDispose (block : nat) (input : string)
| EvFieldDispose (block : nat) (input : string) (field : option string)
| EvConnectionDisconnect (conn : nat)
| EvConnectionDispose (conn : nat)
| EvValueDispose (block : nat) (variable : nat)
| EvResolve (block : nat)
| EvClear (t : TypeExpr)
| EvClearTypes (block : nat).

Global Instance Event_eq_dec : EqDecision Event.
Proof. solve_decision. Defined.

(** The store: the objects reachable from one workspace, the workspace's
    own tables, and the two globals block.js touches. *)
Record State := mkState {
  blocks : gmap nat Block;
  connections : gmap nat Connection;
  variables : gmap nat BoundVariable;
  typeCells : gmap nat TypeExpr;   (* the binding of each bound type variable *)
  topBlocks_ : gset nat;
  blockDB_ : gset nat;
  eventsDisabled_ : nat;           (* Blockly.Events: enabled iff 0 *)
  selected : option nat;           (* Blockly.selected *)
}.

(** ** Computations *)

Inductive Outcome (A : Type) :=
| Ok (a : A) (st : State) (log : list Event)
| Throw (msg : string) (st : State) (log : list Event)
| OutOfFuel.
Arguments Ok {A} a st log.
Arguments Throw {A} msg st log.
Arguments OutOfFuel {A}.

Definition M (A : Type) : Type := State → Outcome A.

Definition ret {A} (a : A) : M A := λ st, Ok a st [].

(** The log of a continuation comes after the log so far. *)
Definition prepend {A} (l : list Event) (o : Outcome A) : Outcome A :=
  match o with
  | Ok a st l' => Ok a st (l ++ l')
  | Throw msg st l' => Throw msg st (l ++ l')
  | OutOfFuel => OutOfFuel
  end.

Definition bind {A B} (m : M A) (k : A → M B) : M B :=
  λ st, match m st with
        | Ok a st' l => prepend l (k a st')
        | Throw msg st' l => Throw msg st' l
        | OutOfFuel => OutOfFuel
        end.

Global Instance M_ret : MRet M := @ret.
Global Instance M_bind : MBind M := λ A B k m, bind m k.

Definition throw {A} (msg : string) : M A := λ st, Throw msg st [].

Definition out_of_fuel {A} : M A := λ _, OutOfFuel.

(** [try { body } finally { fin }] *)
Definition try_finally {A} (body : M A) (fin : M unit) : M A :=
  λ st, match body st with
        | Ok a st' l =>
            prepend l (match fin st' with
                       | Ok _ st'' l' => Ok a st'' l'
                       | Throw msg st'' l' => Throw msg st'' l'
                       | OutOfFuel => OutOfFuel
                       end)
        | Throw msg st' l =>
            prepend l (match fin st' with
                       | Ok _ st'' l' => Throw msg st'' l'
                       | Throw msg' st'' l' => Throw msg' st'' l'
                       | OutOfFuel => OutOfFuel
                       end)
        | OutOfFuel => OutOfFuel
        end.

(** [goog.asserts.assert] *)
Definition assert (b : bool) (msg : string) : M unit :=
  if b then ret tt else throw msg.

(** Dereferencing [null] or [undefined] is a TypeError. *)
Definition TypeError {A} : M A := throw "TypeError".

Definition emit (e : Event) : M unit := λ st, Ok tt st [e].

Definition modify (f : State → State) : M unit := λ st, Ok tt (f st) [].

Definition getBlock (b : nat) : M Block :=
  λ st, match blocks st !! b with
        | Some B => Ok B st []
        | None => Throw "TypeError" st []
        end.

Definition getConnection (c : nat) : M Connection :=
  λ st, match connections st !! c with
        | Some C => Ok C st []
        | None => Throw "TypeError" st []
        end.

Definition getBoundVariable (v : nat) : M BoundVariable :=
  λ st, match variables st !! v with
        | Some V => Ok V st []
        | None => Throw "TypeError" st []
        end.

Definition getState : M State := λ st, Ok st st [].

Definition getTypeCells : M (gmap nat TypeExpr) := λ st, Ok (typeCells st) st [].

Definition set_blocks (f : gmap nat Block → gmap nat Block) (st : State) : State :=
  mkState (f (blocks st)) (connections st) (variables st) (typeCells st)
          (topBlocks_ st) (blockDB_ st) (eventsDisabled_ st) (selected st).

Definition set_connections (f : gmap nat Connection → gmap nat Connection)
    (st : State) : State :=
  mkState (blocks st) (f (connections st)) (variables st) (typeCells st)
          (topBlocks_ st) (blockDB_ st) (eventsDisabled_ st) (selected st).

Definition set_variables (f : gmap nat BoundVariable → gmap nat BoundVariable)
    (st : State) : State :=
  mkState (blocks st) (connections st) (f (variables st)) (typeCells st)
          (topBlocks_ st) (blockDB_ st) (eventsDisabled_ st) (selected st).

Definition set_typeCells (f : gmap nat TypeExpr → gmap nat TypeExpr)
    (st : State) : State :=
  mkState (blocks st) (connections st) (variables st) (f (typeCells st))
          (topBlocks_ st) (blockDB_ st) (eventsDisabled_ st) (selected st).

Definition set_topBlocks (f : gset nat → gset nat) (st : State) : State :=
  mkState (blocks st) (connections st) (variables st) (typeCells st)
          (f (topBlocks_ st)) (blockDB_ st) (eventsDisabled_ st) (selected st).

Definition set_blockDB (f : gset nat → gset nat) (st : State) : State :=
  mkState (blocks st) (connections st) (variables st) (typeCells st)
          (topBlocks_ st) (f (blockDB_ st)) (eventsDisabled_ st) (selected st).

Definition set_eventsDisabled (f : nat → nat) (st : State) : State :=
  mkState (blocks st) (connections st) (variables st) (typeCells st)
          (topBlocks_ st) (blockDB_ st) (f (eventsDisabled_ st)) (selected st).

Definition set_selected (s : option nat) (st : State) : State :=
  mkState (blocks st) (connections st) (variables st) (typeCells st)
          (topBlocks_ st) (blockDB_ st) (eventsDisabled_ st) s.

(** Field updates of an object. *)
Definition with_inputList (l : list Input) (B : Block) : Block :=
  mkBlock (type B) (workspace B) (outputConnection B) (nextConnection B)
          (previousConnection B) l (typedValue B) (parentBlock_ B)
          (childBlocks_ B) (itemCount_ B).

Definition with_workspace (w : bool) (B : Block) : Block :=
  mkBlock (type B) w (outputConnection B) (nextConnection B)
          (previousConnection B) (inputList B) (typedValue B) (parentBlock_ B)
          (childBlocks_ B) (itemCount_ B).

Definition with_parentBlock (p : option nat) (B : Block) : Block :=
  mkBlock (type B) (workspace B) (outputConnection B) (nextConnection B)
          (previousConnection B) (inputList B) (typedValue B) p
          (childBlocks_ B) (itemCount_ B).

Definition with_childBlocks (f : list nat → list nat) (B : Block) : Block :=
  mkBlock (type B) (workspace B) (outputConnection B) (nextConnection B)
          (previousConnection B) (inputList B) (typedValue B) (parentBlock_ B)
          (f (childBlocks_ B)) (itemCount_ B).

Definition updBlock (b : nat) (f : Block → Block) : M unit :=
  modify (set_blocks (alter f b)).

Definition with_targetConnection (t : option nat) (C : Connection) : Connection :=
  mkConnection (sourceBlock_ C) (type_ C) t (check_ C) (typeExpr C) (inDB_ C).

Definition with_inDB (r : bool) (C : Connection) : Connection :=
  mkConnection (sourceBlock_ C) (type_ C) (targetConnection C) (check_ C)
               (typeExpr C) r.

Definition updConnection (c : nat) (f : Connection → Connection) : M unit :=
  modify (set_connections (alter f c)).

Definition with_value (v : option nat) (V : BoundVariable) : BoundVariable :=
  mkBoundVariable (isReference V) (getVariableName V) v (variable_typeExpr V)
                  (variable_disposed V).

Definition with_disposed (d : bool) (V : BoundVariable) : BoundVariable :=
  mkBoundVariable (isReference V) (getVariableName V) (value_ V)
                  (variable_typeExpr V) d.

(** ** Array helpers *)

(** [arr.splice(start, deleteCount, ...items)] for non-negative arguments. *)
Definition splice {A} (start deleteCount : nat) (items l : list A) : list A :=
  take start l ++ items ++ drop (start + deleteCount) l.

(** [goog.array.remove(arr, obj)]: drops the first occurrence. *)
Fixpoint array_remove (x : nat) (l : list nat) : list nat :=
  match l with
  | [] => []
  | y :: l' => if decide (y = x) then l' else y :: array_remove x l'
  end.

(** JavaScript truthiness of a nullable string: [null] and [''] are falsy. *)
Definition truthy (s : option string) : bool :=
  match s with
  | Some r => negb (bool_decide (r = ""))
  | None => false
  end.

(** ** Collaborators of block.js

    workspace.js, events.js, connection.js, input.js, the bound-variable
    classes and the type-expression engine are not part of block.js; what
    block.js calls on them is modelled from their contracts. *)

(** Modelled from the spec: [Workspace.addTopBlock] and
    [Workspace.removeTopBlock] (workspace.js is missing): membership in the
    workspace's set of top-level blocks. *)
Definition addTopBlock (b : nat) : M unit :=
  modify (set_topBlocks (λ s, s ∪ {[b]})).
Definition removeTopBlock (b : nat) : M unit :=
  modify (set_topBlocks (λ s, s ∖ {[b]})).

(** Modelled from the spec: the global enable/disable switch of the
    change-notification mechanism (events.js is missing).  [disable] and
    [enable] calls nest, so the switch is a nesting depth; a notification is
    delivered, in order, only while the switch is on. *)
Definition Events_isEnabled : M bool :=
  λ st, Ok (bool_decide (eventsDisabled_ st = 0)) st [].
Definition Events_disable : M unit := modify (set_eventsDisabled S).
Definition Events_enable : M unit := modify (set_eventsDisabled pred).
Definition Events_fire (e : Event) : M unit :=
  enabled ← Events_isEnabled;
  if enabled : bool then emit e else ret tt.

(** Modelled from the spec: [Connection.isConnected], [targetBlock] and
    [getSourceBlock] (connection.js is missing): a connection has at most one
    target, and is owned by one block. *)
Definition isConnected (c : nat) : M bool :=
  C ← getConnection c;
  ret (bool_decide (targetConnection C ≠ None)).

Definition targetBlock (c : nat) : M (option nat) :=
  C ← getConnection c;
  match targetConnection C with
  | None => ret None
  | Some t => T ← getConnection t; ret (Some (sourceBlock_ T))
  end.

Definition getSourceBlock (c : nat) : M nat :=
  C ← getConnection c; ret (sourceBlock_ C).

(** Modelled from the spec: the nominal check of [Connection.checkType_]
    (connection.js is missing): the two accepted-type sets intersect, or
    either is unconstrained. *)
Definition check_compatible (C T : Connection) : bool :=
  match check_ C, check_ T with
  | Some l1, Some l2 => existsb (λ x, bool_decide (x ∈ l2)) l1
  | _, _ => true
  end.

Definition checkType_ (c other : nat) : M bool :=
  C ← getConnection c;
  T ← getConnection other;
  ret (check_compatible C T).

(** Output pairs with Value-Input, Previous with Next. *)
Definition complementary (a b : ConnectionType) : bool :=
  match a, b with
  | OUTPUT_VALUE, INPUT_VALUE | INPUT_VALUE, OUTPUT_VALUE
  | PREVIOUS_STATEMENT, NEXT_STATEMENT | NEXT_STATEMENT, PREVIOUS_STATEMENT => true
  | _, _ => false
  end.

(** The plug side of a pair: the block owning it is the plugged-in child. *)
Definition is_plug (t : ConnectionType) : bool :=
  match t with
  | OUTPUT_VALUE | PREVIOUS_STATEMENT => true
  | INPUT_VALUE | NEXT_STATEMENT => false
  end.

(** Modelled from the spec: [resolve] of the type-expression engine
    (type_expr.js is missing): follow the bindings of type variables to the
    representative, which is a constructor node or an unbound variable.  A
    cyclic chain of bindings never resolves; the model answers [None]. *)
Fixpoint deref (fuel : nat) (cells : gmap nat TypeExpr) (t : TypeExpr)
    : option TypeExpr :=
  match t with
  | TVAR x =>
      match cells !! x with
      | Some t' =>
          match fuel with
          | 0 => None
          | S fuel => deref fuel cells t'
          end
      | None => Some t
      end
  | _ => Some t
  end.

Definition bindCell (x : nat) (t : TypeExpr) : M unit :=
  modify (set_typeCells (<[x := t]>)).

(** Modelled from the spec: [unify] of the type-expression engine
    (type_expr.js is missing).  Two unbound variables are linked, the newer
    (larger cell) to the older; an unbound variable is bound to a constructor
    node; two constructor nodes with the same head unify their children; two
    different heads are a type mismatch, which is reported ([false]) and not
    thrown. *)
Fixpoint unify (fuel : nat) (a b : TypeExpr) : M bool :=
  match fuel with
  | 0 => out_of_fuel
  | S fuel =>
      cells ← getTypeCells;
      match deref (S fuel) cells a, deref (S fuel) cells b with
      | Some a', Some b' =>
          match a', b' with
          | TVAR x, TVAR y =>
              if decide (x = y) then ret true
              else if decide (x < y) then bindCell y (TVAR x);; ret true
              else bindCell x (TVAR y);; ret true
          | TVAR x, _ => bindCell x b';; ret true
          | _, TVAR y => bindCell y a';; ret true
          | BOOL, BOOL | INT, INT | FLOAT, FLOAT => ret true
          | LIST e1, LIST e2 => unify fuel e1 e2
          | PAIR a1 a2, PAIR b1 b2 =>
              r1 ← unify fuel a1 b1;
              r2 ← unify fuel a2 b2;
              ret (r1 && r2)
          | FUN a1 a2, FUN b1 b2 =>
              r1 ← unify fuel a1 b1;
              r2 ← unify fuel a2 b2;
              ret (r1 && r2)
          | _, _ => ret false
          end
      | _, _ => out_of_fuel
      end
  end.

(** [a.unify(b)] where [b] may be [undefined]. *)
Definition unify_with (fuel : nat) (a : TypeExpr) (b : option TypeExpr) : M unit :=
  match b with
  | Some b => unify fuel a b;; ret tt
  | None => TypeError
  end.

(** Modelled from the spec: [clear] of the type-expression engine
    (type_expr.js is missing): a type variable is detached back to a fresh
    unbound state; a constructor node has nothing to detach. *)
Definition clear (t : TypeExpr) : M unit :=
  emit (EvClear t);;
  match t with
  | TVAR x => modify (set_typeCells (delete x))
  | _ => ret tt
  end.

(** [e.clear()] where [e] may be [null] or [undefined]. *)
Definition clear_opt (t : option TypeExpr) : M unit :=
  match t with
  | Some t => clear t
  | None => TypeError
  end.

(** Modelled from the spec: [Connection.canConnect] (connection.js is
    missing): complementary kinds, neither side has a target other than the
    would-be partner, compatible nominal checks, and, when both sides carry a
    type expression, the two unify without a mismatch. *)
Definition target_free (C : Connection) (partner : nat) : bool :=
  match targetConnection C with
  | None => true
  | Some t => bool_decide (t = partner)
  end.

Definition unifiable (fuel : nat) (a b : TypeExpr) (st : State) : bool :=
  match unify fuel a b st with
  | Ok true _ _ => true
  | _ => false
  end.

Definition canConnect (fuel : nat) (c other : nat) : M bool :=
  C ← getConnection c;
  T ← getConnection other;
  st ← getState;
  ret (complementary (type_ C) (type_ T)
       && target_free C other && target_free T c
       && check_compatible C T
       && match typeExpr C, typeExpr T with
          | Some a, Some b => unifiable fuel a b st
          | _, _ => true
          end).

(** Modelled from the spec: [Connection.dispose] (connection.js is missing):
    fails loudly if still connected, otherwise unregisters the connection. *)
Definition Connection_dispose (c : nat) : M unit :=
  C ← getConnection c;
  if bool_decide (targetConnection C ≠ None)
  then throw "Disconnect connection before disposing of it."
  else emit (EvConnectionDispose c);;
       updConnection c (with_inDB false).

(** Modelled from the spec: [Input.dispose] (input.js is missing): the input
    releases what it carries, its fields in order and then its connection. *)
Definition Input_dispose (b : nat) (input : Input) : M unit :=
  emit (EvInputDispose b (name input));;
  foldr (λ f k, emit (EvFieldDispose b (name input) (field_name f));; k)
        (ret tt) (fieldRow input);;
  match connection input with
  | Some c => Connection_dispose c
  | None => ret tt
  end.

(** Modelled from the spec: the Reference operations [removeBoundValue] and
    [setBoundValue] (the bound-variable classes are missing): a Reference
    holds an unowned link to the Value it resolves to, or none. *)
Definition removeBoundValue (v : nat) : M unit :=
  modify (set_variables (alter (with_value None) v)).
Definition setBoundValue (v value : nat) : M unit :=
  modify (set_variables (alter (with_value (Some value)) v)).

(** Modelled from the spec: [BoundVariableValue.dispose] (the bound-variable
    classes are missing): the Value is gone and every Reference that pointed
    to it becomes unresolved. *)
Definition unbind_from (v : nat) (V : BoundVariable) : BoundVariable :=
  if bool_decide (value_ V = Some v) then with_value None V else V.

Definition Value_dispose (b v : nat) : M unit :=
  _ ← getBoundVariable v;
  emit (EvValueDispose b v);;
  modify (set_variables (λ m, unbind_from v <$> alter (with_disposed true) v m)).

(** ** The block tree *)

(** [Blockly.Block.prototype.setParent] *)
Definition setParent (this : nat) (newParent : option nat) : M unit :=
  B ← getBlock this;
  if bool_decide (newParent = parentBlock_ B) then ret tt else
  match parentBlock_ B with
  | Some p =>
      (* Remove this block from the old parent's child list. *)
      _ ← getBlock p;
      updBlock p (with_childBlocks (array_remove this));;
      (* Disconnect from superior blocks. *)
      prev ← match previousConnection B with
             | Some pc => isConnected pc
             | None => ret false
             end;
      (if prev : bool then throw "Still connected to previous block." else ret tt);;
      out ← match outputConnection B with
            | Some oc => isConnected oc
            | None => ret false
            end;
      (if out : bool then throw "Still connected to parent block." else ret tt);;
      updBlock this (with_parentBlock None)
  | None =>
      (* Remove this block from the workspace's list of top-most blocks. *)
      if workspace B then removeTopBlock this else TypeError
  end;;
  updBlock this (with_parentBlock newParent);;
  match newParent with
  | Some np =>
      (* Add this block to the new parent's child list. *)
      _ ← getBlock np;
      updBlock np (with_childBlocks (λ l, l ++ [this]))
  | None =>
      if workspace B then addTopBlock this else TypeError
  end.

(** Modelled from the spec: [Connection.disconnect] (connection.js is
    missing): the inverse of [connect]; both connections end un-targeted and
    registered again, and the plugged-in block leaves its parent.
    Disconnecting a connection that has no target is a contract violation. *)
Definition disconnect (c : nat) : M unit :=
  C ← getConnection c;
  match targetConnection C with
  | None => throw "Source connection not connected."
  | Some t =>
      T ← getConnection t;
      emit (EvConnectionDisconnect c);;
      updConnection c (λ C, with_inDB true (with_targetConnection None C));;
      updConnection t (λ T, with_inDB true (with_targetConnection None T));;
      setParent (if is_plug (type_ C) then sourceBlock_ C else sourceBlock_ T) None
  end.

(** Modelled from the spec: [Connection.connect] (connection.js is missing):
    the link is made only if [canConnect] holds; the block owning the
    Value-Input or Next side becomes the parent of the block owning the
    Output or Previous side, and both connections leave the free-floating
    search structures. *)
Definition connect (fuel : nat) (c other : nat) : M unit :=
  ok ← canConnect fuel c other;
  if ok : bool then
    C ← getConnection c;
    T ← getConnection other;
    updConnection c (λ C, with_inDB false (with_targetConnection (Some other) C));;
    updConnection other (λ T, with_inDB false (with_targetConnection (Some c) T));;
    if is_plug (type_ C)
    then setParent (sourceBlock_ C) (Some (sourceBlock_ T))
    else setParent (sourceBlock_ T) (Some (sourceBlock_ C))
  else ret tt.

(** [Blockly.Block.prototype.getNextBlock] *)
Definition getNextBlock (this : nat) : M (option nat) :=
  B ← getBlock this;
  match nextConnection B with
  | Some nc => targetBlock nc
  | None => ret None
  end.

(** [Blockly.Block.prototype.unplug]; the budget is only spent by the
    type check inside [connect]. *)
Definition unplug (fuel : nat) (this : nat) (opt_healStack : bool) : M unit :=
  emit (EvUnplug this opt_healStack);;
  B ← getBlock this;
  match outputConnection B with
  | Some oc =>
      connected ← isConnected oc;
      (* Disconnect from any superior block. *)
      if connected : bool then disconnect oc else ret tt
  | None =>
      match previousConnection B with
      | Some pc =>
          PC ← getConnection pc;
          (* Remember the connection that any next statements need to
             connect to, and detach this block from the parent's tree. *)
          previousTarget ←
            match targetConnection PC with
            | Some t => disconnect pc;; ret (Some t)
            | None => ret None
            end;
          nextBlock ← getNextBlock this;
          match nextBlock with
          | Some _ =>
              if opt_healStack then
                (* Disconnect the next statement. *)
                match nextConnection B with
                | None => TypeError
                | Some nc =>
                    NC ← getConnection nc;
                    match targetConnection NC with
                    | None => TypeError
                    | Some nextTarget =>
                        disconnect nextTarget;;
                        match previousTarget with
                        | Some previousTarget =>
                            ok ← checkType_ previousTarget nextTarget;
                            (* Attach the next statement to the previous
                               statement. *)
                            if ok : bool
                            then connect fuel previousTarget nextTarget
                            else ret tt
                        | None => ret tt
                        end
                    end
                end
              else ret tt
          | None => ret tt
          end
      | None => ret tt
      end
  end.

(** [Blockly.Block.prototype.getConnections_] *)
Definition getConnections_ (this : nat) : M (list nat) :=
  B ← getBlock this;
  ret (option_list (outputConnection B)
       ++ option_list (previousConnection B)
       ++ option_list (nextConnection B)
       ++ omap connection (inputList B)).

(** The loop over [Object.keys(this.typedValue)] in [dispose]: it stops at
    the first falsy (empty) key. *)
Fixpoint dispose_values (this : nat) (l : list (string * nat)) : M unit :=
  match l with
  | [] => ret tt
  | (name_, v) :: l' =>
      if bool_decide (name_ = "") then ret tt
      else Value_dispose this v;; dispose_values this l'
  end.

(** The loop over the remaining connections in [dispose]. *)
Fixpoint dispose_connections (l : list nat) : M unit :=
  match l with
  | [] => ret tt
  | c :: l' =>
      connected ← isConnected c;
      (if connected : bool then disconnect c else ret tt);;
      Connection_dispose c;;
      dispose_connections l'
  end.

(** The loop over the inputs in [dispose]. *)
Fixpoint dispose_inputs (this : nat) (l : list Input) : M unit :=
  match l with
  | [] => ret tt
  | input :: l' => Input_dispose this input;; dispose_inputs this l'
  end.

(** The loop over the children in [dispose], from the last index down;
    [i] is one more than the index to visit next, and [childBlocks_] is read
    afresh at every turn, as the children unhook themselves while they go. *)
Fixpoint dispose_children (dispose : nat → bool → M unit) (this : nat) (i : nat)
    : M unit :=
  match i with
  | 0 => ret tt
  | S i =>
      B ← getBlock this;
      match childBlocks_ B !! i with
      | None => TypeError
      | Some child =>
          emit (EvDisposeChild this child);;
          dispose child false;;
          dispose_children dispose this i
      end
  end.

(** The teardown of [dispose], from the delete notification on: what
    [dispose] does once the block is unplugged.  [dispose] is the hook used
    on the children. *)
Definition dispose_teardown (dispose : nat → bool → M unit) (this : nat) : M unit :=
  Events_fire (EvBlockDelete this);;
  Events_disable;;
  try_finally
    (B ← getBlock this;
     (* This block is now at the top of the workspace. *)
     (if workspace B then
        removeTopBlock this;;
        modify (set_blockDB (λ s, s ∖ {[this]}));;
        updBlock this (with_workspace false)
      else ret tt);;
     modify (λ st, if bool_decide (selected st = Some this)
                   then set_selected None st else st);;
     (* First, dispose of all my children. *)
     dispose_children dispose this (length (childBlocks_ B));;
     (* Then dispose of myself. *)
     B ← getBlock this;
     dispose_inputs this (inputList B);;
     updBlock this (with_inputList []);;
     (* Dispose of any remaining connections (next/previous/output). *)
     conns ← getConnections_ this;
     dispose_connections conns;;
     (* Dispose all of values. *)
     B ← getBlock this;
     dispose_values this (typedValue B))
    Events_enable.

(** [Blockly.Block.prototype.dispose].  The change listener
    ([onchangeWrapper_]) belongs to the rendering layer and is left out. *)
Fixpoint dispose (fuel : nat) (this : nat) (healStack : bool) : M unit :=
  match fuel with
  | 0 => out_of_fuel
  | S fuel =>
      B ← getBlock this;
      if negb (workspace B) then
        (* Already deleted. *)
        ret tt
      else
        unplug (S fuel) this healStack;;
        dispose_teardown (dispose fuel) this
  end.

(** ** Reordering inputs *)

(** [Blockly.Block.prototype.moveNumberedInputBefore] *)
Definition moveNumberedInputBefore (this inputIndex refIndex : nat) : M unit :=
  B ← getBlock this;
  assert (negb (bool_decide (inputIndex = refIndex)))
         "Can't move input to itself." ;;
  assert (bool_decide (inputIndex < length (inputList B)))
         "Input index out of bounds." ;;
  assert (bool_decide (refIndex ≤ length (inputList B)))
         "Reference input out of bounds." ;;
  match inputList B !! inputIndex with
  | None => TypeError
  | Some input =>
      let removed := splice inputIndex 1 [] (inputList B) in
      let refIndex := if bool_decide (inputIndex < refIndex)
                      then refIndex - 1 else refIndex in
      updBlock this (with_inputList (splice refIndex 0 [input] removed))
  end.

(** The search loop of [moveInputBefore]: [i] is the index of the head of
    [l]; the two indices are [None] while they are [-1]. *)
Fixpoint moveInputBefore_find (name_ : string) (refName : option string)
    (i : nat) (l : list Input) (inputIndex refIndex : option nat)
    : option nat * option nat :=
  match l with
  | [] => (inputIndex, refIndex)
  | input :: l' =>
      if bool_decide (name input = name_) then
        if bool_decide (refIndex ≠ None) then (Some i, refIndex)
        else moveInputBefore_find name_ refName (S i) l' (Some i) refIndex
      else if truthy refName && bool_decide (refName = Some (name input)) then
        if bool_decide (inputIndex ≠ None) then (inputIndex, Some i)
        else moveInputBefore_find name_ refName (S i) l' inputIndex (Some i)
      else moveInputBefore_find name_ refName (S i) l' inputIndex refIndex
  end.

(** [Blockly.Block.prototype.moveInputBefore]; [refName] is [None] for
    [null], and the empty string is as falsy as [null]. *)
Definition moveInputBefore (this : nat) (name_ : string) (refName : option string)
    : M unit :=
  if bool_decide (refName = Some name_) then ret tt else
  B ← getBlock this;
  let refIndex0 :=
    if truthy refName then None else Some (length (inputList B)) in
  let '(inputIndex, refIndex) :=
    moveInputBefore_find name_ refName 0 (inputList B) None refIndex0 in
  match inputIndex with
  | None => throw "Named input not found."
  | Some inputIndex =>
      match refIndex with
      | None => throw "Reference input not found."
      | Some refIndex => moveNumberedInputBefore this inputIndex refIndex
      end
  end.

(** ** Inputs, fields and bound variables of a block *)

(** [Blockly.Block.prototype.getInput] *)
Definition getInput (this : nat) (name_ : string) : M (option Input) :=
  B ← getBlock this;
  ret (List.find (λ input, bool_decide (name input = name_)) (inputList B)).

(** [Blockly.Block.prototype.getField] *)
Definition getField (this : nat) (name_ : string) : M (option Field) :=
  B ← getBlock this;
  ret (List.find (λ field, bool_decide (field_name field = Some name_))
                 (mjoin (fieldRow <$> inputList B))).

(** The list that the two loops of [getBoundVariables] build. *)
Definition boundVariables_of (B : Block) : list nat :=
  omap (λ field,
          if bool_decide (referencesVariables field = FIELD_VARIABLE_BINDING)
          then getVariable field else None)
       (mjoin (fieldRow <$> inputList B)).

(** [Blockly.Block.prototype.getBoundVariables] *)
Definition getBoundVariables (this : nat) : M (list nat) :=
  B ← getBlock this;
  ret (boundVariables_of B).

(** [this.typedValue[key]] *)
Fixpoint typedValue_lookup (key : string) (l : list (string * nat)) : option nat :=
  match l with
  | [] => None
  | (k, v) :: l' => if bool_decide (k = key) then Some v else typedValue_lookup key l'
  end.

(** ** Plain objects used as maps *)

(** block.js keeps the variables in scope in plain objects ([{}]).  Such an
    object is not a bare map: it inherits the members of [Object.prototype],
    and an assignment under the name ["__proto__"] creates no property but
    replaces the prototype of the object. *)

(** The members of [Object.prototype].  Each of them is an object (a
    function, or the prototype itself under ["__proto__"]), hence truthy. *)
Definition Object_prototype : list string :=
  ["constructor"; "hasOwnProperty"; "isPrototypeOf"; "propertyIsEnumerable";
   "toLocaleString"; "toString"; "valueOf"; "__defineGetter__";
   "__defineSetter__"; "__lookupGetter__"; "__lookupSetter__"; "__proto__"].

(** An object that starts as [{}] and is assigned to by name: its own
    properties, and the value that has replaced its prototype, if any
    ([None]: the prototype is still [Object.prototype]). *)
Record JSObject (V : Type) := mkObject {
  own : gmap string V;
  prototype : option V
}.
Arguments mkObject {V} _ _.
Arguments own {V} _.
Arguments prototype {V} _.

(** [{}] *)
Definition empty_object {V} : JSObject V := mkObject ∅ None.

(** [o[name] = v]: the setter that [Object.prototype] defines for
    ["__proto__"] takes the value as the new prototype; any other name
    becomes an own property. *)
Definition assign {V} (name : string) (v : V) (o : JSObject V) : JSObject V :=
  if bool_decide (name = "__proto__") then mkObject (own o) (Some v)
  else mkObject (<[name := v]> (own o)) (prototype o).

(** [Object.assign(target, source)], on the own properties of both: the own
    properties of the source are copied over those of the target.  The
    prototype of the target stays, that of the source is not looked at. *)
Definition Object_assign {V} (target source : gmap string V) : gmap string V :=
  source ∪ target.

(** What [env[name]] yields on an environment of the scope resolver.  The
    environments are objects that start as [{}] and are filled by
    [Object.assign] only, so they are given by their own properties, which
    are Values, and have [Object.prototype] behind them. *)
Inductive JSValue :=
| JS_Value (value : nat)
| JS_builtin (name : string)
| JS_undefined.

Global Instance JSValue_eq_dec : EqDecision JSValue.
Proof. solve_decision. Defined.

Definition JS_get (env : gmap string nat) (name : string) : JSValue :=
  match env !! name with
  | Some value => JS_Value value
  | None =>
      if bool_decide (name ∈ Object_prototype) then JS_builtin name
      else JS_undefined
  end.

(** ** Scope resolution *)

(** [Blockly.Blocks['lambda_typed'].getVisibleVariables] *)
Definition lambda_typed_getVisibleVariables (this : nat) (conn : option nat)
    : M (JSObject nat) :=
  returnInput ← getInput this "RETURN";
  let map := empty_object in
  match returnInput with
  | None => TypeError
  | Some returnInput =>
      if bool_decide (connection returnInput = conn) then
        B ← getBlock this;
        match typedValue_lookup "VAR" (typedValue B) with
        | None => TypeError
        | Some variable =>
            V ← getBoundVariable variable;
            ret (assign (getVariableName V) variable map)
        end
      else ret map
  end.

(** [Blockly.Blocks['let_typed'].getVisibleVariables] *)
Definition let_typed_getVisibleVariables (this : nat) (conn : option nat)
    : M (JSObject nat) :=
  exp2 ← getInput this "EXP2";
  let map := empty_object in
  match exp2 with
  | None => TypeError
  | Some exp2 =>
      if bool_decide (connection exp2 = conn) then
        B ← getBlock this;
        match typedValue_lookup "VAR" (typedValue B) with
        | None => TypeError
        | Some variable =>
            V ← getBoundVariable variable;
            ret (assign (getVariableName V) variable map)
        end
      else ret map
  end.

(** The [getVisibleVariables] hook of a block, if its prototype has one. *)
Definition getVisibleVariables (t : BlockType)
    : option (nat → option nat → M (JSObject nat)) :=
  match t with
  | lambda_typed => Some lambda_typed_getVisibleVariables
  | let_typed => Some let_typed_getVisibleVariables
  | _ => None
  end.

(** [Blockly.Block.prototype.allVisibleVariables]; [opt_bubble] is [true]
    unless the caller passes [false]. *)
Fixpoint allVisibleVariables (fuel : nat) (this : nat) (conn : option nat)
    (opt_bubble : bool) : M (gmap string nat) :=
  match fuel with
  | 0 => out_of_fuel
  | S fuel =>
      match conn with
      | None => TypeError
      | Some c =>
          source ← getSourceBlock c;
          if bool_decide (source = this) then
            B ← getBlock this;
            env ← match parentBlock_ B with
                  | Some parent =>
                      if opt_bubble then
                        match outputConnection B with
                        | None => TypeError
                        | Some oc =>
                            OC ← getConnection oc;
                            allVisibleVariables fuel parent (targetConnection OC) true
                        end
                      else ret ∅
                  | None => ret ∅
                  end;
            match getVisibleVariables (type B) with
            | Some hook =>
                scopeVariables ← hook this conn;
                ret (Object_assign env (own scopeVariables))
            | None => ret env
            end
          else ret ∅
      end
  end.

(** The inner loop of [resolveReference]: the queue entries of the children
    of [block]. *)
Fixpoint resolveReference_children (block : nat) (envOfParent : gmap string nat)
    (children : list nat) : M (list (nat * gmap string nat)) :=
  match children with
  | [] => ret []
  | child :: rest =>
      CB ← getBlock child;
      targetConn ← match outputConnection CB with
                   | Some outputConn =>
                       OC ← getConnection outputConn; ret (targetConnection OC)
                   | None => ret None
                   end;
      additionalEnv ← allVisibleVariables 1 block targetConn false;
      let envOfChild := Object_assign ∅ envOfParent in
      let envOfChild := Object_assign envOfChild additionalEnv in
      pairs ← resolveReference_children block envOfParent rest;
      ret ((child, envOfChild) :: pairs)
  end.

(** The environment [resolveReference] starts from: what is visible at
    [parentConnection], or nothing when the block is not being connected. *)
Definition resolveReference_env (fuel : nat) (parentConnection : option nat)
    : M (gmap string nat) :=
  match parentConnection with
  | Some pc =>
      parentBlock ← getSourceBlock pc;
      allVisibleVariables fuel parentBlock parentConnection true
  | None => ret ∅
  end.

Section resolve.

(** The bound-variable classes are missing: what [setBoundValue] does with
    a Reference when the value it is handed is no Value but the member of
    [Object.prototype] of the given name is left open. *)
Variable setBoundValue_builtin : nat → string → M unit.

(** The loop of [resolveReferenceWithEnv_] over the bound variables. *)
Fixpoint resolveReferenceWithEnv_loop (env : gmap string nat) (opt_bind : bool)
    (variableList : list nat) (allBound : bool) : M bool :=
  match variableList with
  | [] => ret (if opt_bind then allBound else true)
  | variable :: rest =>
      V ← getBoundVariable variable;
      let value := JS_get env (getVariableName V) in
      if isReference V then
        if opt_bind then
          (* Initialize the current bound value. *)
          removeBoundValue variable;;
          match value with
          | JS_Value value =>
              setBoundValue variable value;;
              resolveReferenceWithEnv_loop env opt_bind rest allBound
          | JS_builtin name =>
              setBoundValue_builtin variable name;;
              resolveReferenceWithEnv_loop env opt_bind rest allBound
          | JS_undefined =>
              (* This reference could not be resolved. Return false later. *)
              resolveReferenceWithEnv_loop env opt_bind rest false
          end
        else
          match value with
          | JS_undefined => ret false
          | JS_Value _ | JS_builtin _ =>
              resolveReferenceWithEnv_loop env opt_bind rest allBound
          end
      else resolveReferenceWithEnv_loop env opt_bind rest allBound
  end.

(** [Blockly.Block.prototype.resolveReferenceWithEnv_] *)
Definition resolveReferenceWithEnv_ (this : nat) (env : gmap string nat)
    (opt_bind : bool) : M bool :=
  variableList ← getBoundVariables this;
  resolveReferenceWithEnv_loop env opt_bind variableList true.

(** The [while (bfsStack.length)] loop of [resolveReference]. *)
Fixpoint resolveReference_loop (fuel : nat) (bfsStack : list (nat * gmap string nat))
    (allSuccess : bool) (opt_bind : bool) : M bool :=
  match fuel with
  | 0 => out_of_fuel
  | S fuel =>
      match bfsStack with
      | [] => ret allSuccess
      | (block, envOfParent) :: bfsStack =>
          emit (EvResolve block);;
          success ← resolveReferenceWithEnv_ block envOfParent opt_bind;
          let allSuccess := allSuccess && success in
          if negb success && negb opt_bind then
            (* Some of references can not be resolved. If no need to bind
               other references, just quit. *)
            ret false
          else
            B ← getBlock block;
            pairs ← resolveReference_children block envOfParent (childBlocks_ B);
            resolveReference_loop fuel (bfsStack ++ pairs) allSuccess opt_bind
      end
  end.

(** [Blockly.Block.prototype.resolveReference]; an absent [opt_bind] is
    [false]. *)
Definition resolveReference (fuel : nat) (this : nat) (parentConnection : option nat)
    (opt_bind : bool) : M bool :=
  env ← resolveReference_env fuel parentConnection;
  resolveReference_loop fuel [(this, env)] true opt_bind.

End resolve.
(** ** Type inference hooks of the typed blocks *)

(** [this.getInput(name).connection.typeExpr] *)
Definition input_typeExpr (this : nat) (name_ : string) : M (option TypeExpr) :=
  input ← getInput this name_;
  match input with
  | None => TypeError
  | Some input =>
      match connection input with
      | None => TypeError
      | Some c => C ← getConnection c; ret (typeExpr C)
      end
  end.

(** [this.outputConnection.typeExpr] *)
Definition output_typeExpr (this : nat) : M (option TypeExpr) :=
  B ← getBlock this;
  match outputConnection B with
  | None => TypeError
  | Some c => C ← getConnection c; ret (typeExpr C)
  end.

(** Property reads on a type expression; a missing property is
    [undefined]. *)
Definition element_type_of (t : TypeExpr) : option TypeExpr :=
  match t with LIST e => Some e | _ => None end.
Definition first_type_of (t : TypeExpr) : option TypeExpr :=
  match t with PAIR a _ => Some a | _ => None end.
Definition second_type_of (t : TypeExpr) : option TypeExpr :=
  match t with PAIR _ b => Some b | _ => None end.
Definition arg_type_of (t : TypeExpr) : option TypeExpr :=
  match t with FUN a _ => Some a | _ => None end.
Definition return_type_of (t : TypeExpr) : option TypeExpr :=
  match t with FUN _ r => Some r | _ => None end.

(** [e.prop] where [e] may be [null]. *)
Definition prop (f : TypeExpr → option TypeExpr) (e : option TypeExpr)
    : M (option TypeExpr) :=
  match e with
  | Some t => ret (f t)
  | None => TypeError
  end.

(** Which prototypes define [clearTypes] and [infer] (always both). *)
Definition has_infer (t : BlockType) : bool :=
  match t with
  | logic_compare_typed | logic_ternary_typed | int_arithmetic_typed
  | float_arithmetic_typed | lists_create_with_typed | pair_create_typed
  | pair_first_typed | pair_second_typed | lambda_typed | lambda_app_typed
  | match_typed | variables_get_typed | let_typed => true
  | logic_boolean_typed | int_typed | float_typed | untyped_block _ => false
  end.

(** [Blockly.Block.prototype.callClearTypes_]; [clearTypes] is the hook of
    the child. *)
Definition callClearTypes_ (clearTypes : nat → M unit) (this : nat)
    (name_ : string) : M unit :=
  input ← getInput this name_;
  match input with
  | None => throw "Invalid input name"
  | Some input =>
      match connection input with
      | None => TypeError
      | Some c =>
          childBlock ← targetBlock c;
          match childBlock with
          | Some child =>
              CB ← getBlock child;
              if has_infer (type CB) then clearTypes child else ret tt
          | None => ret tt
          end
      end
  end.

(** ['ADD' + x] *)
Definition ADD (x : nat) : string := "ADD" +:+ pretty x.

(** The [clearTypes] hooks, by prototype. *)
Fixpoint clearTypes (fuel : nat) (this : nat) : M unit :=
  match fuel with
  | 0 => out_of_fuel
  | S fuel =>
      emit (EvClearTypes this);;
      B ← getBlock this;
      let callClearTypes_ := callClearTypes_ (clearTypes fuel) this in
      match type B with
      | logic_compare_typed =>
          (e ← input_typeExpr this "A"; clear_opt e);;
          callClearTypes_ "A";;
          callClearTypes_ "B"
      | logic_ternary_typed =>
          (e ← output_typeExpr this; clear_opt e);;
          callClearTypes_ "IF";;
          callClearTypes_ "THEN";;
          callClearTypes_ "ELSE"
      | int_arithmetic_typed | float_arithmetic_typed =>
          callClearTypes_ "A";;
          callClearTypes_ "B"
      | lists_create_with_typed =>
          (e ← output_typeExpr this; t ← prop element_type_of e; clear_opt t);;
          foldr (λ x k, callClearTypes_ (ADD x);; k) (ret tt) (seq 0 (itemCount_ B))
      | pair_create_typed =>
          (e ← output_typeExpr this; t ← prop first_type_of e; clear_opt t);;
          (e ← output_typeExpr this; t ← prop second_type_of e; clear_opt t);;
          callClearTypes_ "FIRST";;
          callClearTypes_ "SECOND"
      | pair_first_typed =>
          (e ← output_typeExpr this; clear_opt e);;
          callClearTypes_ "FIRST"
      | pair_second_typed =>
          (e ← output_typeExpr this; clear_opt e);;
          callClearTypes_ "SECOND"
      | lambda_typed =>
          (e ← output_typeExpr this; t ← prop arg_type_of e; clear_opt t);;
          (e ← output_typeExpr this; t ← prop return_type_of e; clear_opt t);;
          callClearTypes_ "RETURN"
      | lambda_app_typed =>
          (e ← input_typeExpr this "FUN"; t ← prop arg_type_of e; clear_opt t);;
          (e ← input_typeExpr this "FUN"; t ← prop return_type_of e; clear_opt t);;
          callClearTypes_ "FUN";;
          callClearTypes_ "ARG"
      | match_typed =>
          (e ← output_typeExpr this; clear_opt e);;
          (e ← input_typeExpr this "INPUT"; clear_opt e);;
          callClearTypes_ "INPUT";;
          callClearTypes_ "PATTERN1";;
          callClearTypes_ "PATTERN2";;
          callClearTypes_ "OUTPUT1";;
          callClearTypes_ "OUTPUT2"
      | variables_get_typed =>
          e ← output_typeExpr this; clear_opt e
      | let_typed =>
          (e ← input_typeExpr this "EXP1"; clear_opt e);;
          (e ← input_typeExpr this "EXP2"; clear_opt e);;
          callClearTypes_ "EXP1";;
          callClearTypes_ "EXP2"
      | logic_boolean_typed | int_typed | float_typed | untyped_block _ =>
          TypeError
      end
  end.

(** The environment of [infer]: a plain object from variable names to what
    the binder's socket holds, a type expression or none ([null] or
    [undefined]).  Its prototype may have been replaced, by a type expression
    or by [null] ([Some None]). *)
Definition TypeEnv : Type := JSObject (option TypeExpr).

(** [env2[name] = undefined]: an own property without a value; the setter
    of ["__proto__"] ignores [undefined]. *)
Definition assign_undefined (name : string) (env : TypeEnv) : TypeEnv :=
  if bool_decide (name = "__proto__") then env
  else mkObject (<[name := None]> (own env)) (prototype env).

(** What [name in env] and [env[name]] find: an own property, or the type
    expression that replaced the prototype under ["__proto__"]; a member
    inherited from [Object.prototype]; a name that has to be looked up in the
    type expression that replaced the prototype; or nothing.  An object
    whose prototype is [null] inherits nothing. *)
Inductive TypeLookup :=
| Found (v : option TypeExpr)
| Inherited
| Through (t : TypeExpr) (name : string)
| Absent.

Definition lookup_type (env : TypeEnv) (name : string) : TypeLookup :=
  match own env !! name with
  | Some v => Found v
  | None =>
      match prototype env with
      | None =>
          if bool_decide (name ∈ Object_prototype) then Inherited else Absent
      | Some None => Absent
      | Some (Some t) =>
          if bool_decide (name = "__proto__") then Found (Some t)
          else Through t name
      end
  end.

(** [Blockly.Block.prototype.callInfer_]; [infer] is the hook of the
    child. *)
Definition callInfer_ (infer : nat → TypeEnv → M (option TypeExpr))
    (this : nat) (name_ : string) (env : TypeEnv) : M (option TypeExpr) :=
  input ← getInput this name_;
  match input with
  | None => throw "Invalid input name"
  | Some input =>
      match connection input with
      | None => TypeError
      | Some c =>
          childBlock ← targetBlock c;
          match childBlock with
          | None => ret None
          | Some child =>
              CB ← getBlock child;
              if has_infer (type CB) then infer child env
              else output_typeExpr child
          end
      end
  end.

(** [if (t) t.unify(expected)] *)
Definition unify_if (fuel : nat) (t expected : option TypeExpr) : M unit :=
  match t with
  | Some t => unify_with fuel t expected
  | None => ret tt
  end.

(** [this.getField('VAR').getText()] *)
Definition VAR_text (this : nat) : M string :=
  field ← getField this "VAR";
  match field with
  | Some field => ret (getText field)
  | None => TypeError
  end.

Section inference.

(** The type-expression classes are missing: what
    [if (name in env) env[name].unify(expected)] does when [name] is looked
    up in the type expression [t] that has replaced the prototype of [env]
    is left open. *)
Variable unify_through : TypeExpr → string → option TypeExpr → M unit.

(** The [infer] hooks, by prototype. *)
Fixpoint infer (fuel : nat) (this : nat) (env : TypeEnv) : M (option TypeExpr) :=
  match fuel with
  | 0 => out_of_fuel
  | S fuel =>
      B ← getBlock this;
      let callInfer_ := callInfer_ (infer fuel) this in
      let unify_if := unify_if (S fuel) in
      match type B with
      | logic_compare_typed =>
          expected_left ← input_typeExpr this "A";
          left ← callInfer_ "A" env;
          right ← callInfer_ "B" env;
          unify_if left expected_left;;
          unify_if right expected_left;;
          ret (Some BOOL)
      | logic_ternary_typed =>
          let cond_expected := Some BOOL in
          cond_type ← callInfer_ "IF" env;
          unify_if cond_type cond_expected;;
          expected ← output_typeExpr this;
          then_type ← callInfer_ "THEN" env;
          else_type ← callInfer_ "ELSE" env;
          unify_if then_type expected;;
          unify_if else_type expected;;
          ret expected
      | int_arithmetic_typed =>
          let expected_left := Some INT in
          left ← callInfer_ "A" env;
          right ← callInfer_ "B" env;
          unify_if left expected_left;;
          unify_if right expected_left;;
          ret expected_left
      | float_arithmetic_typed =>
          let expected_left := Some FLOAT in
          left ← callInfer_ "A" env;
          right ← callInfer_ "B" env;
          unify_if left expected_left;;
          unify_if right expected_left;;
          ret expected_left
      | lists_create_with_typed =>
          expected ← output_typeExpr this;
          foldr (λ x k,
                   t ← callInfer_ (ADD x) env;
                   match t with
                   | Some t => (e ← prop element_type_of expected; unify_with (S fuel) t e)
                   | None => ret tt
                   end;;
                   k)
                (ret tt) (seq 0 (itemCount_ B));;
          ret expected
      | pair_create_typed =>
          expected ← output_typeExpr this;
          first ← callInfer_ "FIRST" env;
          second ← callInfer_ "SECOND" env;
          match first with
          | Some first => (e ← prop first_type_of expected; unify_with (S fuel) first e)
          | None => ret tt
          end;;
          match second with
          | Some second => (e ← prop second_type_of expected; unify_with (S fuel) second e)
          | None => ret tt
          end;;
          ret expected
      | pair_first_typed =>
          expected ← output_typeExpr this;
          expected_arg ← input_typeExpr this "FIRST";
          arg ← callInfer_ "FIRST" env;
          match arg with
          | Some arg =>
              match first_type_of arg with
              | Some a => (e ← prop first_type_of expected_arg; unify_with (S fuel) a e)
              | None => TypeError
              end;;
              match second_type_of arg with
              | Some a => (e ← prop second_type_of expected_arg; unify_with (S fuel) a e)
              | None => TypeError
              end
          | None => ret tt
          end;;
          ret expected
      | pair_second_typed =>
          expected ← output_typeExpr this;
          expected_arg ← input_typeExpr this "SECOND";
          arg ← callInfer_ "SECOND" env;
          match arg with
          | Some arg =>
              match first_type_of arg with
              | Some a => (e ← prop first_type_of expected_arg; unify_with (S fuel) a e)
              | None => TypeError
              end;;
              match second_type_of arg with
              | Some a => (e ← prop second_type_of expected_arg; unify_with (S fuel) a e)
              | None => TypeError
              end
          | None => ret tt
          end;;
          ret expected
      | lambda_typed =>
          var_name ← VAR_text this;
          expected ← output_typeExpr this;
          let env2 := mkObject (Object_assign ∅ (own env)) None in
          arg ← prop arg_type_of expected;
          let env2 := match arg with
                      | Some _ => assign var_name arg env2
                      | None => assign_undefined var_name env2
                      end in
          return_type ← callInfer_ "RETURN" env2;
          match return_type with
          | Some return_type =>
              (e ← prop return_type_of expected; unify_with (S fuel) return_type e)
          | None => ret tt
          end;;
          ret expected
      | lambda_app_typed =>
          expected ← output_typeExpr this;
          fun_expected ← input_typeExpr this "FUN";
          fun_type ← callInfer_ "FUN" env;
          arg_type ← callInfer_ "ARG" env;
          unify_if fun_type fun_expected;;
          match arg_type with
          | Some arg_type =>
              (e ← prop arg_type_of fun_expected; unify_with (S fuel) arg_type e)
          | None => ret tt
          end;;
          ret expected
      | match_typed =>
          expected ← output_typeExpr this;
          input_expected ← input_typeExpr this "INPUT";
          input_type ← callInfer_ "INPUT" env;
          pattern1_type ← callInfer_ "PATTERN1" env;
          pattern2_type ← callInfer_ "PATTERN2" env;
          output1_type ← callInfer_ "OUTPUT1" env;
          output2_type ← callInfer_ "OUTPUT2" env;
          unify_if input_type input_expected;;
          unify_if pattern1_type input_expected;;
          unify_if pattern2_type input_expected;;
          unify_if output1_type expected;;
          unify_if output2_type expected;;
          ret expected
      | variables_get_typed =>
          var_name ← VAR_text this;
          expected ← output_typeExpr this;
          match lookup_type env var_name with
          | Found (Some t) => unify_with (S fuel) t expected
          | Found None | Inherited => TypeError
          | Through t name => unify_through t name expected
          | Absent => ret tt
          end;;
          ret expected
      | let_typed =>
          var_name ← VAR_text this;
          expected_exp1 ← input_typeExpr this "EXP1";
          expected_exp2 ← input_typeExpr this "EXP2";
          exp1 ← callInfer_ "EXP1" env;
          let env2 := mkObject (Object_assign ∅ (own env)) None in
          let env2 := assign var_name expected_exp1 env2 in
          exp2 ← callInfer_ "EXP2" env2;
          unify_if exp1 expected_exp1;;
          unify_if exp2 expected_exp2;;
          ret expected_exp2
      | logic_boolean_typed | int_typed | float_typed | untyped_block _ =>
          TypeError
      end
  end.


End inference.

(** ** Example stores *)

(** A statement block of some untyped prototype. *)
Definition statement_block (prev next : option nat) (parent : option nat)
    (children : list nat) : Block :=
  mkBlock (untyped_block "statement") true None next prev [] [] parent children 0.

Definition free_connection (b : nat) (t : ConnectionType) : Connection :=
  mkConnection b t None None None true.

Definition linked_connection (b : nat) (t : ConnectionType) (target : nat)
    : Connection :=
  mkConnection b t (Some target) None None false.

(** A stack of three statement blocks 1 - 2 - 3: connection [10] is the
    next connection of block 1, [11] and [12] the previous and next
    connections of block 2, [13] and [14] those of block 3. *)
Definition stack3 : State :=
  mkState
    (list_to_map
       [(1, statement_block None (Some 10) None [2]);
        (2, statement_block (Some 11) (Some 12) (Some 1) [3]);
        (3, statement_block (Some 13) (Some 14) (Some 2) [])])
    (list_to_map
       [(10, linked_connection 1 NEXT_STATEMENT 11);
        (11, linked_connection 2 PREVIOUS_STATEMENT 10);
        (12, linked_connection 2 NEXT_STATEMENT 13);
        (13, linked_connection 3 PREVIOUS_STATEMENT 12);
        (14, free_connection 3 NEXT_STATEMENT)])
    ∅ ∅ {[1]} {[1; 2; 3]} 0 None.

(** The same two outer blocks caught in the middle of a [connect]: the
    connections [10] and [13] already point at each other, block 3 has no
    parent yet and is still a top-level block. *)
Definition mid_connect : State :=
  mkState
    (list_to_map
       [(1, statement_block None (Some 10) None []);
        (3, statement_block (Some 13) (Some 14) None [])])
    (list_to_map
       [(10, linked_connection 1 NEXT_STATEMENT 13);
        (13, linked_connection 3 PREVIOUS_STATEMENT 10);
        (14, free_connection 3 NEXT_STATEMENT)])
    ∅ ∅ {[1; 3]} {[1; 3]} 0 None.

(** A store holding one block that has been disposed. *)
Definition disposed_store : State :=
  mkState
    (list_to_map
       [(5, mkBlock (untyped_block "statement") false None None None [] [] None [] 0)])
    ∅ ∅ ∅ ∅ ∅ 0 None.

Definition label (text : string) : Field :=
  mkField None FIELD_VARIABLE_NONE None text.

Definition bound_variable_field (variable : nat) (text : string) : Field :=
  mkField (Some "VAR") FIELD_VARIABLE_BINDING (Some variable) text.

Definition typed_connection (b : nat) (t : ConnectionType) (target : option nat)
    (check : option (list string)) (e : TypeExpr) : Connection :=
  mkConnection b t target check (Some e) (bool_decide (target = None)).

(** [let x = 3 in x] as [let_typed.init], [int_typed.init] and
    [variables_get_typed.init] build it: block 20 is the [let] (type
    variables A = 0 and B = 1, Value 50), block 21 the literal, block 22 the
    getter (type variable 2, Reference 51). *)
Definition let_x_3_in_x (bound : option nat) (cells : gmap nat TypeExpr) : State :=
  mkState
    (list_to_map
       [(20, mkBlock let_typed true (Some 200) None None
               [mkInput "VARIABLE" [label "let"; bound_variable_field 50 "x"] None;
                mkInput "EXP1" [label "="] (Some 201);
                mkInput "EXP2" [label "in"] (Some 202)]
               [("VAR", 50)] None [21; 22] 0);
        (21, mkBlock int_typed true (Some 210) None None
               [mkInput "" [mkField (Some "INT") FIELD_VARIABLE_NONE None "3"] None]
               [] (Some 20) [] 0);
        (22, mkBlock variables_get_typed true (Some 220) None None
               [mkInput "" [bound_variable_field 51 "x"] None]
               [] (Some 20) [] 0)])
    (list_to_map
       [(200, typed_connection 20 OUTPUT_VALUE None None (TVAR 1));
        (201, typed_connection 20 INPUT_VALUE (Some 210) None (TVAR 0));
        (202, typed_connection 20 INPUT_VALUE (Some 220) None (TVAR 1));
        (210, typed_connection 21 OUTPUT_VALUE (Some 201) (Some ["Int"]) INT);
        (220, typed_connection 22 OUTPUT_VALUE (Some 202) None (TVAR 2))])
    (list_to_map
       [(50, mkBoundVariable false "x" None (TVAR 0) false);
        (51, mkBoundVariable true "x" bound (TVAR 2) false)])
    cells {[20]} {[20; 21; 22]} 0 None.

(** [λ x -> x] for a parameter named [x]: block 30 is the [lambda_typed]
    (type variables A = 0 and B = 1, Value 60), block 31 the getter (type
    variable 2, Reference 61). *)
Definition lambda_x_x (x : string) : State :=
  mkState
    (list_to_map
       [(30, mkBlock lambda_typed true (Some 300) None None
               [mkInput "" [label "λ"; bound_variable_field 60 x] None;
                mkInput "RETURN" [label "->"] (Some 301)]
               [("VAR", 60)] None [31] 0);
        (31, mkBlock variables_get_typed true (Some 310) None None
               [mkInput "" [bound_variable_field 61 x] None]
               [] (Some 30) [] 0)])
    (list_to_map
       [(300, typed_connection 30 OUTPUT_VALUE None None (FUN (TVAR 0) (TVAR 1)));
        (301, typed_connection 30 INPUT_VALUE (Some 310) None (TVAR 1));
        (310, typed_connection 31 OUTPUT_VALUE (Some 301) None (TVAR 2))])
    (list_to_map
       [(60, mkBoundVariable false x None (TVAR 0) false);
        (61, mkBoundVariable true x None (TVAR 2) false)])
    ∅ {[30]} {[30; 31]} 0 None.

(** A variable getter on its own, for a variable named [x] that nothing
    declares: block 70 (type variable 0, Reference 71). *)
Definition lone_getter (x : string) : State :=
  mkState
    {[70 := mkBlock variables_get_typed true (Some 700) None None
              [mkInput "" [bound_variable_field 71 x] None] [] None [] 0]}
    {[700 := typed_connection 70 OUTPUT_VALUE None None (TVAR 0)]}
    {[71 := mkBoundVariable true x None (TVAR 0) false]}
    ∅ {[70]} {[70]} 0 None.

(** ** Auxiliary predicates *)

(** [c && c.isConnected()] for a connection slot of a block. *)
Definition slot_connected (st : State) (slot : option nat) : bool :=
  match slot with
  | Some c =>
      match connections st !! c with
      | Some C => bool_decide (targetConnection C ≠ None)
      | None => false
      end
  | None => false
  end.

(** The type expression on the socket of an input, if it has one. *)
Definition socket_of (st : State) (input : Input) : option TypeExpr :=
  c ← connection input; C ← connections st !! c; typeExpr C.

(** The type expression on the output socket of a block. *)
Definition output_socket (st : State) (B : Block) : option TypeExpr :=
  c ← outputConnection B; C ← connections st !! c; typeExpr C.

(** The typed input sockets of a block, in order, by input name. *)
Definition input_sockets (st : State) (B : Block) : list (string * TypeExpr) :=
  omap (λ input, e ← socket_of st input; Some (name input, e)) (inputList B).

(** The type expressions of the block's own sockets: its output connection
    and its input connections. *)
Definition socket_typeExprs (st : State) (B : Block) : list TypeExpr :=
  option_list (output_socket st B) ++ (input_sockets st B).*2.

(** The names of the inputs that carry no typed socket (dummy inputs). *)
Definition plain_input_names (st : State) (B : Block) : list string :=
  name <$> filter (λ input, socket_of st input = None) (inputList B).

(** The sockets each [init] in block.js declares: the type expression put on
    the output connection ([setOutputTypeExpr]) and the one put on each value
    input ([setTypeExpr]), with the type variables that [init] shares between
    them.  The number is the block's [itemCount_]. *)
Inductive declared : BlockType → nat → TypeExpr → list (string * TypeExpr) → Prop :=
| declared_logic_compare n a :
    declared logic_compare_typed n BOOL [("A", TVAR a); ("B", TVAR a)]
| declared_logic_ternary n a :
    declared logic_ternary_typed n (TVAR a)
      [("IF", BOOL); ("THEN", TVAR a); ("ELSE", TVAR a)]
| declared_int_arithmetic n :
    declared int_arithmetic_typed n INT [("A", INT); ("B", INT)]
| declared_float_arithmetic n :
    declared float_arithmetic_typed n FLOAT [("A", FLOAT); ("B", FLOAT)]
| declared_lists_create_with n e :
    declared lists_create_with_typed n (LIST (TVAR e))
      ((λ x, (ADD x, TVAR e)) <$> seq 0 n)
| declared_pair_create n a b :
    declared pair_create_typed n (PAIR (TVAR a) (TVAR b))
      [("FIRST", TVAR a); ("SECOND", TVAR b)]
| declared_pair_first n a b :
    declared pair_first_typed n (TVAR a) [("FIRST", PAIR (TVAR a) (TVAR b))]
| declared_pair_second n a b :
    declared pair_second_typed n (TVAR b) [("SECOND", PAIR (TVAR a) (TVAR b))]
| declared_lambda n a b :
    declared lambda_typed n (FUN (TVAR a) (TVAR b)) [("RETURN", TVAR b)]
| declared_lambda_app n a b :
    declared lambda_app_typed n (TVAR b)
      [("FUN", FUN (TVAR a) (TVAR b)); ("ARG", TVAR a)]
| declared_match n a b :
    declared match_typed n (TVAR b)
      [("INPUT", TVAR a); ("PATTERN1", TVAR a); ("OUTPUT1", TVAR b);
       ("PATTERN2", TVAR a); ("OUTPUT2", TVAR b)]
| declared_variables_get n a :
    declared variables_get_typed n (TVAR a) []
| declared_let n a b :
    declared let_typed n (TVAR b) [("EXP1", TVAR a); ("EXP2", TVAR b)].

(** A block whose sockets are as its [init] declared them; no dummy input
    shadows the name of a typed input. *)
Definition as_declared (st : State) (B : Block) : Prop :=
  ∃ out, output_socket st B = Some out ∧
         declared (type B) (itemCount_ B) out (input_sockets st B) ∧
         ∀ n, n ∈ (input_sockets st B).*1 → n ∉ plain_input_names st B.

(** The log of a run that did not exhaust the budget. *)
Definition log_of {A} (o : Outcome A) : option (list Event) :=
  match o with
  | Ok _ _ l | Throw _ _ l => Some l
  | OutOfFuel => None
  end.


(** [1 + _]: block 40 is the [int_arithmetic_typed], block 41 the literal
    in its first input. *)
Definition one_plus_hole : State :=
  mkState
    (list_to_map
       [(40, mkBlock int_arithmetic_typed true (Some 400) None None
               [mkInput "A" [] (Some 401);
                mkInput "B" [mkField (Some "OP_INT") FIELD_VARIABLE_NONE None "+"]
                        (Some 402)]
               [] None [41] 0);
        (41, mkBlock int_typed true (Some 410) None None
               [mkInput "" [mkField (Some "INT") FIELD_VARIABLE_NONE None "1"] None]
               [] (Some 40) [] 0)])
    (list_to_map
       [(400, typed_connection 40 OUTPUT_VALUE None (Some ["Int"]) INT);
        (401, typed_connection 40 INPUT_VALUE (Some 410) (Some ["Int"]) INT);
        (402, typed_connection 40 INPUT_VALUE None (Some ["Int"]) INT);
        (410, typed_connection 41 OUTPUT_VALUE (Some 401) (Some ["Int"]) INT)])
    ∅ ∅ {[40]} {[40; 41]} 0 None.

(** The first entry under a key in an association list. *)
Fixpoint assoc_lookup {V} (key : string) (l : list (string * V)) : option V :=
  match l with
  | [] => None
  | (k, v) :: l' => if bool_decide (k = key) then Some v else assoc_lookup key l'
  end.

(** The effect of [clear] on the store. *)
Definition cleared (t : TypeExpr) (st : State) : State :=
  match t with
  | TVAR x => set_typeCells (delete x) st
  | _ => st
  end.

(** The store after [clear] has been called on each of the type
    expressions, in order. *)
Definition cleared_all (own : list TypeExpr) (st : State) : State :=
  foldl (λ s t, cleared t s) st own.

(** The calls [this.callClearTypes_(name)] for the given input names, in
    order. *)
Definition clear_children (fuel this : nat) (names : list string) : M unit :=
  foldr (λ n k, callClearTypes_ (clearTypes fuel) this n;; k) (ret tt) names.

(** The block plugged into connection [c], if any. *)
Definition plugged_into (st : State) (c : nat) : option nat :=
  C ← connections st !! c;
  tc ← targetConnection C;
  T ← connections st !! tc;
  Some (sourceBlock_ T).



(** A computation that never changes the store and logs nothing. *)
Definition quiet {A} (m : M A) : Prop :=
  ∀ st, match m st with
        | Ok _ st' l | Throw _ st' l => st' = st ∧ l = []
        | OutOfFuel => True
        end.

(** ** Block trees *)

(** The shape of a block with everything beneath it: the block and, in the
    order of its [childBlocks_], the shapes of its children. *)
#[warnings="-register-all"]
Inductive Tree := Node (root : nat) (kids : list Tree).

Definition root (t : Tree) : nat := match t with Node b _ => b end.
Definition kids (t : Tree) : list Tree := match t with Node _ ks => ks end.

Fixpoint tree_size (t : Tree) : nat :=
  match t with
  | Node _ ks => S ((fix go ks := match ks with
                                  | [] => 0
                                  | k :: ks => tree_size k + go ks
                                  end) ks)
  end.

Fixpoint nodes (t : Tree) : list nat :=
  match t with
  | Node b ks => b :: (fix go ks := match ks with
                                    | [] => []
                                    | k :: ks => nodes k ++ go ks
                                    end) ks
  end.









(** What binding does to one bound variable under an environment: a
    Reference takes the Value that the environment holds under its name, or
    none. *)
Definition rebind (env : gmap string nat) (V : BoundVariable) : BoundVariable :=
  if isReference V then with_value (env !! getVariableName V) V else V.

(** The bound variables of a block of the store. *)
Definition variables_of (st : State) (b : nat) : list nat :=
  match blocks st !! b with
  | Some B => boundVariables_of B
  | None => []
  end.

(** Binding at one queue entry, and at a sequence of them in order. *)
Definition rebind_entry (st : State) (vars : gmap nat BoundVariable)
    (entry : nat * gmap string nat) : gmap nat BoundVariable :=
  foldl (λ m v, alter (rebind entry.2) v m) vars (variables_of st entry.1).

Definition rebind_entries (st : State) (entries : list (nat * gmap string nat))
    : gmap nat BoundVariable :=
  foldl (rebind_entry st) (variables st) entries.












(** The tree of [let x = 3 in x]. *)
Definition let_tree : Tree := Node 20 [Node 21 []; Node 22 []].

(** ** Well-formed subtrees of the block graph *)

(** The connection by which a block plugs into its parent: its output
    connection, or else its previous connection. *)
Definition superior (B : Block) : option nat :=
  match outputConnection B with
  | Some oc => Some oc
  | None => previousConnection B
  end.

(** The connections into which children plug: the next connection and the
    input connections. *)
Definition inferiors (B : Block) : list nat :=
  option_list (nextConnection B) ++ omap connection (inputList B).

(** All connections of a block. *)
Definition own_connections (B : Block) : list nat :=
  option_list (superior B) ++ inferiors B.

(** What [dispose] leaves of a block and of each of its connections, and
    what [disconnect] leaves of the connection a child had been plugged
    into. *)
Definition disposed_block (B : Block) : Block :=
  mkBlock (type B) false (outputConnection B) (nextConnection B)
          (previousConnection B) [] (typedValue B) None [] (itemCount_ B).

Definition disposed_connection (C : Connection) : Connection :=
  with_inDB false (with_targetConnection None C).

Definition freed_connection (C : Connection) : Connection :=
  with_inDB true (with_targetConnection None C).

(** A live block of the store whose connections are its own: it has an
    output or a previous connection but not both, its connections are
    distinct objects owned by it, its plug is of a plug kind, and its Values
    exist. *)
Record block_ok (st : State) (b : nat) (B : Block) : Prop := mk_block_ok {
  ok_live : workspace B = true;
  ok_one_plug : outputConnection B = None ∨ previousConnection B = None;
  ok_nodup : NoDup (own_connections B);
  ok_owned : ∀ c, c ∈ own_connections B →
                  ∃ C, connections st !! c = Some C ∧ sourceBlock_ C = b;
  ok_plug : ∀ sc C, superior B = Some sc → connections st !! sc = Some C →
                    is_plug (type_ C) = true;
  ok_values : ∀ n v, (n, v) ∈ typedValue B → is_Some (variables st !! v);
}.

(** Block [c] is a child of [b], plugged by its superior connection into
    connection [tc] of [b]. *)
Definition linked (st : State) (b c tc : nat) : Prop :=
  ∃ C sc SC TC,
    blocks st !! c = Some C ∧ parentBlock_ C = Some b ∧
    superior C = Some sc ∧
    connections st !! sc = Some SC ∧ targetConnection SC = Some tc ∧
    connections st !! tc = Some TC ∧ sourceBlock_ TC = b ∧
    targetConnection TC = Some sc.

(** The connection a child is plugged into. *)
Definition socket_of_child (st : State) (c : nat) : option nat :=
  C ← blocks st !! c; sc ← superior C; SC ← connections st !! sc;
  targetConnection SC.

(** The store holds the tree [t]: every node is a live block with its own
    connections, its [childBlocks_] are the roots of its subtrees in order,
    every child is plugged into a connection of the node, and every
    connection of the node that has a target holds one of the children. *)
#[warnings="-register-all"]
Inductive block_tree (st : State) : Tree → Prop :=
| block_tree_node b ks B :
    blocks st !! b = Some B →
    block_ok st b B →
    childBlocks_ B = root <$> ks →
    Forall (λ k, ∃ tc, tc ∈ inferiors B ∧ linked st b (root k) tc) ks →
    (∀ ic IC, ic ∈ inferiors B → connections st !! ic = Some IC →
              targetConnection IC = None
              ∨ ∃ k, k ∈ ks ∧ socket_of_child st (root k) = Some ic) →
    Forall (block_tree st) ks →
    block_tree st (Node b ks).

(** The root of the tree hangs from nothing: it has no parent and its plug
    is free. *)
Definition detached (st : State) (b : nat) : Prop :=
  ∃ B, blocks st !! b = Some B ∧ parentBlock_ B = None ∧
       ∀ sc SC, superior B = Some sc → connections st !! sc = Some SC →
                targetConnection SC = None.

(** All connections of the blocks of a tree. *)
Definition connections_of (st : State) (b : nat) : list nat :=
  match blocks st !! b with
  | Some B => own_connections B
  | None => []
  end.

Definition tree_connections (st : State) (t : Tree) : list nat :=
  mjoin (connections_of st <$> nodes t).

(** What the teardown of one block logs for its own parts, in order: each
    input with its fields and its connection, then the remaining output,
    previous and next connections, then the Values. *)
Definition input_log (b : nat) (input : Input) : list Event :=
  EvInputDispose b (name input)
  :: ((λ f, EvFieldDispose b (name input) (field_name f)) <$> fieldRow input)
  ++ (EvConnectionDispose <$> option_list (connection input)).

Fixpoint values_log (b : nat) (l : list (string * nat)) : list Event :=
  match l with
  | [] => []
  | (n, v) :: l' => if bool_decide (n = "") then []
                    else EvValueDispose b v :: values_log b l'
  end.

Definition own_log (b : nat) (B : Block) : list Event :=
  mjoin (input_log b <$> inputList B)
  ++ (EvConnectionDispose
        <$> option_list (outputConnection B) ++ option_list (previousConnection B)
            ++ option_list (nextConnection B))
  ++ values_log b (typedValue B).

(** What the teardown of a whole tree logs once its root is unplugged: the
    children from the last to the first, each unplugging itself and being
    torn down in turn, then the root's own parts.  The notifications of the
    children are switched off. *)
Fixpoint teardown_log (st : State) (t : Tree) : list Event :=
  match t with
  | Node b ks =>
      (fix go ks :=
         match ks with
         | [] => []
         | k :: ks =>
             go ks
             ++ EvDisposeChild b (root k)
                :: EvUnplug (root k) false
                :: (EvConnectionDisconnect
                      <$> option_list (blocks st !! root k ≫= superior))
                ++ teardown_log st k
         end) ks
      ++ match blocks st !! b with
         | Some B => own_log b B
         | None => []
         end
  end.

(** How the store [st'] after tearing down the tree [t] relates to the
    store [st] before: the blocks of the tree are disposed and their
    connections disposed and free; when the root was plugged into
    connection [tc] of a parent [p] ([link]), the parent has lost this child
    and [tc] is free again; every other block and connection is as before.
    Bound variables are only modified, never created or deleted. *)
Record torn_down (st : State) (t : Tree) (link : option (nat * nat)) (st' : State)
    : Prop := mk_torn_down {
  td_nodes : ∀ x B, x ∈ nodes t → blocks st !! x = Some B →
                    blocks st' !! x = Some (disposed_block B);
  td_parent : ∀ p tc P, link = Some (p, tc) → blocks st !! p = Some P →
                blocks st' !! p = Some (with_childBlocks (array_remove (root t)) P);
  td_blocks_frame : ∀ x, x ∉ nodes t → (∀ p tc, link = Some (p, tc) → x ≠ p) →
                         blocks st' !! x = blocks st !! x;
  td_connections : ∀ c C, c ∈ tree_connections st t → connections st !! c = Some C →
                          connections st' !! c = Some (disposed_connection C);
  td_socket : ∀ p tc TC, link = Some (p, tc) → connections st !! tc = Some TC →
                         connections st' !! tc = Some (freed_connection TC);
  td_connections_frame : ∀ c, c ∉ tree_connections st t →
                              (∀ p tc, link = Some (p, tc) → c ≠ tc) →
                              connections st' !! c = connections st !! c;
  td_variables : ∀ v, is_Some (variables st' !! v) ↔ is_Some (variables st !! v);
  td_typeCells : typeCells st' = typeCells st;
  td_events : eventsDisabled_ st' = eventsDisabled_ st;
  td_topBlocks : topBlocks_ st' = topBlocks_ st ∖ list_to_set (nodes t);
  td_blockDB : blockDB_ st' = blockDB_ st ∖ list_to_set (nodes t);
}.

(** The store after child [c] of [b] has been disconnected: its plug [sc]
    and the connection [tc] it sat in are free, [b] has lost the child, and
    [c] is a top block without a parent. *)
Definition unlinked (b c sc tc : nat) (st : State) : State :=
  set_topBlocks (λ s, s ∪ {[c]})
    (set_blocks (λ m, alter (with_parentBlock None) c
                        (alter (with_childBlocks (array_remove c)) b m))
       (set_connections (λ m, alter freed_connection tc (alter freed_connection sc m))
          st)).

(** What disposing one child [k] of [b] logs, and what the loop over the
    children logs. *)
Definition kid_log (st : State) (b : nat) (k : Tree) : list Event :=
  EvDisposeChild b (root k)
  :: EvUnplug (root k) false
  :: (EvConnectionDisconnect <$> option_list (blocks st !! root k ≫= superior))
  ++ teardown_log st k.

Fixpoint kids_log (st : State) (b : nat) (ks : list Tree) : list Event :=
  match ks with
  | [] => []
  | k :: ks => kids_log st b ks ++ kid_log st b k
  end.

(** The deletion notice of the block itself, delivered if notifications are
    switched on. *)
Definition fire_log (st : State) (b : nat) : list Event :=
  if bool_decide (eventsDisabled_ st = 0) then [EvBlockDelete b] else [].

(** Two stores agree on the blocks and the connections of a tree. *)
Definition same_on (st st' : State) (t : Tree) : Prop :=
  (∀ x, x ∈ nodes t → blocks st' !! x = blocks st !! x)
  ∧ (∀ c, c ∈ tree_connections st t → connections st' !! c = connections st !! c)
  ∧ (∀ v, is_Some (variables st !! v) → is_Some (variables st' !! v)).

(** How the store [st'] after the loop over the children [ks] of [b] relates
    to the store [st] before it: the blocks of every child's tree are
    disposed with their connections, the connections of [b] the children
    sat in are free, and [b] has no child left. *)
Record kids_torn (st : State) (b : nat) (ks : list Tree) (st' : State)
    : Prop := mk_kids_torn {
  kt_nodes : ∀ x B, x ∈ mjoin (nodes <$> ks) → blocks st !! x = Some B →
                    blocks st' !! x = Some (disposed_block B);
  kt_parent : ∀ B, blocks st !! b = Some B →
                   blocks st' !! b = Some (with_childBlocks (λ _, []) B);
  kt_blocks_frame : ∀ x, x ∉ mjoin (nodes <$> ks) → x ≠ b →
                         blocks st' !! x = blocks st !! x;
  kt_connections : ∀ c C, c ∈ mjoin (tree_connections st <$> ks) →
                          connections st !! c = Some C →
                          connections st' !! c = Some (disposed_connection C);
  kt_sockets : ∀ k tc TC, k ∈ ks → socket_of_child st (root k) = Some tc →
                          connections st !! tc = Some TC →
                          connections st' !! tc = Some (freed_connection TC);
  kt_connections_frame : ∀ c, c ∉ mjoin (tree_connections st <$> ks) →
                              (∀ k, k ∈ ks → socket_of_child st (root k) ≠ Some c) →
                              connections st' !! c = connections st !! c;
  kt_variables : ∀ v, is_Some (variables st' !! v) ↔ is_Some (variables st !! v);
  kt_typeCells : typeCells st' = typeCells st;
  kt_events : eventsDisabled_ st' = eventsDisabled_ st;
  kt_topBlocks : topBlocks_ st' = topBlocks_ st ∖ list_to_set (mjoin (nodes <$> ks));
  kt_blockDB : blockDB_ st' = blockDB_ st ∖ list_to_set (mjoin (nodes <$> ks));
}.

(** The children [ks] of [b] form a forest hanging from [b]. *)
Record forest_of (st : State) (b : nat) (ks : list Tree) : Prop := mk_forest_of {
  fo_linked : Forall (λ k, ∃ tc, linked st b (root k) tc) ks;
  fo_trees : Forall (block_tree st) ks;
  fo_nodup : NoDup (b :: mjoin (nodes <$> ks));
}.

(** Links between connections are mutual. *)
Definition symmetric (st : State) : Prop :=
  ∀ c C tc TC, connections st !! c = Some C → targetConnection C = Some tc →
               connections st !! tc = Some TC → targetConnection TC = Some c.

(** In a log, the event [e1] comes before the event [e2]. *)
Definition before (e1 e2 : Event) (l : list Event) : Prop :=
  ∃ l1 l2 l3, l = l1 ++ e1 :: l2 ++ e2 :: l3.

(** The store after the child [c], top-level and free, has been connected
    by its plug [cp] to the connection [an] of [a]. *)
Definition healed (a c an cp : nat) (st : State) : State :=
  set_blocks (λ m, alter (with_childBlocks (λ l, l ++ [c])) a
                     (alter (with_parentBlock (Some a)) c m))
    (set_topBlocks (λ s, s ∖ {[c]})
       (set_connections
          (λ m, alter (λ T, with_inDB false (with_targetConnection (Some an) T)) cp
                  (alter (λ C, with_inDB false (with_targetConnection (Some cp) C))
                     an m))
          st)).

(** ** Type variables and their cells *)

(** The type variables of a type expression. *)
Fixpoint vars (t : TypeExpr) : list nat :=
  match t with
  | TVAR x => [x]
  | LIST e => vars e
  | PAIR a b | FUN a b => vars a ++ vars b
  | BOOL | INT | FLOAT => []
  end.

(** The type variables a run has cleared, in order. *)
Definition cleared_cells (l : list Event) : list nat :=
  omap (λ e, match e with EvClear (TVAR x) => Some x | _ => None end) l.

(** The cells with the bindings of the variables [xs] removed. *)
Definition wipe (xs : list nat) (cells : gmap nat TypeExpr) : gmap nat TypeExpr :=
  foldl (λ c x, delete x c) cells xs.

(** The store with its type cells replaced. *)
Definition with_cells (cells : gmap nat TypeExpr) (st : State) : State :=
  set_typeCells (λ _, cells) st.

(** An outcome given by its kind, its store and its log. *)
Definition answer {A} (r : option (A + string)) (st : State) (l : list Event)
    : Outcome A :=
  match r with
  | Some (inl a) => Ok a st l
  | Some (inr msg) => Throw msg st l
  | None => OutOfFuel
  end.

(** A computation that never reads the type cells and changes nothing in
    the store but the cells of the type variables it clears. *)
Definition deletes {A} (m : M A) : Prop :=
  ∀ st, ∃ r l, ∀ cells,
    m (with_cells cells st)
    = answer r (with_cells (wipe (cleared_cells l) cells) st) l.

(** All type variables of [t] are among [D]. *)
Definition closed_term (D : nat → Prop) (t : TypeExpr) : Prop :=
  ∀ x, x ∈ vars t → D x.

Definition closed_opt (D : nat → Prop) (t : option TypeExpr) : Prop :=
  ∀ t', t = Some t' → closed_term D t'.

(** The type expressions among the own properties of [env] are closed, and
    no type expression has replaced its prototype. *)
Definition closed_env (D : nat → Prop) (env : TypeEnv) : Prop :=
  (∀ n t, own env !! n = Some t → closed_opt D t)
  ∧ ∀ t, prototype env = Some t → t = None.

(** The sockets of a block: its output connection and the connections of
    its inputs. *)
Definition sockets (B : Block) : list nat :=
  option_list (outputConnection B) ++ omap connection (inputList B).

(** [W] is a set of blocks closed under going to the block plugged into an
    input; the type expressions on the sockets of its blocks, and the
    bindings of the variables of [D], only mention variables of [D]; none
    of its blocks names its variable [__proto__]. *)
Record good (D W : nat → Prop) (st : State) : Prop := mk_good {
  good_sockets : ∀ b B c C t, W b → blocks st !! b = Some B → c ∈ sockets B →
                   connections st !! c = Some C → typeExpr C = Some t →
                   closed_term D t;
  good_children : ∀ b B c C tc T, W b → blocks st !! b = Some B →
                    c ∈ omap connection (inputList B) →
                    connections st !! c = Some C → targetConnection C = Some tc →
                    connections st !! tc = Some T → W (sourceBlock_ T);
  good_cells : ∀ x t, D x → typeCells st !! x = Some t → closed_term D t;
  good_names : ∀ b B field, W b → blocks st !! b = Some B →
                 List.find (λ field, bool_decide (field_name field = Some "VAR"))
                           (mjoin (fieldRow <$> inputList B)) = Some field →
                 getText field ≠ "__proto__";
}.

(** The store holds the tree [t] of typed blocks that an inference pass
    from its root goes through.  A block with the inference hooks has its
    sockets as its [init] declared them and is no pair projection; a block
    without them has nothing plugged in and no type variable on its
    sockets.  No block names its variable [__proto__].  The subtrees of a
    node are the blocks plugged into its inputs, each through a typed
    input that is found under its name. *)
#[warnings="-register-all"]
Inductive typed_tree (st : State) : Tree → Prop :=
| typed_tree_node b ks B :
    blocks st !! b = Some B →
    (has_infer (type B) = true →
     as_declared st B ∧ type B ≠ pair_first_typed ∧ type B ≠ pair_second_typed) →
    (has_infer (type B) = false →
     ∀ c C t, c ∈ sockets B → connections st !! c = Some C →
              typeExpr C = Some t → vars t = []) →
    (∀ field,
       List.find (λ field, bool_decide (field_name field = Some "VAR"))
                 (mjoin (fieldRow <$> inputList B)) = Some field →
       getText field ≠ "__proto__") →
    (∀ c child, c ∈ omap connection (inputList B) →
                plugged_into st c = Some child → child ∈ root <$> ks) →
    Forall (λ k, has_infer (type B) = true ∧
                 ∃ n input e c,
                   List.find (λ i, bool_decide (name i = n)) (inputList B)
                   = Some input ∧
                   socket_of st input = Some e ∧
                   connection input = Some c ∧
                   plugged_into st c = Some (root k)) ks →
    Forall (typed_tree st) ks →
    typed_tree st (Node b ks).

(** [st'] is [st] with other bindings for variables of [D]. *)
Definition cells_frame (D : nat → Prop) (st st' : State) : Prop :=
  st' = with_cells (typeCells st') st
  ∧ ∀ x, ¬ D x → typeCells st' !! x = typeCells st !! x.

(** A computation that, when it returns, has logged nothing, has only
    changed bindings of variables of [D], and returns a value with [P]. *)
Definition within (D W : nat → Prop) {A} (P : A → Prop) (m : M A) : Prop :=
  ∀ st, good D W st →
        match m st with
        | Ok a st' l => good D W st' ∧ cells_frame D st st' ∧ l = [] ∧ P a
        | _ => True
        end.

(** * The rest of the block interface *)

(** ** Walking the tree *)

(** The while loop of [lastConnectionInStack]; [next] is the variable
    [nextConnection], and the budget bounds the number of turns. *)
Fixpoint lastConnectionInStack_loop (fuel : nat) (next : option nat)
    : M (option nat) :=
  match next with
  | None =>
      (* Ran out of next connections. *)
      ret None
  | Some nc =>
      match fuel with
      | 0 => out_of_fuel
      | S fuel =>
          nextBlock ← targetBlock nc;
          match nextBlock with
          | None =>
              (* Found a next connection with nothing on the other side. *)
              ret (Some nc)
          | Some nb =>
              NB ← getBlock nb;
              lastConnectionInStack_loop fuel (nextConnection NB)
          end
      end
  end.

(** [Blockly.Block.prototype.lastConnectionInStack] *)
Definition lastConnectionInStack (fuel : nat) (this : nat) : M (option nat) :=
  B ← getBlock this;
  lastConnectionInStack_loop fuel (nextConnection B).

(** [Blockly.Block.prototype.getParent] *)
Definition getParent (this : nat) : M (option nat) :=
  B ← getBlock this;
  ret (parentBlock_ B).

(** The loop of [getInputWithBlock] over the inputs that are left. *)
Fixpoint getInputWithBlock_loop (l : list Input) (block : nat) : M (option Input) :=
  match l with
  | [] => ret None
  | input :: l' =>
      match connection input with
      | Some c =>
          target ← targetBlock c;
          if bool_decide (target = Some block) then ret (Some input)
          else getInputWithBlock_loop l' block
      | None => getInputWithBlock_loop l' block
      end
  end.

(** [Blockly.Block.prototype.getInputWithBlock] *)
Definition getInputWithBlock (this : nat) (block : nat) : M (option Input) :=
  B ← getBlock this;
  getInputWithBlock_loop (inputList B) block.

(** The do-while loop of [getSurroundParent]: one turn per unit of budget;
    [block] is the variable of that name on entry to the turn. *)
Fixpoint getSurroundParent_loop (fuel : nat) (block : nat) : M (option nat) :=
  match fuel with
  | 0 => out_of_fuel
  | S fuel =>
      parent ← getParent block;
      match parent with
      | None =>
          (* Ran off the top. *)
          ret None
      | Some p =>
          next ← getNextBlock p;
          if bool_decide (next = Some block)
          then getSurroundParent_loop fuel p
          else
            (* This block is an enclosing parent, not just a statement in a
               stack. *)
            ret (Some p)
      end
  end.

(** [Blockly.Block.prototype.getSurroundParent] *)
Definition getSurroundParent (fuel : nat) (this : nat) : M (option nat) :=
  getSurroundParent_loop fuel this.

(** [Blockly.Block.prototype.getRootBlock]: one turn of the do-while loop
    per unit of budget. *)
Fixpoint getRootBlock (fuel : nat) (this : nat) : M nat :=
  match fuel with
  | 0 => out_of_fuel
  | S fuel =>
      B ← getBlock this;
      match parentBlock_ B with
      | Some block => getRootBlock fuel block
      | None => ret this
      end
  end.

(** The loop of [getChildren(true)] over the inputs. *)
Fixpoint getChildren_inputs (l : list Input) : M (list nat) :=
  match l with
  | [] => ret []
  | input :: l' =>
      child ← match connection input with
              | Some c => targetBlock c
              | None => ret None
              end;
      blocks ← getChildren_inputs l';
      ret (option_list child ++ blocks)
  end.

(** [Blockly.Block.prototype.getChildren] *)
Definition getChildren (this : nat) (ordered : bool) : M (list nat) :=
  B ← getBlock this;
  if negb ordered then ret (childBlocks_ B)
  else
    blocks ← getChildren_inputs (inputList B);
    next ← getNextBlock this;
    ret (blocks ++ option_list next).

(** The loop of [getDescendants] over the children; [getDescendants] is the
    method as called on each child. *)
Fixpoint getDescendants_children (getDescendants : nat → M (list nat))
    (childBlocks : list nat) : M (list nat) :=
  match childBlocks with
  | [] => ret []
  | child :: rest =>
      below ← getDescendants child;
      others ← getDescendants_children getDescendants rest;
      ret (below ++ others)
  end.

(** [Blockly.Block.prototype.getDescendants]; the budget bounds the depth of
    the recursion. *)
Fixpoint getDescendants (fuel : nat) (this : nat) (ordered : bool) : M (list nat) :=
  match fuel with
  | 0 => out_of_fuel
  | S fuel =>
      childBlocks ← getChildren this ordered;
      below ← getDescendants_children (λ child, getDescendants fuel child ordered)
                                      childBlocks;
      ret (this :: below)
  end.

(** [Blockly.Block.prototype.getInputTargetBlock] *)
Definition getInputTargetBlock (this : nat) (name_ : string) : M (option nat) :=
  input ← getInput this name_;
  match input with
  | None => ret None
  | Some input =>
      match connection input with
      | None => ret None
      | Some c => targetBlock c
      end
  end.

(** The loop of [allInputsFilled] over the inputs; [allInputsFilled] is the
    method as called on the block in each input. *)
Fixpoint allInputsFilled_inputs (allInputsFilled : nat → M bool) (l : list Input)
    : M bool :=
  match l with
  | [] => ret true
  | input :: l' =>
      match connection input with
      | None => allInputsFilled_inputs allInputsFilled l'
      | Some c =>
          target ← targetBlock c;
          match target with
          | None => ret false
          | Some t =>
              filled ← allInputsFilled t;
              if filled : bool then allInputsFilled_inputs allInputsFilled l'
              else ret false
          end
      end
  end.

(** [Blockly.Block.prototype.allInputsFilled], called without an argument or
    with [true]: shadow blocks count as filled, and the shadow flag of the
    block is not looked at.  The budget bounds the depth of the recursion. *)
Fixpoint allInputsFilled (fuel : nat) (this : nat) : M bool :=
  match fuel with
  | 0 => out_of_fuel
  | S fuel =>
      B ← getBlock this;
      (* Recursively check each input block of the current block. *)
      inputs ← allInputsFilled_inputs (allInputsFilled fuel) (inputList B);
      if inputs : bool then
        (* Recursively check the next block after the current block. *)
        next ← getNextBlock this;
        match next with
        | Some n => allInputsFilled fuel n
        | None => ret true
        end
      else ret false
  end.

(** ** Notions used to state what the walks return *)

(** Block [b] is in the stack that starts at [a]: it is [a], or it is
    reached from [a] by going from a block to its next block. *)
Inductive in_stack (st : State) : nat → nat → Prop :=
| in_stack_here a : in_stack st a a
| in_stack_next a n b :
    getNextBlock a st = Ok (Some n) st [] → in_stack st n b → in_stack st a b.

(** The block plugged into a connection, if the store has one. *)
Definition target_of (st : State) (c : nat) : option nat :=
  match targetBlock c st with
  | Ok r _ _ => r
  | _ => None
  end.

(** Every value or statement input of every block of the tree holds a
    block. *)
Definition filled (st : State) (t : Tree) : Prop :=
  ∀ x X c C, x ∈ nodes t → blocks st !! x = Some X →
             c ∈ omap connection (inputList X) →
             connections st !! c = Some C → targetConnection C ≠ None.

(** ** Adding and removing inputs *)

(** Modelled from the spec: the constructor of [Blockly.Connection]
    (connection.js is missing): a connection of the given kind owned by the
    block, unconstrained, without a type expression and without a target;
    connections register themselves on creation.  The new object gets a
    name that the store has not used. *)
Definition Connection_new (source : nat) (t : ConnectionType) : M nat :=
  st ← getState;
  let c := fresh (dom (connections st)) in
  modify (set_connections (insert c (mkConnection source t None None None true)));;
  ret c.

(** [Blockly.Block.prototype.makeConnection_] *)
Definition makeConnection_ (this : nat) (t : ConnectionType) : M nat :=
  Connection_new this t.

(** Modelled from the spec: the constructor of [Blockly.Input] (input.js is
    missing): a named slot without Fields that carries the connection it is
    given, or none. *)
Definition Input_new (name_ : string) (c : option nat) : Input :=
  mkInput name_ [] c.

(** [Blockly.Block.prototype.appendInput_]; the type is a connection kind,
    or [None] for [Blockly.DUMMY_INPUT]. *)
Definition appendInput_ (this : nat) (type_ : option ConnectionType) (name_ : string)
    : M Input :=
  _ ← getBlock this;
  c ← (if bool_decide (type_ = Some INPUT_VALUE ∨ type_ = Some NEXT_STATEMENT)
       then match type_ with
            | Some t => c ← makeConnection_ this t; ret (Some c)
            | None => ret None
            end
       else ret None);
  let input := Input_new name_ c in
  (* Append input to list. *)
  updBlock this (λ B, with_inputList (inputList B ++ [input]) B);;
  ret input.

(** The message of [goog.asserts.fail('Input "%s" not found.', name)]. *)
Definition input_not_found (name_ : string) : string :=
  "Input " +:+ String (Ascii.ascii_of_nat 34) name_
  +:+ String (Ascii.ascii_of_nat 34) " not found.".

(** The loop of [removeInput]: [i] is the index of the head of [l]; the
    answer tells whether the input was found (the loop then returned from
    the method).  [isShadow] gives the shadow flag of each block, which the
    store does not hold; the shadow description of the connection
    ([setShadowDom]) belongs to the serialization layer and is left out. *)
Fixpoint removeInput_loop (isShadow : nat → bool) (fuel : nat) (this : nat)
    (name_ : string) (i : nat) (l : list Input) : M bool :=
  match l with
  | [] => ret false
  | input :: l' =>
      if bool_decide (name input = name_) then
        match connection input with
        | Some c =>
            connected ← isConnected c;
            if connected : bool then
              block ← targetBlock c;
              match block with
              | None => TypeError
              | Some block =>
                  if isShadow block then
                    (* Destroy any attached shadow block. *)
                    dispose fuel block false
                  else
                    (* Disconnect any attached normal block. *)
                    unplug fuel block false
              end
            else ret tt
        | None => ret tt
        end;;
        Input_dispose this input;;
        updBlock this (λ B, with_inputList (splice i 1 [] (inputList B)) B);;
        ret true
      else removeInput_loop isShadow fuel this name_ (S i) l'
  end.

(** [Blockly.Block.prototype.removeInput] *)
Definition removeInput (isShadow : nat → bool) (fuel : nat) (this : nat)
    (name_ : string) (opt_quiet : bool) : M unit :=
  B ← getBlock this;
  found ← removeInput_loop isShadow fuel this name_ 0 (inputList B);
  if found : bool then ret tt
  else if opt_quiet then ret tt
  else throw (input_not_found name_).

(** ** Giving a block its own connections *)

Definition with_check (check : option (list string)) (C : Connection) : Connection :=
  mkConnection (sourceBlock_ C) (type_ C) (targetConnection C) check (typeExpr C)
               (inDB_ C).

Definition with_outputConnection (c : option nat) (B : Block) : Block :=
  mkBlock (type B) (workspace B) c (nextConnection B) (previousConnection B)
          (inputList B) (typedValue B) (parentBlock_ B) (childBlocks_ B)
          (itemCount_ B).

Definition with_nextConnection (c : option nat) (B : Block) : Block :=
  mkBlock (type B) (workspace B) (outputConnection B) c (previousConnection B)
          (inputList B) (typedValue B) (parentBlock_ B) (childBlocks_ B)
          (itemCount_ B).

Definition with_previousConnection (c : option nat) (B : Block) : Block :=
  mkBlock (type B) (workspace B) (outputConnection B) (nextConnection B) c
          (inputList B) (typedValue B) (parentBlock_ B) (childBlocks_ B)
          (itemCount_ B).

(** Modelled from the spec: [Connection.setCheck] (connection.js is
    missing): stores the nominal accepted-type set, null for
    unconstrained. *)
Definition setCheck (c : nat) (check : option (list string)) : M unit :=
  _ ← getConnection c;
  updConnection c (with_check check).

(** [Blockly.Block.prototype.setPreviousStatement]; [opt_check] is [None]
    for [null] and for [undefined]. *)
Definition setPreviousStatement (this : nat) (newBoolean : bool)
    (opt_check : option (list string)) : M unit :=
  B ← getBlock this;
  if newBoolean then
    pc ← match previousConnection B with
         | Some pc => ret pc
         | None =>
             assert (bool_decide (outputConnection B = None))
               "Remove output connection prior to adding previous connection.";;
             pc ← makeConnection_ this PREVIOUS_STATEMENT;
             updBlock this (with_previousConnection (Some pc));;
             ret pc
         end;
    setCheck pc opt_check
  else
    match previousConnection B with
    | Some pc =>
        connected ← isConnected pc;
        assert (negb connected)
          "Must disconnect previous statement before removing connection.";;
        Connection_dispose pc;;
        updBlock this (with_previousConnection None)
    | None => ret tt
    end.

(** [Blockly.Block.prototype.setNextStatement] *)
Definition setNextStatement (this : nat) (newBoolean : bool)
    (opt_check : option (list string)) : M unit :=
  B ← getBlock this;
  if newBoolean then
    nc ← match nextConnection B with
         | Some nc => ret nc
         | None =>
             nc ← makeConnection_ this NEXT_STATEMENT;
             updBlock this (with_nextConnection (Some nc));;
             ret nc
         end;
    setCheck nc opt_check
  else
    match nextConnection B with
    | Some nc =>
        connected ← isConnected nc;
        assert (negb connected)
          "Must disconnect next statement before removing connection.";;
        Connection_dispose nc;;
        updBlock this (with_nextConnection None)
    | None => ret tt
    end.

(** [Blockly.Block.prototype.setOutput] *)
Definition setOutput (this : nat) (newBoolean : bool)
    (opt_check : option (list string)) : M unit :=
  B ← getBlock this;
  if newBoolean then
    oc ← match outputConnection B with
         | Some oc => ret oc
         | None =>
             assert (bool_decide (previousConnection B = None))
               "Remove previous connection prior to adding output connection.";;
             oc ← makeConnection_ this OUTPUT_VALUE;
             updBlock this (with_outputConnection (Some oc));;
             ret oc
         end;
    setCheck oc opt_check
  else
    match outputConnection B with
    | Some oc =>
        connected ← isConnected oc;
        assert (negb connected)
          "Must disconnect output value before removing connection.";;
        Connection_dispose oc;;
        updBlock this (with_outputConnection None)
    | None => ret tt
    end.

(** ** What an operation leaves alone *)

(** Whether it returns or throws, a computation leaves the store it ends in
    related by [R] to the store it started from. *)
Definition preserves (R : State → State → Prop) {A} (m : M A) : Prop :=
  ∀ st, match m st with
        | Ok _ st' _ | Throw _ st' _ => R st st'
        | OutOfFuel => True
        end.

(** What the tree operations never change of a block (all but its parent
    and child links) and of a connection (all but its target and its
    registration). *)
Definition static_block (B : Block) : Block :=
  with_parentBlock None (with_childBlocks (λ _, []) B).

Definition static_connection (C : Connection) : Connection :=
  with_inDB false (with_targetConnection None C).

(** The store [st'] is the store [st] rewired: the same blocks and
    connections, differing at most in the parent and child links of the
    blocks, the targets and the registration of the connections and the set
    of top-level blocks. *)
Record rewired (st st' : State) : Prop := mk_rewired {
  rw_blocks : ∀ b, static_block <$> blocks st' !! b = static_block <$> blocks st !! b;
  rw_connections : ∀ c, static_connection <$> connections st' !! c
                        = static_connection <$> connections st !! c;
  rw_variables : variables st' = variables st;
  rw_typeCells : typeCells st' = typeCells st;
  rw_events : eventsDisabled_ st' = eventsDisabled_ st;
  rw_blockDB : blockDB_ st' = blockDB_ st;
  rw_selected : selected st' = selected st;
}.

(** The store [st'] has the objects of the store [st], no more and no
    fewer; the bindings of the type variables and the nesting depth of the
    notification switch are the same; the registry of blocks has not grown;
    and a block that was disposed has not come back. *)
Record same_objects (st st' : State) : Prop := mk_same_objects {
  so_blocks : ∀ b, is_Some (blocks st' !! b) ↔ is_Some (blocks st !! b);
  so_connections : ∀ c, is_Some (connections st' !! c) ↔ is_Some (connections st !! c);
  so_variables : ∀ v, is_Some (variables st' !! v) ↔ is_Some (variables st !! v);
  so_typeCells : typeCells st' = typeCells st;
  so_events : eventsDisabled_ st' = eventsDisabled_ st;
  so_blockDB : blockDB_ st' ⊆ blockDB_ st;
  so_disposed : ∀ b B B', blocks st !! b = Some B → blocks st' !! b = Some B' →
                          workspace B = false → workspace B' = false;
}.

(** A block has an output connection or a previous connection, not both. *)
Definition one_plug (B : Block) : Prop :=
  outputConnection B = None ∨ previousConnection B = None.

(** The index of the first input of a list that has the given name. *)
Fixpoint index_of (name_ : string) (l : list Input) : option nat :=
  match l with
  | [] => None
  | input :: l' =>
      if bool_decide (name input = name_) then Some 0 else S <$> index_of name_ l'
  end.

(** The index a reference name stands for in [moveInputBefore]: that of the
    input of this name, or the length of the list for [null] and for the
    empty string. *)
Definition reference_index (refName : option string) (l : list Input) : option nat :=
  match refName with
  | Some r => if bool_decide (r = "") then Some (length l) else index_of r l
  | None => Some (length l)
  end.

(** The index found in a list whose head has index [k], or else what the
    variable held before the search. *)
Definition shift (k : nat) (found : option nat) (acc : option nat) : option nat :=
  match found with
  | Some j => Some (k + j)
  | None => acc
  end.

(** Two statement blocks side by side, both top-level, nothing connected:
    [10] is the next connection of block 1, [13] and [14] the previous and
    next connections of block 3. *)
Definition loose_pair : State :=
  mkState
    (list_to_map
       [(1, statement_block None (Some 10) None []);
        (3, statement_block (Some 13) (Some 14) None [])])
    (list_to_map
       [(10, free_connection 1 NEXT_STATEMENT);
        (13, free_connection 3 PREVIOUS_STATEMENT);
        (14, free_connection 3 NEXT_STATEMENT)])
    ∅ ∅ {[1; 3]} {[1; 3]} 0 None.

(** The blocks whose deletion a log announces. *)
Definition deleted_blocks (l : list Event) : list nat :=
  omap (λ e, match e with EvBlockDelete b => Some b | _ => None end) l.
(** * Properties *)

(** ** Generic facts about computations and arrays *)

Lemma prepend_nil {A} (o : Outcome A) : prepend [] o = o.
Proof. by destruct o. Qed.

Lemma prepend_prepend {A} (l1 l2 : list Event) (o : Outcome A) :
  prepend l1 (prepend l2 o) = prepend (l1 ++ l2) o.
Proof. destruct o; simpl; by rewrite ?app_assoc. Qed.

Lemma bind_run {A B} (m : M A) (k : A → M B) st a st' l :
  m st = Ok a st' l → (m ≫= k) st = prepend l (k a st').
Proof. unfold mbind, M_bind, bind. by intros ->. Qed.

Lemma bind_Ok {A B} (m : M A) (k : A → M B) st a st' :
  m st = Ok a st' [] → (m ≫= k) st = k a st'.
Proof. intros H. rewrite (bind_run _ _ _ _ _ _ H). apply prepend_nil. Qed.

Lemma bind_Throw {A B} (m : M A) (k : A → M B) st msg st' l :
  m st = Throw msg st' l → (m ≫= k) st = Throw msg st' l.
Proof. unfold mbind, M_bind, bind. by intros ->. Qed.

Lemma bind_ret {A B} (a : A) (k : A → M B) st : (ret a ≫= k) st = k a st.
Proof. by apply bind_Ok. Qed.

Lemma bind_modify {B} (f : State → State) (k : unit → M B) st :
  (modify f ≫= k) st = k tt (f st).
Proof. by apply bind_Ok. Qed.

Lemma bind_updBlock {B} b (f : Block → Block) (k : unit → M B) st :
  (updBlock b f ≫= k) st = k tt (set_blocks (alter f b) st).
Proof. by apply bind_Ok. Qed.

Lemma bind_updConnection {B} c (f : Connection → Connection) (k : unit → M B) st :
  (updConnection c f ≫= k) st = k tt (set_connections (alter f c) st).
Proof. by apply bind_Ok. Qed.

Lemma bind_emit {B} (e : Event) (k : unit → M B) st :
  (emit e ≫= k) st = prepend [e] (k tt st).
Proof. by apply (bind_run (emit e) k st tt st [e]). Qed.

Lemma bind_throw {A B} msg (k : A → M B) st :
  (throw msg ≫= k) st = Throw msg st [].
Proof. by apply bind_Throw. Qed.

Lemma bind_TypeError {A B} (k : A → M B) st :
  (TypeError ≫= k) st = Throw "TypeError" st [].
Proof. by apply bind_Throw. Qed.

Lemma bind_bind {A B C} (m : M A) (f : A → M B) (g : B → M C) st :
  ((m ≫= f) ≫= g) st = (m ≫= λ x, f x ≫= g) st.
Proof.
  unfold mbind, M_bind, bind. destruct (m st) as [a st1 l1| |]; [| done..].
  destruct (f a st1) as [b st2 l2| |]; simpl; [| done..].
  by rewrite prepend_prepend.
Qed.

Lemma bind_getState {B} (k : State → M B) st : (getState ≫= k) st = k st st.
Proof. by apply bind_Ok. Qed.

Lemma bind_getTypeCells {B} (k : gmap nat TypeExpr → M B) st :
  (getTypeCells ≫= k) st = k (typeCells st) st.
Proof. by apply bind_Ok. Qed.

Lemma getBlock_run st b B :
  blocks st !! b = Some B → getBlock b st = Ok B st [].
Proof. unfold getBlock. by intros ->. Qed.

Lemma getConnection_run st c C :
  connections st !! c = Some C → getConnection c st = Ok C st [].
Proof. unfold getConnection. by intros ->. Qed.

Lemma getBoundVariable_run st v V :
  variables st !! v = Some V → getBoundVariable v st = Ok V st [].
Proof. unfold getBoundVariable. by intros ->. Qed.

Lemma bind_getBlock {B'} b (k : Block → M B') st B :
  blocks st !! b = Some B → (getBlock b ≫= k) st = k B st.
Proof. intros H. by apply bind_Ok, getBlock_run. Qed.

Lemma bind_getBlock_None {B'} b (k : Block → M B') st :
  blocks st !! b = None → (getBlock b ≫= k) st = Throw "TypeError" st [].
Proof. intros H. apply bind_Throw. unfold getBlock. by rewrite H. Qed.

Lemma bind_getConnection {B'} c (k : Connection → M B') st C :
  connections st !! c = Some C → (getConnection c ≫= k) st = k C st.
Proof. intros H. by apply bind_Ok, getConnection_run. Qed.

Lemma bind_getConnection_None {B'} c (k : Connection → M B') st :
  connections st !! c = None → (getConnection c ≫= k) st = Throw "TypeError" st [].
Proof. intros H. apply bind_Throw. unfold getConnection. by rewrite H. Qed.

Lemma bind_getBoundVariable {B'} v (k : BoundVariable → M B') st V :
  variables st !! v = Some V → (getBoundVariable v ≫= k) st = k V st.
Proof. intros H. by apply bind_Ok, getBoundVariable_run. Qed.

Create Rewrite HintDb mrun.
Global Hint Rewrite @bind_bind @bind_ret @bind_modify @bind_updBlock
  @bind_updConnection @bind_throw @bind_TypeError @bind_getState
  @bind_getTypeCells @prepend_nil : mrun.

(** One step of symbolic execution: normalise the binds, then feed the
    lookups that the context knows. *)
Ltac mlookup :=
  match goal with
  | H : blocks ?st !! ?b = Some _ |- context [(getBlock ?b ≫= _) ?st] =>
      rewrite (bind_getBlock b _ st _ H)
  | H : connections ?st !! ?c = Some _ |- context [(getConnection ?c ≫= _) ?st] =>
      rewrite (bind_getConnection c _ st _ H)
  | H : variables ?st !! ?v = Some _ |- context [(getBoundVariable ?v ≫= _) ?st] =>
      rewrite (bind_getBoundVariable v _ st _ H)
  | H : blocks ?st !! ?b = None |- context [(getBlock ?b ≫= _) ?st] =>
      rewrite (bind_getBlock_None b _ st H)
  | H : connections ?st !! ?c = None |- context [(getConnection ?c ≫= _) ?st] =>
      rewrite (bind_getConnection_None c _ st H)
  end.

Ltac mrun := repeat (autorewrite with mrun; try mlookup).

Lemma splice_delete {A} (i : nat) (l : list A) :
  splice i 1 [] l = delete i l.
Proof.
  unfold splice. simpl. rewrite Nat.add_1_r. symmetry. apply delete_take_drop.
Qed.

Lemma splice_insert_lookup {A} (p : nat) (x : A) (l : list A) :
  p ≤ length l → splice p 0 [x] l !! p = Some x.
Proof.
  intros Hp. unfold splice. rewrite Nat.add_0_r.
  rewrite lookup_app_r by (rewrite length_take; lia).
  rewrite length_take, Nat.min_l, Nat.sub_diag by lia. done.
Qed.

Lemma splice_insert_delete {A} (p : nat) (x : A) (l : list A) :
  p ≤ length l → delete p (splice p 0 [x] l) = l.
Proof.
  intros Hp. unfold splice. rewrite Nat.add_0_r.
  rewrite delete_take_drop.
  rewrite take_app_le by (rewrite length_take; lia).
  rewrite take_take, Nat.min_id.
  rewrite drop_app_ge by (rewrite length_take; lia).
  rewrite length_take, Nat.min_l by lia.
  replace (S p - p) with 1 by lia. simpl. rewrite drop_0.
  apply take_drop.
Qed.

Lemma splice_insert_next {A} (p : nat) (x : A) (l : list A) :
  p ≤ length l → splice p 0 [x] l !! S p = l !! p.
Proof.
  intros Hp. unfold splice. rewrite Nat.add_0_r.
  rewrite lookup_app_r by (rewrite length_take; lia).
  rewrite length_take, Nat.min_l by lia.
  replace (S p - p) with 1 by lia. simpl.
  rewrite lookup_drop. f_equal. lia.
Qed.

Lemma splice_insert_perm {A} (p : nat) (x : A) (l : list A) :
  splice p 0 [x] l ≡ₚ x :: l.
Proof.
  unfold splice. rewrite Nat.add_0_r. simpl.
  rewrite <- Permutation_middle. by rewrite take_drop.
Qed.

(** ** Reordering inputs *)

(** C8.  For a block and valid indices, [moveNumberedInputBefore] returns
    normally and only replaces the block's input list by a permutation of
    itself: the moved input lands immediately before the input the reference
    index denoted (or at the end), the other inputs keep their relative
    order, every input record (name, fields, connection) is one of the
    original records, and connections, bound variables and type variables of
    the store are untouched.  [moveInputBefore(name, name)] changes
    nothing. *)
Theorem moveNumberedInputBefore_permutes (st : State) (this : nat) (B : Block)
    (inputIndex refIndex : nat) :
  blocks st !! this = Some B →
  inputIndex < length (inputList B) →
  refIndex ≤ length (inputList B) →
  inputIndex ≠ refIndex →
  (∃ (input : Input) (l' : list Input),
      let pos := if bool_decide (inputIndex < refIndex)
                 then refIndex - 1 else refIndex in
      inputList B !! inputIndex = Some input ∧
      moveNumberedInputBefore this inputIndex refIndex st
        = Ok tt (set_blocks (alter (with_inputList l') this) st) [] ∧
      l' ≡ₚ inputList B ∧
      l' !! pos = Some input ∧
      l' !! S pos = inputList B !! refIndex ∧
      delete pos l' = delete inputIndex (inputList B) ∧
      (∀ i : Input, i ∈ l' ↔ i ∈ inputList B) ∧
      connections (set_blocks (alter (with_inputList l') this) st) = connections st ∧
      variables (set_blocks (alter (with_inputList l') this) st) = variables st ∧
      typeCells (set_blocks (alter (with_inputList l') this) st) = typeCells st ∧
      (∀ b : nat, b ≠ this →
         blocks (set_blocks (alter (with_inputList l') this) st) !! b
         = blocks st !! b))
  ∧ (∀ name_ : string, moveInputBefore this name_ (Some name_) st = Ok tt st []).
Proof.
  intros HB Hi Hr Hne. split.
  - destruct (lookup_lt_is_Some_2 (inputList B) inputIndex Hi) as [input Hin].
    set (pos := if bool_decide (inputIndex < refIndex)
                then refIndex - 1 else refIndex).
    set (removed := splice inputIndex 1 [] (inputList B)).
    assert (Hrem : removed = delete inputIndex (inputList B))
      by apply splice_delete.
    assert (Hlen : length removed = length (inputList B) - 1).
    { rewrite Hrem, length_delete by eauto. done. }
    assert (Hpos : pos ≤ length removed).
    { unfold pos. case_bool_decide; lia. }
    exists input, (splice pos 0 [input] removed). cbv zeta.
    fold pos. split_and!.
    + done.
    + unfold moveNumberedInputBefore.
      rewrite (bind_Ok _ _ st B st) by (unfold getBlock; by rewrite HB).
      rewrite (bool_decide_false (inputIndex = refIndex)) by done.
      rewrite (bool_decide_true (inputIndex < length _)) by done.
      rewrite (bool_decide_true (refIndex ≤ length _)) by done. simpl.
      unfold mbind, M_bind, bind, assert, ret, mret, M_ret, ret. simpl.
      rewrite Hin. done.
    + rewrite splice_insert_perm, Hrem. symmetry. by apply delete_Permutation.
    + by apply splice_insert_lookup.
    + rewrite splice_insert_next by done. rewrite Hrem. unfold pos.
      case_bool_decide.
      * rewrite list_lookup_delete_ge by lia. f_equal. lia.
      * rewrite list_lookup_delete_lt by lia. done.
    + rewrite splice_insert_delete by done. done.
    + intros i. rewrite splice_insert_perm, Hrem.
      by rewrite <- (delete_Permutation (inputList B) inputIndex input Hin).
    + done.
    + done.
    + done.
    + intros b Hb. simpl. by rewrite lookup_alter_ne.
  - intros name_. unfold moveInputBefore. by rewrite bool_decide_true.
Qed.

(** C8, at a concrete block: moving the last input of the [let] block to
    the front. *)
Lemma moveNumberedInputBefore_permutes_witness :
  ∃ B l', blocks (let_x_3_in_x None ∅) !! 20 = Some B ∧
    moveNumberedInputBefore 20 2 0 (let_x_3_in_x None ∅)
    = Ok tt (set_blocks (alter (with_inputList l') 20) (let_x_3_in_x None ∅)) [] ∧
    l' ≡ₚ inputList B ∧
    l' !! 0 = inputList B !! 2 ∧
    l' !! 1 = inputList B !! 0 ∧
    moveInputBefore 20 "EXP1" (Some "EXP1") (let_x_3_in_x None ∅)
    = Ok tt (let_x_3_in_x None ∅) [].
Proof.
  eexists.
  destruct (moveNumberedInputBefore_permutes (let_x_3_in_x None ∅) 20 _ 2 0
              eq_refl) as [(input & l' & Hin & Hrun & Hperm & Hpos & Hnext & _) Hsame];
    [simpl; lia | simpl; lia | lia |].
  exists l'. split; [reflexivity |]. split; [exact Hrun |].
  split; [exact Hperm |]. split; [by rewrite Hin |]. split; [exact Hnext |].
  apply Hsame.
Defined.

(** ** Disposal of a disposed block *)

(** C10.  [dispose] on a block that is already disposed (its workspace
    reference is null) returns at once, without throwing, leaving the store
    as it was and doing nothing observable. *)
Theorem dispose_disposed_is_noop (fuel : nat) (st : State) (this : nat) (B : Block)
    (healStack : bool) :
  blocks st !! this = Some B →
  workspace B = false →
  dispose (S fuel) this healStack st = Ok tt st [].
Proof.
  intros HB Hw. simpl.
  rewrite (bind_Ok _ _ _ _ _ (getBlock_run _ _ _ HB)).
  by rewrite Hw.
Qed.

Lemma dispose_disposed_is_noop_witness :
  dispose 1 5 true disposed_store = Ok tt disposed_store [].
Proof.
  apply (dispose_disposed_is_noop 0 disposed_store 5 _ true eq_refl eq_refl).
Defined.

(** ** Reparenting *)

(** C9, as amended.  Let [newParent] differ from the block's current
    parent.  When the block has a parent and its previous or output
    connection is still connected, [setParent] throws: the block has already
    been taken off its old parent's child list, and its parent reference is
    left as it was.  When the block has no parent, [setParent] looks at no
    connection at all: whatever the state of the block's connections, it
    takes the block off the workspace's top-level blocks, sets the new
    parent, appends the block to the new parent's children and returns. *)
Theorem setParent_attached_throws (st : State) (this : nat) (B : Block)
    (newParent : option nat) :
  blocks st !! this = Some B →
  newParent ≠ parentBlock_ B →
  (∀ p P,
     parentBlock_ B = Some p →
     blocks st !! p = Some P →
     slot_connected st (previousConnection B) = true
     ∨ slot_connected st (outputConnection B) = true →
     ∃ msg,
       setParent this newParent st
       = Throw msg (set_blocks (alter (with_childBlocks (array_remove this)) p) st) [])
  ∧ (∀ np P,
       parentBlock_ B = None →
       workspace B = true →
       newParent = Some np →
       blocks st !! np = Some P →
       setParent this newParent st
       = Ok tt (set_blocks (alter (with_childBlocks (λ l, l ++ [this])) np)
                  (set_blocks (alter (with_parentBlock (Some np)) this)
                     (set_topBlocks (λ s, s ∖ {[this]}) st))) []).
Proof.
  intros HB Hne. split.
  - intros p P Hp HP Hconn. unfold setParent.
    mrun. rewrite Hp in *. rewrite bool_decide_false by done.
    mrun.
    set (st1 := set_blocks (alter (with_childBlocks (array_remove this)) p) st).
    assert (Hc1 : connections st1 = connections st) by done.
    unfold slot_connected in Hconn. rewrite <- Hc1 in Hconn.
    unfold isConnected.
    destruct (previousConnection B) as [pc|] eqn:Hpc.
    + destruct (connections st1 !! pc) as [PC|] eqn:HPC.
      * mrun. destruct (bool_decide (targetConnection PC ≠ None)) eqn:Hpt.
        -- eexists. mrun. reflexivity.
        -- destruct Hconn as [Hconn|Hconn]; [done |].
           destruct (outputConnection B) as [oc|] eqn:Hoc; [| done].
           destruct (connections st1 !! oc) as [OC|] eqn:HOC; [| done].
           mrun. rewrite Hconn. eexists. mrun. reflexivity.
      * eexists. mrun. reflexivity.
    + destruct Hconn as [Hconn|Hconn]; [done |].
      destruct (outputConnection B) as [oc|] eqn:Hoc; [| done].
      destruct (connections st1 !! oc) as [OC|] eqn:HOC; [| done].
      mrun. rewrite Hconn. eexists. mrun. reflexivity.
  - intros np P Hp Hw -> HP. unfold setParent.
    mrun. rewrite Hp in *. rewrite bool_decide_false by done.
    rewrite Hw. unfold removeTopBlock. mrun.
    set (st1 := set_blocks (alter (with_parentBlock (Some np)) this)
                  (set_topBlocks (λ s, s ∖ {[this]}) st)).
    assert (HP1 : is_Some (blocks st1 !! np)).
    { unfold st1. simpl. apply lookup_alter_is_Some. by rewrite HP. }
    destruct HP1 as [P1 HP1]. rewrite (bind_getBlock _ _ _ _ HP1).
    mrun. reflexivity.
Qed.

Lemma setParent_attached_throws_witness :
  (∃ msg, setParent 2 None stack3
          = Throw msg (set_blocks (alter (with_childBlocks (array_remove 2)) 1) stack3) [])
  ∧ setParent 3 (Some 1) mid_connect
    = Ok tt (set_blocks (alter (with_childBlocks (λ l, l ++ [3])) 1)
               (set_blocks (alter (with_parentBlock (Some 1)) 3)
                  (set_topBlocks (λ s, s ∖ {[3]}) mid_connect))) [].
Proof.
  split.
  - eapply (proj1 (setParent_attached_throws stack3 2 _ None eq_refl
                     ltac:(done)) 1);
      [reflexivity | reflexivity | left; reflexivity].
  - eapply (proj2 (setParent_attached_throws mid_connect 3 _ (Some 1) eq_refl
                     ltac:(done)) 1);
      reflexivity.
Defined.

(** C9 as stated fails: while [connect] is under way the plug is already
    connected and the block has no parent yet; [setParent] then takes the
    new parent without throwing. *)
Lemma setParent_connected_without_parent_succeeds :
  ∃ B st',
    blocks mid_connect !! 3 = Some B ∧
    Some 1 ≠ parentBlock_ B ∧
    slot_connected mid_connect (previousConnection B) = true ∧
    setParent 3 (Some 1) mid_connect = Ok tt st' [] ∧
    parentBlock_ <$> blocks st' !! 3 = Some (Some 1) ∧
    childBlocks_ <$> blocks st' !! 1 = Some [3].
Proof.
  do 2 eexists.
  split; [reflexivity |]. split; [done |]. split; [reflexivity |].
  split; [vm_compute; reflexivity |]. split; reflexivity.
Qed.

(** ** Variables a block declares into a slot *)

(** X28.  The [getVisibleVariables] hook of a [lambda_typed] block, asked
    about the connection of its 'RETURN' input, answers the object it has
    assigned its parameter's Value to under the parameter's name, and the
    empty object for any other connection; the hook of a [let_typed] block
    does the same for the connection of its 'EXP2' input.  Unless the name
    is [__proto__], that object has the one own property from the name to
    the Value; under [__proto__] it has no own property at all, the Value
    has become its prototype. *)
Theorem getVisibleVariables_scope (st : State) (this : nat) (B : Block)
    (input : Input) (c variable : nat) (V : BoundVariable) (conn : option nat) :
  blocks st !! this = Some B →
  connection input = Some c →
  typedValue_lookup "VAR" (typedValue B) = Some variable →
  variables st !! variable = Some V →
  let map :=
    if bool_decide (conn = Some c) then
      if bool_decide (getVariableName V = "__proto__")
      then mkObject ∅ (Some variable)
      else mkObject {[getVariableName V := variable]} None
    else mkObject ∅ None in
  (type B = lambda_typed →
   List.find (λ i, bool_decide (name i = "RETURN")) (inputList B) = Some input →
   ∃ hook, getVisibleVariables (type B) = Some hook ∧
           hook this conn st = Ok map st [])
  ∧ (type B = let_typed →
     List.find (λ i, bool_decide (name i = "EXP2")) (inputList B) = Some input →
     ∃ hook, getVisibleVariables (type B) = Some hook ∧
             hook this conn st = Ok map st []).
Proof.
  intros HB Hc Hv HV map.
  assert (Hmap : map = if bool_decide (conn = Some c)
                       then assign (getVariableName V) variable empty_object
                       else empty_object).
  { unfold map, assign, empty_object. by repeat case_bool_decide. }
  rewrite Hmap. clear Hmap map.
  split; intros Ht Hin; rewrite Ht; eexists; (split; [reflexivity |]).
  - unfold lambda_typed_getVisibleVariables, getInput. mrun. rewrite Hin, Hc.
    destruct (decide (conn = Some c)) as [->|Hne].
    + rewrite !bool_decide_true by done. mrun. rewrite Hv. mrun. done.
    + rewrite !bool_decide_false by done. done.
  - unfold let_typed_getVisibleVariables, getInput. mrun. rewrite Hin, Hc.
    destruct (decide (conn = Some c)) as [->|Hne].
    + rewrite !bool_decide_true by done. mrun. rewrite Hv. mrun. done.
    + rewrite !bool_decide_false by done. done.
Qed.

Lemma getVisibleVariables_scope_witness :
  (∃ hook, getVisibleVariables lambda_typed = Some hook ∧
     hook 30 (Some 301) (lambda_x_x "y")
     = Ok (mkObject {["y" := 60]} None) (lambda_x_x "y") [])
  ∧ (∃ hook, getVisibleVariables let_typed = Some hook ∧
       hook 20 (Some 201) (let_x_3_in_x None ∅)
       = Ok (mkObject ∅ None) (let_x_3_in_x None ∅) []).
Proof.
  split.
  - apply (proj1 (getVisibleVariables_scope (lambda_x_x "y") 30 _
             (mkInput "RETURN" [label "->"] (Some 301)) 301 60 _ (Some 301)
             eq_refl eq_refl eq_refl eq_refl)); reflexivity.
  - apply (proj2 (getVisibleVariables_scope (let_x_3_in_x None ∅) 20 _
             (mkInput "EXP2" [label "in"] (Some 202)) 202 50 _ (Some 201)
             eq_refl eq_refl eq_refl eq_refl)); reflexivity.
Defined.

(** C7 fails for a parameter named [__proto__].  The hook of the lambda,
    asked about the connection of its 'RETURN' input, returns a map with no
    entry: the assignment [map[name] = variable] has made the Value the
    prototype of the map.  [allVisibleVariables] copies the own properties
    of that map, so the body of the lambda sees no variable at all, where a
    parameter named [y] is seen. *)
Lemma getVisibleVariables_proto_has_no_entry :
  lambda_typed_getVisibleVariables 30 (Some 301) (lambda_x_x "__proto__")
  = Ok (mkObject ∅ (Some 60)) (lambda_x_x "__proto__") []
  ∧ allVisibleVariables 2 30 (Some 301) true (lambda_x_x "__proto__")
    = Ok ∅ (lambda_x_x "__proto__") []
  ∧ lambda_typed_getVisibleVariables 30 (Some 301) (lambda_x_x "y")
    = Ok (mkObject {["y" := 60]} None) (lambda_x_x "y") []
  ∧ allVisibleVariables 2 30 (Some 301) true (lambda_x_x "y")
    = Ok {["y" := 60]} (lambda_x_x "y") [].
Proof. repeat split; vm_compute; reflexivity. Qed.

(** ** Resetting types *)

Lemma find_input_socket (st : State) (l : list Input) (n : string) (e : TypeExpr) :
  assoc_lookup n (omap (λ input, e ← socket_of st input; Some (name input, e)) l)
  = Some e →
  n ∉ name <$> filter (λ input, socket_of st input = None) l →
  ∃ input, List.find (λ input, bool_decide (name input = n)) l = Some input
           ∧ socket_of st input = Some e.
Proof.
  induction l as [|input l IH]; simpl; [done |].
  intros Hlook Hplain.
  destruct (socket_of st input) as [e'|] eqn:Hs; simpl in *.
  - rewrite filter_cons_False in Hplain by (by rewrite Hs).
    case_bool_decide; [naive_solver | by apply IH].
  - rewrite filter_cons_True in Hplain by done.
    rewrite fmap_cons, not_elem_of_cons in Hplain. destruct Hplain as [Hn Hplain].
    rewrite bool_decide_false by done. by apply IH.
Qed.

Lemma input_typeExpr_run (st : State) (this : nat) (B : Block) (n : string)
    (e : TypeExpr) :
  blocks st !! this = Some B →
  assoc_lookup n (input_sockets st B) = Some e →
  n ∉ plain_input_names st B →
  input_typeExpr this n st = Ok (Some e) st [].
Proof.
  intros HB Hlook Hplain.
  destruct (find_input_socket st _ n e Hlook Hplain) as (input & Hfind & Hs).
  unfold input_typeExpr, getInput. mrun. rewrite Hfind.
  unfold socket_of in Hs.
  destruct (connection input) as [c|]; [| done]. simpl in Hs.
  destruct (connections st !! c) as [C|] eqn:HC; [| done]. simpl in Hs.
  mrun. by rewrite Hs.
Qed.

Lemma output_typeExpr_run (st : State) (this : nat) (B : Block) (e : TypeExpr) :
  blocks st !! this = Some B →
  output_socket st B = Some e →
  output_typeExpr this st = Ok (Some e) st [].
Proof.
  intros HB Hs. unfold output_typeExpr. mrun.
  unfold output_socket in Hs.
  destruct (outputConnection B) as [c|]; [| done]. simpl in Hs.
  destruct (connections st !! c) as [C|] eqn:HC; [| done]. simpl in Hs.
  mrun. by rewrite Hs.
Qed.

Lemma clear_run (t : TypeExpr) (st : State) :
  clear t st = Ok tt (cleared t st) [EvClear t].
Proof. unfold clear. rewrite bind_emit. by destruct t. Qed.

Lemma bind_clear {B} (t : TypeExpr) (k : unit → M B) (st : State) :
  (clear t ≫= k) st = prepend [EvClear t] (k tt (cleared t st)).
Proof. apply bind_run, clear_run. Qed.






(** Case analysis on the next lookup of a run. *)
Ltac mcase :=
  match goal with
  | |- context [(getBlock ?b ≫= _) ?st] =>
      let H := fresh "HB" in
      destruct (blocks st !! b) eqn:H;
      [rewrite (bind_getBlock _ _ _ _ H) | rewrite (bind_getBlock_None _ _ _ H)]
  | |- context [(getConnection ?c ≫= _) ?st] =>
      let H := fresh "HC" in
      destruct (connections st !! c) eqn:H;
      [rewrite (bind_getConnection _ _ _ _ H)
      | rewrite (bind_getConnection_None _ _ _ H)]
  end.


Lemma input_sockets_ext (st s : State) (B : Block) :
  connections s = connections st → input_sockets s B = input_sockets st B.
Proof. intros H. unfold input_sockets, socket_of. by rewrite H. Qed.

Lemma plain_input_names_ext (st s : State) (B : Block) :
  connections s = connections st → plain_input_names s B = plain_input_names st B.
Proof. intros H. unfold plain_input_names, socket_of. by rewrite H. Qed.

Lemma bind_input_typeExpr {X} (st s : State) (this : nat) (B : Block) (n : string)
    (e : TypeExpr) (k : option TypeExpr → M X) :
  blocks s !! this = Some B →
  connections s = connections st →
  assoc_lookup n (input_sockets st B) = Some e →
  n ∉ plain_input_names st B →
  (input_typeExpr this n ≫= k) s = k (Some e) s.
Proof.
  intros HB Hc Hl Hp. apply bind_Ok, (input_typeExpr_run s this B n e HB).
  - by rewrite (input_sockets_ext st s B Hc).
  - by rewrite (plain_input_names_ext st s B Hc).
Qed.

Lemma bind_output_typeExpr {X} (st s : State) (this : nat) (B : Block)
    (e : TypeExpr) (k : option TypeExpr → M X) :
  blocks s !! this = Some B →
  connections s = connections st →
  output_socket st B = Some e →
  (output_typeExpr this ≫= k) s = k (Some e) s.
Proof.
  intros HB Hc Ho. apply bind_Ok, (output_typeExpr_run s this B e HB).
  unfold output_socket in *. by rewrite Hc.
Qed.


Lemma prepend_cons_eq {A} (e : Event) (l : list Event) (o1 o2 : Outcome A) :
  o1 = prepend l o2 → prepend [e] o1 = prepend (e :: l) o2.
Proof. intros ->. by rewrite prepend_prepend. Qed.

Ltac peel :=
  match goal with
  | |- prepend [?e] ?o1 = prepend (?e :: ?l) ?o2 =>
      apply (prepend_cons_eq e l o1 o2)
  | |- ?o1 = prepend [] ?o2 => exact (eq_sym (prepend_nil o1))
  end.

Ltac elem_of_list :=
  first [apply list_elem_of_here | apply list_elem_of_further; elem_of_list].

Ltac elem_of_cases H :=
  repeat (apply elem_of_cons in H as [H|H]; [try discriminate H |]);
  try (by apply elem_of_nil in H).

Lemma with_cells_with_cells (c c' : gmap nat TypeExpr) (st : State) :
  with_cells c (with_cells c' st) = with_cells c st.
Proof. done. Qed.

Lemma with_cells_same (st : State) : with_cells (typeCells st) st = st.
Proof. by destruct st. Qed.

Lemma wipe_app (xs ys : list nat) (cells : gmap nat TypeExpr) :
  wipe (xs ++ ys) cells = wipe ys (wipe xs cells).
Proof. unfold wipe. by rewrite foldl_app. Qed.

Lemma wipe_lookup_in (xs : list nat) (cells : gmap nat TypeExpr) (x : nat) :
  x ∈ xs → wipe xs cells !! x = None.
Proof.
  unfold wipe. revert cells. induction xs as [|y xs IH]; intros cells Hin.
  - by apply elem_of_nil in Hin.
  - simpl. destruct (decide (x ∈ xs)) as [Hxs|Hxs]; [by apply IH |].
    apply elem_of_cons in Hin as [->|Hin]; [| done].
    clear IH. revert cells. induction xs as [|z xs IH]; intros cells.
    + simpl. by rewrite lookup_delete_eq.
    + simpl. apply not_elem_of_cons in Hxs as [Hne Hxs].
      rewrite delete_delete. by apply IH.
Qed.


Lemma cleared_cells_app (l1 l2 : list Event) :
  cleared_cells (l1 ++ l2) = cleared_cells l1 ++ cleared_cells l2.
Proof. unfold cleared_cells. by rewrite omap_app. Qed.

Lemma deletes_ret {A} (a : A) : deletes (ret a).
Proof. intros st. by exists (Some (inl a)), []. Qed.

Lemma deletes_throw {A} msg : deletes (@throw A msg).
Proof. intros st. by exists (Some (inr msg)), []. Qed.

Lemma deletes_TypeError {A} : deletes (@TypeError A).
Proof. intros st. by exists (Some (inr "TypeError")), []. Qed.

Lemma deletes_out_of_fuel {A} : deletes (@out_of_fuel A).
Proof. intros st. by exists None, []. Qed.

Lemma deletes_emit_clearTypes b : deletes (emit (EvClearTypes b)).
Proof. intros st. by exists (Some (inl tt)), [EvClearTypes b]. Qed.

Lemma deletes_clear t : deletes (clear t).
Proof.
  intros st. exists (Some (inl tt)), [EvClear t]. intros cells.
  unfold clear. rewrite bind_emit. by destruct t.
Qed.

Lemma deletes_getBlock b : deletes (getBlock b).
Proof.
  intros st. unfold getBlock. destruct (blocks st !! b) as [B|] eqn:HB.
  - exists (Some (inl B)), []. intros cells. simpl. by rewrite HB.
  - exists (Some (inr "TypeError")), []. intros cells. simpl. by rewrite HB.
Qed.

Lemma deletes_getConnection c : deletes (getConnection c).
Proof.
  intros st. unfold getConnection. destruct (connections st !! c) as [C|] eqn:HC.
  - exists (Some (inl C)), []. intros cells. simpl. by rewrite HC.
  - exists (Some (inr "TypeError")), []. intros cells. simpl. by rewrite HC.
Qed.

Lemma deletes_bind {A B} (m : M A) (k : A → M B) :
  deletes m → (∀ a, deletes (k a)) → deletes (m ≫= k).
Proof.
  intros Hm Hk st. destruct (Hm st) as (r & l & Hr).
  destruct r as [[a|msg]|].
  - destruct (Hk a st) as (r' & l' & Hr'). exists r', (l ++ l').
    intros cells. unfold mbind, M_bind, bind. rewrite Hr. simpl.
    rewrite Hr'. rewrite cleared_cells_app, wipe_app.
    by destruct r' as [[?|?]|].
  - exists (Some (inr msg)), l. intros cells.
    unfold mbind, M_bind, bind. by rewrite Hr.
  - exists None, []. intros cells.
    unfold mbind, M_bind, bind. by rewrite Hr.
Qed.

Create HintDb deletes.
Global Hint Resolve deletes_ret deletes_throw deletes_TypeError
  deletes_out_of_fuel deletes_emit_clearTypes deletes_clear deletes_getBlock
  deletes_getConnection : deletes.

Ltac deletes :=
  repeat first
    [ solve [eauto with deletes]
    | apply deletes_bind; [| intros ?]
    | match goal with
      | |- deletes (match ?x with _ => _ end) => destruct x
      | |- deletes (if ?x then _ else _) => destruct x
      end ].

Lemma deletes_getInput this n : deletes (getInput this n).
Proof. unfold getInput. deletes. Qed.

Lemma deletes_targetBlock c : deletes (targetBlock c).
Proof. unfold targetBlock. deletes. Qed.

Lemma deletes_input_typeExpr this n : deletes (input_typeExpr this n).
Proof. unfold input_typeExpr. pose proof deletes_getInput. deletes. Qed.

Lemma deletes_output_typeExpr this : deletes (output_typeExpr this).
Proof. unfold output_typeExpr. deletes. Qed.

Lemma deletes_prop f e : deletes (prop f e).
Proof. unfold prop. deletes. Qed.

Lemma deletes_clear_opt t : deletes (clear_opt t).
Proof. unfold clear_opt. deletes. Qed.

Global Hint Resolve deletes_getInput deletes_targetBlock deletes_input_typeExpr
  deletes_output_typeExpr deletes_prop deletes_clear_opt : deletes.

Lemma deletes_callClearTypes_ (clearTypes' : nat → M unit) this n :
  (∀ child, deletes (clearTypes' child)) →
  deletes (callClearTypes_ clearTypes' this n).
Proof. intros H. unfold callClearTypes_. deletes. Qed.

Lemma deletes_clearTypes fuel this : deletes (clearTypes fuel this).
Proof.
  revert this. induction fuel as [|fuel IH]; intros this; simpl; [deletes |].
  pose proof (deletes_callClearTypes_ (clearTypes fuel) this) as Hcall.
  apply deletes_bind; [deletes | intros _].
  apply deletes_bind; [deletes | intros B].
  destruct (type B); deletes.
  induction (seq 0 (itemCount_ B)) as [|x xs IHxs]; simpl; deletes.
Qed.

Lemma bind_ext {A B} (m : M A) (k k' : A → M B) (st : State) :
  (∀ a s, k a s = k' a s) → (m ≫= k) st = (m ≫= k') st.
Proof.
  intros H. unfold mbind, M_bind, bind. destruct (m st); [| done..].
  by rewrite H.
Qed.

Lemma seq_ret_tt (m : M unit) (st : State) : (m;; ret tt) st = m st.
Proof.
  unfold mbind, M_bind, bind. destruct (m st) as [[] s l| |]; [| done..].
  simpl. by rewrite app_nil_r.
Qed.

Lemma bind_Ok_inv {A B} (m : M A) (k : A → M B) st b st' l :
  (m ≫= k) st = Ok b st' l →
  ∃ a s1 l1 l2, m st = Ok a s1 l1 ∧ k a s1 = Ok b st' l2 ∧ l = l1 ++ l2.
Proof.
  unfold mbind, M_bind, bind. destruct (m st) as [a s1 l1|msg s1 l1|]; [| done..].
  destruct (k a s1) as [b' s2 l2|msg s2 l2|] eqn:Hk; [| done..].
  simpl. intros [= -> -> <-]. by exists a, s1, l1, l2.
Qed.

Lemma prepend_Ok_inv {A} (l1 : list Event) (o : Outcome A) a st l :
  prepend l1 o = Ok a st l → ∃ l2, o = Ok a st l2 ∧ l = l1 ++ l2.
Proof. destruct o; [| done..]. simpl. intros [= -> -> <-]. eauto. Qed.

(** A run that only clears type variables leaves blocks and connections as
    they are. *)
Lemma deletes_structure {A} (m : M A) (st st' : State) (a : A) (l : list Event) :
  deletes m → m st = Ok a st' l →
  st' = with_cells (wipe (cleared_cells l) (typeCells st)) st.
Proof.
  intros Hm Hrun. destruct (Hm st) as (r & l' & Hr).
  specialize (Hr (typeCells st)). rewrite with_cells_same, Hrun in Hr.
  destruct r as [[?|?]|]; [| done..]. by injection Hr as -> -> ->.
Qed.

Lemma plugged_into_ext (st s : State) (c : nat) :
  connections s = connections st → plugged_into s c = plugged_into st c.
Proof. intros H. unfold plugged_into. by rewrite H. Qed.

(** [callClearTypes_] on an input with a block plugged in is the hook of
    that block, if it has one. *)
Lemma callClearTypes__run (f : nat → M unit) (st : State) (this child : nat)
    (B CB : Block) (n : string) (input : Input) (c : nat) :
  blocks st !! this = Some B →
  List.find (λ i, bool_decide (name i = n)) (inputList B) = Some input →
  connection input = Some c →
  plugged_into st c = Some child →
  blocks st !! child = Some CB →
  callClearTypes_ f this n st
  = if has_infer (type CB) then f child st else Ok tt st [].
Proof.
  intros HB Hfind Hc Hplug HCB. unfold callClearTypes_, getInput, targetBlock.
  mrun. rewrite Hfind, Hc. unfold plugged_into in Hplug.
  destruct (connections st !! c) as [C|] eqn:HC; [| done]. simpl in Hplug.
  destruct (targetConnection C) as [tc|] eqn:Htc; [| done]. simpl in Hplug.
  destruct (connections st !! tc) as [T|] eqn:HT; [| done].
  injection Hplug as <-.
  mrun. rewrite Htc. mrun. by destruct (has_infer (type CB)).
Qed.

Lemma clear_children_cons (fuel this : nat) (n : string) (ns : list string)
    (st : State) :
  clear_children fuel this (n :: ns) st
  = (callClearTypes_ (clearTypes fuel) this n;; clear_children fuel this ns) st.
Proof. done. Qed.

Lemma deletes_clear_children fuel this names :
  deletes (clear_children fuel this names).
Proof.
  induction names as [|n ns IH]; [apply deletes_ret |].
  apply deletes_bind; [| by intros _].
  apply deletes_callClearTypes_, deletes_clearTypes.
Qed.

(** Each of the calls of a returning [clear_children] returned, on a store
    that differs from the first in type cells only. *)
Lemma clear_children_calls (fuel this : nat) (names : list string)
    (st st' : State) (l : list Event) (n : string) :
  clear_children fuel this names st = Ok tt st' l →
  n ∈ names →
  ∃ cells s2 l1 l2 l3,
    callClearTypes_ (clearTypes fuel) this n (with_cells cells st) = Ok tt s2 l2
    ∧ l = l1 ++ l2 ++ l3.
Proof.
  revert st l. induction names as [|m ns IH]; intros st l Hrun Hn.
  - by apply elem_of_nil in Hn.
  - rewrite clear_children_cons in Hrun.
    apply bind_Ok_inv in Hrun as ([] & s1 & l1 & l2 & Hcall & Hrest & ->).
    apply elem_of_cons in Hn as [->|Hn].
    + exists (typeCells st), s1, [], l1, l2. by rewrite with_cells_same.
    + pose proof (deletes_structure _ _ _ _ _
                    (deletes_callClearTypes_ _ this m (deletes_clearTypes fuel))
                    Hcall) as Hs1.
      destruct (IH _ _ Hrest Hn) as (cells & s2 & k1 & k2 & k3 & Hc & ->).
      rewrite Hs1, with_cells_with_cells in Hc.
      exists cells, s2, (l1 ++ k1), k2, k3. split; [done |].
      by rewrite <- !app_assoc.
Qed.


Lemma cleared_all_structure (own : list TypeExpr) (st : State) :
  ∃ cells, cleared_all own st = with_cells cells st.
Proof.
  revert st. induction own as [|t own IH]; intros st.
  - exists (typeCells st). by rewrite with_cells_same.
  - destruct (IH (cleared t st)) as (cells & Hc). exists cells.
    unfold cleared_all in *. simpl. rewrite Hc. by destruct t.
Qed.

(** The run of [clearTypes] on a block whose sockets are as declared: the
    block's own type expressions are cleared, then the inputs are gone
    through. *)
Lemma clearTypes_declared_run (fuel : nat) (st : State) (this : nat) (B : Block) :
  blocks st !! this = Some B →
  as_declared st B →
  ∃ (own : list TypeExpr) (names : list string),
    clearTypes (S fuel) this st
    = prepend (EvClearTypes this :: (EvClear <$> own))
        (clear_children fuel this names (cleared_all own st))
    ∧ names ≡ₚ (input_sockets st B).*1
    ∧ (type B ≠ pair_first_typed → type B ≠ pair_second_typed →
       ∀ t x, t ∈ socket_typeExprs st B → x ∈ vars t → TVAR x ∈ own)
    ∧ (∀ x, TVAR x ∈ socket_typeExprs st B → TVAR x ∈ own).
Proof.
  intros HB (out & Hout & Hdecl & Hplain).
  assert (Hsock : socket_typeExprs st B = out :: (input_sockets st B).*2).
  { unfold socket_typeExprs. by rewrite Hout. }
  rewrite Hsock. clear Hsock.
  simpl clearTypes. rewrite bind_emit. mrun.
  inversion Hdecl as [n a Ht Hn Ho Hins|n a Ht Hn Ho Hins|n Ht Hn Ho Hins
                     |n Ht Hn Ho Hins|n e Ht Hn Ho Hins|n a b Ht Hn Ho Hins
                     |n a b Ht Hn Ho Hins|n a b Ht Hn Ho Hins|n a b Ht Hn Ho Hins
                     |n a b Ht Hn Ho Hins|n a b Ht Hn Ho Hins|n a Ht Hn Ho Hins
                     |n a b Ht Hn Ho Hins];
    subst;
    [ exists [TVAR a], ["A"; "B"] | exists [TVAR a], ["IF"; "THEN"; "ELSE"]
    | exists [], ["A"; "B"] | exists [], ["A"; "B"]
    | exists [TVAR e], (ADD <$> seq 0 (itemCount_ B))
    | exists [TVAR a; TVAR b], ["FIRST"; "SECOND"]
    | exists [TVAR a], ["FIRST"] | exists [TVAR b], ["SECOND"]
    | exists [TVAR a; TVAR b], ["RETURN"]
    | exists [TVAR a; TVAR b], ["FUN"; "ARG"]
    | exists [TVAR b; TVAR a],
        ["INPUT"; "PATTERN1"; "PATTERN2"; "OUTPUT1"; "OUTPUT2"]
    | exists [TVAR a], []
    | exists [TVAR a; TVAR b], ["EXP1"; "EXP2"] ];
    (split;
     [ repeat first
         [ progress autorewrite with mrun
         | erewrite (bind_output_typeExpr st)
             by first [exact HB | reflexivity | exact Hout]
         | erewrite (bind_input_typeExpr st)
             by first [exact HB | reflexivity | by rewrite <- Hins
                      | apply Hplain; rewrite <- Hins; simpl; elem_of_list]
         | rewrite bind_clear
         | progress simpl prop
         | progress simpl clear_opt ];
       simpl fmap; repeat peel; try rewrite prepend_nil;
       unfold clear_children, cleared_all; simpl foldl;
       try rewrite foldr_fmap; simpl foldr;
       repeat (apply bind_ext; intros [] ?);
       try (symmetry; apply seq_ret_tt); try reflexivity
     | try rewrite <- Hins; split; [| split] ]).
  all: try (simpl; reflexivity).
  all: try (intros _ _ t0 x0 Hmem Hvar; simpl in Hmem; elem_of_cases Hmem; subst;
            simpl in Hvar; elem_of_cases Hvar; subst; elem_of_list).
  all: try (intros x0 Hmem; simpl in Hmem; elem_of_cases Hmem; simplify_eq;
            elem_of_list).
  all: try (intros Hne; congruence).
  - by rewrite <- list_fmap_compose.
  - intros _ _ t0 x0 Hmem Hvar.
    apply elem_of_cons in Hmem as [->|Hmem].
    + simpl in Hvar. elem_of_cases Hvar. subst. elem_of_list.
    + apply list_elem_of_fmap in Hmem as ([n' t'] & -> & Hmem).
      apply list_elem_of_fmap in Hmem as (y & [= -> ->] & _).
      simpl in Hvar. elem_of_cases Hvar. subst. elem_of_list.
  - intros x0 Hmem. apply elem_of_cons in Hmem as [Hmem|Hmem]; [done |].
    apply list_elem_of_fmap in Hmem as ([n' t'] & -> & Hmem).
    apply list_elem_of_fmap in Hmem as (y & [= -> ->] & _). elem_of_list.
  - simpl. do 2 apply perm_skip. apply perm_swap.
Qed.
Lemma input_sockets_elem (st : State) (B : Block) (n : string) (input : Input)
    (e : TypeExpr) :
  List.find (λ i, bool_decide (name i = n)) (inputList B) = Some input →
  socket_of st input = Some e →
  (n, e) ∈ input_sockets st B.
Proof.
  intros Hfind Hs. apply find_some in Hfind as [Hin Hn].
  apply bool_decide_eq_true in Hn as <-.
  apply list_elem_of_omap. exists input. split; [by apply list_elem_of_In |].
  by rewrite Hs.
Qed.



(** ** Scope resolution without binding *)


Lemma quiet_ret {A} (a : A) : quiet (ret a).
Proof. by intros st. Qed.

Lemma quiet_throw {A} msg : quiet (@throw A msg).
Proof. by intros st. Qed.

Lemma quiet_TypeError {A} : quiet (@TypeError A).
Proof. by intros st. Qed.

Lemma quiet_out_of_fuel {A} : quiet (@out_of_fuel A).
Proof. by intros st. Qed.

Lemma quiet_getBlock b : quiet (getBlock b).
Proof. intros st. unfold getBlock. by destruct (blocks st !! b). Qed.

Lemma quiet_getConnection c : quiet (getConnection c).
Proof. intros st. unfold getConnection. by destruct (connections st !! c). Qed.

Lemma quiet_getBoundVariable v : quiet (getBoundVariable v).
Proof. intros st. unfold getBoundVariable. by destruct (variables st !! v). Qed.

Lemma quiet_bind {A B} (m : M A) (k : A → M B) :
  quiet m → (∀ a, quiet (k a)) → quiet (m ≫= k).
Proof.
  intros Hm Hk st. unfold mbind, M_bind, bind. specialize (Hm st).
  destruct (m st) as [a st1 l1|msg st1 l1|]; [| done..].
  destruct Hm as [-> ->]. specialize (Hk a st).
  by destruct (k a st).
Qed.

Create HintDb quiet.
Global Hint Resolve quiet_ret quiet_throw quiet_TypeError quiet_out_of_fuel
  quiet_getBlock quiet_getConnection quiet_getBoundVariable : quiet.

Ltac quiet :=
  repeat first
    [ apply quiet_bind; [| intros ?]
    | progress eauto with quiet
    | match goal with
      | |- quiet (match ?x with _ => _ end) => destruct x
      | |- quiet (if ?x then _ else _) => destruct x
      end ].

Lemma quiet_getSourceBlock c : quiet (getSourceBlock c).
Proof. unfold getSourceBlock. quiet. Qed.

Lemma quiet_getInput this n : quiet (getInput this n).
Proof. unfold getInput. quiet. Qed.

Lemma quiet_getBoundVariables this : quiet (getBoundVariables this).
Proof. unfold getBoundVariables. quiet. Qed.

Global Hint Resolve quiet_getSourceBlock quiet_getInput quiet_getBoundVariables
  : quiet.















(** ** Disposal *)

Lemma Connection_dispose_run (st : State) (c : nat) (C : Connection) :
  connections st !! c = Some C →
  targetConnection C = None →
  Connection_dispose c st
  = Ok tt (set_connections (alter (with_inDB false) c) st) [EvConnectionDispose c].
Proof.
  intros HC Ht. unfold Connection_dispose. mrun. rewrite Ht.
  rewrite bool_decide_false by (by intros H; apply H).
  rewrite bind_emit. unfold updConnection, modify. done.
Qed.

Lemma fields_log_run {A} (b : nat) (n : string) (fields : list Field) (k : M A)
    (st : State) :
  (foldr (λ f k, emit (EvFieldDispose b n (field_name f));; k) (ret tt) fields
   ≫= λ _, k) st
  = prepend ((λ f, EvFieldDispose b n (field_name f)) <$> fields) (k st).
Proof.
  induction fields as [|f fields IH]; simpl.
  - by rewrite bind_ret, prepend_nil.
  - rewrite bind_bind, bind_emit, IH. rewrite prepend_prepend. done.
Qed.

Lemma dispose_inputs_run (st : State) (b : nat) (l : list Input) :
  (∀ c, c ∈ omap connection l →
        ∃ C, connections st !! c = Some C ∧ targetConnection C = None) →
  dispose_inputs b l st
  = Ok tt (set_connections
             (λ m, foldl (λ m c, alter (with_inDB false) c m) m (omap connection l))
             st)
       (mjoin (input_log b <$> l)).
Proof.
  revert st. induction l as [|input l IH]; intros st Hc.
  - simpl. by destruct st.
  - simpl dispose_inputs. unfold Input_dispose.
    rewrite bind_bind, bind_emit. cbv beta. rewrite bind_bind, fields_log_run.
    simpl omap in *. simpl fmap. simpl mjoin. unfold input_log at 1.
    destruct (connection input) as [c|] eqn:Hci; simpl option_list.
    + destruct (Hc c) as (C & HC & Ht); [by left |].
      rewrite (bind_run _ _ _ _ _ _ (Connection_dispose_run st c C HC Ht)).
      rewrite IH.
      * simpl. rewrite <- !app_assoc. done.
      * intros c' Hc'. destruct (Hc c') as (C' & HC' & Ht'); [by right |].
        simpl. destruct (decide (c = c')) as [->|Hne].
        -- rewrite lookup_alter_eq, HC'. simpl. eauto.
        -- rewrite lookup_alter_ne by done. eauto.
    + rewrite bind_ret. rewrite IH by done. simpl. rewrite app_nil_r. done.
Qed.

Lemma dispose_connections_run (st : State) (l : list nat) :
  (∀ c, c ∈ l → ∃ C, connections st !! c = Some C ∧ targetConnection C = None) →
  dispose_connections l st
  = Ok tt (set_connections (λ m, foldl (λ m c, alter (with_inDB false) c m) m l) st)
       (EvConnectionDispose <$> l).
Proof.
  revert st. induction l as [|c l IH]; intros st Hc.
  - simpl. by destruct st.
  - simpl dispose_connections. unfold isConnected.
    destruct (Hc c) as (C & HC & Ht); [by left |].
    mrun. rewrite Ht. rewrite bool_decide_false by (by intros H; apply H).
    mrun. rewrite (bind_run _ _ _ _ _ _ (Connection_dispose_run st c C HC Ht)).
    rewrite IH.
    + done.
    + intros c' Hc'. destruct (Hc c') as (C' & HC' & Ht'); [by right |].
      simpl. destruct (decide (c = c')) as [->|Hne].
      * rewrite lookup_alter_eq, HC'. simpl. eauto.
      * rewrite lookup_alter_ne by done. eauto.
Qed.

Lemma dispose_values_run (st : State) (b : nat) (l : list (string * nat)) :
  (∀ n v, (n, v) ∈ l → is_Some (variables st !! v)) →
  ∃ vars, dispose_values b l st
          = Ok tt (set_variables (λ _, vars) st) (values_log b l)
          ∧ ∀ v, is_Some (vars !! v) ↔ is_Some (variables st !! v).
Proof.
  revert st. induction l as [|[n v] l IH]; intros st Hv.
  - exists (variables st). simpl. split; [by destruct st | done].
  - simpl. case_bool_decide.
    + exists (variables st). split; [by destruct st | done].
    + destruct (Hv n v) as [V HV]; [by left |].
      unfold Value_dispose. mrun. rewrite bind_emit. cbv beta. mrun.
      edestruct (IH (set_variables
                       (λ m, unbind_from v <$> alter (with_disposed true) v m) st))
        as (vars & Hrun & Hdom).
      * intros n' v' Hin. simpl. rewrite lookup_fmap, fmap_is_Some.
        destruct (Hv n' v') as [V' HV']; [by right |].
        destruct (decide (v = v')) as [->|Hne].
        -- rewrite lookup_alter_eq, HV'. by eexists.
        -- rewrite lookup_alter_ne by done. eauto.
      * exists vars. rewrite Hrun. split; [by destruct st |].
        intros v'. rewrite Hdom. simpl. rewrite lookup_fmap, fmap_is_Some.
        destruct (decide (v = v')) as [->|Hne].
        -- rewrite lookup_alter_eq. by rewrite fmap_is_Some.
        -- by rewrite lookup_alter_ne by done.
Qed.

Lemma isConnected_run (st : State) (c : nat) (C : Connection) :
  connections st !! c = Some C →
  isConnected c st = Ok (bool_decide (targetConnection C ≠ None)) st [].
Proof. intros H. unfold isConnected. by mrun. Qed.

Lemma state_eq (s1 s2 : State) :
  blocks s1 = blocks s2 → connections s1 = connections s2 →
  variables s1 = variables s2 → typeCells s1 = typeCells s2 →
  topBlocks_ s1 = topBlocks_ s2 → blockDB_ s1 = blockDB_ s2 →
  eventsDisabled_ s1 = eventsDisabled_ s2 → selected s1 = selected s2 →
  s1 = s2.
Proof. destruct s1, s2; simpl; congruence. Qed.

Lemma disconnect_linked (st : State) (b c sc tc : nat) (Bb C : Block)
    (SC TC : Connection) :
  blocks st !! b = Some Bb → blocks st !! c = Some C → b ≠ c →
  parentBlock_ C = Some b → workspace C = true →
  superior C = Some sc →
  outputConnection C = None ∨ previousConnection C = None →
  connections st !! sc = Some SC → is_plug (type_ SC) = true →
  sourceBlock_ SC = c → targetConnection SC = Some tc →
  connections st !! tc = Some TC → sc ≠ tc →
  disconnect sc st = Ok tt (unlinked b c sc tc st) [EvConnectionDisconnect sc].
Proof.
  intros HBb HC Hbc Hp Hw Hsup Hone HSC Hplug Hsrc Ht HTC Hne.
  unfold disconnect. mrun. rewrite Ht. mrun. rewrite bind_emit. cbv beta. mrun.
  rewrite Hplug, Hsrc. unfold setParent.
  rewrite (bind_getBlock c _ _ C) by exact HC.
  rewrite Hp, bool_decide_false by done. rewrite Hw.
  rewrite bind_bind.
  rewrite (bind_getBlock b _ _ Bb) by exact HBb.
  mrun.
  match goal with
  | |- context [set_blocks _ ?s] =>
      assert (Hsc : connections (set_blocks (alter (with_childBlocks (array_remove c)) b) s)
                    !! sc = Some (freed_connection SC))
  end.
  { simpl. rewrite lookup_alter_ne by done. by rewrite lookup_alter_eq, HSC. }
  unfold superior in Hsup.
  destruct (outputConnection C) as [oc|] eqn:Hout.
  - destruct Hone as [Hone|Hone]; [done |]. rewrite Hone.
    injection Hsup as ->. mrun.
    rewrite (bind_Ok _ _ _ _ _ (isConnected_run _ sc _ Hsc)).
    rewrite bool_decide_false by (by intros H; apply H). mrun.
    unfold addTopBlock, modify, prepend, unlinked. f_equal.
    apply state_eq; try reflexivity.
    simpl. rewrite alter_alter_eq. apply alter_ext. by intros [].
  - rewrite Hsup.
    rewrite (bind_Ok _ _ _ _ _ (isConnected_run _ sc _ Hsc)).
    rewrite bool_decide_false by (by intros H; apply H). mrun.
    unfold addTopBlock, modify, prepend, unlinked. f_equal.
    apply state_eq; try reflexivity.
    simpl. rewrite alter_alter_eq. apply alter_ext. by intros [].
Qed.

Lemma Tree_forall_ind (P : Tree → Prop) :
  (∀ b ks, Forall P ks → P (Node b ks)) → ∀ t, P t.
Proof.
  intros H t. remember (tree_size t) as n eqn:Hn.
  assert (Hle : tree_size t ≤ n) by lia. clear Hn. revert t Hle.
  induction n as [|n IH]; intros [b ks] Hle; simpl in Hle; [lia |].
  apply H. apply le_S_n in Hle. revert Hle.
  induction ks as [|k ks IHks]; intros Hle; [constructor |].
  constructor; [apply IH; lia | apply IHks; lia].
Qed.

Lemma nodes_node (b : nat) (ks : list Tree) :
  nodes (Node b ks) = b :: mjoin (nodes <$> ks).
Proof.
  simpl. f_equal. induction ks as [|k ks IH]; [done |]. simpl. by rewrite IH.
Qed.

Lemma tree_size_kids (b : nat) (ks : list Tree) :
  tree_size (Node b ks) = S (sum_list_with tree_size ks).
Proof. done. Qed.

Lemma root_in_nodes (t : Tree) : root t ∈ nodes t.
Proof. destruct t. simpl. by left. Qed.

Lemma tree_connections_node (st : State) (b : nat) (ks : list Tree) :
  tree_connections st (Node b ks)
  = connections_of st b ++ mjoin (tree_connections st <$> ks).
Proof.
  unfold tree_connections. rewrite nodes_node.
  change (connections_of st b ++ mjoin (connections_of st <$> mjoin (nodes <$> ks))
          = connections_of st b
            ++ mjoin ((λ t, mjoin (connections_of st <$> nodes t)) <$> ks)).
  f_equal. induction ks as [|k ks IH]; [done |].
  change (mjoin (nodes <$> k :: ks)) with (nodes k ++ mjoin (nodes <$> ks)).
  rewrite fmap_app, join_app, IH. done.
Qed.

Lemma teardown_log_node (st : State) (b : nat) (ks : list Tree) :
  teardown_log st (Node b ks)
  = kids_log st b ks ++ match blocks st !! b with
                        | Some B => own_log b B
                        | None => []
                        end.
Proof.
  simpl. f_equal. induction ks as [|k ks IH]; [done |]. simpl. by rewrite IH.
Qed.

Lemma kids_log_app (st : State) (b : nat) (ks1 ks2 : list Tree) :
  kids_log st b (ks1 ++ ks2) = kids_log st b ks2 ++ kids_log st b ks1.
Proof.
  induction ks1 as [|k ks1 IH]; simpl.
  - by rewrite app_nil_r.
  - rewrite IH. by rewrite app_assoc.
Qed.

Lemma tree_connections_frame (st st' : State) (t : Tree) :
  (∀ x, x ∈ nodes t → blocks st' !! x = blocks st !! x) →
  tree_connections st' t = tree_connections st t.
Proof.
  unfold tree_connections. induction (nodes t) as [|x l IH]; intros H; [done |].
  simpl. unfold connections_of at 1 3. rewrite H by (by left).
  f_equal. apply IH. intros y Hy. apply H. by right.
Qed.

Lemma teardown_log_frame (st st' : State) (t : Tree) :
  (∀ x, x ∈ nodes t → blocks st' !! x = blocks st !! x) →
  teardown_log st' t = teardown_log st t.
Proof.
  induction t as [b ks IH] using Tree_forall_ind. intros H.
  rewrite !teardown_log_node. rewrite nodes_node in H.
  rewrite H by (by left). f_equal.
  assert (Hks : ∀ x, x ∈ mjoin (nodes <$> ks) → blocks st' !! x = blocks st !! x).
  { intros x Hx. apply H. by right. }
  clear H. induction ks as [|k ks IHks]; [done |].
  simpl in Hks. inversion IH as [|? ? Hk Hrest]; subst.
  simpl. rewrite IHks.
  - unfold kid_log. rewrite Hk.
    + rewrite Hks; [done |]. apply elem_of_app. left. apply root_in_nodes.
    + intros x Hx. apply Hks. apply elem_of_app. by left.
  - done.
  - intros x Hx. apply Hks. apply elem_of_app. by right.
Qed.

Lemma same_on_sym_connections (st st' : State) (t : Tree) :
  same_on st st' t →
  ∀ c, c ∈ tree_connections st' t → connections st' !! c = connections st !! c.
Proof.
  intros (Hb & Hc & _) c Hin. apply Hc.
  by rewrite <- (tree_connections_frame st st' t Hb).
Qed.

Lemma nodes_kid (b : nat) (ks : list Tree) (k : Tree) (x : nat) :
  k ∈ ks → x ∈ nodes k → x ∈ nodes (Node b ks).
Proof.
  intros Hk Hx. rewrite nodes_node. right.
  apply list_elem_of_join. exists (nodes k). split; [done |].
  apply list_elem_of_fmap. by exists k.
Qed.

Lemma tree_connections_kid (st : State) (b : nat) (ks : list Tree) (k : Tree)
    (c : nat) :
  k ∈ ks → c ∈ tree_connections st k → c ∈ tree_connections st (Node b ks).
Proof.
  intros Hk Hc. rewrite tree_connections_node. apply elem_of_app. right.
  apply list_elem_of_join. exists (tree_connections st k). split; [done |].
  apply list_elem_of_fmap. by exists k.
Qed.

Lemma tree_connections_own (st : State) (b : nat) (ks : list Tree) (B : Block)
    (c : nat) :
  blocks st !! b = Some B → c ∈ own_connections B →
  c ∈ tree_connections st (Node b ks).
Proof.
  intros HB Hc. rewrite tree_connections_node. apply elem_of_app. left.
  unfold connections_of. by rewrite HB.
Qed.

Lemma connections_of_root (st : State) (t : Tree) (c : nat) :
  c ∈ connections_of st (root t) → c ∈ tree_connections st t.
Proof.
  destruct t as [b ks]. simpl. intros Hc.
  rewrite tree_connections_node. apply elem_of_app. by left.
Qed.

Lemma same_on_kid (st st' : State) (b : nat) (ks : list Tree) (k : Tree) :
  same_on st st' (Node b ks) → k ∈ ks → same_on st st' k.
Proof.
  intros (Hb & Hc & Hv) Hk. split; [| split; [| done]].
  - intros x Hx. apply Hb. by apply (nodes_kid b ks k).
  - intros c Hin. apply Hc. by apply (tree_connections_kid st b ks k).
Qed.

Lemma superior_own (B : Block) (sc : nat) :
  superior B = Some sc → sc ∈ own_connections B.
Proof. intros H. unfold own_connections. rewrite H. by left. Qed.

Lemma inferiors_own (B : Block) (c : nat) :
  c ∈ inferiors B → c ∈ own_connections B.
Proof. intros H. unfold own_connections. apply elem_of_app. by right. Qed.

Lemma linked_frame (st st' : State) (b c tc : nat) :
  linked st b c tc →
  blocks st' !! c = blocks st !! c →
  (∀ x, x ∈ connections_of st c → connections st' !! x = connections st !! x) →
  connections st' !! tc = connections st !! tc →
  linked st' b c tc.
Proof.
  intros (C & sc & SC & TC & HC & Hp & Hsup & HSC & Ht & HTC & Hsrc & Hback)
         Hb Hc Htc.
  exists C, sc, SC, TC. rewrite Hb, Htc. rewrite Hc.
  - done.
  - unfold connections_of. rewrite HC. by apply superior_own.
Qed.

Lemma socket_of_child_frame (st st' : State) (c : nat) :
  blocks st' !! c = blocks st !! c →
  (∀ x, x ∈ connections_of st c → connections st' !! x = connections st !! x) →
  socket_of_child st' c = socket_of_child st c.
Proof.
  intros Hb Hc. unfold socket_of_child. rewrite Hb.
  destruct (blocks st !! c) as [C|] eqn:HC; [| done]. simpl.
  destruct (superior C) as [sc|] eqn:Hsup; [| done]. simpl.
  rewrite Hc; [done |]. unfold connections_of. rewrite HC. by apply superior_own.
Qed.

Lemma block_ok_frame (st st' : State) (b : nat) (B : Block) :
  block_ok st b B →
  (∀ c, c ∈ own_connections B → connections st' !! c = connections st !! c) →
  (∀ v, is_Some (variables st !! v) → is_Some (variables st' !! v)) →
  block_ok st' b B.
Proof.
  intros [Hlive Hone Hnd Hown Hplug Hval] Hc Hv. split; try done.
  - intros c Hin. rewrite Hc by done. by apply Hown.
  - intros sc C Hsup HC. rewrite Hc in HC by (by apply superior_own). eauto.
  - intros n v Hin. apply Hv. eauto.
Qed.

Lemma block_tree_frame (st st' : State) (t : Tree) :
  block_tree st t → same_on st st' t → block_tree st' t.
Proof.
  induction t as [b ks IH] using Tree_forall_ind. intros Ht Hsame.
  inversion Ht as [b' ks' B HB Hok Hch Hlinks Hinf Hkids]; subst.
  pose proof Hsame as (Hb & Hc & Hv).
  assert (Hown : ∀ c, c ∈ own_connections B →
                      connections st' !! c = connections st !! c).
  { intros c Hin. apply Hc. by apply (tree_connections_own st b ks B). }
  assert (Hkid : ∀ k, k ∈ ks →
            blocks st' !! root k = blocks st !! root k
            ∧ ∀ x, x ∈ connections_of st (root k) →
                   connections st' !! x = connections st !! x).
  { intros k Hk. split.
    - apply Hb. apply (nodes_kid b ks k); [done | apply root_in_nodes].
    - intros x Hx. apply Hc. apply (tree_connections_kid st b ks k); [done |].
      by apply connections_of_root. }
  apply (block_tree_node st' b ks B).
  - rewrite Hb; [done |]. rewrite nodes_node. by left.
  - by apply (block_ok_frame st).
  - done.
  - apply Forall_forall. intros k Hk.
    rewrite Forall_forall in Hlinks. destruct (Hlinks k Hk) as (tc & Htc & Hl).
    exists tc. split; [done |]. destruct (Hkid k Hk) as [Hkb Hkc].
    apply (linked_frame st); try done. apply Hown. by apply inferiors_own.
  - intros ic IC Hic HIC. rewrite Hown in HIC by (by apply inferiors_own).
    destruct (Hinf ic IC Hic HIC) as [Hnone | (k & Hk & Hsock)]; [by left |].
    right. exists k. split; [done |]. destruct (Hkid k Hk) as [Hkb Hkc].
    by rewrite (socket_of_child_frame st st').
  - apply Forall_forall. intros k Hk.
    rewrite Forall_forall in IH, Hkids.
    apply IH; [done | by apply Hkids |]. by apply (same_on_kid st st' b ks).
Qed.

Lemma targetBlock_ok (st : State) (nc : nat) (NC : Connection) :
  connections st !! nc = Some NC →
  (∀ t, targetConnection NC = Some t → is_Some (connections st !! t)) →
  ∃ r, targetBlock nc st = Ok r st [].
Proof.
  intros HNC Ht. unfold targetBlock. mrun.
  destruct (targetConnection NC) as [t|]; [| by eexists].
  destruct (Ht t eq_refl) as [T HT]. mrun. by eexists.
Qed.

Lemma unlinked_connection_is_Some (st : State) (b c sc tc x : nat) :
  is_Some (connections (unlinked b c sc tc st) !! x)
  ↔ is_Some (connections st !! x).
Proof.
  simpl. by rewrite !lookup_alter_is_Some.
Qed.

Lemma unplug_linked (st : State) (fuel b c sc tc : nat) (Bb C : Block)
    (SC TC : Connection) :
  blocks st !! b = Some Bb → blocks st !! c = Some C → b ≠ c →
  parentBlock_ C = Some b → workspace C = true →
  superior C = Some sc →
  outputConnection C = None ∨ previousConnection C = None →
  connections st !! sc = Some SC → is_plug (type_ SC) = true →
  sourceBlock_ SC = c → targetConnection SC = Some tc →
  connections st !! tc = Some TC → sc ≠ tc →
  (∀ nc, nextConnection C = Some nc →
         ∃ NC, connections st !! nc = Some NC
               ∧ ∀ t, targetConnection NC = Some t →
                      is_Some (connections st !! t)) →
  unplug fuel c false st
  = Ok tt (unlinked b c sc tc st) [EvUnplug c false; EvConnectionDisconnect sc].
Proof.
  intros HBb HC Hbc Hp Hw Hsup Hone HSC Hplug Hsrc Ht HTC Hne Hnext.
  pose proof (disconnect_linked st b c sc tc Bb C SC TC HBb HC Hbc Hp Hw Hsup
                Hone HSC Hplug Hsrc Ht HTC Hne) as Hdis.
  unfold unplug. rewrite bind_emit. cbv beta. mrun.
  unfold superior in Hsup.
  destruct (outputConnection C) as [oc|] eqn:Hout.
  - injection Hsup as ->.
    rewrite (bind_Ok _ _ _ _ _ (isConnected_run st sc SC HSC)).
    rewrite Ht. rewrite bool_decide_true by done.
    rewrite Hdis. done.
  - rewrite Hsup. mrun. rewrite Ht. mrun.
    rewrite (bind_run _ _ _ _ _ _ Hdis). mrun.
    assert (∃ r, getNextBlock c (unlinked b c sc tc st)
                 = Ok r (unlinked b c sc tc st) []) as [r Hr].
    { unfold getNextBlock.
      assert (HC' : blocks (unlinked b c sc tc st) !! c
                    = Some (with_parentBlock None C)).
      { simpl. rewrite lookup_alter_eq. rewrite lookup_alter_ne by done.
        by rewrite HC. }
      mrun. change (nextConnection (with_parentBlock None C)) with (nextConnection C).
      destruct (nextConnection C) as [nc|] eqn:Hnc; [| by eexists].
      destruct (Hnext nc eq_refl) as (NC & HNC & Htgt).
      assert (is_Some (connections (unlinked b c sc tc st) !! nc)) as [NC' HNC'].
      { apply unlinked_connection_is_Some. by eexists. }
      apply (targetBlock_ok _ nc NC' HNC').
      intros t Ht'. apply unlinked_connection_is_Some.
      simpl in HNC'.
      destruct (decide (tc = nc)) as [->|Hn1].
      { rewrite lookup_alter_eq in HNC'.
        destruct (alter freed_connection sc (connections st) !! nc);
          simplify_eq/=. }
      rewrite lookup_alter_ne in HNC' by done.
      destruct (decide (sc = nc)) as [->|Hn2].
      { rewrite lookup_alter_eq in HNC'.
        destruct (connections st !! nc); simplify_eq/=. }
      rewrite lookup_alter_ne, HNC in HNC' by done.
      injection HNC' as <-. by apply Htgt. }
    rewrite (bind_Ok _ _ _ _ _ Hr).
    destruct r; done.
Qed.

Lemma block_tree_node_ok (st : State) (t : Tree) (x : nat) :
  block_tree st t → x ∈ nodes t → ∃ B, blocks st !! x = Some B ∧ block_ok st x B.
Proof.
  induction t as [b ks IH] using Tree_forall_ind. intros Ht Hx.
  inversion Ht as [b' ks' B HB Hok Hch Hlinks Hinf Hkids]; subst.
  rewrite nodes_node in Hx. apply elem_of_cons in Hx as [->|Hx]; [by eauto |].
  apply list_elem_of_join in Hx as (l & Hx & Hl).
  apply list_elem_of_fmap in Hl as (k & -> & Hk).
  rewrite Forall_forall in IH, Hkids. apply (IH k Hk); [by apply Hkids | done].
Qed.

Lemma tree_connections_elem (st : State) (t : Tree) (c : nat) :
  c ∈ tree_connections st t ↔ ∃ x, x ∈ nodes t ∧ c ∈ connections_of st x.
Proof.
  unfold tree_connections. rewrite list_elem_of_join. split.
  - intros (l & Hc & Hl). apply list_elem_of_fmap in Hl as (x & -> & Hx). eauto.
  - intros (x & Hx & Hc). exists (connections_of st x). split; [done |].
    apply list_elem_of_fmap. eauto.
Qed.

Lemma tree_connections_owner (st : State) (t : Tree) (c : nat) :
  block_tree st t → c ∈ tree_connections st t →
  ∃ C, connections st !! c = Some C ∧ sourceBlock_ C ∈ nodes t.
Proof.
  intros Ht Hc. apply tree_connections_elem in Hc as (x & Hx & Hc).
  destruct (block_tree_node_ok st t x Ht Hx) as (B & HB & Hok).
  unfold connections_of in Hc. rewrite HB in Hc.
  destruct (ok_owned _ _ _ Hok c Hc) as (C & HC & <-). eauto.
Qed.

Lemma tree_connections_same (st st' : State) (t : Tree) :
  (∀ x, x ∈ nodes t → connections_of st' x = connections_of st x) →
  tree_connections st' t = tree_connections st t.
Proof.
  unfold tree_connections. induction (nodes t) as [|x l IH]; intros H; [done |].
  simpl. rewrite H by (by left).
  f_equal. apply IH. intros y Hy. apply H. by right.
Qed.

Lemma disposed_block_with_parentBlock (p : option nat) (B : Block) :
  disposed_block (with_parentBlock p B) = disposed_block B.
Proof. done. Qed.

Lemma disposed_freed_connection (C : Connection) :
  disposed_connection (freed_connection C) = disposed_connection C.
Proof. done. Qed.

Lemma unlinked_connection_ne (st : State) (b c sc tc x : nat) :
  x ≠ sc → x ≠ tc →
  connections (unlinked b c sc tc st) !! x = connections st !! x.
Proof. intros H1 H2. simpl. by rewrite !lookup_alter_ne by done. Qed.

Lemma unlinked_connection_sc (st : State) (b c sc tc : nat) (SC : Connection) :
  sc ≠ tc → connections st !! sc = Some SC →
  connections (unlinked b c sc tc st) !! sc = Some (freed_connection SC).
Proof.
  intros Hne HSC. simpl. rewrite lookup_alter_ne by done.
  by rewrite lookup_alter_eq, HSC.
Qed.

Lemma unlinked_connection_tc (st : State) (b c sc tc : nat) (TC : Connection) :
  sc ≠ tc → connections st !! tc = Some TC →
  connections (unlinked b c sc tc st) !! tc = Some (freed_connection TC).
Proof.
  intros Hne HTC. simpl. rewrite lookup_alter_eq.
  by rewrite lookup_alter_ne, HTC by done.
Qed.

Lemma unlinked_block_ne (st : State) (b c sc tc x : nat) :
  x ≠ b → x ≠ c → blocks (unlinked b c sc tc st) !! x = blocks st !! x.
Proof. intros H1 H2. simpl. by rewrite !lookup_alter_ne by done. Qed.

Lemma unlinked_block_child (st : State) (b c sc tc : nat) (C : Block) :
  b ≠ c → blocks st !! c = Some C →
  blocks (unlinked b c sc tc st) !! c = Some (with_parentBlock None C).
Proof.
  intros Hne HC. simpl. rewrite lookup_alter_eq.
  by rewrite lookup_alter_ne, HC by done.
Qed.

Lemma unlinked_block_parent (st : State) (b c sc tc : nat) (Bb : Block) :
  b ≠ c → blocks st !! b = Some Bb →
  blocks (unlinked b c sc tc st) !! b
  = Some (with_childBlocks (array_remove c) Bb).
Proof.
  intros Hne HB. simpl. rewrite lookup_alter_ne by done.
  by rewrite lookup_alter_eq, HB.
Qed.

(** What a link between a block of a tree and a parent outside the tree
    implies for the identities of the objects involved. *)
Lemma linked_facts (st : State) (b tc : nat) (c : nat) (kks : list Tree) :
  block_tree st (Node c kks) → linked st b c tc → b ∉ nodes (Node c kks) →
  ∃ C sc SC TC,
    blocks st !! c = Some C ∧ block_ok st c C ∧ parentBlock_ C = Some b ∧
    superior C = Some sc ∧ connections st !! sc = Some SC ∧
    sourceBlock_ SC = c ∧ is_plug (type_ SC) = true ∧
    targetConnection SC = Some tc ∧
    connections st !! tc = Some TC ∧ sourceBlock_ TC = b ∧
    b ≠ c ∧ sc ≠ tc ∧ (sc ∉ inferiors C) ∧
    (tc ∉ tree_connections st (Node c kks)).
Proof.
  intros Ht (C & sc & SC & TC & HC & Hp & Hsup & HSC & Htgt & HTC & Hsrc & Hback) Hb.
  inversion Ht as [b' ks' B HB Hok Hch Hlinks Hinf Hkids]; subst.
  rewrite HB in HC. injection HC as <-.
  assert (Hbc : sourceBlock_ TC ≠ c).
  { intros Heq. apply Hb. rewrite Heq, nodes_node. by left. }
  destruct (ok_owned _ _ _ Hok sc (superior_own _ _ Hsup)) as (SC' & HSC' & Hown).
  rewrite HSC in HSC'. injection HSC' as <-.
  exists B, sc, SC, TC. split_and!; try done.
  - by apply (ok_plug _ _ _ Hok sc).
  - intros ->. rewrite HSC in HTC. by injection HTC as ->.
  - pose proof (ok_nodup _ _ _ Hok) as Hnd. unfold own_connections in Hnd.
    rewrite Hsup in Hnd. simpl in Hnd. by apply NoDup_cons in Hnd as [? _].
  - intros Hin. destruct (tree_connections_owner st _ tc Ht Hin) as (TC' & HTC' & Hn).
    rewrite HTC in HTC'. by injection HTC' as <-.
Qed.

Lemma same_on_outside (st st' : State) (t : Tree) :
  block_tree st t →
  (∀ x, x ∈ nodes t → blocks st' !! x = blocks st !! x) →
  (∀ c C, connections st !! c = Some C → sourceBlock_ C ∈ nodes t →
          connections st' !! c = connections st !! c) →
  (∀ v, is_Some (variables st !! v) → is_Some (variables st' !! v)) →
  same_on st st' t.
Proof.
  intros Ht Hb Hc Hv. split; [done | split; [| done]].
  intros c Hin. destruct (tree_connections_owner st t c Ht Hin) as (C & HC & Hn).
  by apply (Hc c C).
Qed.

Lemma root_not_in_kid (c : nat) (kks : list Tree) (kk : Tree) :
  NoDup (nodes (Node c kks)) → kk ∈ kks → c ∉ nodes kk.
Proof.
  rewrite nodes_node. intros [Hc _]%NoDup_cons Hk Hin. apply Hc.
  apply list_elem_of_join. exists (nodes kk). split; [done |].
  apply list_elem_of_fmap. by exists kk.
Qed.

Lemma not_in_kid (b c : nat) (kks : list Tree) (kk : Tree) :
  b ∉ nodes (Node c kks) → kk ∈ kks → b ∉ nodes kk.
Proof. intros Hb Hk Hin. apply Hb. by apply (nodes_kid c kks kk). Qed.

Lemma same_on_unlinked_kid (st : State) (b c sc tc : nat) (kks : list Tree)
    (kk : Tree) (SC TC : Connection) :
  block_tree st kk → c ∉ nodes kk → b ∉ nodes kk →
  connections st !! sc = Some SC → sourceBlock_ SC = c →
  connections st !! tc = Some TC → sourceBlock_ TC = b →
  same_on st (unlinked b c sc tc st) kk.
Proof.
  intros Ht Hc Hb HSC Hsc HTC Htc. apply same_on_outside; [done | | | done].
  - intros x Hx. apply unlinked_block_ne; by intros ->.
  - intros x X HX Hn. apply unlinked_connection_ne.
    + intros ->. rewrite HSC in HX. injection HX as <-. by rewrite Hsc in Hn.
    + intros ->. rewrite HTC in HX. injection HX as <-. by rewrite Htc in Hn.
Qed.

Lemma block_tree_unlinked (st : State) (b c tc : nat) (kks : list Tree) :
  block_tree st (Node c kks) → linked st b c tc →
  b ∉ nodes (Node c kks) → NoDup (nodes (Node c kks)) →
  ∃ sc, (blocks st !! c ≫= superior) = Some sc
        ∧ block_tree (unlinked b c sc tc st) (Node c kks)
        ∧ detached (unlinked b c sc tc st) c.
Proof.
  intros Ht Hl Hb Hnd.
  destruct (linked_facts st b tc c kks Ht Hl Hb)
    as (C & sc & SC & TC & HC & Hok & Hp & Hsup & HSC & Hsrc & Hplug & Htgt
        & HTC & Htsrc & Hbc & Hne & Hsci & Htct).
  exists sc. rewrite HC. split; [done |].
  inversion Ht as [b' ks' B HB _ Hch Hlinks Hinf Hkids]; subst b' ks'.
  rewrite HB in HC. injection HC as ->.
  set (su := unlinked b c sc tc st).
  assert (HCu : blocks su !! c = Some (with_parentBlock None C))
    by (by apply unlinked_block_child).
  assert (HSCu : connections su !! sc = Some (freed_connection SC))
    by (by apply unlinked_connection_sc).
  assert (Hinfs : ∀ ic, ic ∈ inferiors C →
                        connections su !! ic = connections st !! ic).
  { intros ic Hic. apply unlinked_connection_ne.
    - intros ->. done.
    - intros ->. apply Htct. apply (tree_connections_own st c kks C); [done |].
      by apply inferiors_own. }
  assert (Hsame : ∀ kk, kk ∈ kks → same_on st su kk).
  { intros kk Hk. rewrite Forall_forall in Hkids.
    apply (same_on_unlinked_kid st b c sc tc kks kk SC TC); try done.
    - by apply Hkids.
    - by apply (root_not_in_kid c kks).
    - by apply (not_in_kid b c kks). }
  assert (Hroot : ∀ kk, kk ∈ kks →
            blocks su !! root kk = blocks st !! root kk
            ∧ ∀ x, x ∈ connections_of st (root kk) →
                   connections su !! x = connections st !! x).
  { intros kk Hk. destruct (Hsame kk Hk) as (Hsb & Hsc' & _). split.
    - apply Hsb, root_in_nodes.
    - intros x Hx. by apply Hsc', connections_of_root. }
  split.
  - apply (block_tree_node su c kks (with_parentBlock None C)); try done.
    + destruct Hok as [Hlive Hone Hnodup Hown Hplug' Hval]. split; try done.
      * intros x Hx. destruct (Hown x Hx) as (X & HX & HXs).
        apply elem_of_app in Hx as [Hx|Hx].
        -- change (superior (with_parentBlock None C)) with (superior C) in Hx.
           rewrite Hsup in Hx. apply list_elem_of_singleton in Hx as ->.
           rewrite HSC in HX. injection HX as <-. eauto.
        -- exists X. by rewrite Hinfs.
      * intros x X Hx HX.
        change (superior (with_parentBlock None C)) with (superior C) in Hx.
        rewrite Hsup in Hx. injection Hx as <-.
        rewrite HSCu in HX. by injection HX as <-.
    + apply Forall_forall. intros kk Hk. rewrite Forall_forall in Hlinks.
      destruct (Hlinks kk Hk) as (tck & Htck & Hlk). exists tck.
      split; [done |]. destruct (Hroot kk Hk) as [Hrb Hrc].
      apply (linked_frame st); try done. by apply Hinfs.
    + intros ic IC Hic HIC. rewrite Hinfs in HIC by done.
      destruct (Hinf ic IC Hic HIC) as [Hnone | (kk & Hk & Hsock)]; [by left |].
      right. exists kk. split; [done |]. destruct (Hroot kk Hk) as [Hrb Hrc].
      by rewrite (socket_of_child_frame st su).
    + apply Forall_forall. intros kk Hk. rewrite Forall_forall in Hkids.
      apply (block_tree_frame st); [by apply Hkids | by apply Hsame].
  - exists (with_parentBlock None C). split; [done | split; [done |]].
    intros x X Hx HX.
    change (superior (with_parentBlock None C)) with (superior C) in Hx.
    rewrite Hsup in Hx. injection Hx as <-.
    rewrite HSCu in HX. by injection HX as <-.
Qed.

Lemma tree_connections_unlinked (st : State) (b c sc tc : nat) (kks : list Tree)
    (C : Block) :
  blocks st !! c = Some C → b ≠ c → b ∉ nodes (Node c kks) →
  tree_connections (unlinked b c sc tc st) (Node c kks)
  = tree_connections st (Node c kks).
Proof.
  intros HC Hbc Hb. apply tree_connections_same. intros x Hx.
  unfold connections_of. destruct (decide (x = c)) as [->|Hxc].
  - by rewrite (unlinked_block_child st b c sc tc C), HC.
  - rewrite unlinked_block_ne; [done | | done]. by intros ->.
Qed.

Lemma difference_after_union (X Y : gset nat) (c : nat) :
  (X ∪ {[c]}) ∖ ({[c]} ∪ Y) = X ∖ ({[c]} ∪ Y).
Proof.
  apply set_eq. intros x. rewrite !elem_of_difference, !elem_of_union.
  rewrite elem_of_singleton. tauto.
Qed.

Lemma torn_down_unlinked (st st' : State) (b c sc tc : nat) (kks : list Tree) :
  block_tree st (Node c kks) → linked st b c tc →
  b ∉ nodes (Node c kks) →
  (blocks st !! c ≫= superior) = Some sc →
  torn_down (unlinked b c sc tc st) (Node c kks) None st' →
  torn_down st (Node c kks) (Some (b, tc)) st'.
Proof.
  intros Ht Hl Hb Hsc Htd.
  destruct (linked_facts st b tc c kks Ht Hl Hb)
    as (C & sc' & SC & TC & HC & Hok & Hp & Hsup & HSC & Hsrc & Hplug & Htgt
        & HTC & Htsrc & Hbc & Hne & Hsci & Htct).
  rewrite HC in Hsc. simpl in Hsc. rewrite Hsup in Hsc. injection Hsc as ->.
  set (su := unlinked b c sc tc st) in *.
  pose proof (tree_connections_unlinked st b c sc tc kks C HC Hbc Hb) as Htc.
  fold su in Htc.
  assert (Hsct : sc ∈ tree_connections st (Node c kks)).
  { apply (tree_connections_own st c kks C); [done | by apply superior_own]. }
  destruct Htd as [Hn _ Hbf Hcs _ Hcf Hvars Hcells Hev Htop Hdb].
  split.
  - intros x B Hx HB. destruct (decide (x = c)) as [->|Hxc].
    + rewrite HC in HB. injection HB as <-.
      rewrite (Hn c (with_parentBlock None C)); [done | done |].
      by apply unlinked_block_child.
    + apply Hn; [done |]. unfold su. rewrite unlinked_block_ne; [done | | done].
      by intros ->.
  - intros p tc' P [= <- <-] HP. rewrite Hbf; [| done | done].
    by apply unlinked_block_parent.
  - intros x Hx Hp'. rewrite Hbf by done. apply unlinked_block_ne.
    + by apply (Hp' b tc).
    + intros ->. apply Hx. rewrite nodes_node. by left.
  - intros x X Hx HX. destruct (decide (x = sc)) as [->|Hxs].
    + rewrite HSC in HX. injection HX as <-.
      rewrite (Hcs sc (freed_connection SC)); [done | by rewrite Htc |].
      by apply unlinked_connection_sc.
    + apply Hcs; [by rewrite Htc |]. unfold su.
      rewrite unlinked_connection_ne; [done | done |]. by intros ->.
  - intros p tc' TC' [= <- <-] HTC'. rewrite HTC in HTC'. injection HTC' as <-.
    rewrite Hcf; [| by rewrite Htc | done].
    by apply unlinked_connection_tc.
  - intros x Hx Hp'. rewrite Hcf; [| by rewrite Htc | done].
    apply unlinked_connection_ne.
    + by intros ->.
    + by apply (Hp' b tc).
  - done.
  - done.
  - done.
  - rewrite Htop. unfold su.
    change (topBlocks_ (unlinked b c sc tc st)) with (topBlocks_ st ∪ {[c]}).
    rewrite nodes_node, list_to_set_cons. apply difference_after_union.
  - done.
Qed.

Lemma kids_log_frame (st st' : State) (b : nat) (ks : list Tree) :
  (∀ k x, k ∈ ks → x ∈ nodes k → blocks st' !! x = blocks st !! x) →
  kids_log st' b ks = kids_log st b ks.
Proof.
  induction ks as [|k ks IH]; intros H; [done |].
  simpl. rewrite IH.
  - unfold kid_log. rewrite (teardown_log_frame st st' k).
    + rewrite (H k (root k)); [done | by left | apply root_in_nodes].
    + intros x Hx. apply (H k); [by left | done].
  - intros k' x Hk' Hx. apply (H k'); [by right | done].
Qed.

Lemma linked_socket (st : State) (b c tc : nat) :
  linked st b c tc → socket_of_child st c = Some tc.
Proof.
  intros (C & sc & SC & TC & HC & Hp & Hsup & HSC & Htgt & _).
  unfold socket_of_child. rewrite HC. simpl. rewrite Hsup. simpl.
  by rewrite HSC.
Qed.

Lemma inferior_target_exists (st : State) (c : nat) (kks : list Tree) (C : Block)
    (ic : nat) :
  block_tree st (Node c kks) → blocks st !! c = Some C → ic ∈ inferiors C →
  ∃ IC, connections st !! ic = Some IC
        ∧ ∀ t, targetConnection IC = Some t → is_Some (connections st !! t).
Proof.
  intros Ht HC Hic.
  inversion Ht as [b' ks' B HB Hok Hch Hlinks Hinf Hkids]; subst b' ks'.
  rewrite HB in HC. injection HC as ->.
  destruct (ok_owned _ _ _ Hok ic (inferiors_own _ _ Hic)) as (IC & HIC & _).
  exists IC. split; [done |]. intros t Ht'.
  destruct (Hinf ic IC Hic HIC) as [Hnone | (kk & Hk & Hsock)]; [congruence |].
  rewrite Forall_forall in Hlinks. destruct (Hlinks kk Hk) as (tck & _ & Hl).
  rewrite (linked_socket _ _ _ _ Hl) in Hsock. injection Hsock as ->.
  destruct Hl as (Ck & sck & SCk & TCk & _ & _ & _ & HSCk & _ & HTCk & _ & Hback).
  rewrite HIC in HTCk. injection HTCk as <-.
  rewrite Ht' in Hback. injection Hback as ->. by eexists.
Qed.

Lemma dispose_unfold (fuel this : nat) (healStack : bool) :
  dispose (S fuel) this healStack
  = (B ← getBlock this;
     if negb (workspace B) then ret tt
     else unplug (S fuel) this healStack;; dispose_teardown (dispose fuel) this).
Proof. done. Qed.

Lemma dispose_linked (st : State) (fuel b c tc : nat) (kks : list Tree) :
  (∀ st0, block_tree st0 (Node c kks) → detached st0 c →
          ∃ st', dispose_teardown (dispose fuel) c st0
                 = Ok tt st' (fire_log st0 c ++ teardown_log st0 (Node c kks))
                 ∧ torn_down st0 (Node c kks) None st') →
  block_tree st (Node c kks) → linked st b c tc →
  is_Some (blocks st !! b) →
  b ∉ nodes (Node c kks) → NoDup (nodes (Node c kks)) →
  eventsDisabled_ st ≠ 0 →
  ∃ st', dispose (S fuel) c false st
         = Ok tt st' (EvUnplug c false
                      :: (EvConnectionDisconnect
                            <$> option_list (blocks st !! c ≫= superior))
                      ++ teardown_log st (Node c kks))
         ∧ torn_down st (Node c kks) (Some (b, tc)) st'.
Proof.
  intros IH Ht Hl [Bb HBb] Hb Hnd Hev.
  destruct (linked_facts st b tc c kks Ht Hl Hb)
    as (C & sc & SC & TC & HC & Hok & Hp & Hsup & HSC & Hsrc & Hplug & Htgt
        & HTC & Htsrc & Hbc & Hne & Hsci & Htct).
  destruct (block_tree_unlinked st b c tc kks Ht Hl Hb Hnd)
    as (sc' & Hsc' & Htu & Hdet).
  pose proof Hsc' as Hsceq. rewrite HC in Hsceq. simpl in Hsceq.
  rewrite Hsup in Hsceq. injection Hsceq as <-.
  assert (Hun : unplug (S fuel) c false st
                = Ok tt (unlinked b c sc tc st)
                     [EvUnplug c false; EvConnectionDisconnect sc]).
  { apply (unplug_linked st (S fuel) b c sc tc Bb C SC TC); try done.
    - apply (ok_live _ _ _ Hok).
    - apply (ok_one_plug _ _ _ Hok).
    - intros nc Hnc. apply (inferior_target_exists st c kks C); try done.
      unfold inferiors. rewrite Hnc. by left. }
  destruct (IH _ Htu Hdet) as (st' & Hrun & Htd).
  exists st'. split.
  - rewrite dispose_unfold. mrun. rewrite (ok_live _ _ _ Hok).
    change (negb true) with false. cbv iota.
    rewrite (bind_run _ _ _ _ _ _ Hun), Hrun.
    assert (Hlog : teardown_log (unlinked b c sc tc st) (Node c kks)
                   = teardown_log st (Node c kks)).
    { rewrite !teardown_log_node. f_equal.
      - apply kids_log_frame. intros kk x Hk Hx. apply unlinked_block_ne.
        + intros ->. by apply (not_in_kid b c kks kk Hb Hk).
        + intros ->. by apply (root_not_in_kid c kks kk Hnd Hk).
      - rewrite (unlinked_block_child st b c sc tc C), HC by done. done. }
    rewrite Hlog, Hsc'. unfold fire_log.
    rewrite bool_decide_false by done. done.
  - by apply (torn_down_unlinked st st' b c sc tc kks).
Qed.

Lemma forest_nodes_elem (ks : list Tree) (x : nat) :
  x ∈ mjoin (nodes <$> ks) ↔ ∃ k, k ∈ ks ∧ x ∈ nodes k.
Proof.
  rewrite list_elem_of_join. split.
  - intros (l & Hx & Hl). apply list_elem_of_fmap in Hl as (k & -> & Hk). eauto.
  - intros (k & Hk & Hx). exists (nodes k). split; [done |].
    apply list_elem_of_fmap. eauto.
Qed.

Lemma forest_connections_elem (st : State) (ks : list Tree) (c : nat) :
  c ∈ mjoin (tree_connections st <$> ks)
  ↔ ∃ k, k ∈ ks ∧ c ∈ tree_connections st k.
Proof.
  rewrite list_elem_of_join. split.
  - intros (l & Hx & Hl). apply list_elem_of_fmap in Hl as (k & -> & Hk). eauto.
  - intros (k & Hk & Hx). exists (tree_connections st k). split; [done |].
    apply list_elem_of_fmap. eauto.
Qed.

Lemma forest_connections_owner (st : State) (ks : list Tree) (c : nat) :
  Forall (block_tree st) ks → c ∈ mjoin (tree_connections st <$> ks) →
  ∃ C, connections st !! c = Some C ∧ sourceBlock_ C ∈ mjoin (nodes <$> ks).
Proof.
  intros Hts Hc. apply forest_connections_elem in Hc as (k & Hk & Hc).
  rewrite Forall_forall in Hts.
  destruct (tree_connections_owner st k c (Hts k Hk) Hc) as (C & HC & Hn).
  exists C. split; [done |]. apply forest_nodes_elem. eauto.
Qed.

Lemma forest_connections_frame (st st' : State) (ks : list Tree) :
  (∀ x, x ∈ mjoin (nodes <$> ks) → blocks st' !! x = blocks st !! x) →
  tree_connections st' <$> ks = tree_connections st <$> ks.
Proof.
  intros H. apply list_fmap_ext. intros i k Hk.
  apply tree_connections_frame. intros x Hx. apply H.
  apply forest_nodes_elem. exists k. split; [| done].
  by apply (list_elem_of_lookup_2 ks i).
Qed.

Lemma forest_nodes_snoc (ks : list Tree) (k : Tree) :
  mjoin (nodes <$> ks ++ [k]) = mjoin (nodes <$> ks) ++ nodes k.
Proof. rewrite fmap_app, join_app. simpl. by rewrite app_nil_r. Qed.

Lemma forest_connections_snoc (st : State) (ks : list Tree) (k : Tree) :
  mjoin (tree_connections st <$> ks ++ [k])
  = mjoin (tree_connections st <$> ks) ++ tree_connections st k.
Proof. rewrite fmap_app, join_app. simpl. by rewrite app_nil_r. Qed.

Lemma array_remove_last (x : nat) (l : list nat) :
  x ∉ l → array_remove x (l ++ [x]) = l.
Proof.
  induction l as [|y l IH]; intros Hx; simpl.
  - by rewrite decide_True.
  - apply not_elem_of_cons in Hx as [Hne Hx].
    rewrite decide_False by done. by rewrite IH.
Qed.

Lemma socket_owner (st : State) (b c tc : nat) :
  linked st b c tc → ∃ TC, connections st !! tc = Some TC ∧ sourceBlock_ TC = b.
Proof.
  intros (C & sc & SC & TC & _ & _ & _ & _ & _ & HTC & Hsrc & _). eauto.
Qed.

Lemma linked_plug_owner (st : State) (b tc : nat) (k : Tree) :
  block_tree st k → linked st b (root k) tc →
  ∃ TC sc SC, connections st !! tc = Some TC ∧ sourceBlock_ TC = b
              ∧ targetConnection TC = Some sc
              ∧ connections st !! sc = Some SC ∧ sourceBlock_ SC = root k.
Proof.
  intros Ht (C & sc & SC & TC & HC & Hp & Hsup & HSC & Htgt & HTC & Hsrc & Hback).
  destruct (block_tree_node_ok st k (root k) Ht (root_in_nodes k))
    as (C' & HC' & Hok).
  rewrite HC in HC'. injection HC' as <-.
  destruct (ok_owned _ _ _ Hok sc (superior_own _ _ Hsup)) as (SC' & HSC' & Hown).
  rewrite HSC in HSC'. injection HSC' as <-.
  exists TC, sc, SC. done.
Qed.

Lemma forest_of_snoc_inv (st : State) (b : nat) (ks : list Tree) (k : Tree) :
  forest_of st b (ks ++ [k]) →
  forest_of st b ks ∧ block_tree st k ∧ (∃ tc, linked st b (root k) tc)
  ∧ (b ∉ nodes k) ∧ NoDup (nodes k)
  ∧ (∀ x, x ∈ nodes k → x ∉ mjoin (nodes <$> ks))
  ∧ (b ∉ mjoin (nodes <$> ks)).
Proof.
  intros [Hl Ht Hnd]. apply Forall_app in Hl as [Hl Hlk], Ht as [Ht Htk].
  rewrite Forall_singleton in Hlk. rewrite Forall_singleton in Htk.
  rewrite forest_nodes_snoc in Hnd.
  apply NoDup_cons in Hnd as [Hb Hnd]. apply NoDup_app in Hnd as (Hnd1 & Hdis & Hnd2).
  apply not_elem_of_app in Hb as [Hb1 Hb2].
  split_and!; try done.
  - split; [done | done |]. by apply NoDup_cons.
  - intros x Hx Hin. by apply (Hdis x).
Qed.

Lemma sibling_frame (st s1 : State) (b tc : nat) (ks : list Tree) (k : Tree) :
  forest_of st b (ks ++ [k]) → linked st b (root k) tc →
  torn_down st k (Some (b, tc)) s1 →
  (∀ x, x ∈ mjoin (nodes <$> ks) → blocks s1 !! x = blocks st !! x)
  ∧ (∀ c C, connections st !! c = Some C →
            sourceBlock_ C ∈ mjoin (nodes <$> ks) →
            connections s1 !! c = connections st !! c)
  ∧ (∀ k' tc', k' ∈ ks → linked st b (root k') tc' →
               tc' ≠ tc ∧ connections s1 !! tc' = connections st !! tc').
Proof.
  intros Hf Hl Htd.
  destruct (forest_of_snoc_inv st b ks k Hf)
    as ([Hls Hts Hnds] & Htk & _ & Hbk & Hndk & Hdis & Hbks).
  destruct (linked_plug_owner st b tc k Htk Hl)
    as (TC & sc & SC & HTC & Htsrc & Htt & HSC & Hssrc).
  split_and!.
  - intros x Hx. apply (td_blocks_frame _ _ _ _ Htd).
    + intros Hin. by apply (Hdis x).
    + intros p tc0 [= <- <-]. by intros ->.
  - intros c C HC Hown. apply (td_connections_frame _ _ _ _ Htd).
    + intros Hin.
      destruct (tree_connections_owner st k c Htk Hin) as (C' & HC' & Hn).
      rewrite HC in HC'. injection HC' as <-. by apply (Hdis _ Hn).
    + intros p tc0 [= <- <-]. intros ->.
      rewrite HC in HTC. injection HTC as ->. by rewrite Htsrc in Hown.
  - intros k' tc' Hk' Hl'. rewrite Forall_forall in Hts.
    destruct (linked_plug_owner st b tc' k' (Hts k' Hk') Hl')
      as (TC' & sc' & SC' & HTC' & Htsrc' & Htt' & HSC' & Hssrc').
    assert (Hne : tc' ≠ tc).
    { intros ->. rewrite HTC in HTC'. injection HTC' as <-.
      rewrite Htt in Htt'. injection Htt' as <-.
      rewrite HSC in HSC'. injection HSC' as <-.
      apply (Hdis (root k)); [apply root_in_nodes |].
      apply forest_nodes_elem. exists k'. split; [done |].
      rewrite <- Hssrc, Hssrc'. apply root_in_nodes. }
    split; [done |]. apply (td_connections_frame _ _ _ _ Htd).
    + intros Hin.
      destruct (tree_connections_owner st k tc' Htk Hin) as (C' & HC' & Hn).
      rewrite HTC' in HC'. injection HC' as <-. by rewrite Htsrc' in Hn.
    + by intros p tc0 [= <- <-].
Qed.

Lemma forest_of_frame (st s1 : State) (b : nat) (ks : list Tree) :
  forest_of st b ks →
  (∀ x, x ∈ mjoin (nodes <$> ks) → blocks s1 !! x = blocks st !! x) →
  (∀ c C, connections st !! c = Some C →
          sourceBlock_ C ∈ mjoin (nodes <$> ks) →
          connections s1 !! c = connections st !! c) →
  (∀ k' tc', k' ∈ ks → linked st b (root k') tc' →
             connections s1 !! tc' = connections st !! tc') →
  (∀ v, is_Some (variables st !! v) → is_Some (variables s1 !! v)) →
  forest_of s1 b ks
  ∧ (∀ k', k' ∈ ks → same_on st s1 k')
  ∧ (∀ k' tc', k' ∈ ks → linked st b (root k') tc' → linked s1 b (root k') tc').
Proof.
  intros [Hl Ht Hnd] Hb Hc Htc Hv.
  rewrite Forall_forall in Hl, Ht.
  assert (Hsame : ∀ k', k' ∈ ks → same_on st s1 k').
  { intros k' Hk'. apply same_on_outside; [by apply Ht | | | done].
    - intros x Hx. apply Hb. apply forest_nodes_elem. eauto.
    - intros c C HC Hown. apply (Hc c C HC). apply forest_nodes_elem. eauto. }
  assert (Hlf : ∀ k' tc', k' ∈ ks → linked st b (root k') tc' →
                          linked s1 b (root k') tc').
  { intros k' tc' Hk' Hl'. destruct (Hsame k' Hk') as (Hsb & Hsc & _).
    apply (linked_frame st); [done | | | by apply (Htc k')].
    - apply Hsb, root_in_nodes.
    - intros x Hx. by apply Hsc, connections_of_root. }
  split_and!; [| done | done].
  split; [| | done].
  - apply Forall_forall. intros k' Hk'. destruct (Hl k' Hk') as [tc' Hl'].
    exists tc'. by apply Hlf.
  - apply Forall_forall. intros k' Hk'.
    apply (block_tree_frame st); [by apply Ht | by apply Hsame].
Qed.

Lemma list_to_set_forest_snoc (X : gset nat) (ks : list Tree) (k : Tree) :
  X ∖ list_to_set (nodes k) ∖ list_to_set (mjoin (nodes <$> ks))
  = X ∖ list_to_set (mjoin (nodes <$> ks ++ [k])).
Proof.
  rewrite forest_nodes_snoc, list_to_set_app_L.
  apply set_eq. intros x. rewrite !elem_of_difference, elem_of_union. tauto.
Qed.

Lemma kids_torn_snoc (st s1 st' : State) (b tc : nat) (ks : list Tree) (k : Tree) :
  forest_of st b (ks ++ [k]) → linked st b (root k) tc →
  torn_down st k (Some (b, tc)) s1 →
  kids_torn s1 b ks st' →
  kids_torn st b (ks ++ [k]) st'.
Proof.
  intros Hf Hl Htd Hkt.
  destruct (sibling_frame st s1 b tc ks k Hf Hl Htd) as (Hsb & Hsc & Hst).
  destruct (forest_of_snoc_inv st b ks k Hf)
    as (Hfks & Htk & _ & Hbk & Hndk & Hdis & Hbks).
  destruct (forest_of_frame st s1 b ks Hfks Hsb Hsc) as (Hf1 & Hsame & Hlf).
  { intros k' tc' Hk' Hl'. by apply (Hst k' tc'). }
  { intros v. apply (td_variables _ _ _ _ Htd). }
  pose proof (forest_connections_frame st s1 ks Hsb) as Hfc.
  destruct Hfks as [Hls Hts Hnds]. rewrite Forall_forall in Hls.
  assert (Hsock : ∀ k', k' ∈ ks →
            socket_of_child s1 (root k') = socket_of_child st (root k')).
  { intros k' Hk'. destruct (Hsame k' Hk') as (Hb' & Hc' & _).
    apply socket_of_child_frame.
    - apply Hb', root_in_nodes.
    - intros x Hx. by apply Hc', connections_of_root. }
  destruct (socket_owner st b (root k) tc Hl) as (TC & HTC & Htsrc).
  assert (Htc_ks : tc ∉ mjoin (tree_connections st <$> ks)).
  { intros Hin. destruct (forest_connections_owner st ks tc Hts Hin)
      as (C' & HC' & Hn).
    rewrite HTC in HC'. injection HC' as <-. by rewrite Htsrc in Hn. }
  assert (Htc_sock : ∀ k', k' ∈ ks → socket_of_child st (root k') ≠ Some tc).
  { intros k' Hk' Heq. destruct (Hls k' Hk') as [tc' Hl'].
    rewrite (linked_socket _ _ _ _ Hl') in Heq. injection Heq as ->.
    by destruct (Hst k' tc Hk' Hl'). }
  assert (Hk_ks : ∀ c, c ∈ tree_connections st k →
            (c ∉ mjoin (tree_connections st <$> ks))
            ∧ ∀ k', k' ∈ ks → socket_of_child st (root k') ≠ Some c).
  { intros c Hc. destruct (tree_connections_owner st k c Htk Hc) as (C & HC & Hn).
    split.
    - intros Hin. destruct (forest_connections_owner st ks c Hts Hin)
        as (C' & HC' & Hn').
      rewrite HC in HC'. injection HC' as <-. by apply (Hdis _ Hn).
    - intros k' Hk' Heq. destruct (Hls k' Hk') as [tc' Hl'].
      rewrite (linked_socket _ _ _ _ Hl') in Heq. injection Heq as ->.
      destruct (socket_owner st b (root k') c Hl') as (C' & HC' & Hsrc').
      rewrite HC in HC'. injection HC' as <-. by rewrite Hsrc' in Hn. }
  split.
  - intros x B Hx HB. rewrite forest_nodes_snoc in Hx.
    apply elem_of_app in Hx as [Hx|Hx].
    + apply (kt_nodes _ _ _ _ Hkt); [done |]. by rewrite Hsb.
    + rewrite (kt_blocks_frame _ _ _ _ Hkt).
      * by apply (td_nodes _ _ _ _ Htd).
      * by apply Hdis.
      * by intros ->.
  - intros B HB. rewrite (kt_parent _ _ _ _ Hkt _ (td_parent _ _ _ _ Htd b tc B eq_refl HB)).
    done.
  - intros x Hx Hxb. rewrite forest_nodes_snoc in Hx.
    apply not_elem_of_app in Hx as [Hx1 Hx2].
    rewrite (kt_blocks_frame _ _ _ _ Hkt) by done.
    apply (td_blocks_frame _ _ _ _ Htd); [done |]. by intros p tc0 [= <- <-].
  - intros c C Hc HC. rewrite forest_connections_snoc in Hc.
    apply elem_of_app in Hc as [Hc|Hc].
    + destruct (forest_connections_owner st ks c Hts Hc) as (C' & HC' & Hn).
      rewrite HC in HC'. injection HC' as <-.
      apply (kt_connections _ _ _ _ Hkt); [by rewrite Hfc |].
      by rewrite (Hsc c C).
    + destruct (Hk_ks c Hc) as [Hc1 Hc2].
      rewrite (kt_connections_frame _ _ _ _ Hkt).
      * by apply (td_connections _ _ _ _ Htd).
      * by rewrite Hfc.
      * intros k' Hk'. rewrite Hsock by done. by apply Hc2.
  - intros k0 tc0 TC0 Hk0 Hs0 HTC0. apply elem_of_app in Hk0 as [Hk0|Hk0].
    + destruct (Hls k0 Hk0) as [tc' Hl'].
      rewrite (linked_socket _ _ _ _ Hl') in Hs0. injection Hs0 as ->.
      destruct (Hst k0 tc0 Hk0 Hl') as [Hne Heq].
      apply (kt_sockets _ _ _ _ Hkt k0); [done | |].
      * rewrite Hsock by done. by apply linked_socket in Hl'.
      * by rewrite Heq.
    + apply list_elem_of_singleton in Hk0 as ->.
      rewrite (linked_socket _ _ _ _ Hl) in Hs0. injection Hs0 as <-.
      rewrite (kt_connections_frame _ _ _ _ Hkt).
      * by apply (td_socket _ _ _ _ Htd b tc).
      * by rewrite Hfc.
      * intros k' Hk'. rewrite Hsock by done. by apply Htc_sock.
  - intros c Hc Hs. rewrite forest_connections_snoc in Hc.
    apply not_elem_of_app in Hc as [Hc1 Hc2].
    rewrite (kt_connections_frame _ _ _ _ Hkt).
    + apply (td_connections_frame _ _ _ _ Htd); [done |].
      intros p tc0 [= <- <-]. intros ->.
      apply (Hs k); [apply elem_of_app; right; by left |].
      by apply linked_socket in Hl.
    + by rewrite Hfc.
    + intros k' Hk'. rewrite Hsock by done. apply Hs.
      apply elem_of_app. by left.
  - intros v. rewrite (kt_variables _ _ _ _ Hkt). apply (td_variables _ _ _ _ Htd).
  - rewrite (kt_typeCells _ _ _ _ Hkt). apply (td_typeCells _ _ _ _ Htd).
  - rewrite (kt_events _ _ _ _ Hkt). apply (td_events _ _ _ _ Htd).
  - rewrite (kt_topBlocks _ _ _ _ Hkt), (td_topBlocks _ _ _ _ Htd).
    apply list_to_set_forest_snoc.
  - rewrite (kt_blockDB _ _ _ _ Hkt), (td_blockDB _ _ _ _ Htd).
    apply list_to_set_forest_snoc.
Qed.

Lemma with_childBlocks_nil (B : Block) :
  childBlocks_ B = [] → with_childBlocks (λ _, []) B = B.
Proof. destruct B. simpl. by intros ->. Qed.

Lemma kids_torn_nil (st : State) (b : nat) (B : Block) :
  blocks st !! b = Some B → childBlocks_ B = [] → kids_torn st b [] st.
Proof.
  intros HB Hch. split; try done.
  - intros x B' Hx. by apply elem_of_nil in Hx.
  - intros B' HB'. rewrite HB in HB'. injection HB' as <-.
    by rewrite with_childBlocks_nil.
  - intros c C Hc. by apply elem_of_nil in Hc.
  - intros k tc TC Hk. by apply elem_of_nil in Hk.
  - simpl. apply set_eq. intros x. rewrite elem_of_difference.
    rewrite elem_of_empty. tauto.
  - simpl. apply set_eq. intros x. rewrite elem_of_difference.
    rewrite elem_of_empty. tauto.
Qed.

(** The loop over the children in [dispose]: with [dispose] doing its work on
    every child, the loop disposes them all, from the last to the first. *)
Lemma dispose_children_run (dispose' : nat → bool → M unit) (b : nat) :
  ∀ (ks : list Tree) (st : State) (B : Block),
    blocks st !! b = Some B → childBlocks_ B = root <$> ks →
    forest_of st b ks → eventsDisabled_ st ≠ 0 →
    Forall (λ k, ∀ st0 tc,
              block_tree st0 k → linked st0 b (root k) tc →
              is_Some (blocks st0 !! b) → eventsDisabled_ st0 ≠ 0 →
              ∃ st', dispose' (root k) false st0
                     = Ok tt st' (EvUnplug (root k) false
                                  :: (EvConnectionDisconnect
                                        <$> option_list (blocks st0 !! root k
                                                         ≫= superior))
                                  ++ teardown_log st0 k)
                     ∧ torn_down st0 k (Some (b, tc)) st') ks →
    ∃ st', dispose_children dispose' b (length ks) st
           = Ok tt st' (kids_log st b ks)
           ∧ kids_torn st b ks st'.
Proof.
  induction ks as [|k ks IH] using rev_ind; intros st B HB Hch Hf Hev Hkid.
  - exists st. split; [done |]. by apply (kids_torn_nil st b B).
  - apply Forall_app in Hkid as [Hkids Hk]. rewrite Forall_singleton in Hk.
    destruct (forest_of_snoc_inv st b ks k Hf)
      as (Hfks & Htk & [tc Hl] & Hbk & Hndk & Hdis & Hbks).
    destruct (Hk st tc Htk Hl (mk_is_Some _ _ HB) Hev) as (s1 & Hrun1 & Htd).
    destruct (sibling_frame st s1 b tc ks k Hf Hl Htd) as (Hsb & Hsc & Hst).
    destruct (forest_of_frame st s1 b ks Hfks Hsb Hsc) as (Hf1 & Hsame & Hlf).
    { intros k' tc' Hk' Hl'. by apply (Hst k' tc'). }
    { intros v. apply (td_variables _ _ _ _ Htd). }
    pose proof (td_parent _ _ _ _ Htd b tc B eq_refl HB) as HB1.
    assert (Hroot : root k ∉ root <$> ks).
    { intros Hin. apply list_elem_of_fmap in Hin as (k' & Heq & Hk').
      apply (Hdis (root k)); [apply root_in_nodes |].
      apply forest_nodes_elem. exists k'. split; [done |].
      rewrite Heq. apply root_in_nodes. }
    destruct (IH s1 (with_childBlocks (array_remove (root k)) B))
      as (st' & Hrun & Hkt); try done.
    { simpl. rewrite Hch, fmap_app. simpl. by apply array_remove_last. }
    { by rewrite (td_events _ _ _ _ Htd). }
    exists st'. split.
    + rewrite length_app. simpl length. rewrite Nat.add_1_r.
      simpl dispose_children. mrun.
      rewrite Hch, fmap_app.
      rewrite lookup_app_r by (by rewrite length_fmap).
      rewrite length_fmap, Nat.sub_diag.
      change ((root <$> [k]) !! 0) with (Some (root k)). cbv iota beta.
      rewrite bind_emit. cbv beta.
      rewrite (bind_run _ _ _ _ _ _ Hrun1), Hrun.
      rewrite kids_log_app. simpl kids_log.
      rewrite (kids_log_frame st s1 b ks).
      * unfold kid_log. simpl. rewrite <- !app_assoc. done.
      * intros k' x Hk' Hx. apply Hsb. apply forest_nodes_elem. eauto.
    + by apply (kids_torn_snoc st s1 st' b tc).
Qed.

Lemma foldl_alter_lookup_in {A} (f : A → A) (l : list nat) (m : gmap nat A) (c : nat) :
  (∀ x, f (f x) = f x) → c ∈ l →
  foldl (λ m c, alter f c m) m l !! c = f <$> m !! c.
Proof.
  intros Hf. revert m. induction l as [|y l IH]; intros m Hin.
  - by apply elem_of_nil in Hin.
  - simpl. destruct (decide (c ∈ l)) as [Hl|Hl].
    + rewrite IH by done. destruct (decide (y = c)) as [->|Hne].
      * rewrite lookup_alter_eq. destruct (m !! c); simpl; [by rewrite Hf | done].
      * by rewrite lookup_alter_ne.
    + apply elem_of_cons in Hin as [->|Hin]; [| done].
      clear IH. revert m. induction l as [|z l IH]; intros m.
      * simpl. by rewrite lookup_alter_eq.
      * simpl. apply not_elem_of_cons in Hl as [Hne Hl].
        rewrite (alter_alter_ne f f m z y) by done.
        rewrite IH by done. by rewrite lookup_alter_ne.
Qed.

Lemma foldl_alter_lookup_notin {A} (f : A → A) (l : list nat) (m : gmap nat A)
    (c : nat) :
  c ∉ l → foldl (λ m c, alter f c m) m l !! c = m !! c.
Proof.
  revert m. induction l as [|y l IH]; intros m Hin; [done |].
  apply not_elem_of_cons in Hin as [Hne Hin].
  simpl. rewrite IH by done. by rewrite lookup_alter_ne.
Qed.

Lemma with_inDB_idemp (r : bool) (C : Connection) :
  with_inDB r (with_inDB r C) = with_inDB r C.
Proof. done. Qed.

(** The part of the teardown after the children: the inputs, the
    remaining connections, the Values. *)
Lemma teardown_own_run (st : State) (b : nat) (B : Block) :
  blocks st !! b = Some B →
  (∀ c, c ∈ own_connections B ∨ c ∈ option_list (outputConnection B)
                                      ++ option_list (previousConnection B) →
        ∃ C, connections st !! c = Some C ∧ targetConnection C = None) →
  (∀ n v, (n, v) ∈ typedValue B → is_Some (variables st !! v)) →
  ∃ vars,
    (B ← getBlock b;
     dispose_inputs b (inputList B);;
     updBlock b (with_inputList []);;
     conns ← getConnections_ b;
     dispose_connections conns;;
     B ← getBlock b;
     dispose_values b (typedValue B)) st
    = Ok tt (set_variables (λ _, vars)
               (set_connections
                  (λ m, foldl (λ m c, alter (with_inDB false) c m) m
                          (omap connection (inputList B)
                           ++ option_list (outputConnection B)
                           ++ option_list (previousConnection B)
                           ++ option_list (nextConnection B)))
                  (set_blocks (alter (with_inputList []) b) st)))
         (own_log b B)
    ∧ ∀ v, is_Some (vars !! v) ↔ is_Some (variables st !! v).
Proof.
  intros HB Hc Hv.
  set (l1 := omap connection (inputList B)).
  set (l2 := option_list (outputConnection B) ++ option_list (previousConnection B)
             ++ option_list (nextConnection B)).
  assert (Hl1 : ∀ c, c ∈ l1 →
            ∃ C, connections st !! c = Some C ∧ targetConnection C = None).
  { intros c Hin. apply Hc. left. unfold own_connections, inferiors.
    rewrite !elem_of_app. right. by right. }
  assert (Hl2 : ∀ c, c ∈ l2 →
            ∃ C, connections st !! c = Some C ∧ targetConnection C = None).
  { intros c Hin. unfold l2 in Hin. rewrite app_assoc in Hin.
    apply elem_of_app in Hin as [Hin|Hin]; apply Hc; [by right |].
    left. unfold own_connections, inferiors. rewrite !elem_of_app. right. by left. }
  set (s4 := set_connections
               (λ m, foldl (λ m c, alter (with_inDB false) c m) m l1) st).
  set (s5 := set_blocks (alter (with_inputList []) b) s4).
  set (s6 := set_connections
               (λ m, foldl (λ m c, alter (with_inDB false) c m) m l2) s5).
  destruct (dispose_values_run s6 b (typedValue B)) as (vars & Hvals & Hdom).
  { intros n v Hin. by apply (Hv n v). }
  exists vars. split; [| done].
  mrun. rewrite (bind_run _ _ _ _ _ _ (dispose_inputs_run st b (inputList B) Hl1)).
  fold l1 s4. mrun. fold s5. unfold getConnections_.
  assert (HB5 : blocks s5 !! b = Some (with_inputList [] B)).
  { simpl. by rewrite lookup_alter_eq, HB. }
  mrun.
  change (option_list (outputConnection (with_inputList [] B))
          ++ option_list (previousConnection (with_inputList [] B))
          ++ option_list (nextConnection (with_inputList [] B))
          ++ omap connection (inputList (with_inputList [] B)))
    with (option_list (outputConnection B)
          ++ option_list (previousConnection B)
          ++ option_list (nextConnection B) ++ []).
  rewrite app_nil_r. fold l2.
  assert (Hl2' : ∀ c, c ∈ l2 →
            ∃ C, connections s5 !! c = Some C ∧ targetConnection C = None).
  { intros c Hin. destruct (Hl2 c Hin) as (C & HC & Ht). simpl.
    destruct (decide (c ∈ l1)) as [Hin1|Hin1].
    - rewrite foldl_alter_lookup_in, HC; [| done | done]. simpl. eauto.
    - rewrite foldl_alter_lookup_notin, HC by done. eauto. }
  rewrite (bind_run _ _ _ _ _ _ (dispose_connections_run s5 l2 Hl2')).
  fold s6.
  assert (HB6 : blocks s6 !! b = Some (with_inputList [] B)) by done.
  mrun. change (typedValue (with_inputList [] B)) with (typedValue B).
  rewrite Hvals. unfold prepend, own_log. fold l2. f_equal.
  apply state_eq; try reflexivity.
  simpl. by rewrite foldl_app.
Qed.

Lemma bind_Events_fire {B} (b : nat) (k : unit → M B) (st : State) :
  (Events_fire (EvBlockDelete b) ≫= k) st = prepend (fire_log st b) (k tt st).
Proof.
  unfold Events_fire, Events_isEnabled, fire_log. rewrite bind_bind.
  rewrite (bind_Ok _ _ st (bool_decide (eventsDisabled_ st = 0)) st eq_refl).
  case_bool_decide.
  - by rewrite bind_emit.
  - by rewrite bind_ret, prepend_nil.
Qed.

Lemma try_finally_enable (body : M unit) (st st' : State) (l : list Event) :
  body st = Ok tt st' l →
  try_finally body Events_enable st = Ok tt (set_eventsDisabled pred st') l.
Proof.
  intros H. unfold try_finally. rewrite H. simpl. by rewrite app_nil_r.
Qed.

Lemma tree_size_pos (t : Tree) : 0 < tree_size t.
Proof. destruct t. simpl. lia. Qed.

Lemma disposed_block_eq (B : Block) :
  parentBlock_ B = None →
  with_inputList [] (with_childBlocks (λ _, []) (with_workspace false B))
  = disposed_block B.
Proof. destruct B. simpl. by intros ->. Qed.

Lemma disposed_connection_eq (C : Connection) :
  targetConnection C = None → with_inDB false C = disposed_connection C.
Proof. destruct C. simpl. by intros ->. Qed.

Lemma NoDup_join_elem {A} (ls : list (list A)) (l : list A) :
  NoDup (mjoin ls) → l ∈ ls → NoDup l.
Proof.
  induction ls as [|l' ls IH]; intros Hnd Hin; [by apply elem_of_nil in Hin |].
  simpl in Hnd. apply NoDup_app in Hnd as (Hl' & _ & Hls).
  apply elem_of_cons in Hin as [->|Hin]; [done | by apply IH].
Qed.

Lemma own_connections_split (B : Block) (c : nat) :
  outputConnection B = None ∨ previousConnection B = None →
  c ∈ omap connection (inputList B)
      ++ option_list (outputConnection B)
      ++ option_list (previousConnection B)
      ++ option_list (nextConnection B)
  ↔ c ∈ own_connections B.
Proof.
  intros Hone. unfold own_connections, inferiors, superior.
  rewrite !elem_of_app.
  destruct (outputConnection B) as [oc|], (previousConnection B) as [pc|];
    destruct Hone as [?|?]; try done; simpl;
    rewrite ?elem_of_nil; tauto.
Qed.

Lemma difference_difference_cons (X Y : gset nat) (b : nat) :
  X ∖ {[b]} ∖ Y = X ∖ ({[b]} ∪ Y).
Proof.
  apply set_eq. intros x. rewrite !elem_of_difference, elem_of_union. tauto.
Qed.

Lemma teardown_detached_bounded (n : nat) :
  ∀ (t : Tree) (st : State) (fuel : nat),
    tree_size t ≤ n → n ≤ S fuel →
    block_tree st t → detached st (root t) → NoDup (nodes t) →
    ∃ st', dispose_teardown (dispose fuel) (root t) st
           = Ok tt st' (fire_log st (root t) ++ teardown_log st t)
           ∧ torn_down st t None st'.
Proof.
  induction n as [|n IH]; intros [b ks] st fuel Hsize Hfuel Ht Hdet Hnd.
  { pose proof (tree_size_pos (Node b ks)). lia. }
  inversion Ht as [b' ks' B HB Hok Hch Hlinks Hinf Hkids]; subst b' ks'.
  destruct Hdet as (B' & HB' & Hpar & Hfree). simpl in HB'.
  rewrite HB in HB'. injection HB' as <-.
  set (s2 := (λ st, if bool_decide (selected st = Some b)
                    then set_selected None st else st)
               (set_blocks (alter (with_workspace false) b)
                  (set_blockDB (λ s, s ∖ {[b]})
                     (set_topBlocks (λ s, s ∖ {[b]})
                        (set_eventsDisabled S st))))).
  assert (Hs2b : blocks s2 = alter (with_workspace false) b (blocks st)).
  { unfold s2. by case_bool_decide. }
  assert (Hs2c : connections s2 = connections st).
  { unfold s2. by case_bool_decide. }
  assert (Hs2v : variables s2 = variables st).
  { unfold s2. by case_bool_decide. }
  assert (Hs2e : eventsDisabled_ s2 = S (eventsDisabled_ st)).
  { unfold s2. by case_bool_decide. }
  assert (Hs2t : topBlocks_ s2 = topBlocks_ st ∖ {[b]}).
  { unfold s2. by case_bool_decide. }
  assert (Hs2d : blockDB_ s2 = blockDB_ st ∖ {[b]}).
  { unfold s2. by case_bool_decide. }
  assert (Hs2y : typeCells s2 = typeCells st).
  { unfold s2. by case_bool_decide. }
  assert (HB2 : blocks s2 !! b = Some (with_workspace false B)).
  { by rewrite Hs2b, lookup_alter_eq, HB. }
  rewrite nodes_node in Hnd. pose proof Hnd as [Hbks Hndks]%NoDup_cons.
  assert (Hs2n : ∀ x, x ∈ mjoin (nodes <$> ks) → blocks s2 !! x = blocks st !! x).
  { intros x Hx. rewrite Hs2b. rewrite lookup_alter_ne; [done |]. by intros ->. }
  assert (Hfst : forest_of st b ks).
  { split; [| done | done]. eapply Forall_impl; [exact Hlinks |].
    intros k (tc & _ & Hl). eauto. }
  destruct (forest_of_frame st s2 b ks Hfst Hs2n) as (Hf2 & Hsame2 & Hlf2).
  { intros c C _ _. by rewrite Hs2c. }
  { intros k' tc' _ _. by rewrite Hs2c. }
  { intros v. by rewrite Hs2v. }
  assert (Hkid : Forall (λ k, ∀ st0 tc,
              block_tree st0 k → linked st0 b (root k) tc →
              is_Some (blocks st0 !! b) → eventsDisabled_ st0 ≠ 0 →
              ∃ st', dispose fuel (root k) false st0
                     = Ok tt st' (EvUnplug (root k) false
                                  :: (EvConnectionDisconnect
                                        <$> option_list (blocks st0 !! root k
                                                         ≫= superior))
                                  ++ teardown_log st0 k)
                     ∧ torn_down st0 k (Some (b, tc)) st') ks).
  { apply Forall_forall. intros k Hk st0 tc Ht0 Hl0 Hb0 Hev0.
    assert (Hsk : tree_size k ≤ n).
    { rewrite tree_size_kids in Hsize.
      pose proof (sum_list_with_in _ tree_size _ Hk). lia. }
    pose proof (tree_size_pos k) as Hpos.
    destruct fuel as [|fuel']; [lia |].
    assert (Hbk : b ∉ nodes k).
    { intros Hin. apply Hbks. apply forest_nodes_elem. eauto. }
    assert (Hndk : NoDup (nodes k)).
    { apply (NoDup_join_elem (nodes <$> ks)); [done |].
      apply list_elem_of_fmap. eauto. }
    destruct k as [c kks]. apply (dispose_linked st0 fuel' b c tc kks); try done.
    intros st1 Ht1 Hd1. apply (IH (Node c kks) st1 fuel'); try done. lia. }
  destruct (dispose_children_run (dispose fuel) b ks s2 (with_workspace false B)
              HB2 Hch Hf2) as (s3 & Hrun3 & Hkt); [by rewrite Hs2e | done |].
  pose proof (forest_connections_frame st s2 ks Hs2n) as Hfc2.
  assert (Hsock2 : ∀ k, k ∈ ks →
            socket_of_child s2 (root k) = socket_of_child st (root k)).
  { intros k Hk. destruct (Hsame2 k Hk) as (Hb' & Hc' & _).
    apply socket_of_child_frame.
    - apply Hb', root_in_nodes.
    - intros x Hx. by apply Hc', connections_of_root. }
  assert (Hnotforest : ∀ c C, connections st !! c = Some C → sourceBlock_ C = b →
            c ∉ mjoin (tree_connections s2 <$> ks)).
  { intros c C HC Hsrc Hin. rewrite Hfc2 in Hin.
    destruct (forest_connections_owner st ks c Hkids Hin) as (C' & HC' & Hn).
    rewrite HC in HC'. injection HC' as <-. by rewrite Hsrc in Hn. }
  assert (Hown3 : ∀ c, c ∈ own_connections B →
            ∃ C C3, connections st !! c = Some C ∧ connections s3 !! c = Some C3
                    ∧ targetConnection C3 = None
                    ∧ with_inDB false C3 = disposed_connection C).
  { intros c Hc. destruct (ok_owned _ _ _ Hok c Hc) as (C & HC & Hsrc).
    exists C.
    assert (Hcase : targetConnection C = None
                    ∨ ∃ k, k ∈ ks ∧ socket_of_child st (root k) = Some c).
    { apply elem_of_app in Hc as [Hc|Hc].
      - left. destruct (superior B) as [sc|] eqn:Hsup; [| by apply elem_of_nil in Hc].
        apply list_elem_of_singleton in Hc as ->. by apply (Hfree sc).
      - by apply (Hinf c C). }
    destruct Hcase as [Hnone | (k & Hk & Hsock)].
    - exists C. split_and!; [done | | done | by apply disposed_connection_eq].
      rewrite (kt_connections_frame _ _ _ _ Hkt), Hs2c; [done | |].
      + by apply (Hnotforest c C).
      + intros k Hk Heq. rewrite Hsock2 in Heq by done.
        rewrite Forall_forall in Hlinks. destruct (Hlinks k Hk) as (tc & _ & Hl).
        rewrite (linked_socket _ _ _ _ Hl) in Heq. injection Heq as ->.
        destruct Hl as (? & ? & ? & TC & _ & _ & _ & _ & _ & HTC & _ & Hback).
        rewrite HC in HTC. injection HTC as <-. congruence.
    - exists (freed_connection C). split_and!; try done.
      apply (kt_sockets _ _ _ _ Hkt k c C Hk).
      + by rewrite Hsock2.
      + by rewrite Hs2c. }
  pose proof (kt_parent _ _ _ _ Hkt _ HB2) as HB3.
  set (B3 := with_childBlocks (λ _, []) (with_workspace false B)) in HB3.
  destruct (teardown_own_run s3 b B3 HB3) as (vars & Hrun4 & Hdom).
  { intros c Hc.
    assert (Hc' : c ∈ own_connections B).
    { destruct Hc as [Hc|Hc]; [done |].
      apply (own_connections_split B c (ok_one_plug _ _ _ Hok)).
      rewrite !elem_of_app in Hc. rewrite !elem_of_app. tauto. }
    destruct (Hown3 c Hc') as (C & C3 & _ & HC3 & Hnone & _). eauto. }
  { intros m v Hin. apply (kt_variables _ _ _ _ Hkt). rewrite Hs2v.
    by apply (ok_values _ _ _ Hok m v). }
  match type of Hrun4 with _ = Ok tt ?s _ => set (s7 := s) in * end.
  exists (set_eventsDisabled pred s7). split.
  - unfold dispose_teardown. simpl root. rewrite bind_Events_fire.
    unfold Events_disable. rewrite bind_modify.
    assert (HB0 : blocks (set_eventsDisabled S st) !! b = Some B) by done.
    rewrite (try_finally_enable _ _ s7 (kids_log st b ks ++ own_log b B)).
    { rewrite teardown_log_node, HB. done. }
    mrun. rewrite (ok_live _ _ _ Hok). unfold removeTopBlock. mrun.
    match goal with |- _ ?s = _ => change s with s2 end.
    rewrite Hch, length_fmap. rewrite (bind_run _ _ _ _ _ _ Hrun3), Hrun4.
    rewrite (kids_log_frame st s2 b ks).
    + done.
    + intros k x Hk Hx. apply Hs2n. apply forest_nodes_elem. eauto.
  - assert (Hblocks : blocks (set_eventsDisabled pred s7)
                      = alter (with_inputList []) b (blocks s3)) by done.
    assert (Hconns : ∀ c, connections (set_eventsDisabled pred s7) !! c
                          = if decide (c ∈ own_connections B)
                            then with_inDB false <$> connections s3 !! c
                            else connections s3 !! c).
    { intros c. simpl. pose proof (own_connections_split B c (ok_one_plug _ _ _ Hok)) as Hsp.
      change (inputList B3) with (inputList B).
      change (outputConnection B3) with (outputConnection B).
      change (previousConnection B3) with (previousConnection B).
      change (nextConnection B3) with (nextConnection B).
      destruct (decide (c ∈ own_connections B)) as [Hin|Hin].
      - apply foldl_alter_lookup_in; [done | by apply Hsp].
      - apply foldl_alter_lookup_notin. by rewrite Hsp. }
    assert (Hforest_own : ∀ c, c ∈ mjoin (tree_connections st <$> ks) →
                               c ∉ own_connections B).
    { intros c Hc Hin.
      destruct (forest_connections_owner st ks c Hkids Hc) as (C & HC & Hn).
      destruct (ok_owned _ _ _ Hok c Hin) as (C' & HC' & Hsrc).
      rewrite HC in HC'. injection HC' as <-. by rewrite Hsrc in Hn. }
    split.
    + intros x Bx Hx HBx. rewrite nodes_node in Hx.
      apply elem_of_cons in Hx as [->|Hx].
      * rewrite HB in HBx. injection HBx as <-.
        rewrite Hblocks, lookup_alter_eq, HB3.
        change (Some (with_inputList [] B3) = Some (disposed_block B)).
        unfold B3. by rewrite disposed_block_eq.
      * rewrite Hblocks, lookup_alter_ne by (by intros ->).
        apply (kt_nodes _ _ _ _ Hkt); [done |]. by rewrite Hs2n.
    + intros p tc P [=].
    + intros x Hx _. rewrite nodes_node in Hx.
      apply not_elem_of_cons in Hx as [Hxb Hx].
      rewrite Hblocks, lookup_alter_ne by done.
      rewrite (kt_blocks_frame _ _ _ _ Hkt) by done.
      by rewrite Hs2b, lookup_alter_ne.
    + intros c C Hc HC. rewrite tree_connections_node in Hc.
      unfold connections_of in Hc. rewrite HB in Hc.
      apply elem_of_app in Hc as [Hc|Hc].
      * destruct (Hown3 c Hc) as (C' & C3 & HC' & HC3 & Hnone & Heq).
        rewrite HC in HC'. injection HC' as <-.
        rewrite Hconns, decide_True, HC3 by done. simpl. by rewrite Heq.
      * rewrite Hconns, decide_False by (by apply Hforest_own).
        apply (kt_connections _ _ _ _ Hkt); [by rewrite Hfc2 | by rewrite Hs2c].
    + intros p tc TC [=].
    + intros c Hc _. rewrite tree_connections_node in Hc.
      unfold connections_of in Hc. rewrite HB in Hc.
      apply not_elem_of_app in Hc as [Hc1 Hc2].
      rewrite Hconns, decide_False by done.
      rewrite (kt_connections_frame _ _ _ _ Hkt), Hs2c; [done | by rewrite Hfc2 |].
      intros k Hk Heq. rewrite Hsock2 in Heq by done.
      rewrite Forall_forall in Hlinks. destruct (Hlinks k Hk) as (tc & Htc & Hl).
      rewrite (linked_socket _ _ _ _ Hl) in Heq. injection Heq as ->.
      by apply Hc1, inferiors_own.
    + intros v. simpl. rewrite Hdom, (kt_variables _ _ _ _ Hkt). by rewrite Hs2v.
    + simpl. by rewrite (kt_typeCells _ _ _ _ Hkt).
    + simpl. by rewrite (kt_events _ _ _ _ Hkt), Hs2e.
    + change (topBlocks_ (set_eventsDisabled pred s7)) with (topBlocks_ s3).
      rewrite (kt_topBlocks _ _ _ _ Hkt), Hs2t, nodes_node, list_to_set_cons.
      apply difference_difference_cons.
    + change (blockDB_ (set_eventsDisabled pred s7)) with (blockDB_ s3).
      rewrite (kt_blockDB _ _ _ _ Hkt), Hs2d, nodes_node, list_to_set_cons.
      apply difference_difference_cons.
Qed.

Lemma teardown_detached (t : Tree) (st : State) (fuel : nat) :
  tree_size t ≤ S fuel →
  block_tree st t → detached st (root t) → NoDup (nodes t) →
  ∃ st', dispose_teardown (dispose fuel) (root t) st
         = Ok tt st' (fire_log st (root t) ++ teardown_log st t)
         ∧ torn_down st t None st'.
Proof.
  intros Hsize. by apply (teardown_detached_bounded (tree_size t)).
Qed.

(** Inside a tree every connection that has a target points at a connection
    of the tree, the plug of the root apart. *)
Lemma tree_targets_inside (st : State) (t : Tree) (tc c : nat) (TC : Connection) :
  block_tree st t → tc ∈ tree_connections st t →
  connections st !! tc = Some TC → targetConnection TC = Some c →
  c ∈ tree_connections st t ∨ (blocks st !! root t ≫= superior) = Some tc.
Proof.
  revert tc c TC. induction t as [b ks IH] using Tree_forall_ind.
  intros tc c TC Ht Htc HTC Htgt.
  inversion Ht as [b' ks' B HB Hok Hch Hlinks Hinf Hkids]; subst b' ks'.
  rewrite Forall_forall in IH, Hlinks, Hkids.
  rewrite tree_connections_node in Htc. unfold connections_of in Htc.
  rewrite HB in Htc. apply elem_of_app in Htc as [Htc|Htc].
  - apply elem_of_app in Htc as [Htc|Htc].
    + right. simpl. rewrite HB. simpl.
      destruct (superior B) as [sc|]; [| by apply elem_of_nil in Htc].
      by apply list_elem_of_singleton in Htc as ->.
    + left. destruct (Hinf tc TC Htc HTC) as [Hnone | (k & Hk & Hsock)];
        [congruence |].
      destruct (Hlinks k Hk) as (tc' & _ & Hl).
      rewrite (linked_socket _ _ _ _ Hl) in Hsock. injection Hsock as ->.
      destruct Hl as (Ck & sck & SCk & TCk & HCk & _ & Hsup & _ & _ & HTCk & _ & Hback).
      rewrite HTC in HTCk. injection HTCk as <-.
      rewrite Htgt in Hback. injection Hback as ->.
      apply (tree_connections_kid st b ks k); [done |].
      apply connections_of_root. unfold connections_of. rewrite HCk.
      by apply superior_own.
  - apply forest_connections_elem in Htc as (k & Hk & Htc). left.
    destruct (IH k Hk tc c TC (Hkids k Hk) Htc HTC Htgt) as [Hin | Hsup].
    + by apply (tree_connections_kid st b ks k).
    + destruct (Hlinks k Hk) as (tc' & Htc' & Hl).
      destruct Hl as (Ck & sck & SCk & TCk & HCk & _ & Hsupk & HSCk & Htk & _).
      rewrite HCk in Hsup. simpl in Hsup. rewrite Hsupk in Hsup.
      injection Hsup as ->. rewrite HTC in HSCk. injection HSCk as <-.
      rewrite Htgt in Htk. injection Htk as ->.
      apply (tree_connections_own st b ks B); [done | by apply inferiors_own].
Qed.

(** C4, as amended.  [dispose(healStack)] on a block that is not yet
    disposed first unplugs the block.  If that leaves the block as the
    detached root of a well-formed tree [t] of blocks, [dispose] returns, and
    its log is that of the unplug, then the deletion notice if notifications
    are on, then [teardown_log]: every child from the last to the first, each
    by its own [dispose(false)] (unplug, children, own parts), then the
    Inputs of the block, each with its Fields and its Connection, then the
    output, previous and next connections that remain, then the Values.
    Afterwards every block of the tree is disposed, every connection of
    these blocks is disposed and has no target, and, links being mutual, no
    connection of the store targets a connection of a disposed block. *)
Theorem dispose_teardown_order (st st1 : State) (fuel this : nat)
    (healStack : bool) (B : Block) (l1 : list Event) (t : Tree) :
  blocks st !! this = Some B → workspace B = true →
  unplug (S fuel) this healStack st = Ok tt st1 l1 →
  root t = this → block_tree st1 t → detached st1 this →
  NoDup (nodes t) → tree_size t ≤ S fuel →
  symmetric st1 →
  ∃ st', dispose (S fuel) this healStack st
         = Ok tt st' (l1 ++ fire_log st1 this ++ teardown_log st1 t)
         ∧ (∀ x X, x ∈ nodes t → blocks st1 !! x = Some X →
                   blocks st' !! x = Some (disposed_block X))
         ∧ (∀ c C, c ∈ tree_connections st1 t → connections st1 !! c = Some C →
                   connections st' !! c = Some (disposed_connection C))
         ∧ (∀ c C tc, connections st' !! c = Some C →
                      targetConnection C = Some tc →
                      tc ∉ tree_connections st1 t).
Proof.
  intros HB Hlive Hun <- Ht Hdet Hnd Hsize Hsym.
  destruct (teardown_detached t st1 fuel Hsize Ht Hdet Hnd) as (st' & Hrun & Htd).
  exists st'. split_and!.
  - rewrite dispose_unfold. mrun. rewrite Hlive.
    change (negb true) with false. cbv iota.
    by rewrite (bind_run _ _ _ _ _ _ Hun), Hrun.
  - apply (td_nodes _ _ _ _ Htd).
  - apply (td_connections _ _ _ _ Htd).
  - intros c C tc HC Htgt Hin.
    destruct (decide (c ∈ tree_connections st1 t)) as [Hc|Hc].
    + destruct (tree_connections_owner st1 t c Ht Hc) as (C1 & HC1 & _).
      rewrite (td_connections _ _ _ _ Htd c C1 Hc HC1) in HC.
      injection HC as <-. done.
    + rewrite (td_connections_frame _ _ _ _ Htd) in HC; [| done | done].
      destruct (tree_connections_owner st1 t tc Ht Hin) as (TC & HTC & _).
      pose proof (Hsym c C tc TC HC Htgt HTC) as Hback.
      destruct (tree_targets_inside st1 t tc c TC Ht Hin HTC Hback) as [Hin'|Hsup];
        [done |].
      destruct Hdet as (R & HR & _ & Hfree). rewrite HR in Hsup. simpl in Hsup.
      rewrite (Hfree tc TC Hsup HTC) in Hback. done.
Qed.

Ltac elem_of_each H :=
  first [ by apply elem_of_nil in H
        | apply elem_of_cons in H as [H|H]; [subst | elem_of_each H] ].

Ltac nodup_list :=
  vm_compute; repeat constructor; let H := fresh in intros H; elem_of_cases H.

Lemma one_plus_hole_tree : block_tree one_plus_hole (Node 40 [Node 41 []]).
Proof.
  eapply block_tree_node; [reflexivity | | reflexivity | | |].
  - split; [reflexivity | by right | nodup_list | | |].
    + intros c Hc. vm_compute in Hc. elem_of_each Hc; by eexists.
    + intros sc C [= <-] [= <-]. reflexivity.
    + intros n v Hin. by apply elem_of_nil in Hin.
  - repeat constructor. exists 401. split; [vm_compute; elem_of_list |].
    by repeat eexists.
  - intros ic IC Hic HIC. vm_compute in Hic. elem_of_each Hic.
    + right. exists (Node 41 []). split; [by left | reflexivity].
    + left. by injection HIC as <-.
  - repeat constructor.
    eapply block_tree_node; [reflexivity | | reflexivity | | |];
      [| by constructor | | by constructor].
    + split; [reflexivity | by right | nodup_list | | |].
      * intros c Hc. vm_compute in Hc. elem_of_each Hc; by eexists.
      * intros sc C [= <-] [= <-]. reflexivity.
      * intros n v Hin. by apply elem_of_nil in Hin.
    + intros ic IC Hic. by apply elem_of_nil in Hic.
Qed.

Lemma one_plus_hole_symmetric : symmetric one_plus_hole.
Proof.
  intros c C tc TC HC Htgt HTC.
  apply elem_of_list_to_map_2 in HC.
  elem_of_each HC; injection HC as -> ->; simpl in Htgt; try discriminate Htgt;
    injection Htgt as <-; vm_compute in HTC; by injection HTC as <-.
Qed.

Lemma dispose_teardown_order_witness :
  ∃ st', dispose 10 40 false one_plus_hole
         = Ok tt st' ([EvUnplug 40 false]
                      ++ fire_log one_plus_hole 40
                      ++ teardown_log one_plus_hole (Node 40 [Node 41 []]))
         ∧ (∀ x X, x ∈ [40; 41] → blocks one_plus_hole !! x = Some X →
                   blocks st' !! x = Some (disposed_block X))
         ∧ (∀ c C, c ∈ [400; 401; 402; 410] →
                   connections one_plus_hole !! c = Some C →
                   connections st' !! c = Some (disposed_connection C))
         ∧ (∀ c C tc, connections st' !! c = Some C →
                      targetConnection C = Some tc →
                      tc ∉ [400; 401; 402; 410]).
Proof.
  eapply (dispose_teardown_order one_plus_hole one_plus_hole 9 40 false _
            [EvUnplug 40 false] (Node 40 [Node 41 []])).
  - reflexivity.
  - reflexivity.
  - reflexivity.
  - reflexivity.
  - exact one_plus_hole_tree.
  - eexists. split; [reflexivity |]. split; [reflexivity |].
    by intros sc SC [= <-] [= <-].
  - nodup_list.
  - simpl. lia.
  - exact one_plus_hole_symmetric.
Defined.

(** C4 as stated fails on the stage order: the connection of an Input is
    disposed together with its Input, so when [1 + _] is deleted the
    connection [401] of the first input is disposed before the second Input
    is, and not after all Inputs with the output, previous and next
    connections. *)
Lemma dispose_input_connection_goes_with_its_input :
  ∃ l, log_of (dispose 10 40 false one_plus_hole) = Some l
       ∧ before (EvConnectionDispose 401) (EvInputDispose 40 "B") l.
Proof.
  eexists. split; [vm_compute; reflexivity |].
  exists [EvUnplug 40 false; EvBlockDelete 40; EvDisposeChild 40 41;
          EvUnplug 41 false; EvConnectionDisconnect 410;
          EvInputDispose 41 ""; EvFieldDispose 41 "" (Some "INT");
          EvConnectionDispose 410; EvInputDispose 40 "A"], [],
         [EvFieldDispose 40 "B" (Some "OP_INT"); EvConnectionDispose 402;
          EvConnectionDispose 400].
  reflexivity.
Qed.

Lemma connect_free (st : State) (fuel a c an cp : nat) (A C : Block)
    (AN CP : Connection) :
  blocks st !! a = Some A → blocks st !! c = Some C → a ≠ c →
  parentBlock_ C = None → workspace C = true →
  connections st !! an = Some AN → connections st !! cp = Some CP → an ≠ cp →
  targetConnection AN = None → targetConnection CP = None →
  type_ AN = NEXT_STATEMENT → type_ CP = PREVIOUS_STATEMENT →
  sourceBlock_ AN = a → sourceBlock_ CP = c →
  typeExpr AN = None → typeExpr CP = None →
  check_compatible AN CP = true →
  connect fuel an cp st = Ok tt (healed a c an cp st) [].
Proof.
  intros HA HC Hac Hpar Hlive HAN HCP Hne Hta Htc Htya Htyc Hsa Hsc Hea Hec Hchk.
  unfold connect, canConnect. mrun.
  unfold target_free. rewrite Hta, Htc, Htya, Htyc, Hea, Hchk. simpl.
  mrun. rewrite Htya, Hsa, Hsc. change (is_plug NEXT_STATEMENT) with false.
  cbv iota. unfold setParent.
  rewrite (bind_getBlock c _ _ C) by exact HC.
  rewrite Hpar. rewrite bool_decide_false by done.
  rewrite Hlive. unfold removeTopBlock. mrun.
  match goal with
  | |- context [(getBlock a ≫= _) ?s] =>
      rewrite (bind_getBlock a _ s A)
        by (simpl; by rewrite lookup_alter_ne, HA by done)
  end.
  mrun. reflexivity.
Qed.

(** [unplug(true)] on the middle block [b] of a statement stack [a - b - c]:
    [b] leaves [a], [c] leaves [b], and [c] is connected to [a] if the
    nominal checks of the two connections allow it. *)
Lemma unplug_heal (st : State) (fuel a b c an bp bn cp : nat) (A B C : Block)
    (AN BP BN CP : Connection) :
  blocks st !! a = Some A → blocks st !! b = Some B → blocks st !! c = Some C →
  a ≠ b → b ≠ c → a ≠ c →
  parentBlock_ B = Some a → workspace B = true →
  outputConnection B = None → previousConnection B = Some bp →
  nextConnection B = Some bn →
  parentBlock_ C = Some b → workspace C = true →
  outputConnection C = None → previousConnection C = Some cp →
  connections st !! an = Some AN → connections st !! bp = Some BP →
  connections st !! bn = Some BN → connections st !! cp = Some CP →
  NoDup [an; bp; bn; cp] →
  sourceBlock_ AN = a → sourceBlock_ BP = b →
  sourceBlock_ BN = b → sourceBlock_ CP = c →
  targetConnection BP = Some an → targetConnection BN = Some cp →
  targetConnection CP = Some bn →
  type_ AN = NEXT_STATEMENT → type_ BP = PREVIOUS_STATEMENT →
  type_ CP = PREVIOUS_STATEMENT →
  typeExpr AN = None → typeExpr CP = None →
  unplug fuel b true st
  = Ok tt (let su := unlinked b c cp bn (unlinked a b bp an st) in
           if check_compatible AN CP then healed a c an cp su else su)
       [EvUnplug b true; EvConnectionDisconnect bp; EvConnectionDisconnect cp].
Proof.
  intros HA HB HC Hab Hbc Hac HpB HwB HoB HprevB HnextB HpC HwC HoC HprevC
         HAN HBP HBN HCP Hnd HsAN HsBP HsBN HsCP HtBP HtBN HtCP
         HtyAN HtyBP HtyCP HeAN HeCP.
  apply NoDup_cons in Hnd as [Han Hnd]. apply NoDup_cons in Hnd as [Hbp Hnd].
  apply NoDup_cons in Hnd as [Hbn _].
  assert (an ≠ bp ∧ an ≠ bn ∧ an ≠ cp ∧ bp ≠ bn ∧ bp ≠ cp ∧ bn ≠ cp)
    as (Hn1 & Hn2 & Hn3 & Hn4 & Hn5 & Hn6).
  { split_and!; intros ->;
      first [ apply Han; elem_of_list | apply Hbp; elem_of_list
            | apply Hbn; elem_of_list ]. }
  set (su1 := unlinked a b bp an st).
  set (su2 := unlinked b c cp bn su1).
  assert (Hdis1 : disconnect bp st = Ok tt su1 [EvConnectionDisconnect bp]).
  { apply (disconnect_linked st a b bp an A B BP AN); try done.
    - unfold superior. by rewrite HoB.
    - by left.
    - by rewrite HtyBP. }
  assert (HB1 : blocks su1 !! b = Some (with_parentBlock None B))
    by (by apply unlinked_block_child).
  assert (HC1 : blocks su1 !! c = Some C).
  { unfold su1. rewrite unlinked_block_ne by done. done. }
  assert (HBN1 : connections su1 !! bn = Some BN).
  { unfold su1. rewrite unlinked_connection_ne by done. done. }
  assert (HCP1 : connections su1 !! cp = Some CP).
  { unfold su1. rewrite unlinked_connection_ne by done. done. }
  assert (Hdis2 : disconnect cp su1 = Ok tt su2 [EvConnectionDisconnect cp]).
  { apply (disconnect_linked su1 b c cp bn (with_parentBlock None B) C CP BN);
      try done.
    - unfold superior. by rewrite HoC.
    - by left.
    - by rewrite HtyCP. }
  assert (HAN2 : connections su2 !! an = Some (freed_connection AN)).
  { unfold su2. rewrite unlinked_connection_ne by done.
    by apply unlinked_connection_tc. }
  assert (HCP2 : connections su2 !! cp = Some (freed_connection CP))
    by (by apply unlinked_connection_sc).
  unfold unplug. rewrite bind_emit. cbv beta. mrun.
  rewrite HoB, HprevB. mrun. rewrite HtBP. mrun.
  rewrite (bind_run _ _ _ _ _ _ Hdis1). mrun.
  unfold getNextBlock. mrun.
  change (nextConnection (with_parentBlock None B)) with (nextConnection B).
  rewrite HnextB. unfold targetBlock. mrun. rewrite HtBN. mrun.
  rewrite HtBN. rewrite (bind_run _ _ _ _ _ _ Hdis2).
  unfold checkType_. mrun.
  change (check_compatible (freed_connection AN) (freed_connection CP))
    with (check_compatible AN CP).
  destruct (check_compatible AN CP) eqn:Hchk.
  - rewrite (connect_free su2 fuel a c an cp
               (with_childBlocks (array_remove b) A) (with_parentBlock None C)
               (freed_connection AN) (freed_connection CP)); try done.
    + unfold su2. rewrite unlinked_block_ne by done.
      by apply unlinked_block_parent.
    + by apply unlinked_block_child.
  - done.
Qed.

Lemma healed_block_ne (st : State) (a c an cp x : nat) :
  x ≠ a → x ≠ c → blocks (healed a c an cp st) !! x = blocks st !! x.
Proof. intros H1 H2. simpl. by rewrite !lookup_alter_ne by done. Qed.

Lemma healed_connection_ne (st : State) (a c an cp x : nat) :
  x ≠ an → x ≠ cp → connections (healed a c an cp st) !! x = connections st !! x.
Proof. intros H1 H2. simpl. by rewrite !lookup_alter_ne by done. Qed.

Lemma healed_block_child (st : State) (a c an cp : nat) (C : Block) :
  a ≠ c → blocks st !! c = Some C →
  blocks (healed a c an cp st) !! c = Some (with_parentBlock (Some a) C).
Proof.
  intros Hne HC. simpl. rewrite lookup_alter_ne by done.
  by rewrite lookup_alter_eq, HC.
Qed.

Lemma healed_block_parent (st : State) (a c an cp : nat) (A : Block) :
  a ≠ c → blocks st !! a = Some A →
  blocks (healed a c an cp st) !! a
  = Some (with_childBlocks (λ l, l ++ [c]) A).
Proof.
  intros Hne HA. simpl. rewrite lookup_alter_eq.
  by rewrite lookup_alter_ne, HA by done.
Qed.

Lemma healed_connection_an (st : State) (a c an cp : nat) (AN : Connection) :
  an ≠ cp → connections st !! an = Some AN →
  connections (healed a c an cp st) !! an
  = Some (with_inDB false (with_targetConnection (Some cp) AN)).
Proof.
  intros Hne HAN. simpl. rewrite lookup_alter_ne by done.
  by rewrite lookup_alter_eq, HAN.
Qed.

Lemma healed_connection_cp (st : State) (a c an cp : nat) (CP : Connection) :
  an ≠ cp → connections st !! cp = Some CP →
  connections (healed a c an cp st) !! cp
  = Some (with_inDB false (with_targetConnection (Some an) CP)).
Proof.
  intros Hne HCP. simpl. rewrite lookup_alter_eq.
  by rewrite lookup_alter_ne, HCP by done.
Qed.

(** C1, as amended.  In a statement stack [a - b - c] ([b] below [a], the
    tree of [c] below [b], and nothing else plugged into [b]), deleting the
    middle block [b]:
    - with [healStack = true], [b] is disconnected from [a] and from [c] and
      disposed, and [c] stays alive: if the nominal checks of the next
      connection of [a] and the previous connection of [c] are compatible
      the two are connected to each other and [c] becomes a child of [a];
      otherwise both are left free and [c] is an unattached top-level block;
    - with [healStack = false], [b] is disconnected from [a], and [c] and
      everything below it is disposed together with [b]. *)
Theorem dispose_middle_of_stack (st : State) (fuel a b c an bp bn cp : nat)
    (kks : list Tree) (A B C : Block) (AN BP CP : Connection) :
  blocks st !! a = Some A → blocks st !! b = Some B → blocks st !! c = Some C →
  connections st !! an = Some AN → connections st !! bp = Some BP →
  connections st !! cp = Some CP →
  block_tree st (Node b [Node c kks]) → NoDup (nodes (Node b [Node c kks])) →
  a ∉ nodes (Node b [Node c kks]) → tree_size (Node b [Node c kks]) ≤ S fuel →
  linked st a b an → linked st b c bn →
  outputConnection B = None → previousConnection B = Some bp →
  nextConnection B = Some bn →
  outputConnection C = None → previousConnection C = Some cp →
  type_ AN = NEXT_STATEMENT → type_ BP = PREVIOUS_STATEMENT →
  type_ CP = PREVIOUS_STATEMENT →
  typeExpr AN = None → typeExpr CP = None →
  (∃ st' l,
      dispose (S fuel) b true st
      = Ok tt st' (EvUnplug b true :: EvConnectionDisconnect bp
                   :: EvConnectionDisconnect cp :: l)
      ∧ blocks st' !! b = Some (disposed_block B)
      ∧ if check_compatible AN CP
        then blocks st' !! c = Some (with_parentBlock (Some a) C)
             ∧ blocks st' !! a
               = Some (with_childBlocks (λ l, array_remove b l ++ [c]) A)
             ∧ connections st' !! an
               = Some (with_inDB false (with_targetConnection (Some cp) AN))
             ∧ connections st' !! cp
               = Some (with_inDB false (with_targetConnection (Some an) CP))
        else blocks st' !! c = Some (with_parentBlock None C)
             ∧ c ∈ topBlocks_ st'
             ∧ connections st' !! an = Some (freed_connection AN)
             ∧ connections st' !! cp = Some (freed_connection CP))
  ∧ (∃ st' l,
        dispose (S fuel) b false st
        = Ok tt st' (EvUnplug b false :: EvConnectionDisconnect bp :: l)
        ∧ (∀ x X, x ∈ nodes (Node b [Node c kks]) → blocks st !! x = Some X →
                  blocks st' !! x = Some (disposed_block X))
        ∧ connections st' !! an = Some (freed_connection AN)).
Proof.
  intros HA HB HC HAN HBP HCP Ht Hnd Ha Hsize Hla Hlc HoB HprevB HnextB
         HoC HprevC HtyAN HtyBP HtyCP HeAN HeCP.
  destruct (linked_facts st a an b [Node c kks] Ht Hla Ha)
    as (B' & bp' & BP' & AN' & HB' & HokB & HpB & HsupB & HBP' & HsBP & HplugB
        & HtBP & HAN' & HsAN & Hab & Hbpan & Hbpi & Hant).
  rewrite HB in HB'. injection HB' as <-.
  unfold superior in HsupB. rewrite HoB, HprevB in HsupB. injection HsupB as <-.
  rewrite HBP in HBP'. injection HBP' as <-.
  rewrite HAN in HAN'. injection HAN' as <-.
  inversion Ht as [b' ks' B' HB' _ Hch Hlinks Hinf Hkids]; subst b' ks'.
  rewrite HB in HB'. injection HB' as <-.
  rewrite Forall_singleton in Hkids.
  assert (Hbc' : b ∉ nodes (Node c kks)) by (by apply (root_not_in_kid b [Node c kks]); [| left]).
  destruct (linked_facts st b bn c kks Hkids Hlc Hbc')
    as (C' & cp' & CP' & BN & HC' & HokC & HpC & HsupC & HCP' & HsCP & HplugC
        & HtCP & HBN & HsBN & Hbc & Hcpbn & Hcpi & Hbnt).
  rewrite HC in HC'. injection HC' as <-.
  unfold superior in HsupC. rewrite HoC, HprevC in HsupC. injection HsupC as <-.
  rewrite HCP in HCP'. injection HCP' as <-.
  assert (HtBN : targetConnection BN = Some cp).
  { destruct Hlc as (? & sc & ? & TC & HC0 & _ & Hsup0 & _ & _ & HTC & _ & Hback).
    rewrite HC in HC0. injection HC0 as <-.
    unfold superior in Hsup0. rewrite HoC, HprevC in Hsup0. injection Hsup0 as <-.
    rewrite HBN in HTC. by injection HTC as <-. }
  assert (Hac : a ≠ c).
  { intros ->. apply Ha. rewrite nodes_node. right. simpl. by left. }
  assert (Hbni : bn ∈ inferiors B).
  { unfold inferiors. rewrite HnextB. by left. }
  assert (Hown : ∀ x X, x ∈ own_connections B → connections st !! x = Some X →
                        sourceBlock_ X = b).
  { intros x X Hx HX. destruct (ok_owned _ _ _ HokB x Hx) as (X' & HX' & Hs).
    rewrite HX in HX'. by injection HX' as <-. }
  split.
  - (* healStack = true *)
    assert (Hnd4 : NoDup [an; bp; bn; cp]).
    { repeat constructor; intros Hin; elem_of_cases Hin.
      - congruence.
      - congruence.
      - congruence.
      - apply Hbpi. by rewrite Hin.
      - congruence.
      - congruence. }
    pose proof (unplug_heal st (S fuel) a b c an bp bn cp A B C AN BP BN CP
                  HA HB HC Hab Hbc Hac HpB (ok_live _ _ _ HokB) HoB HprevB HnextB
                  HpC (ok_live _ _ _ HokC) HoC HprevC HAN HBP HBN HCP Hnd4
                  HsAN HsBP HsBN HsCP HtBP HtBN HtCP HtyAN HtyBP HtyCP HeAN HeCP)
      as Hun.
    cbv zeta in Hun.
    set (su1 := unlinked a b bp an st) in *.
    set (su2 := unlinked b c cp bn su1) in *.
    set (B1 := with_childBlocks (array_remove c) (with_parentBlock None B)).
    assert (HB2 : blocks su2 !! b = Some B1).
    { apply unlinked_block_parent; [done |]. by apply unlinked_block_child. }
    assert (HC2 : blocks su2 !! c = Some (with_parentBlock None C)).
    { apply unlinked_block_child; [done |]. unfold su1.
      by rewrite unlinked_block_ne. }
    assert (HA2 : blocks su2 !! a = Some (with_childBlocks (array_remove b) A)).
    { unfold su2. rewrite unlinked_block_ne by done.
      by apply unlinked_block_parent. }
    assert (HAN2 : connections su2 !! an = Some (freed_connection AN)).
    { unfold su2. rewrite unlinked_connection_ne by congruence.
      apply unlinked_connection_tc; [done | done]. }
    assert (HCP2 : connections su2 !! cp = Some (freed_connection CP)).
    { apply unlinked_connection_sc; [done |]. unfold su1.
      rewrite unlinked_connection_ne; [done | congruence | congruence]. }
    assert (Hown2 : ∀ x, x ∈ own_connections B →
              x ≠ an ∧ x ≠ cp
              ∧ ∃ X X', connections st !! x = Some X
                        ∧ connections su2 !! x = Some X'
                        ∧ sourceBlock_ X' = b ∧ type_ X' = type_ X
                        ∧ targetConnection X' = None).
    { intros x Hx. destruct (ok_owned _ _ _ HokB x Hx) as (X & HX & HsX).
      assert (Hxan : x ≠ an) by congruence.
      assert (Hxcp : x ≠ cp) by congruence.
      split_and!; [done | done |]. exists X.
      destruct (decide (x = bp)) as [->|Hxbp].
      { exists (freed_connection BP). rewrite HBP in HX. injection HX as <-.
        split_and!; try done. unfold su2.
        rewrite unlinked_connection_ne by congruence.
        by apply unlinked_connection_sc. }
      destruct (decide (x = bn)) as [->|Hxbn].
      { exists (freed_connection BN). rewrite HBN in HX. injection HX as <-.
        split_and!; try done. apply unlinked_connection_tc; [done |].
        unfold su1. rewrite unlinked_connection_ne; [done | congruence | congruence]. }
      exists X. split_and!; try done.
      - unfold su2, su1. by rewrite !unlinked_connection_ne by done.
      - apply elem_of_app in Hx as [Hx|Hx].
        + unfold superior in Hx. rewrite HoB, HprevB in Hx.
          by apply list_elem_of_singleton in Hx.
        + destruct (Hinf x X Hx HX) as [Hnone | (k & Hk & Hsock)]; [done |].
          apply list_elem_of_singleton in Hk as ->. simpl in Hsock.
          rewrite (linked_socket _ _ _ _ Hlc) in Hsock. congruence. }
    set (st1 := if check_compatible AN CP then healed a c an cp su2 else su2) in *.
    assert (HB1 : blocks st1 !! b = Some B1).
    { unfold st1. destruct (check_compatible AN CP); [| done].
      by rewrite healed_block_ne by done. }
    assert (Hc1 : ∀ x, x ≠ an → x ≠ cp →
                       connections st1 !! x = connections su2 !! x).
    { intros x Hxan Hxcp. unfold st1. destruct (check_compatible AN CP); [| done].
      by rewrite healed_connection_ne by done. }
    assert (Hv1 : variables st1 = variables st).
    { unfold st1. by destruct (check_compatible AN CP). }
    assert (Hch1 : childBlocks_ B1 = []).
    { unfold B1. simpl. rewrite Hch. simpl. by rewrite decide_True. }
    assert (Ht1 : block_tree st1 (Node b [])).
    { apply (block_tree_node st1 b [] B1); [done | | done | by constructor | |
                                            by constructor].
      - destruct HokB as [Hlive Hone Hnodup _ _ Hval]. split; try done.
        + intros x Hx. destruct (Hown2 x Hx)
            as (Hxan & Hxcp & X & X' & HX & HX' & Hs & Hty & Htg).
          exists X'. by rewrite Hc1.
        + intros x X1 Hsup HX1.
          assert (Hx : x ∈ own_connections B) by (by apply superior_own).
          destruct (Hown2 x Hx)
            as (Hxan & Hxcp & X & X' & HX & HX' & Hs & Hty & Htg).
          rewrite Hc1, HX' in HX1 by done. injection HX1 as <-.
          rewrite Hty. unfold superior in Hsup. simpl in Hsup.
          rewrite HoB, HprevB in Hsup. injection Hsup as <-.
          rewrite HBP in HX. by injection HX as <-.
        + intros m v Hin. rewrite Hv1. by apply (Hval m v).
      - intros ic IC Hic HIC. left.
        destruct (Hown2 ic (inferiors_own _ _ Hic))
          as (Hxan & Hxcp & X & X' & HX & HX' & Hs & Hty & Htg).
        rewrite Hc1, HX' in HIC by done. by injection HIC as <-. }
    assert (Hd1 : detached st1 b).
    { exists B1. split; [done |]. split; [done |]. intros x X1 Hsup HX1.
      assert (Hx : x ∈ own_connections B) by (by apply superior_own).
      destruct (Hown2 x Hx)
        as (Hxan & Hxcp & X & X' & HX & HX' & Hs & Hty & Htg).
      rewrite Hc1, HX' in HX1 by done. by injection HX1 as <-. }
    destruct (teardown_detached (Node b []) st1 fuel) as (st' & Hrun & Htd);
      [simpl; lia | done | done | nodup_list |].
    simpl root in Hrun.
    assert (Hfb : ∀ x, x ≠ b → blocks st' !! x = blocks st1 !! x).
    { intros x Hx. apply (td_blocks_frame _ _ _ _ Htd); [| done].
      intros Hin. by apply list_elem_of_singleton in Hin. }
    assert (Hfc : ∀ x, x ∉ own_connections B →
                       connections st' !! x = connections st1 !! x).
    { intros x Hx. apply (td_connections_frame _ _ _ _ Htd); [| done].
      rewrite tree_connections_node. unfold connections_of. rewrite HB1.
      simpl. by rewrite app_nil_r. }
    assert (Han_own : an ∉ own_connections B).
    { intros Hin. by destruct (Hown2 an Hin) as (? & _). }
    assert (Hcp_own : cp ∉ own_connections B).
    { intros Hin. by destruct (Hown2 cp Hin) as (_ & ? & _). }
    exists st', (fire_log st1 b ++ teardown_log st1 (Node b [])). split_and!.
    + rewrite dispose_unfold. mrun. rewrite (ok_live _ _ _ HokB).
      change (negb true) with false. cbv iota.
      by rewrite (bind_run _ _ _ _ _ _ Hun), Hrun.
    + apply (td_nodes _ _ _ _ Htd b B1); [by left | done].
    + rewrite (Hfb c), (Hfb a), (Hfc an), (Hfc cp) by done.
      pose proof (td_topBlocks _ _ _ _ Htd) as Htop. revert Htop.
      unfold st1. destruct (check_compatible AN CP); intros Htop.
      * split_and!.
        -- by rewrite (healed_block_child su2 a c an cp (with_parentBlock None C)).
        -- rewrite (healed_block_parent su2 a c an cp
                      (with_childBlocks (array_remove b) A)); done.
        -- rewrite (healed_connection_an su2 a c an cp (freed_connection AN));
             [done | congruence | done].
        -- rewrite (healed_connection_cp su2 a c an cp (freed_connection CP));
             [done | congruence | done].
      * split_and!; try done.
        rewrite Htop. apply elem_of_difference. split.
        -- apply elem_of_union. right. by apply elem_of_singleton.
        -- rewrite nodes_node. simpl. rewrite elem_of_union, elem_of_singleton.
           intros [Heq|Hemp]; [congruence | by apply elem_of_empty in Hemp].
  - (* healStack = false *)
    assert (Hun : unplug (S fuel) b false st
                  = Ok tt (unlinked a b bp an st)
                       [EvUnplug b false; EvConnectionDisconnect bp]).
    { apply (unplug_linked st (S fuel) a b bp an A B BP AN); try done.
      - apply (ok_live _ _ _ HokB).
      - unfold superior. by rewrite HoB.
      - by left.
      - intros nc Hnc.
        apply (inferior_target_exists st b [Node c kks] B); try done.
        unfold inferiors. rewrite Hnc. by left. }
    destruct (block_tree_unlinked st a b an [Node c kks] Ht Hla Ha Hnd)
      as (sc & Hsc & Htu & Hdet).
    pose proof Hsc as Hsceq. rewrite HB in Hsceq. simpl in Hsceq.
    unfold superior in Hsceq. rewrite HoB, HprevB in Hsceq. injection Hsceq as <-.
    destruct (teardown_detached (Node b [Node c kks]) (unlinked a b bp an st) fuel
                Hsize Htu Hdet Hnd) as (st' & Hrun & Htd).
    simpl root in Hrun.
    pose proof (torn_down_unlinked st st' a b bp an [Node c kks] Ht Hla Ha Hsc Htd)
      as Htd'.
    exists st', (fire_log (unlinked a b bp an st) b
                 ++ teardown_log (unlinked a b bp an st) (Node b [Node c kks])).
    split_and!.
    + rewrite dispose_unfold. mrun. rewrite (ok_live _ _ _ HokB).
      change (negb true) with false. cbv iota.
      by rewrite (bind_run _ _ _ _ _ _ Hun), Hrun.
    + apply (td_nodes _ _ _ _ Htd').
    + by apply (td_socket _ _ _ _ Htd' a an AN).
Qed.

Lemma stack3_tree : block_tree stack3 (Node 2 [Node 3 []]).
Proof.
  eapply block_tree_node; [reflexivity | | reflexivity | | |].
  - split; [reflexivity | by left | nodup_list | | |].
    + intros c Hc. vm_compute in Hc. elem_of_each Hc; by eexists.
    + intros sc C [= <-] [= <-]. reflexivity.
    + intros n v Hin. by apply elem_of_nil in Hin.
  - repeat constructor. exists 12. split; [vm_compute; elem_of_list |].
    by repeat eexists.
  - intros ic IC Hic HIC. vm_compute in Hic. elem_of_each Hic.
    right. exists (Node 3 []). split; [by left | reflexivity].
  - repeat constructor.
    eapply block_tree_node; [reflexivity | | reflexivity | | |];
      [| by constructor | | by constructor].
    + split; [reflexivity | by left | nodup_list | | |].
      * intros c Hc. vm_compute in Hc. elem_of_each Hc; by eexists.
      * intros sc C [= <-] [= <-]. reflexivity.
      * intros n v Hin. by apply elem_of_nil in Hin.
    + intros ic IC Hic HIC. vm_compute in Hic. elem_of_each Hic.
      left. by injection HIC as <-.
Qed.

Lemma dispose_middle_of_stack_witness :
  (∃ st' l,
      dispose 10 2 true stack3
      = Ok tt st' (EvUnplug 2 true :: EvConnectionDisconnect 11
                   :: EvConnectionDisconnect 13 :: l)
      ∧ blocks st' !! 2
        = Some (disposed_block (statement_block (Some 11) (Some 12) (Some 1) [3]))
      ∧ blocks st' !! 3 = Some (statement_block (Some 13) (Some 14) (Some 1) [])
      ∧ blocks st' !! 1 = Some (statement_block None (Some 10) None [3])
      ∧ connections st' !! 10 = Some (linked_connection 1 NEXT_STATEMENT 13)
      ∧ connections st' !! 13 = Some (linked_connection 3 PREVIOUS_STATEMENT 10))
  ∧ (∃ st' l,
        dispose 10 2 false stack3
        = Ok tt st' (EvUnplug 2 false :: EvConnectionDisconnect 11 :: l)
        ∧ (∀ x X, x ∈ [2; 3] → blocks stack3 !! x = Some X →
                  blocks st' !! x = Some (disposed_block X))
        ∧ connections st' !! 10 = Some (free_connection 1 NEXT_STATEMENT)).
Proof.
  apply (dispose_middle_of_stack stack3 9 1 2 3 10 11 12 13 []
           (statement_block None (Some 10) None [2])
           (statement_block (Some 11) (Some 12) (Some 1) [3])
           (statement_block (Some 13) (Some 14) (Some 2) [])
           (linked_connection 1 NEXT_STATEMENT 11)
           (linked_connection 2 PREVIOUS_STATEMENT 10)
           (linked_connection 3 PREVIOUS_STATEMENT 12));
    try reflexivity.
  - exact stack3_tree.
  - nodup_list.
  - intros Hin. vm_compute in Hin. elem_of_cases Hin.
  - simpl. lia.
  - by repeat eexists.
  - by repeat eexists.
Defined.

(** C1 as stated fails for [healStack = false]: deleting block 2 of the
    stack 1 - 2 - 3 disposes block 3 as a child of block 2; it does not
    become an unattached top-level stack. *)
Lemma dispose_without_heal_disposes_the_rest :
  ∃ st' l, dispose 10 2 false stack3 = Ok tt st' l
           ∧ (workspace <$> blocks st' !! 3) = Some false
           ∧ 3 ∉ topBlocks_ st'.
Proof.
  eexists _, _. split; [vm_compute; reflexivity |].
  split; [reflexivity |]. vm_compute. discriminate.
Qed.

(** ** Scope resolution with binding *)


































(** ** The traversal *)










(** C2 fails on a Reference named after a member of [Object.prototype].
    The getter of [toString] stands alone: the store holds no Value at all
    and the environment is the empty object, so the Reference cannot be
    resolved; yet [env[name]] yields the inherited member, which is truthy,
    and the check answers [true].  A getter of [x] in its place is
    refused. *)
Lemma resolveReference_accepts_inherited_name :
  ∀ f,
    (∀ v V, variables (lone_getter "toString") !! v = Some V →
            isReference V = true)
    ∧ resolveReference_env 5 None (lone_getter "toString")
      = Ok ∅ (lone_getter "toString") []
    ∧ JS_get ∅ "toString" = JS_builtin "toString"
    ∧ resolveReference f 5 70 None false (lone_getter "toString")
      = Ok true (lone_getter "toString") [EvResolve 70]
    ∧ resolveReference f 5 70 None false (lone_getter "x")
      = Ok false (lone_getter "x") [EvResolve 70].
Proof.
  intros f. split.
  { intros v V HV. unfold lone_getter in HV. simpl in HV.
    apply lookup_singleton_Some in HV as [_ <-]. done. }
  repeat split; vm_compute; reflexivity.
Qed.

(** C3 fails on a statement stack: the child of block 1 is attached by its
    previous connection and has no output connection, so the traversal
    hands [allVisibleVariables] a null connection and throws after checking
    block 1 alone; blocks 2 and 3 are never visited. *)
Lemma resolveReference_bind_statement_stack_throws :
  ∀ f,
    childBlocks_ <$> blocks stack3 !! 1 = Some [2] ∧
    childBlocks_ <$> blocks stack3 !! 2 = Some [3] ∧
    resolveReference f 5 1 None true stack3 = Throw "TypeError" stack3 [EvResolve 1].
Proof.
  intros f. split; [reflexivity |]. split; [reflexivity |]. vm_compute. reflexivity.
Qed.

(** ** Type inference *)

Lemma unify_unfold (fuel : nat) (a b : TypeExpr) (st : State) :
  unify (S fuel) a b st
  = match deref (S fuel) (typeCells st) a, deref (S fuel) (typeCells st) b with
    | Some a', Some b' =>
        match a', b' with
        | TVAR x, TVAR y =>
            if decide (x = y) then ret true
            else if decide (x < y) then bindCell y (TVAR x);; ret true
            else bindCell x (TVAR y);; ret true
        | TVAR x, _ => bindCell x b';; ret true
        | _, TVAR y => bindCell y a';; ret true
        | BOOL, BOOL | INT, INT | FLOAT, FLOAT => ret true
        | LIST e1, LIST e2 => unify fuel e1 e2
        | PAIR a1 a2, PAIR b1 b2 =>
            r1 ← unify fuel a1 b1; r2 ← unify fuel a2 b2; ret (r1 && r2)
        | FUN a1 a2, FUN b1 b2 =>
            r1 ← unify fuel a1 b1; r2 ← unify fuel a2 b2; ret (r1 && r2)
        | _, _ => ret false
        end
    | _, _ => out_of_fuel
    end st.
Proof.
  change (unify (S fuel) a b st)
    with ((cells ← getTypeCells;
           match deref (S fuel) cells a, deref (S fuel) cells b with
           | Some a', Some b' =>
               match a', b' with
               | TVAR x, TVAR y =>
                   if decide (x = y) then ret true
                   else if decide (x < y) then bindCell y (TVAR x);; ret true
                   else bindCell x (TVAR y);; ret true
               | TVAR x, _ => bindCell x b';; ret true
               | _, TVAR y => bindCell y a';; ret true
               | BOOL, BOOL | INT, INT | FLOAT, FLOAT => ret true
               | LIST e1, LIST e2 => unify fuel e1 e2
               | PAIR a1 a2, PAIR b1 b2 =>
                   r1 ← unify fuel a1 b1; r2 ← unify fuel a2 b2; ret (r1 && r2)
               | FUN a1 a2, FUN b1 b2 =>
                   r1 ← unify fuel a1 b1; r2 ← unify fuel a2 b2; ret (r1 && r2)
               | _, _ => ret false
               end
           | _, _ => out_of_fuel
           end) st).
  by rewrite bind_getTypeCells.
Qed.

Create HintDb within.

Lemma cells_frame_refl (D : nat → Prop) (st : State) : cells_frame D st st.
Proof. split; [by rewrite with_cells_same | done]. Qed.

Lemma cells_frame_trans (D : nat → Prop) (s1 s2 s3 : State) :
  cells_frame D s1 s2 → cells_frame D s2 s3 → cells_frame D s1 s3.
Proof.
  intros [H1 H1'] [H2 H2']. split.
  - rewrite H2 at 1. rewrite H1. done.
  - intros x Hx. by rewrite H2', H1'.
Qed.

Section footprint.
Variables D W : nat → Prop.
Variable unify_through : TypeExpr → string → option TypeExpr → M unit.

Lemma within_ret {A} (P : A → Prop) (a : A) : P a → within D W P (ret a).
Proof. intros HP st Hg. simpl. split_and!; [done | apply cells_frame_refl | done..]. Qed.

Lemma within_throw {A} (P : A → Prop) msg : within D W P (throw msg).
Proof. by intros st Hg. Qed.

Lemma within_TypeError {A} (P : A → Prop) : within D W P TypeError.
Proof. by intros st Hg. Qed.

Lemma within_out_of_fuel {A} (P : A → Prop) : within D W P out_of_fuel.
Proof. by intros st Hg. Qed.

Lemma within_bind {A B} (P : A → Prop) (Q : B → Prop) (m : M A) (k : A → M B) :
  within D W P m → (∀ a, P a → within D W Q (k a)) → within D W Q (m ≫= k).
Proof.
  intros Hm Hk st Hg. unfold mbind, M_bind, bind. specialize (Hm st Hg).
  destruct (m st) as [a s1 l1|msg s1 l1|]; [| done..].
  destruct Hm as (Hg1 & Hf1 & -> & HP). specialize (Hk a HP s1 Hg1).
  destruct (k a s1) as [b s2 l2|msg s2 l2|]; [| done..].
  destruct Hk as (Hg2 & Hf2 & -> & HQ). simpl.
  split_and!; try done. by apply (cells_frame_trans D st s1 s2).
Qed.

Lemma within_reads {A} (P : A → Prop) (m : M A) :
  quiet m → (∀ st a, good D W st → m st = Ok a st [] → P a) → within D W P m.
Proof.
  intros Hq HP st Hg. specialize (Hq st). specialize (HP st).
  destruct (m st) as [a st' l| |]; [| done..]. destruct Hq as [-> ->].
  split_and!; [done | apply cells_frame_refl | done | by apply HP].
Qed.

Lemma within_quiet {A} (m : M A) : quiet m → within D W (λ _, True) m.
Proof. intros Hq. by apply within_reads. Qed.

Lemma closed_opt_None : closed_opt D None.
Proof. by intros t. Qed.

Lemma closed_opt_Some (t : TypeExpr) : closed_term D t → closed_opt D (Some t).
Proof. by intros H t' [= <-]. Qed.

Lemma closed_opt_Some_inv (t : TypeExpr) : closed_opt D (Some t) → closed_term D t.
Proof. intros H. by apply H. Qed.

Lemma closed_term_BOOL : closed_term D BOOL.
Proof. intros x Hx. by apply elem_of_nil in Hx. Qed.

Lemma closed_term_INT : closed_term D INT.
Proof. intros x Hx. by apply elem_of_nil in Hx. Qed.

Lemma closed_term_FLOAT : closed_term D FLOAT.
Proof. intros x Hx. by apply elem_of_nil in Hx. Qed.

Lemma closed_term_PAIR (a b : TypeExpr) :
  closed_term D (PAIR a b) ↔ closed_term D a ∧ closed_term D b.
Proof.
  unfold closed_term. simpl. split.
  - intros H. split; intros x Hx; apply H, elem_of_app; auto.
  - intros [Ha Hb] x [Hx|Hx]%elem_of_app; auto.
Qed.

Lemma closed_term_FUN (a b : TypeExpr) :
  closed_term D (FUN a b) ↔ closed_term D a ∧ closed_term D b.
Proof.
  unfold closed_term. simpl. split.
  - intros H. split; intros x Hx; apply H, elem_of_app; auto.
  - intros [Ha Hb] x [Hx|Hx]%elem_of_app; auto.
Qed.

Lemma closed_term_TVAR (x : nat) : closed_term D (TVAR x) ↔ D x.
Proof.
  unfold closed_term. simpl. split.
  - intros H. apply H. by left.
  - intros H y Hy. by apply list_elem_of_singleton in Hy as ->.
Qed.

Lemma deref_closed (st : State) (fuel : nat) (t t' : TypeExpr) :
  good D W st → closed_term D t → deref fuel (typeCells st) t = Some t' →
  closed_term D t'.
Proof.
  intros [_ _ Hg _]. revert t. induction fuel as [|fuel IH]; intros t Ht Hd.
  - destruct t; simpl in Hd; try (by injection Hd as <-).
    destruct (typeCells st !! cell); [done | by injection Hd as <-].
  - destruct t; simpl in Hd; try (by injection Hd as <-).
    destruct (typeCells st !! cell) as [t''|] eqn:Hc; [| by injection Hd as <-].
    apply (IH t''); [| done]. apply (Hg cell); [| done].
    by apply closed_term_TVAR.
Qed.

Lemma within_bindCell (x : nat) (t : TypeExpr) :
  D x → closed_term D t → within D W (λ _, True) (bindCell x t).
Proof.
  intros Hx Ht st [Hg1 Hg2 Hg3 Hg4]. unfold bindCell, modify. split_and!; try done.
  - split; [done | done | | done]. intros y t' Hy. simpl.
    destruct (decide (x = y)) as [->|Hne].
    + rewrite lookup_insert_eq. by intros [= <-].
    + rewrite lookup_insert_ne by done. by apply Hg3.
  - split; [done |]. intros y Hy. simpl.
    rewrite lookup_insert_ne; [done |]. by intros ->.
Qed.

Lemma within_unify (fuel : nat) :
  ∀ a b, closed_term D a → closed_term D b →
         within D W (λ _, True) (unify fuel a b).
Proof.
  induction fuel as [|fuel IH]; intros a b Ha Hb; [by intros st Hg |].
  intros st Hg. rewrite unify_unfold.
  destruct (deref (S fuel) (typeCells st) a) as [a'|] eqn:Ha'; [| done].
  destruct (deref (S fuel) (typeCells st) b) as [b'|] eqn:Hb';
    [| by destruct a'].
  pose proof (deref_closed st _ a a' Hg Ha Ha') as Hca.
  pose proof (deref_closed st _ b b' Hg Hb Hb') as Hcb.
  revert st Hg Ha' Hb'.
  match goal with
  | |- ∀ st, good D W st → _ → _ → match ?m st with _ => _ end =>
      assert (H : within D W (λ _, True) m);
        [| intros st Hg _ _; exact (H st Hg)]
  end.
  destruct a', b';
    try (rewrite closed_term_PAIR in Hca; destruct Hca);
    try (rewrite closed_term_PAIR in Hcb; destruct Hcb);
    try (rewrite closed_term_FUN in Hca; destruct Hca);
    try (rewrite closed_term_FUN in Hcb; destruct Hcb);
    try (rewrite closed_term_TVAR in Hca);
    try (rewrite closed_term_TVAR in Hcb);
    try (by apply within_ret);
    try (by apply IH);
    try (apply (within_bind (λ _, True)); [by apply IH | intros r1 _];
         apply (within_bind (λ _, True)); [by apply IH | intros r2 _];
         by apply within_ret);
    try (apply (within_bind (λ _, True));
         [apply within_bindCell; try done;
          first [ by apply closed_term_TVAR | by apply closed_term_PAIR
                | by apply closed_term_FUN ]
         | intros _ _; by apply within_ret]).
  repeat case_decide; try (by apply within_ret);
    (apply (within_bind (λ _, True));
     [apply within_bindCell; [done | by apply closed_term_TVAR]
     | intros _ _; by apply within_ret]).
Qed.

Lemma within_unify_with (fuel : nat) (t : TypeExpr) (e : option TypeExpr) :
  closed_term D t → closed_opt D e → within D W (λ _, True) (unify_with fuel t e).
Proof.
  intros Ht He. unfold unify_with. destruct e as [e|]; [| apply within_TypeError].
  apply (within_bind (λ _, True)).
  - apply within_unify; [done | by apply He].
  - intros _ _. by apply within_ret.
Qed.

Lemma within_unify_if (fuel : nat) (t e : option TypeExpr) :
  closed_opt D t → closed_opt D e → within D W (λ _, True) (unify_if fuel t e).
Proof.
  intros Ht He. unfold unify_if. destruct t as [t|]; [| by apply within_ret].
  apply within_unify_with; [by apply Ht | done].
Qed.

Lemma within_getBlock b : within D W (λ _, True) (getBlock b).
Proof. apply within_quiet, quiet_getBlock. Qed.

Lemma within_VAR_text this :
  W this → within D W (λ n, n ≠ "__proto__") (VAR_text this).
Proof.
  intros HW. apply within_reads.
  { unfold VAR_text, getField. quiet. }
  intros st a Hg. unfold VAR_text, getField. autorewrite with mrun.
  mcase; [| done]. autorewrite with mrun.
  destruct (List.find _ _) as [field|] eqn:Hfind; [| done].
  intros [= <-]. by apply (good_names _ _ _ Hg this b field).
Qed.

Lemma find_input_in (B : Block) (n : string) (input : Input) (c : nat) :
  List.find (λ input, bool_decide (name input = n)) (inputList B) = Some input →
  connection input = Some c →
  c ∈ omap connection (inputList B).
Proof.
  intros Hfind Hc. apply list_elem_of_omap. exists input. split; [| done].
  apply list_elem_of_In. by apply (find_some _ _ Hfind).
Qed.

Lemma within_input_typeExpr this n :
  W this → within D W (closed_opt D) (input_typeExpr this n).
Proof.
  intros HW. apply within_reads.
  { unfold input_typeExpr. quiet. }
  intros st a Hg. unfold input_typeExpr, getInput. autorewrite with mrun.
  mcase; [| done]. autorewrite with mrun.
  destruct (List.find _ (inputList b)) as [input|] eqn:Hfind; [| done].
  destruct (connection input) as [c|] eqn:Hc; [| done].
  mcase; [| done]. autorewrite with mrun. intros [= <-]. intros t Ht.
  apply (good_sockets _ _ _ Hg this b c c0 t); try done.
  apply elem_of_app. right. by apply (find_input_in b n input).
Qed.

Lemma within_output_typeExpr this :
  W this → within D W (closed_opt D) (output_typeExpr this).
Proof.
  intros HW. apply within_reads.
  { unfold output_typeExpr. quiet. }
  intros st a Hg. unfold output_typeExpr.
  mcase; [| done].
  destruct (outputConnection b) as [c|] eqn:Hc; [| done].
  mcase; [| done]. autorewrite with mrun. intros [= <-]. intros t Ht.
  apply (good_sockets _ _ _ Hg this b c c0 t); try done.
  apply elem_of_app. left. rewrite Hc. by left.
Qed.

Lemma element_type_of_closed (t a : TypeExpr) :
  closed_term D t → element_type_of t = Some a → closed_term D a.
Proof. destruct t; try done. by intros H [= <-]. Qed.

Lemma first_type_of_closed (t a : TypeExpr) :
  closed_term D t → first_type_of t = Some a → closed_term D a.
Proof. destruct t; try done. intros [H _]%closed_term_PAIR [= <-]. done. Qed.

Lemma second_type_of_closed (t a : TypeExpr) :
  closed_term D t → second_type_of t = Some a → closed_term D a.
Proof. destruct t; try done. intros [_ H]%closed_term_PAIR [= <-]. done. Qed.

Lemma arg_type_of_closed (t a : TypeExpr) :
  closed_term D t → arg_type_of t = Some a → closed_term D a.
Proof. destruct t; try done. intros [H _]%closed_term_FUN [= <-]. done. Qed.

Lemma return_type_of_closed (t a : TypeExpr) :
  closed_term D t → return_type_of t = Some a → closed_term D a.
Proof. destruct t; try done. intros [_ H]%closed_term_FUN [= <-]. done. Qed.

Lemma within_prop (f : TypeExpr → option TypeExpr) (e : option TypeExpr) :
  (∀ t a, closed_term D t → f t = Some a → closed_term D a) →
  closed_opt D e → within D W (closed_opt D) (prop f e).
Proof.
  intros Hf He. unfold prop. destruct e as [t|]; [| apply within_TypeError].
  apply within_ret. intros a Ha. apply (Hf t a); [by apply He | done].
Qed.

Lemma closed_env_empty : closed_env D empty_object.
Proof. split; [| done]. intros n t Hn. simpl in Hn. by rewrite lookup_empty in Hn. Qed.

Lemma closed_env_copy (env : TypeEnv) :
  closed_env D env → closed_env D (mkObject (Object_assign ∅ (own env)) None).
Proof.
  intros [He _]. split; [| done]. intros n t. unfold Object_assign. simpl.
  rewrite (right_id_L ∅ (∪)). apply He.
Qed.

Lemma closed_env_assign (env : TypeEnv) (n : string) (t : option TypeExpr) :
  n ≠ "__proto__" → closed_env D env → closed_opt D t →
  closed_env D (assign n t env).
Proof.
  intros Hn [He Hp] Ht. unfold assign. rewrite bool_decide_false by done.
  split; [| done]. simpl. intros n' t' Hn'. destruct (decide (n = n')) as [->|Hne].
  - rewrite lookup_insert_eq in Hn'. by injection Hn' as <-.
  - rewrite lookup_insert_ne in Hn' by done. by apply (He n').
Qed.

Lemma closed_env_assign_undefined (env : TypeEnv) (n : string) :
  closed_env D env → closed_env D (assign_undefined n env).
Proof.
  intros [He Hp]. unfold assign_undefined. case_bool_decide; [done |].
  split; [| done]. simpl. intros n' t' Hn'. destruct (decide (n = n')) as [->|Hne].
  - rewrite lookup_insert_eq in Hn'. injection Hn' as <-. by intros t.
  - rewrite lookup_insert_ne in Hn' by done. by apply (He n').
Qed.

Lemma closed_env_lookup (env : TypeEnv) (n : string) :
  closed_env D env →
  match lookup_type env n with
  | Found (Some t) => closed_term D t
  | Through _ _ => False
  | _ => True
  end.
Proof.
  intros [He Hp]. unfold lookup_type.
  destruct (own env !! n) as [[t|]|] eqn:Hn; [by apply (He n (Some t)) | done |].
  destruct (prototype env) as [[t|]|] eqn:Hproto; [| done |].
  - by specialize (Hp _ eq_refl).
  - by case_bool_decide.
Qed.

#[local] Hint Resolve within_ret within_throw within_TypeError within_out_of_fuel
  within_getBlock within_VAR_text
  within_input_typeExpr within_output_typeExpr within_prop within_unify_with
  within_unify_if closed_opt_None closed_opt_Some closed_opt_Some_inv
  closed_term_BOOL closed_term_INT closed_term_FLOAT
  element_type_of_closed first_type_of_closed second_type_of_closed
  arg_type_of_closed return_type_of_closed closed_env_copy closed_env_assign
  closed_env_assign_undefined
  : within.

Ltac within :=
  first
    [ solve [eauto with within]
    | match goal with
      | |- within _ _ _ (match ?x with _ => _ end) => destruct x eqn:?; within
      | |- within _ _ _ (if ?x then _ else _) => destruct x; within
      | |- within _ _ _ ((match _ with _ => _ end) ≫= _) =>
          eapply (within_bind (λ _, True)); [within | intros ? _; within]
      | |- within _ _ _ (_ ≫= _) =>
          eapply within_bind; [solve [eauto with within] | intros ? ?; within]
      end
    | idtac ].

Lemma within_callInfer_ (infer' : nat → TypeEnv → M (option TypeExpr))
    this n env :
  W this →
  (∀ child env, W child → closed_env D env →
                within D W (closed_opt D) (infer' child env)) →
  closed_env D env →
  within D W (closed_opt D) (callInfer_ infer' this n env).
Proof.
  intros HW Hinfer Henv st Hg. unfold callInfer_, getInput, targetBlock.
  autorewrite with mrun.
  mcase; [| done]. autorewrite with mrun.
  destruct (List.find _ (inputList b)) as [input|] eqn:Hfind; [| done].
  destruct (connection input) as [c|] eqn:Hc; [| done].
  autorewrite with mrun. mcase; [| done].
  destruct (targetConnection c0) as [tc|] eqn:Htc.
  - autorewrite with mrun. mcase; [| done]. autorewrite with mrun.
    assert (HWc : W (sourceBlock_ c1)).
    { apply (good_children _ _ _ Hg this b c c0 tc c1); try done.
      by apply (find_input_in b n input). }
    mcase; [| done].
    destruct (has_infer (type b0)).
    + by apply Hinfer.
    + by apply within_output_typeExpr.
  - autorewrite with mrun. simpl.
    split_and!; [done | apply cells_frame_refl | done | apply closed_opt_None].
Qed.

Lemma within_infer (fuel : nat) :
  ∀ this env, W this → closed_env D env →
              within D W (closed_opt D) (infer unify_through fuel this env).
Proof.
  induction fuel as [|fuel IH]; intros this env HW Henv; simpl; [within |].
  pose proof (λ n env, within_callInfer_ (infer unify_through fuel) this n env HW IH)
    as Hcall.
  eapply within_bind; [apply within_getBlock | intros B _].
  destruct (type B).
  all: try (within; fail).
  - eapply within_bind; [by apply within_output_typeExpr | intros expected He].
    eapply (within_bind (λ _, True)); [| intros _ _; within].
    induction (seq 0 (itemCount_ B)) as [|x xs IHxs]; simpl; [within |].
    eapply within_bind; [by apply Hcall | intros t Ht].
    eapply (within_bind (λ _, True)); [within | intros _ _; exact IHxs].
  - eapply within_bind; [by apply within_VAR_text | intros var_name Hname].
    eapply within_bind; [by apply within_output_typeExpr | intros expected He].
    eapply within_bind; [within | intros arg Harg].
    eapply within_bind;
      [apply Hcall; destruct arg; within | intros return_type Hr; within].
  - eapply within_bind; [by apply within_VAR_text | intros var_name Hname].
    eapply within_bind; [by apply within_output_typeExpr | intros expected He].
    eapply (within_bind (λ _, True)); [| intros _ _; within].
    pose proof (closed_env_lookup env var_name Henv) as Hl.
    destruct (lookup_type env var_name) as [[t|]| | |]; within. done.
Qed.

End footprint.


Lemma as_declared_ext (st s : State) (B : Block) :
  connections s = connections st → as_declared st B → as_declared s B.
Proof.
  intros Hc (out & Hout & Hdecl & Hplain). exists out.
  unfold output_socket in *. rewrite Hc.
  rewrite (input_sockets_ext st s B Hc), (plain_input_names_ext st s B Hc).
  done.
Qed.

Lemma sockets_typeExprs (st : State) (B : Block) (c : nat) (C : Connection)
    (t : TypeExpr) :
  c ∈ sockets B → connections st !! c = Some C → typeExpr C = Some t →
  t ∈ socket_typeExprs st B.
Proof.
  intros Hc HC Ht. unfold sockets in Hc. unfold socket_typeExprs.
  apply elem_of_app in Hc as [Hc|Hc]; apply elem_of_app; [left | right].
  - unfold output_socket. destruct (outputConnection B) as [oc|]; simpl in *;
      [| by apply elem_of_nil in Hc].
    apply list_elem_of_singleton in Hc as <-. rewrite HC. simpl. rewrite Ht.
    apply list_elem_of_here.
  - apply list_elem_of_omap in Hc as (input & Hin & Hconn).
    apply list_elem_of_fmap. exists (name input, t). split; [done |].
    apply list_elem_of_omap. exists input. split; [done |].
    unfold socket_of. rewrite Hconn. simpl. rewrite HC. simpl. by rewrite Ht.
Qed.

Lemma typed_tree_sub (st : State) (t : Tree) (b : nat) :
  typed_tree st t → b ∈ nodes t →
  ∃ ks, typed_tree st (Node b ks) ∧ ∀ x, x ∈ nodes (Node b ks) → x ∈ nodes t.
Proof.
  revert t. refine (Tree_forall_ind _ _).
  intros b' ks IH Htree Hb.
  rewrite nodes_node in Hb. apply elem_of_cons in Hb as [->|Hb].
  - by exists ks.
  - apply list_elem_of_join in Hb as (ns & Hb & Hns).
    apply list_elem_of_fmap in Hns as (k & -> & Hk).
    inversion Htree as [? ? B HB Hh Hl Hn Hc Hr Hsub]; subst.
    rewrite Forall_forall in IH, Hsub.
    destruct (IH k Hk (Hsub k Hk) Hb) as (ks' & Ht' & Hin).
    exists ks'. split; [done |]. intros x Hx.
    apply (nodes_kid b' ks k); [done |]. by apply Hin.
Qed.

(** The reset from the root of a typed tree clears every type variable on
    every socket of the tree. *)
Lemma clearTypes_covers (st0 : State) :
  ∀ t fuel cells st' l B0,
    typed_tree st0 t →
    blocks st0 !! root t = Some B0 →
    has_infer (type B0) = true →
    clearTypes fuel (root t) (with_cells cells st0) = Ok tt st' l →
    ∀ b B c C e x,
      b ∈ nodes t → blocks st0 !! b = Some B → c ∈ sockets B →
      connections st0 !! c = Some C → typeExpr C = Some e → x ∈ vars e →
      EvClear (TVAR x) ∈ l.
Proof.
  refine (Tree_forall_ind _ _).
  intros b0 ks IH fuel cells st' l B0 Htree HB0 Hhooks Hrun b B c C e x
    Hb HB Hc HC He Hx.
  simpl in HB0.
  inversion Htree as [? ? B0' HB0' Hh Hl Hn Hcl Hr Hsub]; subst.
  rewrite HB0 in HB0'. injection HB0' as <-.
  destruct (Hh Hhooks) as (Hdecl & Hnf & Hns).
  destruct fuel as [|fuel]; [done |].
  assert (HBs : blocks (with_cells cells st0) !! b0 = Some B0) by done.
  assert (Hdecls : as_declared (with_cells cells st0) B0)
    by (by apply (as_declared_ext st0)).
  destruct (clearTypes_declared_run fuel (with_cells cells st0) b0 B0 HBs Hdecls)
    as (own & names & Heq & Hperm & Hvars & _).
  simpl root in Hrun. rewrite Heq in Hrun.
  apply prepend_Ok_inv in Hrun as (l2 & Hrest & ->).
  rewrite nodes_node in Hb. apply elem_of_cons in Hb as [->|Hb].
  - rewrite HB0 in HB. injection HB as <-.
    apply elem_of_app. left. apply elem_of_cons. right.
    apply list_elem_of_fmap. exists (TVAR x). split; [done |].
    apply (Hvars Hnf Hns e x); [| done].
    by apply (sockets_typeExprs (with_cells cells st0) B0 c C e).
  - apply list_elem_of_join in Hb as (ns & Hb & Hk).
    apply list_elem_of_fmap in Hk as (k & -> & Hk).
    rewrite Forall_forall in IH, Hr, Hsub.
    destruct (Hr k Hk) as (_ & n & input & e0 & c0 & Hfind & Hsock & Hconn & Hplug).
    assert (Hn' : n ∈ names).
    { rewrite Hperm. apply list_elem_of_fmap. exists (n, e0).
      split; [done |]. by apply (input_sockets_elem (with_cells cells st0) B0 n input). }
    destruct (clear_children_calls _ _ _ _ _ _ n Hrest Hn')
      as (cells2 & s2 & l1 & l2' & l3 & Hcall & ->).
    destruct (cleared_all_structure own (with_cells cells st0)) as (cells' & Hst1).
    rewrite Hst1, !with_cells_with_cells in Hcall.
    pose proof (Hsub k Hk) as Hktree.
    inversion Hktree as [bk ksk Bk HBk Hhk Hlk Hnk Hclk Hrk Hsubk Heqk].
    rewrite <- Heqk in *. simpl root in *.
    rewrite (callClearTypes__run _ (with_cells cells2 st0) b0 bk B0 Bk n input c0)
      in Hcall; try done.
    apply elem_of_app. right. apply elem_of_app. right. apply elem_of_app. left.
    destruct (has_infer (type Bk)) eqn:Hhooksk.
    + apply (IH (Node bk ksk) Hk fuel cells2 s2 l2' Bk Hktree HBk Hhooksk Hcall
               b B c C e x); done.
    + exfalso.
      destruct ksk as [|k' ksk'].
      * rewrite nodes_node in Hb. simpl in Hb.
        apply list_elem_of_singleton in Hb as ->.
        rewrite HBk in HB. injection HB as <-.
        rewrite (Hlk eq_refl c C e Hc HC He) in Hx. by apply elem_of_nil in Hx.
      * apply Forall_cons in Hrk as [[Hcontra _] _]. congruence.
Qed.

Lemma plugged_into_Some (st : State) (c tc : nat) (C T : Connection) :
  connections st !! c = Some C → targetConnection C = Some tc →
  connections st !! tc = Some T → plugged_into st c = Some (sourceBlock_ T).
Proof.
  intros HC Htc HT. unfold plugged_into. rewrite HC. simpl. rewrite Htc. simpl.
  by rewrite HT.
Qed.

(** The blocks of a typed tree, with the type variables that a reset from
    its root has cleared, are a footprint for [infer]. *)
Lemma typed_tree_good (st : State) (t : Tree) (fuel : nat) (B : Block)
    (st' : State) (l : list Event) :
  typed_tree st t →
  blocks st !! root t = Some B →
  has_infer (type B) = true →
  clearTypes fuel (root t) st = Ok tt st' l →
  good (λ x, x ∈ cleared_cells l) (λ b, b ∈ nodes t)
       (with_cells (wipe (cleared_cells l) (typeCells st)) st).
Proof.
  intros Htree HB Hhi Hclear. split.
  - intros b' B' c C e Hb HB' Hc HC He x Hx. unfold cleared_cells.
    apply list_elem_of_omap. exists (EvClear (TVAR x)). split; [| done].
    apply (clearTypes_covers st t fuel (typeCells st) st' l B Htree HB Hhi)
      with b' B' c C e; try done.
    by rewrite with_cells_same.
  - intros b' B' c C tc T Hb HB' Hc HC Htc HT. simpl in *.
    destruct (typed_tree_sub st t b' Htree Hb) as (ks' & Ht' & Hin).
    inversion Ht' as [? ? B0 HB0 Hh Hl Hn Hcl Hr Hsub]; subst.
    rewrite HB' in HB0. injection HB0 as <-.
    pose proof (Hcl c _ Hc (plugged_into_Some st c tc C T HC Htc HT)) as Hchild.
    apply list_elem_of_fmap in Hchild as (k & -> & Hk).
    apply Hin. apply (nodes_kid b' ks' k); [done |]. apply root_in_nodes.
  - intros x e Hx Hc. simpl in Hc. by rewrite wipe_lookup_in in Hc.
  - intros b' B' field Hb HB' Hfind. simpl in *.
    destruct (typed_tree_sub st t b' Htree Hb) as (ks' & Ht' & Hin).
    inversion Ht' as [? ? B0 HB0 Hh Hl Hn Hcl Hr Hsub]; subst.
    rewrite HB' in HB0. injection HB0 as <-. by apply Hn.
Qed.


Lemma let_tree_typed_tree bound cells :
  typed_tree (let_x_3_in_x bound cells) let_tree.
Proof.
  eapply typed_tree_node; [reflexivity | | done | | | |].
  - intros _. split; [| done].
    exists (TVAR 1). split; [reflexivity |]. split; [apply (declared_let 0 0 1) |].
    intros n Hn. vm_compute in Hn. vm_compute. intros Hp.
    elem_of_cases Hn; subst; elem_of_cases Hp.
  - intros field [= <-]. done.
  - intros c child Hc Hplug. vm_compute in Hc.
    elem_of_cases Hc; subst; vm_compute in Hplug; injection Hplug as <-;
      vm_compute; elem_of_list.
  - repeat constructor.
    + exists "EXP1", (mkInput "EXP1" [label "="] (Some 201)), (TVAR 0), 201. done.
    + exists "EXP2", (mkInput "EXP2" [label "in"] (Some 202)), (TVAR 1), 202. done.
  - repeat constructor.
    + eapply typed_tree_node; [reflexivity | done | | | | |].
      * intros _ c C e Hc HC He. vm_compute in Hc. elem_of_cases Hc. subst.
        vm_compute in HC. injection HC as <-. by injection He as <-.
      * intros field Hf. vm_compute in Hf. discriminate Hf.
      * intros c child Hc. vm_compute in Hc. elem_of_cases Hc.
      * constructor.
      * constructor.
    + eapply typed_tree_node; [reflexivity | | done | | | |].
      * intros _. split; [| done].
        exists (TVAR 2). split; [reflexivity |].
        split; [apply (declared_variables_get 0 2) |].
        intros n Hn. vm_compute in Hn. elem_of_cases Hn.
      * intros field [= <-]. done.
      * intros c child Hc. vm_compute in Hc. elem_of_cases Hc.
      * constructor.
      * constructor.
Qed.



(** * Properties of the rest of the block interface *)

(** ** Walking the tree *)

(** What a child of a node of a well-formed tree looks like from the node. *)
Lemma kid_facts (st : State) (b : nat) (ks : list Tree) (B : Block) (k : Tree) :
  block_tree st (Node b ks) → blocks st !! b = Some B → k ∈ ks →
  ∃ C sc SC tc TC,
    blocks st !! root k = Some C ∧ parentBlock_ C = Some b ∧
    superior C = Some sc ∧ connections st !! sc = Some SC ∧
    sourceBlock_ SC = root k ∧ targetConnection SC = Some tc ∧
    tc ∈ inferiors B ∧ connections st !! tc = Some TC ∧
    targetConnection TC = Some sc ∧ block_tree st k.
Proof.
  intros Ht HB Hk.
  inversion Ht as [b' ks' B' HB' Hok Hch Hlinks Hinf Hkids]; subst b' ks'.
  rewrite HB in HB'. injection HB' as <-.
  rewrite Forall_forall in Hlinks, Hkids.
  destruct (Hlinks k Hk) as (tc & Htc & Hl). pose proof (Hkids k Hk) as Htk.
  destruct Hl as (C & sc & SC & TC & HC & Hp & Hsup & HSC & Htgt & HTC & Hsrc & Hback).
  destruct (block_tree_node_ok st k (root k) Htk (root_in_nodes k)) as (C' & HC' & Hokk).
  rewrite HC in HC'. injection HC' as <-.
  destruct (ok_owned _ _ _ Hokk sc (superior_own _ _ Hsup)) as (SC' & HSC' & Hown).
  rewrite HSC in HSC'. injection HSC' as <-.
  exists C, sc, SC, tc, TC. by split_and!.
Qed.

(** What [targetBlock] answers on a connection of a node into which
    children plug: nothing, or the root of one of the subtrees. *)
Lemma inferior_targetBlock (st : State) (b : nat) (ks : list Tree) (B : Block)
    (ic : nat) :
  block_tree st (Node b ks) → blocks st !! b = Some B → ic ∈ inferiors B →
  ∃ IC, connections st !! ic = Some IC
        ∧ ((targetConnection IC = None ∧ targetBlock ic st = Ok None st [])
           ∨ ∃ k, k ∈ ks ∧ socket_of_child st (root k) = Some ic
                  ∧ targetConnection IC ≠ None
                  ∧ targetBlock ic st = Ok (Some (root k)) st []).
Proof.
  intros Ht HB Hic.
  inversion Ht as [b' ks' B' HB' Hok Hch Hlinks Hinf Hkids]; subst b' ks'.
  rewrite HB in HB'. injection HB' as <-.
  destruct (ok_owned _ _ _ Hok ic (inferiors_own _ _ Hic)) as (IC & HIC & _).
  exists IC. split; [done |].
  destruct (Hinf ic IC Hic HIC) as [Hnone | (k & Hk & Hsock)].
  - left. split; [done |]. unfold targetBlock. mrun. by rewrite Hnone.
  - right. exists k. split_and!; [done | done | |].
    + destruct (kid_facts st b ks B k Ht HB Hk)
        as (C & sc & SC & tc & TC & HC & _ & Hsup & HSC & _ & Htgt & _ & HTC & Hback & _).
      unfold socket_of_child in Hsock. rewrite HC in Hsock. simpl in Hsock.
      rewrite Hsup in Hsock. simpl in Hsock. rewrite HSC in Hsock. simpl in Hsock.
      rewrite Htgt in Hsock. injection Hsock as ->. congruence.
    + destruct (kid_facts st b ks B k Ht HB Hk)
        as (C & sc & SC & tc & TC & HC & _ & Hsup & HSC & Hsrc & Htgt & _ & HTC & Hback & _).
      unfold socket_of_child in Hsock. rewrite HC in Hsock. simpl in Hsock.
      rewrite Hsup in Hsock. simpl in Hsock. rewrite HSC in Hsock. simpl in Hsock.
      rewrite Htgt in Hsock. injection Hsock as ->.
      rewrite HIC in HTC. injection HTC as <-.
      unfold targetBlock. mrun. rewrite Hback. mrun. by rewrite Hsrc.
Qed.

Lemma getRootBlock_more (fuel k this : nat) (st : State) (r : nat) :
  getRootBlock fuel this st = Ok r st [] →
  getRootBlock (fuel + k) this st = Ok r st [].
Proof.
  revert this. induction fuel as [|fuel IH]; intros this; [done |].
  simpl. destruct (blocks st !! this) as [B|] eqn:HB.
  - rewrite !(bind_getBlock _ _ _ _ HB). destruct (parentBlock_ B); [apply IH | done].
  - by rewrite !(bind_getBlock_None _ _ _ HB).
Qed.

Lemma getRootBlock_inside (st : State) (t : Tree) :
  block_tree st t →
  ∀ n r x, getRootBlock n (root t) st = Ok r st [] → x ∈ nodes t →
           getRootBlock (tree_size t + n) x st = Ok r st [].
Proof.
  induction t as [b ks IH] using Tree_forall_ind. intros Ht n r x Hroot Hx.
  rewrite nodes_node in Hx. apply elem_of_cons in Hx as [->|Hx].
  { rewrite Nat.add_comm. by apply getRootBlock_more. }
  apply list_elem_of_join in Hx as (l & Hx & Hl).
  apply list_elem_of_fmap in Hl as (k & -> & Hk).
  inversion Ht as [b' ks' B HB Hok Hch Hlinks Hinf Hkids]; subst b' ks'.
  destruct (kid_facts st b ks B k Ht HB Hk)
    as (C & sc & SC & tc & TC & HC & Hpar & _ & _ & _ & _ & _ & _ & _ & Htk).
  rewrite Forall_forall in IH.
  assert (Hup : getRootBlock (S n) (root k) st = Ok r st []).
  { simpl. mrun. by rewrite Hpar. }
  pose proof (IH k Hk Htk (S n) r x Hup Hx) as Hrun.
  assert (Hsize : tree_size k < tree_size (Node b ks)).
  { rewrite tree_size_kids. apply Nat.lt_succ_r.
    clear -Hk. induction Hk as [k ks|k k' ks Hk IHk]; simpl; lia. }
  replace (tree_size (Node b ks) + n)
    with ((tree_size k + S n) + (tree_size (Node b ks) - S (tree_size k))) by lia.
  by apply getRootBlock_more.
Qed.

(** X1.  From any block of a well-formed tree whose root hangs from
    nothing, [getRootBlock] climbs the parent links and returns the root of
    the tree, reading the store only; a budget of the size of the tree is
    enough. *)
Theorem getRootBlock_root (st : State) (t : Tree) (x fuel : nat) :
  block_tree st t → detached st (root t) → x ∈ nodes t → tree_size t < fuel →
  getRootBlock fuel x st = Ok (root t) st [].
Proof.
  intros Ht (R & HR & Hpar & _) Hx Hfuel.
  assert (Hroot : getRootBlock 1 (root t) st = Ok (root t) st []).
  { simpl. mrun. by rewrite Hpar. }
  pose proof (getRootBlock_inside st t Ht 1 (root t) x Hroot Hx) as Hrun.
  replace fuel with ((tree_size t + 1) + (fuel - (tree_size t + 1))) by lia.
  by apply getRootBlock_more.
Qed.

(** The whole stack of [stack3] is a tree that hangs from nothing. *)
Lemma stack3_whole_tree : block_tree stack3 (Node 1 [Node 2 [Node 3 []]]).
Proof.
  eapply block_tree_node; [reflexivity | | reflexivity | | |].
  - split; [reflexivity | by left | nodup_list | | |].
    + intros c Hc. vm_compute in Hc. elem_of_each Hc; by eexists.
    + intros sc C [=].
    + intros n v Hin. by apply elem_of_nil in Hin.
  - repeat constructor. exists 10. split; [vm_compute; elem_of_list |].
    by repeat eexists.
  - intros ic IC Hic HIC. vm_compute in Hic. elem_of_each Hic.
    right. exists (Node 2 [Node 3 []]). split; [by left | reflexivity].
  - repeat constructor. exact stack3_tree.
Qed.

Lemma stack3_detached : detached stack3 1.
Proof.
  eexists. split; [reflexivity |]. split; [reflexivity |]. by intros sc SC [=].
Qed.

Lemma getRootBlock_root_witness : getRootBlock 4 3 stack3 = Ok 1 stack3 [].
Proof.
  apply (getRootBlock_root stack3 (Node 1 [Node 2 [Node 3 []]]) 3 4).
  - exact stack3_whole_tree.
  - exact stack3_detached.
  - vm_compute. elem_of_list.
  - vm_compute. lia.
Defined.

Lemma kid_size (b : nat) (ks : list Tree) (k : Tree) :
  k ∈ ks → tree_size k < tree_size (Node b ks).
Proof.
  intros Hk. rewrite tree_size_kids. apply Nat.lt_succ_r.
  induction Hk as [k ks|k k' ks Hk IHk]; simpl; lia.
Qed.

(** X2.  On the root of a well-formed tree [lastConnectionInStack] returns,
    reading the store only: it walks to the last block of the stack that
    starts at the root (the block without a next block) and answers that
    block's next connection, or null if the block has none. *)
Theorem lastConnectionInStack_last (st : State) (t : Tree) (fuel : nat) :
  block_tree st t → tree_size t ≤ fuel →
  ∃ x X, in_stack st (root t) x ∧ blocks st !! x = Some X
         ∧ getNextBlock x st = Ok None st []
         ∧ lastConnectionInStack fuel (root t) st = Ok (nextConnection X) st [].
Proof.
  revert fuel. induction t as [b ks IH] using Tree_forall_ind. intros fuel Ht Hsize.
  inversion Ht as [b' ks' B HB Hok Hch Hlinks Hinf Hkids]; subst b' ks'.
  unfold lastConnectionInStack. simpl root. mrun.
  destruct (nextConnection B) as [nc|] eqn:Hnc.
  - destruct fuel as [|fuel]; [pose proof (tree_size_pos (Node b ks)); lia |].
    assert (Hin : nc ∈ inferiors B).
    { unfold inferiors. rewrite Hnc. by left. }
    destruct (inferior_targetBlock st b ks B nc Ht HB Hin)
      as (NC & HNC & [[Hfree Hrun] | (k & Hk & Hsock & Hconn & Hrun)]).
    + exists b, B. split_and!; [constructor | done | |].
      * unfold getNextBlock. mrun. by rewrite Hnc.
      * simpl. rewrite (bind_run _ _ _ _ _ _ Hrun). by rewrite Hnc.
    + rewrite Forall_forall in IH, Hkids.
      pose proof (kid_size b ks k Hk) as Hlt.
      destruct (IH k Hk fuel (Hkids k Hk) ltac:(lia)) as (x & X & Hstack & HX & Hlast & Hgo).
      exists x, X. split_and!; [| done | done |].
      * apply (in_stack_next st b (root k) x); [| done].
        unfold getNextBlock. mrun. by rewrite Hnc.
      * simpl. rewrite (bind_run _ _ _ _ _ _ Hrun). rewrite prepend_nil.
        exact Hgo.
  - exists b, B. split_and!; [constructor | done | |].
    + unfold getNextBlock. mrun. by rewrite Hnc.
    + by rewrite Hnc; destruct fuel.
Qed.

Lemma lastConnectionInStack_last_witness :
  ∃ x X, in_stack stack3 1 x ∧ blocks stack3 !! x = Some X
         ∧ getNextBlock x stack3 = Ok None stack3 []
         ∧ lastConnectionInStack 3 1 stack3 = Ok (nextConnection X) stack3 [].
Proof.
  apply (lastConnectionInStack_last stack3 (Node 1 [Node 2 [Node 3 []]]) 3).
  - exact stack3_whole_tree.
  - vm_compute. lia.
Defined.

Lemma getDescendants_children_run (f : nat → M (list nat)) (st : State)
    (ks : list Tree) :
  Forall (λ k, f (root k) st = Ok (nodes k) st []) ks →
  getDescendants_children f (root <$> ks) st = Ok (mjoin (nodes <$> ks)) st [].
Proof.
  induction 1 as [|k ks Hk _ IH]; [done |].
  simpl. rewrite (bind_run _ _ _ _ _ _ Hk), prepend_nil.
  rewrite (bind_run _ _ _ _ _ _ IH). done.
Qed.

(** X3.  On the root of a well-formed tree [getDescendants(false)] returns
    the blocks of the tree in preorder: the block itself, then the
    descendants of each of its children in the order of its child list.  It
    reads the store only, and a budget of the size of the tree is enough. *)
Theorem getDescendants_preorder (st : State) (t : Tree) (fuel : nat) :
  block_tree st t → tree_size t ≤ fuel →
  getDescendants fuel (root t) false st = Ok (nodes t) st [].
Proof.
  revert fuel. induction t as [b ks IH] using Tree_forall_ind. intros fuel Ht Hsize.
  inversion Ht as [b' ks' B HB Hok Hch Hlinks Hinf Hkids]; subst b' ks'.
  destruct fuel as [|fuel]; [pose proof (tree_size_pos (Node b ks)); lia |].
  simpl root. simpl getDescendants. unfold getChildren. mrun. simpl negb. cbv iota.
  mrun. rewrite Hch.
  assert (Hbelow : Forall (λ k, getDescendants fuel (root k) false st
                                = Ok (nodes k) st []) ks).
  { rewrite Forall_forall in IH, Hkids. apply Forall_forall. intros k Hk.
    pose proof (kid_size b ks k Hk). apply (IH k Hk); [by apply Hkids | lia]. }
  rewrite (bind_run _ _ _ _ _ _
             (getDescendants_children_run
                (λ child, getDescendants fuel child false) st ks Hbelow)).
  by rewrite nodes_node.
Qed.

Lemma getDescendants_preorder_witness :
  getDescendants 3 1 false stack3 = Ok [1; 2; 3] stack3 [].
Proof.
  apply (getDescendants_preorder stack3 (Node 1 [Node 2 [Node 3 []]]) 3).
  - exact stack3_whole_tree.
  - vm_compute. lia.
Defined.

Lemma omap_cons_eq {A B} (f : A → option B) (x : A) (l : list A) :
  omap f (x :: l) = option_list (f x) ++ omap f l.
Proof. simpl. by destruct (f x). Qed.

Lemma target_of_run (st : State) (c : nat) (r : option nat) :
  targetBlock c st = Ok r st [] → target_of st c = r.
Proof. intros H. unfold target_of. by rewrite H. Qed.

Lemma getChildren_inputs_run (st : State) (l : list Input) :
  (∀ c, c ∈ omap connection l → ∃ r, targetBlock c st = Ok r st []) →
  getChildren_inputs l st = Ok (omap (target_of st) (omap connection l)) st [].
Proof.
  induction l as [|input l IH]; intros Hall; [done |].
  simpl. destruct (connection input) as [c|] eqn:Hc.
  - destruct (Hall c) as [r Hr].
    { simpl. rewrite Hc. by left. }
    rewrite (bind_run _ _ _ _ _ _ Hr), prepend_nil.
    rewrite (bind_run _ _ _ _ _ _ (IH (λ c' Hc', Hall c' ltac:(simpl; rewrite Hc; by right)))).
    rewrite prepend_nil, omap_cons_eq, (target_of_run _ _ _ Hr). done.
  - mrun.
    rewrite (bind_run _ _ _ _ _ _ (IH (λ c' Hc', Hall c' ltac:(simpl; by rewrite Hc)))).
    done.
Qed.

Lemma NoDup_omap_inj {A B} (f : A → option B) (l : list A) :
  NoDup l →
  (∀ x y z, x ∈ l → y ∈ l → f x = Some z → f y = Some z → x = y) →
  NoDup (omap f l).
Proof.
  induction 1 as [|x l Hx Hnd IH]; intros Hinj; [constructor |].
  simpl. destruct (f x) as [z|] eqn:Hfx.
  - constructor.
    + rewrite list_elem_of_omap. intros (y & Hy & Hfy).
      apply Hx. rewrite (Hinj x y z); [done | by left | by right | done | done].
    + apply IH. intros a b c Ha Hb. apply Hinj; by right.
  - apply IH. intros a b c Ha Hb. apply Hinj; by right.
Qed.

Lemma NoDup_roots (ks : list Tree) :
  NoDup (mjoin (nodes <$> ks)) → NoDup (root <$> ks).
Proof.
  induction ks as [|k ks IH]; [constructor |].
  change (mjoin (nodes <$> k :: ks)) with (nodes k ++ mjoin (nodes <$> ks)).
  rewrite NoDup_app. intros (_ & Hdisj & Hrest).
  rewrite fmap_cons. constructor; [| by apply IH].
  intros Hin. apply list_elem_of_fmap in Hin as (k' & Heq & Hk').
  apply (Hdisj (root k) (root_in_nodes k)).
  apply list_elem_of_join. exists (nodes k'). split.
  - rewrite Heq. apply root_in_nodes.
  - apply list_elem_of_fmap. eauto.
Qed.

Lemma kid_targetBlock (st : State) (b : nat) (ks : list Tree) (B : Block) (k : Tree) :
  block_tree st (Node b ks) → blocks st !! b = Some B → k ∈ ks →
  ∃ tc, tc ∈ inferiors B ∧ socket_of_child st (root k) = Some tc
        ∧ targetBlock tc st = Ok (Some (root k)) st [].
Proof.
  intros Ht HB Hk.
  destruct (kid_facts st b ks B k Ht HB Hk)
    as (C & sc & SC & tc & TC & HC & _ & Hsup & HSC & Hsrc & Htgt & Hin & HTC & Hback & _).
  exists tc. split_and!; [done | |].
  - unfold socket_of_child. rewrite HC. simpl. rewrite Hsup. simpl. by rewrite HSC.
  - unfold targetBlock. mrun. rewrite Hback. mrun. by rewrite Hsrc.
Qed.

(** The blocks plugged into a list of connections that is a rearrangement
    of the connections of a node into which children plug are a
    rearrangement of the children. *)
Lemma targets_children (st : State) (b : nat) (ks : list Tree) (B : Block)
    (conns : list nat) :
  block_tree st (Node b ks) → NoDup (nodes (Node b ks)) →
  blocks st !! b = Some B → conns ≡ₚ inferiors B →
  omap (target_of st) conns ≡ₚ root <$> ks.
Proof.
  intros Ht Hnd HB Hperm.
  inversion Ht as [b' ks' B' HB' Hok Hch Hlinks Hinf Hkids]; subst b' ks'.
  rewrite HB in HB'. injection HB' as <-.
  assert (Hndc : NoDup conns).
  { rewrite Hperm. pose proof (ok_nodup _ _ _ Hok) as Hown.
    unfold own_connections in Hown. by apply NoDup_app in Hown as (_ & _ & ?). }
  assert (Htarget : ∀ c x, c ∈ conns → target_of st c = Some x →
                           ∃ k, k ∈ ks ∧ x = root k
                                ∧ socket_of_child st x = Some c).
  { intros c x Hc Hx. rewrite Hperm in Hc.
    destruct (inferior_targetBlock st b ks B c Ht HB Hc)
      as (IC & HIC & [[_ Hrun] | (k & Hk & Hsock & _ & Hrun)]);
      unfold target_of in Hx; rewrite Hrun in Hx; [done |].
    injection Hx as <-. eauto. }
  apply NoDup_Permutation.
  - apply NoDup_omap_inj; [done |].
    intros c1 c2 x Hc1 Hc2 H1 H2.
    destruct (Htarget c1 x Hc1 H1) as (_ & _ & _ & Hs1).
    destruct (Htarget c2 x Hc2 H2) as (_ & _ & _ & Hs2). congruence.
  - apply NoDup_roots. rewrite nodes_node in Hnd. by apply NoDup_cons in Hnd as [_ ?].
  - intros x. rewrite list_elem_of_omap, list_elem_of_fmap. split.
    + intros (c & Hc & Hx). destruct (Htarget c x Hc Hx) as (k & Hk & -> & _). eauto.
    + intros (k & -> & Hk).
      destruct (kid_targetBlock st b ks B k Ht HB Hk) as (tc & Hin & _ & Hrun).
      exists tc. split; [by rewrite Hperm |]. unfold target_of. by rewrite Hrun.
Qed.

(** X4.  On a node of a well-formed tree whose blocks are distinct,
    [getChildren(true)] and [getChildren(false)] return the same blocks:
    the ordered list (the blocks in the inputs, in input order, then the
    next block) is a rearrangement of the child list.  Both read the store
    only. *)
Theorem getChildren_ordered_same_blocks (st : State) (b : nat) (ks : list Tree) :
  block_tree st (Node b ks) → NoDup (nodes (Node b ks)) →
  ∃ l, getChildren b true st = Ok l st []
       ∧ getChildren b false st = Ok (root <$> ks) st []
       ∧ l ≡ₚ root <$> ks.
Proof.
  intros Ht Hnd.
  inversion Ht as [b' ks' B HB Hok Hch Hlinks Hinf Hkids]; subst b' ks'.
  exists (omap (target_of st)
            (omap connection (inputList B) ++ option_list (nextConnection B))).
  split_and!.
  - assert (Hins : ∀ c, c ∈ omap connection (inputList B) →
                        ∃ r, targetBlock c st = Ok r st []).
    { intros c Hc.
      destruct (inferior_targetBlock st b ks B c Ht HB) as (IC & HIC & Hcases).
      { unfold inferiors. apply elem_of_app. by right. }
      destruct Hcases as [[_ ?] | (k & _ & _ & _ & ?)]; eauto. }
    unfold getChildren. mrun. change (negb true) with false. cbv iota.
    rewrite (bind_run _ _ _ _ _ _ (getChildren_inputs_run st (inputList B) Hins)).
    rewrite prepend_nil. unfold getNextBlock. mrun. rewrite omap_app.
    destruct (nextConnection B) as [nc|] eqn:Hnc; [| by mrun].
    destruct (inferior_targetBlock st b ks B nc Ht HB) as (NC & HNC & Hcases).
    { unfold inferiors. rewrite Hnc. by left. }
    assert (∃ r, targetBlock nc st = Ok r st []) as [r Hr].
    { destruct Hcases as [[_ ?] | (k & _ & _ & _ & ?)]; eauto. }
    rewrite (bind_run _ _ _ _ _ _ Hr). simpl option_list.
    rewrite omap_cons_eq, (target_of_run _ _ _ Hr). by destruct r.
  - unfold getChildren. mrun. simpl. by rewrite Hch.
  - apply (targets_children st b ks B); [done | done | done |].
    unfold inferiors. apply Permutation_app_comm.
Qed.

Lemma getChildren_ordered_same_blocks_witness :
  ∃ l, getChildren 40 true one_plus_hole = Ok l one_plus_hole []
       ∧ getChildren 40 false one_plus_hole = Ok [41] one_plus_hole []
       ∧ l ≡ₚ [41].
Proof.
  apply (getChildren_ordered_same_blocks one_plus_hole 40 [Node 41 []]).
  - exact one_plus_hole_tree.
  - nodup_list.
Defined.

Lemma allInputsFilled_inputs_run (f : nat → M bool) (st : State) (l : list Input) :
  (∀ c, c ∈ omap connection l →
        ∃ r, targetBlock c st = Ok r st []
             ∧ ∀ x, r = Some x → ∃ rx, f x st = Ok rx st []) →
  ∃ r, allInputsFilled_inputs f l st = Ok r st []
       ∧ (r = true ↔ ∀ c, c ∈ omap connection l →
                          ∃ x, targetBlock c st = Ok (Some x) st []
                               ∧ f x st = Ok true st []).
Proof.
  induction l as [|input l IH]; intros Hall.
  { exists true. split; [done |]. split; [| done].
    intros _ c Hc. by apply elem_of_nil in Hc. }
  rewrite omap_cons_eq in Hall. setoid_rewrite omap_cons_eq.
  simpl. destruct (connection input) as [c|]; simpl in *.
  - destruct (Hall c ltac:(by left)) as (r & Hr & Hf).
    rewrite (bind_run _ _ _ _ _ _ Hr), prepend_nil.
    destruct r as [x|].
    + destruct (Hf x eq_refl) as [rx Hrx].
      rewrite (bind_run _ _ _ _ _ _ Hrx), prepend_nil.
      destruct rx.
      * destruct (IH (λ c' Hc', Hall c' ltac:(by right))) as (r & Hrun & Hiff).
        exists r. split; [done |]. rewrite Hiff. split.
        -- intros Hrest c' Hc'. apply elem_of_cons in Hc' as [->|Hc']; eauto.
        -- intros Hrest c' Hc'. apply Hrest. by right.
      * exists false. split; [done |]. split; [done |].
        intros Hrest. destruct (Hrest c ltac:(by left)) as (x' & Hx' & Hfx').
        congruence.
    + exists false. split; [done |]. split; [done |].
      intros Hrest. destruct (Hrest c ltac:(by left)) as (x' & Hx' & _).
      congruence.
  - apply IH, Hall.
Qed.

Lemma kid_nodes (b : nat) (ks : list Tree) (k : Tree) (x : nat) :
  k ∈ ks → x ∈ nodes k → x ∈ nodes (Node b ks).
Proof.
  intros Hk Hx. rewrite nodes_node. right. apply list_elem_of_join.
  exists (nodes k). split; [done |]. apply list_elem_of_fmap. eauto.
Qed.

(** X5.  On the root of a well-formed tree [allInputsFilled()] returns,
    reading the store only, and it answers true exactly when every value or
    statement input of every block of the tree holds a block. *)
Theorem allInputsFilled_filled (st : State) (t : Tree) (fuel : nat) :
  block_tree st t → tree_size t ≤ fuel →
  ∃ r, allInputsFilled fuel (root t) st = Ok r st [] ∧ (r = true ↔ filled st t).
Proof.
  revert fuel. induction t as [b ks IH] using Tree_forall_ind. intros fuel Ht Hsize.
  inversion Ht as [b' ks' B HB Hok Hch Hlinks Hinf Hkids]; subst b' ks'.
  destruct fuel as [|fuel]; [pose proof (tree_size_pos (Node b ks)); lia |].
  assert (Hkid : ∀ k, k ∈ ks →
                      ∃ rk, allInputsFilled fuel (root k) st = Ok rk st []
                            ∧ (rk = true ↔ filled st k)).
  { rewrite Forall_forall in IH, Hkids. intros k Hk.
    pose proof (kid_size b ks k Hk). apply (IH k Hk); [by apply Hkids | lia]. }
  assert (Hsub : ∀ k, k ∈ ks → filled st (Node b ks) → filled st k).
  { intros k Hk Hf x X c C Hx. apply Hf. by apply (kid_nodes b ks k). }
  assert (Hinput : ∀ c, c ∈ omap connection (inputList B) → c ∈ inferiors B).
  { intros c Hc. unfold inferiors. apply elem_of_app. by right. }
  assert (Hall : ∀ c, c ∈ omap connection (inputList B) →
                      ∃ r, targetBlock c st = Ok r st []
                           ∧ ∀ x, r = Some x →
                                  ∃ rx, allInputsFilled fuel x st = Ok rx st []).
  { intros c Hc.
    destruct (inferior_targetBlock st b ks B c Ht HB (Hinput c Hc))
      as (IC & HIC & [[_ Hrun] | (k & Hk & _ & _ & Hrun)]).
    - exists None. by split.
    - exists (Some (root k)). split; [done |]. intros x [= <-].
      destruct (Hkid k Hk) as (rk & Hrk & _). eauto. }
  destruct (allInputsFilled_inputs_run (allInputsFilled fuel) st (inputList B) Hall)
    as (r1 & Hr1 & Hiff1).
  assert (Hfilled1 : filled st (Node b ks) → r1 = true).
  { intros Hf. apply Hiff1. intros c Hc.
    destruct (inferior_targetBlock st b ks B c Ht HB (Hinput c Hc))
      as (IC & HIC & [[Hfree _] | (k & Hk & _ & _ & Hrun)]).
    - exfalso. apply (Hf b B c IC); [rewrite nodes_node; by left | done..].
    - exists (root k). split; [done |].
      destruct (Hkid k Hk) as (rk & Hrk & Hiffk).
      rewrite Hrk. f_equal. apply Hiffk. by apply Hsub. }
  simpl root. simpl allInputsFilled. mrun.
  rewrite (bind_run _ _ _ _ _ _ Hr1), prepend_nil.
  destruct r1.
  2: { exists false. split; [done |]. split; [done |]. intros Hf. by apply Hfilled1. }
  (* what the answer must be on the root of every child *)
  assert (Hback : ∀ r, (∀ nc k, nextConnection B = Some nc → k ∈ ks →
                                targetBlock nc st = Ok (Some (root k)) st [] →
                                allInputsFilled fuel (root k) st = Ok r st []) →
                       r = true → filled st (Node b ks)).
  { intros r Hnext -> x X c C Hx HX Hc HC.
    rewrite nodes_node in Hx. apply elem_of_cons in Hx as [->|Hx].
    - rewrite HB in HX. injection HX as <-.
      destruct (proj1 Hiff1 eq_refl c Hc) as (y & Hy & _).
      unfold targetBlock in Hy. rewrite (bind_getConnection _ _ _ _ HC) in Hy.
      intros Hnone. by rewrite Hnone in Hy.
    - apply list_elem_of_join in Hx as (l & Hx & Hl).
      apply list_elem_of_fmap in Hl as (k & -> & Hk).
      destruct (Hkid k Hk) as (rk & Hrk & Hiffk).
      assert (Htrue : allInputsFilled fuel (root k) st = Ok true st []).
      { destruct (kid_targetBlock st b ks B k Ht HB Hk) as (tc & Hin & _ & Hrun).
        unfold inferiors in Hin. apply elem_of_app in Hin as [Hin|Hin].
        - destruct (nextConnection B) as [nc|] eqn:Hnc; [| by apply elem_of_nil in Hin].
          apply list_elem_of_singleton in Hin as ->. by apply (Hnext nc k).
        - destruct (proj1 Hiff1 eq_refl tc Hin) as (y & Hy & Hfy).
          rewrite Hrun in Hy. by injection Hy as <-. }
      rewrite Htrue in Hrk. injection Hrk as <-.
      by apply (proj1 Hiffk eq_refl x X c C). }
  unfold getNextBlock. mrun.
  destruct (nextConnection B) as [nc|] eqn:Hnc.
  - destruct (inferior_targetBlock st b ks B nc Ht HB) as (NC & HNC & Hcases).
    { unfold inferiors. rewrite Hnc. by left. }
    destruct Hcases as [[_ Hrun] | (k & Hk & _ & _ & Hrun)].
    + rewrite (bind_run _ _ _ _ _ _ Hrun). exists true. split; [done |].
      split; [| done]. apply Hback. intros nc' k [= <-] Hk Hrun'. congruence.
    + rewrite (bind_run _ _ _ _ _ _ Hrun), prepend_nil.
      destruct (Hkid k Hk) as (rk & Hrk & Hiffk).
      exists rk. split; [done |]. split.
      * apply Hback. intros nc' k' [= <-] Hk' Hrun'.
        rewrite Hrun in Hrun'. injection Hrun' as <-. done.
      * intros Hf. apply Hiffk. by apply Hsub.
  - mrun. exists true. split; [done |]. split; [| done].
    apply Hback. intros nc' k [=].
Qed.

Lemma allInputsFilled_filled_witness :
  ∃ r, allInputsFilled 2 40 one_plus_hole = Ok r one_plus_hole []
       ∧ (r = true ↔ filled one_plus_hole (Node 40 [Node 41 []])).
Proof.
  apply (allInputsFilled_filled one_plus_hole (Node 40 [Node 41 []]) 2).
  - exact one_plus_hole_tree.
  - vm_compute. lia.
Defined.

(** ** Inputs and the blocks in them *)

Lemma quiet_targetBlock c : quiet (targetBlock c).
Proof. unfold targetBlock. quiet. Qed.

Lemma quiet_run {A} (m : M A) (st st' : State) (a : A) (l : list Event) :
  quiet m → m st = Ok a st' l → st' = st ∧ l = [].
Proof. intros Hq Hrun. specialize (Hq st). by rewrite Hrun in Hq. Qed.

Lemma getInputWithBlock_loop_run (st st' : State) (l : list Input) (block : nat)
    (r : option Input) (log : list Event) :
  getInputWithBlock_loop l block st = Ok r st' log →
  st' = st ∧ log = []
  ∧ match r with
    | Some input => input ∈ l ∧ ∃ c, connection input = Some c
                                    ∧ targetBlock c st = Ok (Some block) st []
    | None => ∀ input c, input ∈ l → connection input = Some c →
                         target_of st c ≠ Some block
    end.
Proof.
  induction l as [|input l IH]; simpl.
  { intros [= <- <- <-]. split_and!; [done | done |].
    intros input c Hin. by apply elem_of_nil in Hin. }
  destruct (connection input) as [c|] eqn:Hc.
  - intros Hrun.
    apply bind_Ok_inv in Hrun as (target & s1 & l1 & l2 & Hrun1 & Hrun2 & ->).
    destruct (quiet_run _ _ _ _ _ (quiet_targetBlock c) Hrun1) as [-> ->].
    case_bool_decide as Htarget.
    + injection Hrun2 as <- <- <-. subst target. split_and!; [done | done | by left |].
      by exists c.
    + destruct (IH Hrun2) as (-> & -> & Hr). split_and!; [done | done |].
      destruct r as [input'|].
      * destruct Hr as [Hin Hc']. split; [by right | done].
      * intros input' c' Hin Hc'. apply elem_of_cons in Hin as [->|Hin]; [| by eauto].
        rewrite Hc in Hc'. injection Hc' as <-.
        by rewrite (target_of_run _ _ _ Hrun1).
  - intros Hrun. destruct (IH Hrun) as (-> & -> & Hr). split_and!; [done | done |].
    destruct r as [input'|].
    + destruct Hr as [Hin Hc']. split; [by right | done].
    + intros input' c' Hin Hc'. apply elem_of_cons in Hin as [->|Hin]; [| by eauto].
      congruence.
Qed.

Lemma find_unique_name (l : list Input) (input : Input) :
  NoDup (name <$> l) → input ∈ l →
  List.find (λ i, bool_decide (name i = name input)) l = Some input.
Proof.
  induction l as [|i l IH]; intros Hnd Hin; [by apply elem_of_nil in Hin |].
  rewrite fmap_cons in Hnd. apply NoDup_cons in Hnd as [Hi Hnd].
  simpl. case_bool_decide as Hname.
  - apply elem_of_cons in Hin as [->|Hin]; [done |].
    exfalso. apply Hi. rewrite Hname. apply list_elem_of_fmap. eauto.
  - apply elem_of_cons in Hin as [->|Hin]; [done |]. by apply IH.
Qed.

(** X6.  [getInputWithBlock] and [getInputTargetBlock] are inverse to each
    other on a block whose inputs have distinct names: when
    [getInputWithBlock(block)] returns an input, that input is one of the
    block's and [getInputTargetBlock] of its name returns [block]; when it
    returns null, no input of the block holds [block].  Either way the
    store is only read. *)
Theorem getInputWithBlock_round_trip (st st' : State) (this block : nat) (B : Block)
    (r : option Input) (l : list Event) :
  blocks st !! this = Some B → NoDup (name <$> inputList B) →
  getInputWithBlock this block st = Ok r st' l →
  st' = st ∧ l = []
  ∧ match r with
    | Some input =>
        input ∈ inputList B
        ∧ getInputTargetBlock this (name input) st = Ok (Some block) st []
    | None => ∀ input c, input ∈ inputList B → connection input = Some c →
                         target_of st c ≠ Some block
    end.
Proof.
  intros HB Hnd Hrun. unfold getInputWithBlock in Hrun.
  rewrite (bind_getBlock _ _ _ _ HB) in Hrun.
  destruct (getInputWithBlock_loop_run _ _ _ _ _ _ Hrun) as (-> & -> & Hr).
  split_and!; [done | done |]. destruct r as [input|]; [| done].
  destruct Hr as (Hin & c & Hc & Htarget). split; [done |].
  unfold getInputTargetBlock, getInput. mrun.
  by rewrite (find_unique_name _ _ Hnd Hin), Hc.
Qed.

Lemma getInputWithBlock_round_trip_witness :
  ∃ input, getInputWithBlock 40 41 one_plus_hole = Ok (Some input) one_plus_hole []
           ∧ getInputTargetBlock 40 (name input) one_plus_hole
             = Ok (Some 41) one_plus_hole [].
Proof.
  eexists. split; [reflexivity |].
  refine (proj2 (proj2 (proj2
    (getInputWithBlock_round_trip one_plus_hole one_plus_hole 40 41 _ (Some _) []
       eq_refl _ eq_refl)))).
  nodup_list.
Defined.

(** ** What the tree operations leave alone *)

Lemma preserves_ret (R : State → State → Prop) `{!Reflexive R} {A} (a : A) :
  preserves R (ret a).
Proof. intros st. simpl. reflexivity. Qed.

Lemma preserves_throw (R : State → State → Prop) `{!Reflexive R} {A} msg :
  preserves R (@throw A msg).
Proof. intros st. simpl. reflexivity. Qed.

Lemma preserves_TypeError (R : State → State → Prop) `{!Reflexive R} {A} :
  preserves R (@TypeError A).
Proof. intros st. simpl. reflexivity. Qed.

Lemma preserves_out_of_fuel (R : State → State → Prop) {A} :
  preserves R (@out_of_fuel A).
Proof. by intros st. Qed.

Lemma preserves_emit (R : State → State → Prop) `{!Reflexive R} e :
  preserves R (emit e).
Proof. intros st. simpl. reflexivity. Qed.

Lemma preserves_assert (R : State → State → Prop) `{!Reflexive R} b msg :
  preserves R (assert b msg).
Proof. intros st. destruct b; simpl; reflexivity. Qed.

Lemma preserves_quiet (R : State → State → Prop) `{!Reflexive R} {A} (m : M A) :
  quiet m → preserves R m.
Proof.
  intros Hq st. specialize (Hq st).
  destruct (m st) as [a st'' l|msg st'' l|]; [| | done];
    destruct Hq as [-> _]; reflexivity.
Qed.

Lemma preserves_bind (R : State → State → Prop) `{!Transitive R} {A B}
    (m : M A) (k : A → M B) :
  preserves R m → (∀ a, preserves R (k a)) → preserves R (m ≫= k).
Proof.
  intros Hm Hk st. unfold mbind, M_bind, bind. specialize (Hm st).
  destruct (m st) as [a st1 l1|msg st1 l1|]; [| done..].
  specialize (Hk a st1).
  destruct (k a st1) as [b st2 l2|msg st2 l2|]; simpl; [| | done];
    by transitivity st1.
Qed.

Lemma preserves_modify (R : State → State → Prop) (f : State → State) :
  (∀ st, R st (f st)) → preserves R (modify f).
Proof. intros H st. apply H. Qed.

Lemma preserves_impl (R R' : State → State → Prop) {A} (m : M A) :
  (∀ st st', R st st' → R' st st') → preserves R m → preserves R' m.
Proof.
  intros Himpl Hm st. specialize (Hm st).
  destruct (m st); [| | done]; by apply Himpl.
Qed.

Create HintDb preserves.
Global Hint Resolve preserves_ret preserves_throw preserves_TypeError
  preserves_out_of_fuel preserves_emit preserves_assert : preserves.
Global Hint Extern 5 (preserves _ _) =>
  apply preserves_quiet; [tc_solve | solve [eauto with quiet]] : preserves.

Ltac preserves :=
  repeat first
    [ progress eauto with preserves
    | apply preserves_bind; [tc_solve | | intros ?]
    | match goal with
      | |- preserves _ (match ?x with _ => _ end) => destruct x
      | |- preserves _ (if ?x then _ else _) => destruct x
      end ].

Global Instance rewired_refl : Reflexive rewired.
Proof. by intros st. Qed.

Global Instance rewired_trans : Transitive rewired.
Proof.
  intros s1 s2 s3 [] []. split; intros; etrans; eauto.
Qed.

Global Instance same_objects_refl : Reflexive same_objects.
Proof. intros st. split; try done. congruence. Qed.

Global Instance same_objects_trans : Transitive same_objects.
Proof.
  intros s1 s2 s3 H12 H23. split.
  - intros b. by rewrite (so_blocks _ _ H23), (so_blocks _ _ H12).
  - intros c. by rewrite (so_connections _ _ H23), (so_connections _ _ H12).
  - intros v. by rewrite (so_variables _ _ H23), (so_variables _ _ H12).
  - by rewrite (so_typeCells _ _ H23), (so_typeCells _ _ H12).
  - by rewrite (so_events _ _ H23), (so_events _ _ H12).
  - etrans; [apply (so_blockDB _ _ H23) | apply (so_blockDB _ _ H12)].
  - intros b B1 B3 H1 H3 Hw.
    destruct (proj1 (so_blocks _ _ H23 b) (mk_is_Some _ _ H3)) as [B2 H2].
    apply (so_disposed _ _ H23 b B2 B3 H2 H3).
    by apply (so_disposed _ _ H12 b B1 B2 H1 H2).
Qed.

Global Hint Resolve rewired_refl same_objects_refl : preserves.

Lemma rewired_same_objects (st st' : State) : rewired st st' → same_objects st st'.
Proof.
  intros Hrw. split.
  - intros b. rewrite <-(fmap_is_Some static_block (blocks st' !! b)).
    rewrite <-(fmap_is_Some static_block (blocks st !! b)).
    by rewrite (rw_blocks _ _ Hrw).
  - intros c. rewrite <-(fmap_is_Some static_connection (connections st' !! c)).
    rewrite <-(fmap_is_Some static_connection (connections st !! c)).
    by rewrite (rw_connections _ _ Hrw).
  - by rewrite (rw_variables _ _ Hrw).
  - apply (rw_typeCells _ _ Hrw).
  - apply (rw_events _ _ Hrw).
  - by rewrite (rw_blockDB _ _ Hrw).
  - intros b B B' HB HB' Hw. pose proof (rw_blocks _ _ Hrw b) as Heq.
    rewrite HB, HB' in Heq. simpl in Heq. injection Heq as Heq.
    destruct B, B'. simpl in *. unfold static_block in Heq. simpl in Heq. congruence.
Qed.

Lemma rewired_alter_block (f : Block → Block) (b : nat) (st : State) :
  (∀ B, static_block (f B) = static_block B) →
  rewired st (set_blocks (alter f b) st).
Proof.
  intros Hf. split; try done. intros x. simpl.
  destruct (decide (x = b)) as [->|Hne].
  - rewrite lookup_alter_eq. destruct (blocks st !! b); simpl; by rewrite ?Hf.
  - by rewrite lookup_alter_ne.
Qed.

Lemma rewired_alter_connection (f : Connection → Connection) (c : nat) (st : State) :
  (∀ C, static_connection (f C) = static_connection C) →
  rewired st (set_connections (alter f c) st).
Proof.
  intros Hf. split; try done. intros x. simpl.
  destruct (decide (x = c)) as [->|Hne].
  - rewrite lookup_alter_eq. destruct (connections st !! c); simpl; by rewrite ?Hf.
  - by rewrite lookup_alter_ne.
Qed.

Lemma rewired_updBlock_children b f :
  preserves rewired (updBlock b (with_childBlocks f)).
Proof. apply preserves_modify. intros st. by apply rewired_alter_block. Qed.

Lemma rewired_updBlock_parent b p :
  preserves rewired (updBlock b (with_parentBlock p)).
Proof. apply preserves_modify. intros st. by apply rewired_alter_block. Qed.

Lemma rewired_updConnection c r t :
  preserves rewired (updConnection c (λ C, with_inDB r (with_targetConnection t C))).
Proof. apply preserves_modify. intros st. by apply rewired_alter_connection. Qed.

Lemma rewired_addTopBlock b : preserves rewired (addTopBlock b).
Proof. apply preserves_modify. intros st. by split. Qed.

Lemma rewired_removeTopBlock b : preserves rewired (removeTopBlock b).
Proof. apply preserves_modify. intros st. by split. Qed.

Global Hint Resolve rewired_updBlock_children rewired_updBlock_parent
  rewired_updConnection rewired_addTopBlock rewired_removeTopBlock : preserves.

Lemma quiet_isConnected c : quiet (isConnected c).
Proof. unfold isConnected. quiet. Qed.

Lemma quiet_checkType_ c other : quiet (checkType_ c other).
Proof. unfold checkType_. quiet. Qed.

Lemma quiet_getState : quiet getState.
Proof. by intros st. Qed.

Lemma quiet_canConnect fuel c other : quiet (canConnect fuel c other).
Proof.
  unfold canConnect. apply quiet_bind; [quiet | intros C].
  apply quiet_bind; [quiet | intros T].
  apply quiet_bind; [apply quiet_getState | intros st]. apply quiet_ret.
Qed.

Lemma quiet_getNextBlock this : quiet (getNextBlock this).
Proof. unfold getNextBlock. quiet. Qed.

Global Hint Resolve quiet_isConnected quiet_checkType_ quiet_canConnect
  quiet_getNextBlock quiet_targetBlock quiet_getState : quiet.

Lemma rewired_setParent this newParent : preserves rewired (setParent this newParent).
Proof. unfold setParent. preserves. Qed.

Global Hint Resolve rewired_setParent : preserves.

Lemma rewired_disconnect c : preserves rewired (disconnect c).
Proof. unfold disconnect. preserves. Qed.

Lemma rewired_connect fuel c other : preserves rewired (connect fuel c other).
Proof. unfold connect. preserves. Qed.

Global Hint Resolve rewired_disconnect rewired_connect : preserves.

Lemma rewired_unplug fuel this opt_healStack :
  preserves rewired (unplug fuel this opt_healStack).
Proof. unfold unplug. preserves. Qed.

Global Hint Resolve rewired_unplug : preserves.

(** X7.  Whatever the store, and whether it returns or throws, [unplug]
    only rewires: every block keeps all but its parent and child links,
    every connection all but its target and its registration; no block or
    connection is created or deleted; bound variables, type-variable
    bindings, the registry of blocks, the selection and the notification
    switch are untouched. *)
Theorem unplug_only_rewires (fuel this : nat) (opt_healStack : bool) :
  preserves rewired (unplug fuel this opt_healStack).
Proof. unfold unplug. preserves. Qed.

(** ** What disposal leaves alone *)

Lemma same_objects_of_rewired {A} (m : M A) :
  preserves rewired m → preserves same_objects m.
Proof. apply preserves_impl, rewired_same_objects. Qed.

Lemma same_objects_alter_block (f : Block → Block) (b : nat) (st : State) :
  (∀ B, workspace B = false → workspace (f B) = false) →
  same_objects st (set_blocks (alter f b) st).
Proof.
  intros Hf. split; try done.
  - intros x. simpl. apply lookup_alter_is_Some.
  - intros x B B' HB HB' Hw. simpl in HB'.
    destruct (decide (x = b)) as [->|Hne].
    + rewrite lookup_alter_eq, HB in HB'. injection HB' as <-. by apply Hf.
    + rewrite lookup_alter_ne in HB' by done. congruence.
Qed.

Lemma same_objects_alter_connection (f : Connection → Connection) (c : nat)
    (st : State) :
  same_objects st (set_connections (alter f c) st).
Proof.
  split; try done.
  - intros x. simpl. apply lookup_alter_is_Some.
  - simpl. congruence.
Qed.

Lemma same_objects_updBlock b f :
  (∀ B, workspace B = false → workspace (f B) = false) →
  preserves same_objects (updBlock b f).
Proof. intros Hf. apply preserves_modify. intros st. by apply same_objects_alter_block. Qed.

Lemma same_objects_updConnection c f : preserves same_objects (updConnection c f).
Proof. apply preserves_modify. intros st. apply same_objects_alter_connection. Qed.

Lemma same_objects_shrink_blockDB b :
  preserves same_objects (modify (set_blockDB (λ s, s ∖ {[b]}))).
Proof.
  apply preserves_modify. intros st. split; try done; simpl; [| congruence].
  intros x Hx. by apply elem_of_difference in Hx as [? _].
Qed.

Lemma same_objects_deselect b :
  preserves same_objects
    (modify (λ st, if bool_decide (selected st = Some b)
                   then set_selected None st else st)).
Proof.
  apply preserves_modify. intros st. case_bool_decide; [| reflexivity].
  split; try done. simpl. congruence.
Qed.

Lemma same_objects_Connection_dispose c : preserves same_objects (Connection_dispose c).
Proof.
  unfold Connection_dispose.
  apply preserves_bind; [tc_solve | eauto with preserves | intros C].
  case_bool_decide; [eauto with preserves |].
  apply preserves_bind; [tc_solve | eauto with preserves | intros _].
  apply same_objects_updConnection.
Qed.

Lemma same_objects_Input_dispose b input : preserves same_objects (Input_dispose b input).
Proof.
  unfold Input_dispose.
  apply preserves_bind; [tc_solve | eauto with preserves | intros _].
  apply preserves_bind; [tc_solve | | intros _].
  - induction (fieldRow input) as [|f fs IH]; simpl; [eauto with preserves |].
    apply preserves_bind; [tc_solve | eauto with preserves | by intros _].
  - destruct (connection input); [apply same_objects_Connection_dispose |].
    eauto with preserves.
Qed.

Lemma same_objects_Value_dispose b v : preserves same_objects (Value_dispose b v).
Proof.
  unfold Value_dispose.
  apply preserves_bind; [tc_solve | eauto with preserves | intros _].
  apply preserves_bind; [tc_solve | eauto with preserves | intros _].
  apply preserves_modify. intros st. split; try done; simpl; [| congruence].
  intros x. by rewrite lookup_fmap, fmap_is_Some, lookup_alter_is_Some.
Qed.

Global Hint Resolve same_objects_updConnection same_objects_shrink_blockDB
  same_objects_deselect same_objects_Connection_dispose same_objects_Input_dispose
  same_objects_Value_dispose : preserves.
Global Hint Extern 4 (preserves same_objects _) =>
  apply same_objects_of_rewired; solve [eauto with preserves] : preserves.
Global Hint Extern 3 (preserves same_objects (updBlock _ _)) =>
  apply same_objects_updBlock; solve [by intros []] : preserves.

Lemma same_objects_dispose_values this l : preserves same_objects (dispose_values this l).
Proof.
  induction l as [|[n v] l IH]; simpl; [eauto with preserves |].
  case_bool_decide; [eauto with preserves |].
  apply preserves_bind; [tc_solve | eauto with preserves | by intros _].
Qed.

Lemma same_objects_dispose_connections l : preserves same_objects (dispose_connections l).
Proof.
  induction l as [|c l IH]; simpl; [eauto with preserves |].
  preserves.
Qed.

Lemma same_objects_dispose_inputs this l : preserves same_objects (dispose_inputs this l).
Proof.
  induction l as [|input l IH]; simpl; [eauto with preserves |].
  apply preserves_bind; [tc_solve | eauto with preserves | by intros _].
Qed.

Lemma same_objects_dispose_children (dispose' : nat → bool → M unit) this i :
  (∀ child, preserves same_objects (dispose' child false)) →
  preserves same_objects (dispose_children dispose' this i).
Proof.
  intros Hd. induction i as [|i IH]; simpl; [eauto with preserves |].
  apply preserves_bind; [tc_solve | eauto with preserves | intros B].
  destruct (childBlocks_ B !! i); [| eauto with preserves].
  apply preserves_bind; [tc_solve | eauto with preserves | intros _].
  apply preserves_bind; [tc_solve | apply Hd | by intros _].
Qed.

Lemma quiet_getConnections_ this : quiet (getConnections_ this).
Proof. unfold getConnections_. quiet. Qed.

Global Hint Resolve quiet_getConnections_ : quiet.
Global Hint Resolve same_objects_dispose_values same_objects_dispose_connections
  same_objects_dispose_inputs : preserves.

(** The nesting depth of the switch is the same after
    [disable(); try { body } finally { enable() }], however [body] ends. *)
Lemma same_objects_events_bracket {A} (body : M A) :
  preserves same_objects body →
  preserves same_objects (Events_disable;; try_finally body Events_enable).
Proof.
  intros Hbody st. unfold Events_disable at 1.
  rewrite bind_modify. unfold try_finally.
  specialize (Hbody (set_eventsDisabled S st)).
  assert (Hclose : ∀ st2, same_objects (set_eventsDisabled S st) st2 →
                          same_objects st (set_eventsDisabled pred st2)).
  { intros st2 [Hb Hc Hv Ht He Hdb Hd]. split; try done.
    simpl in *. by rewrite He. }
  destruct (body (set_eventsDisabled S st)) as [a st2 l|msg st2 l|]; [| | done].
  - simpl. destruct l; simpl; by apply Hclose.
  - simpl. destruct l; simpl; by apply Hclose.
Qed.

Lemma same_objects_dispose_teardown (dispose' : nat → bool → M unit) this :
  (∀ child, preserves same_objects (dispose' child false)) →
  preserves same_objects (dispose_teardown dispose' this).
Proof.
  intros Hd. unfold dispose_teardown.
  apply preserves_bind; [tc_solve | | intros _].
  { unfold Events_fire, Events_isEnabled. intros st. unfold mbind, M_bind, bind.
    case_bool_decide; simpl; reflexivity. }
  apply same_objects_events_bracket.
  pose proof (same_objects_dispose_children dispose' this) as Hch.
  preserves.
Qed.

(** X8.  Whatever the store and however it ends, by returning or by
    throwing part-way, [dispose] creates and deletes no object of the store
    (blocks, connections and bound variables are marked, not removed),
    leaves the bindings of the type variables alone, only ever shrinks the
    registry of blocks, never brings a disposed block back to life, and
    leaves the notification switch at the nesting depth it found: the
    [finally] re-enables what the teardown disabled. *)
Theorem dispose_same_objects (fuel this : nat) (healStack : bool) :
  preserves same_objects (dispose fuel this healStack).
Proof.
  revert this healStack. induction fuel as [|fuel IH]; intros this healStack.
  { simpl. eauto with preserves. }
  rewrite dispose_unfold.
  apply preserves_bind; [tc_solve | eauto with preserves | intros B].
  destruct (negb (workspace B)); [eauto with preserves |].
  apply preserves_bind; [tc_solve | | intros _].
  - apply same_objects_of_rewired, rewired_unplug.
  - apply same_objects_dispose_teardown. intros child. apply IH.
Qed.

(** ** Removing and adding inputs *)

Lemma removeInput_loop_skip (isShadow : nat → bool) (fuel this : nat) (name_ : string)
    (l1 l : list Input) (i : nat) :
  name_ ∉ name <$> l1 →
  removeInput_loop isShadow fuel this name_ i (l1 ++ l)
  = removeInput_loop isShadow fuel this name_ (i + length l1) l.
Proof.
  revert i. induction l1 as [|input l1 IH]; intros i Hnot; simpl.
  { by rewrite Nat.add_0_r. }
  rewrite fmap_cons in Hnot. apply not_elem_of_cons in Hnot as [Hne Hnot].
  rewrite bool_decide_false by done. rewrite IH by done. f_equal. lia.
Qed.

(** X9.  [removeInput] of a name that no input of the block has changes
    nothing: with [opt_quiet] it returns, without it it throws the
    assertion failure that names the input. *)
Theorem removeInput_not_found (isShadow : nat → bool) (fuel this : nat) (B : Block)
    (name_ : string) (opt_quiet : bool) (st : State) :
  blocks st !! this = Some B → name_ ∉ name <$> inputList B →
  removeInput isShadow fuel this name_ opt_quiet st
  = if opt_quiet then Ok tt st [] else Throw (input_not_found name_) st [].
Proof.
  intros HB Hnot. unfold removeInput. mrun.
  pose proof (removeInput_loop_skip isShadow fuel this name_ (inputList B) [] 0 Hnot)
    as Hskip.
  rewrite app_nil_r in Hskip. rewrite Hskip. simpl. mrun. by destruct opt_quiet.
Qed.

Lemma removeInput_not_found_witness :
  removeInput (λ _, false) 5 40 "C" false one_plus_hole
  = Throw (input_not_found "C") one_plus_hole [].
Proof.
  apply (removeInput_not_found (λ _, false) 5 40 _ "C" false one_plus_hole eq_refl).
  vm_compute. intros H. elem_of_cases H.
Defined.

Lemma Input_dispose_run (st : State) (b : nat) (input : Input) :
  (∀ c, connection input = Some c →
        ∃ C, connections st !! c = Some C ∧ targetConnection C = None) →
  Input_dispose b input st
  = Ok tt (set_connections
             (λ m, foldr (alter (with_inDB false)) m (option_list (connection input)))
             st)
       (input_log b input).
Proof.
  intros Hfree. unfold Input_dispose.
  rewrite bind_emit. rewrite fields_log_run. unfold input_log.
  destruct (connection input) as [c|]; simpl option_list.
  - destruct (Hfree c eq_refl) as (C & HC & Ht).
    rewrite (Connection_dispose_run st c C HC Ht). simpl. done.
  - simpl. rewrite app_nil_r. by destruct st.
Qed.

Lemma removeInput_empty_run (isShadow : nat → bool) (fuel this : nat)
    (B : Block) (l1 l2 : list Input) (input : Input) (opt_quiet : bool)
    (st : State) :
  blocks st !! this = Some B →
  inputList B = l1 ++ input :: l2 → name input ∉ name <$> l1 →
  (∀ c, connection input = Some c →
        ∃ C, connections st !! c = Some C ∧ targetConnection C = None) →
  ∃ st', removeInput isShadow fuel this (name input) opt_quiet st
         = Ok tt st' (input_log this input)
         ∧ blocks st' !! this = Some (with_inputList (l1 ++ l2) B)
         ∧ (∀ b, b ≠ this → blocks st' !! b = blocks st !! b)
         ∧ (∀ c C, connection input = Some c → connections st !! c = Some C →
                   connections st' !! c = Some (with_inDB false C))
         ∧ (∀ c, connection input ≠ Some c →
                 connections st' !! c = connections st !! c).
Proof.
  intros HB Hlist Hnot Hfree.
  eexists. split_and!.
  - unfold removeInput. mrun. rewrite Hlist.
    rewrite (removeInput_loop_skip isShadow fuel this (name input) l1 _ 0 Hnot).
    simpl removeInput_loop. rewrite bool_decide_true by done.
    assert (Hfirst : (match connection input with
                      | Some c =>
                          connected ← isConnected c;
                          if connected : bool then
                            block ← targetBlock c;
                            match block with
                            | None => TypeError
                            | Some block =>
                                if isShadow block then dispose fuel block false
                                else unplug fuel block false
                            end
                          else ret tt
                      | None => ret tt
                      end) st = Ok tt st []).
    { destruct (connection input) as [c|]; [| done].
      destruct (Hfree c eq_refl) as (C & HC & Ht).
      rewrite (bind_run _ _ _ _ _ _ (isConnected_run st c C HC)).
      rewrite bool_decide_false by (by rewrite Ht; intros H; apply H). done. }
    rewrite !bind_bind.
    rewrite (bind_run _ _ _ _ _ _ Hfirst), prepend_nil. rewrite !bind_bind.
    rewrite (bind_run _ _ _ _ _ _ (Input_dispose_run st this input Hfree)).
    rewrite bind_bind, bind_updBlock, !bind_ret. simpl. rewrite app_nil_r.
    reflexivity.
  - simpl. rewrite lookup_alter_eq, HB. simpl. f_equal.
    unfold with_inputList. simpl. f_equal. rewrite Hlist. unfold splice. simpl.
    rewrite take_app_length, drop_app_ge by lia.
    by replace (length l1 + 1 - length l1) with 1 by lia.
  - intros b Hb. simpl. by rewrite lookup_alter_ne.
  - intros c C Hc HC. simpl. rewrite Hc. simpl. by rewrite lookup_alter_eq, HC.
  - intros c Hc. simpl. destruct (connection input) as [c'|]; simpl; [| done].
    rewrite lookup_alter_ne; [done | congruence].
Qed.

(** X10.  [removeInput] of an input that holds no block (it has no
    connection, or its connection has no target) returns; the input, the
    first of that name, is gone from the block's input list and the others
    keep their order; its connection, if it has one, is disposed; its
    Fields and the connection are released in that order; no other block
    and no other connection is changed.  If no later input has the name,
    [getInput] of the name finds nothing afterwards. *)
Theorem removeInput_empty_input (isShadow : nat → bool) (fuel this : nat)
    (B : Block) (l1 l2 : list Input) (input : Input) (opt_quiet : bool)
    (st : State) :
  blocks st !! this = Some B →
  inputList B = l1 ++ input :: l2 → name input ∉ name <$> l1 →
  (∀ c, connection input = Some c →
        ∃ C, connections st !! c = Some C ∧ targetConnection C = None) →
  ∃ st', removeInput isShadow fuel this (name input) opt_quiet st
         = Ok tt st' (input_log this input)
         ∧ blocks st' !! this = Some (with_inputList (l1 ++ l2) B)
         ∧ (∀ b, b ≠ this → blocks st' !! b = blocks st !! b)
         ∧ (∀ c C, connection input = Some c → connections st !! c = Some C →
                   connections st' !! c = Some (with_inDB false C))
         ∧ (∀ c, connection input ≠ Some c →
                 connections st' !! c = connections st !! c)
         ∧ (name input ∉ name <$> l2 →
            getInput this (name input) st' = Ok None st' []).
Proof.
  intros HB Hlist Hnot Hfree.
  destruct (removeInput_empty_run isShadow fuel this B l1 l2 input opt_quiet st
              HB Hlist Hnot Hfree)
    as (st' & Hrun & Hthis & Hblocks & Hdisposed & Hconns).
  exists st'. split_and!; try done.
  intros Hnot2. unfold getInput. mrun. simpl. f_equal.
  assert (Hnone : name input ∉ name <$> (l1 ++ l2)).
  { rewrite fmap_app. intros Hin. apply elem_of_app in Hin as [?|?]; done. }
  clear -Hnone. induction (l1 ++ l2) as [|i l IH]; [done |].
  rewrite fmap_cons in Hnone. apply not_elem_of_cons in Hnone as [Hne Hnone].
  simpl. rewrite bool_decide_false by done. by apply IH.
Qed.

Lemma removeInput_empty_input_witness :
  ∃ st', removeInput (λ _, false) 5 40 "B" false one_plus_hole
         = Ok tt st' [EvInputDispose 40 "B"; EvFieldDispose 40 "B" (Some "OP_INT");
                      EvConnectionDispose 402]
         ∧ (inputList <$> blocks st' !! 40) = Some [mkInput "A" [] (Some 401)].
Proof.
  destruct (removeInput_empty_input (λ _, false) 5 40 _ [mkInput "A" [] (Some 401)] []
              (mkInput "B" [mkField (Some "OP_INT") FIELD_VARIABLE_NONE None "+"]
                       (Some 402))
              false one_plus_hole eq_refl eq_refl)
    as (st' & Hrun & Hthis & _).
  - vm_compute. intros H. elem_of_cases H.
  - intros c [= <-]. by eexists.
  - exists st'. split; [exact Hrun |]. by rewrite Hthis.
Defined.

Lemma appendInput__run (this : nat) (B : Block) (type_ : option ConnectionType)
    (name_ : string) (st : State) :
  blocks st !! this = Some B →
  ∃ input st',
    appendInput_ this type_ name_ st = Ok input st' []
    ∧ name input = name_ ∧ fieldRow input = []
    ∧ blocks st' !! this = Some (with_inputList (inputList B ++ [input]) B)
    ∧ (∀ b, b ≠ this → blocks st' !! b = blocks st !! b)
    ∧ (∀ c, connection input ≠ Some c → connections st' !! c = connections st !! c)
    ∧ match connection input with
      | Some c =>
          connections st !! c = None
          ∧ ∃ t, type_ = Some t ∧ (t = INPUT_VALUE ∨ t = NEXT_STATEMENT)
                 ∧ connections st' !! c = Some (mkConnection this t None None None true)
      | None => type_ ≠ Some INPUT_VALUE ∧ type_ ≠ Some NEXT_STATEMENT
      end
    ∧ variables st' = variables st ∧ typeCells st' = typeCells st
    ∧ topBlocks_ st' = topBlocks_ st ∧ blockDB_ st' = blockDB_ st
    ∧ eventsDisabled_ st' = eventsDisabled_ st ∧ selected st' = selected st.
Proof.
  intros HB. unfold appendInput_. mrun.
  case_bool_decide as Hty.
  - destruct type_ as [t|]; [| by destruct Hty].
    unfold makeConnection_, Connection_new. mrun.
    eexists _, _. split; [reflexivity |].
    split_and!; try done.
    + simpl. by rewrite lookup_alter_eq, HB.
    + intros b Hb. simpl. by rewrite lookup_alter_ne.
    + intros c Hc. simpl in *. rewrite lookup_insert_ne; [done | congruence].
    + simpl. split.
      * apply not_elem_of_dom, is_fresh.
      * exists t. split_and!; [done | | by rewrite lookup_insert_eq].
        destruct Hty as [[= ->] | [= ->]]; eauto.
  - mrun. eexists _, _. split; [reflexivity |].
    split_and!; try done.
    + simpl. by rewrite lookup_alter_eq, HB.
    + intros b Hb. simpl. by rewrite lookup_alter_ne.
    + simpl. split; intros Heq; apply Hty; eauto.
Qed.

(** X11.  On a live block [appendInput_] returns a new input of the given
    name, without Fields, placed after the inputs the block had.  For a
    value or statement input it carries a new connection of that kind,
    owned by the block, free and unconstrained, under a name no connection
    had; for any other type it carries none.  Nothing else in the store
    changes, and if no earlier input has the name, [getInput] of the name
    now finds the new input. *)
Theorem appendInput__appends (this : nat) (B : Block) (type_ : option ConnectionType)
    (name_ : string) (st : State) :
  blocks st !! this = Some B →
  ∃ input st',
    appendInput_ this type_ name_ st = Ok input st' []
    ∧ name input = name_ ∧ fieldRow input = []
    ∧ blocks st' !! this = Some (with_inputList (inputList B ++ [input]) B)
    ∧ (∀ b, b ≠ this → blocks st' !! b = blocks st !! b)
    ∧ (∀ c, connection input ≠ Some c → connections st' !! c = connections st !! c)
    ∧ match connection input with
      | Some c =>
          connections st !! c = None
          ∧ ∃ t, type_ = Some t ∧ (t = INPUT_VALUE ∨ t = NEXT_STATEMENT)
                 ∧ connections st' !! c = Some (mkConnection this t None None None true)
      | None => type_ ≠ Some INPUT_VALUE ∧ type_ ≠ Some NEXT_STATEMENT
      end
    ∧ (name_ ∉ name <$> inputList B →
       getInput this name_ st' = Ok (Some input) st' []).
Proof.
  intros HB.
  destruct (appendInput__run this B type_ name_ st HB)
    as (input & st' & Hrun & Hname & Hrow & Hthis & Hblocks & Hconns & Hnew & _).
  exists input, st'. split_and!; try done.
  intros Hnot. unfold getInput. mrun. simpl. f_equal.
  clear -Hnot Hname. induction (inputList B) as [|i l IH]; simpl.
  - by rewrite bool_decide_true.
  - rewrite fmap_cons in Hnot. apply not_elem_of_cons in Hnot as [Hne Hnot].
    rewrite bool_decide_false by done. by apply IH.
Qed.

Lemma appendInput__appends_witness :
  ∃ input st',
    appendInput_ 41 (Some INPUT_VALUE) "X" one_plus_hole = Ok input st' []
    ∧ getInput 41 "X" st' = Ok (Some input) st' [].
Proof.
  destruct (appendInput__appends 41 _ (Some INPUT_VALUE) "X" one_plus_hole eq_refl)
    as (input & st' & Hrun & _ & _ & _ & _ & _ & _ & Hget).
  exists input, st'. split; [exact Hrun |]. apply Hget.
  vm_compute. intros H. elem_of_cases H.
Defined.

(** X12.  Appending an input under a new name and removing it again
    restores every block of the store: the block has the input list it had.
    Every connection the store had is as it was; the only trace is the
    connection made for the input, which is left behind disposed. *)
Theorem appendInput__removeInput (isShadow : nat → bool) (fuel this : nat)
    (B : Block) (type_ : option ConnectionType) (name_ : string)
    (opt_quiet : bool) (st : State) :
  blocks st !! this = Some B → name_ ∉ name <$> inputList B →
  ∃ input st1 st',
    appendInput_ this type_ name_ st = Ok input st1 []
    ∧ removeInput isShadow fuel this name_ opt_quiet st1
      = Ok tt st' (input_log this input)
    ∧ blocks st' = blocks st
    ∧ (∀ c, is_Some (connections st !! c) →
            connections st' !! c = connections st !! c)
    ∧ (∀ c, connection input = Some c →
            ∃ C, connections st' !! c = Some C
                 ∧ inDB_ C = false ∧ targetConnection C = None).
Proof.
  intros HB Hnot.
  destruct (appendInput__run this B type_ name_ st HB)
    as (input & st1 & Hrun & Hname & Hrow & Hthis & Hblocks & Hconns & Hnew & _).
  assert (Hfree : ∀ c, connection input = Some c →
                       ∃ C, connections st1 !! c = Some C ∧ targetConnection C = None).
  { intros c Hc. rewrite Hc in Hnew. destruct Hnew as (_ & t & _ & _ & HC). eauto. }
  destruct (removeInput_empty_run isShadow fuel this
              (with_inputList (inputList B ++ [input]) B) (inputList B) [] input
              opt_quiet st1 Hthis eq_refl ltac:(by rewrite Hname) Hfree)
    as (st' & Hrun' & Hthis' & Hblocks' & Hdisposed & Hconns').
  rewrite Hname in Hrun'.
  exists input, st1, st'. split_and!; [done | done | | |].
  - apply map_eq. intros b. destruct (decide (b = this)) as [->|Hne].
    + rewrite Hthis', HB. f_equal. rewrite app_nil_r. by destruct B.
    + by rewrite Hblocks', Hblocks.
  - intros c [C HC].
    assert (Hc : connection input ≠ Some c).
    { intros Hc. rewrite Hc in Hnew. destruct Hnew as (Hnone & _). congruence. }
    by rewrite Hconns', Hconns.
  - intros c Hc. destruct (Hfree c Hc) as (C & HC & Ht).
    exists (with_inDB false C). split_and!; [by apply Hdisposed | done | done].
Qed.

Lemma appendInput__removeInput_witness :
  ∃ input st1 st',
    appendInput_ 41 (Some INPUT_VALUE) "X" one_plus_hole = Ok input st1 []
    ∧ removeInput (λ _, false) 5 41 "X" false st1 = Ok tt st' (input_log 41 input)
    ∧ blocks st' = blocks one_plus_hole.
Proof.
  destruct (appendInput__removeInput (λ _, false) 5 41 _ (Some INPUT_VALUE) "X" false
              one_plus_hole eq_refl)
    as (input & st1 & st' & Hrun & Hrun' & Hblocks & _).
  - vm_compute. intros H. elem_of_cases H.
  - by exists input, st1, st'.
Defined.

(** ** The connections of a block *)

Lemma setCheck_block (c : nat) (check : option (list string)) (st st' : State)
    (l : list Event) :
  setCheck c check st = Ok tt st' l → blocks st' = blocks st.
Proof.
  unfold setCheck. mcase; [| done]. mrun. unfold updConnection, modify.
  by intros [= <- <-].
Qed.

Lemma Connection_dispose_block (c : nat) (st st' : State) (l : list Event) :
  Connection_dispose c st = Ok tt st' l → blocks st' = blocks st.
Proof.
  unfold Connection_dispose. mcase; [| done]. case_bool_decide; [done |].
  rewrite bind_emit. unfold updConnection, modify. simpl. by intros [= <- <-].
Qed.

Lemma makeConnection__block {A} (this : nat) (t : ConnectionType) (k : nat → M A)
    (st : State) :
  (makeConnection_ this t ≫= k) st
  = k (fresh (dom (connections st)))
      (set_connections
         (insert (fresh (dom (connections st)))
                 (mkConnection this t None None None true)) st).
Proof. unfold makeConnection_, Connection_new. by mrun. Qed.

(** X13.  When [setOutput(newBoolean, opt_check)] returns on a block that
    has an output or a previous connection but not both, the block still
    has not both; it has an output connection exactly if [newBoolean] is
    true, and its previous and next connections and its inputs are as
    before. *)
Theorem setOutput_exclusive (this : nat) (B : Block) (newBoolean : bool)
    (opt_check : option (list string)) (st st' : State) (l : list Event) :
  blocks st !! this = Some B → one_plug B →
  setOutput this newBoolean opt_check st = Ok tt st' l →
  ∃ B', blocks st' !! this = Some B' ∧ one_plug B'
        ∧ (is_Some (outputConnection B') ↔ newBoolean = true)
        ∧ previousConnection B' = previousConnection B
        ∧ nextConnection B' = nextConnection B
        ∧ inputList B' = inputList B.
Proof.
  intros HB Hone. unfold setOutput. mrun. destruct newBoolean.
  - destruct (outputConnection B) as [oc|] eqn:Hout.
    + mrun. intros Hrun. apply setCheck_block in Hrun.
      exists B. rewrite Hrun. by split_and!; try done; rewrite ?Hout.
    + unfold assert. destruct (previousConnection B) as [pc|] eqn:Hprev.
      { rewrite bool_decide_false by done. by mrun. }
      rewrite bool_decide_true by done. mrun. rewrite makeConnection__block. mrun.
      intros Hrun. apply setCheck_block in Hrun.
      exists (with_outputConnection (Some (fresh (dom (connections st)))) B).
      rewrite Hrun. simpl. rewrite lookup_alter_eq, HB. split_and!; try done.
      by right.
  - destruct (outputConnection B) as [oc|] eqn:Hout.
    + intros Hrun.
      apply bind_Ok_inv in Hrun as (connected & s0 & l0 & l0' & Hconn & Hrun & ->).
      destruct (quiet_run _ _ _ _ _ (quiet_isConnected _) Hconn) as [-> ->].
      unfold assert in Hrun.
      destruct (negb connected); [| by rewrite bind_throw in Hrun].
      rewrite bind_ret in Hrun.
      apply bind_Ok_inv in Hrun as ([] & s1 & l1 & l2 & Hdis & Hupd & ->).
      apply Connection_dispose_block in Hdis.
      unfold updBlock, modify in Hupd. injection Hupd as <- <-.
      exists (with_outputConnection None B).
      simpl. rewrite lookup_alter_eq, Hdis, HB.
      split_and!; try done. by left.
    + intros [= <- <-]. exists B. split_and!; try done.
      rewrite Hout. split; [by intros [? [=]] | done].
Qed.

Lemma setOutput_exclusive_witness :
  ∃ st' B', setOutput 1 true (Some ["Int"]) mid_connect = Ok tt st' []
            ∧ blocks st' !! 1 = Some B' ∧ one_plug B'
            ∧ (is_Some (outputConnection B') ↔ true = true).
Proof.
  assert (∃ st', setOutput 1 true (Some ["Int"]) mid_connect = Ok tt st' [])
    as [st' Hrun] by (eexists; vm_compute; reflexivity).
  destruct (setOutput_exclusive 1 _ true (Some ["Int"]) mid_connect st' [] eq_refl
              ltac:(by left) Hrun) as (B' & HB' & Hone & Hout & _).
  by exists st', B'.
Defined.

(** X14.  When [setPreviousStatement(newBoolean, opt_check)] returns on a
    block that has an output or a previous connection but not both, the
    block still has not both; it has a previous connection exactly if
    [newBoolean] is true, and its output and next connections and its inputs
    are as before. *)
Theorem setPreviousStatement_exclusive (this : nat) (B : Block) (newBoolean : bool)
    (opt_check : option (list string)) (st st' : State) (l : list Event) :
  blocks st !! this = Some B → one_plug B →
  setPreviousStatement this newBoolean opt_check st = Ok tt st' l →
  ∃ B', blocks st' !! this = Some B' ∧ one_plug B'
        ∧ (is_Some (previousConnection B') ↔ newBoolean = true)
        ∧ outputConnection B' = outputConnection B
        ∧ nextConnection B' = nextConnection B
        ∧ inputList B' = inputList B.
Proof.
  intros HB Hone. unfold setPreviousStatement. mrun. destruct newBoolean.
  - destruct (previousConnection B) as [pc|] eqn:Hprev.
    + mrun. intros Hrun. apply setCheck_block in Hrun.
      exists B. rewrite Hrun. by split_and!; try done; rewrite ?Hprev.
    + unfold assert. destruct (outputConnection B) as [oc|] eqn:Hout.
      { rewrite bool_decide_false by done. by mrun. }
      rewrite bool_decide_true by done. mrun. rewrite makeConnection__block. mrun.
      intros Hrun. apply setCheck_block in Hrun.
      exists (with_previousConnection (Some (fresh (dom (connections st)))) B).
      rewrite Hrun. simpl. rewrite lookup_alter_eq, HB. split_and!; try done.
      by left.
  - destruct (previousConnection B) as [pc|] eqn:Hprev.
    + intros Hrun.
      apply bind_Ok_inv in Hrun as (connected & s0 & l0 & l0' & Hconn & Hrun & ->).
      destruct (quiet_run _ _ _ _ _ (quiet_isConnected _) Hconn) as [-> ->].
      unfold assert in Hrun.
      destruct (negb connected); [| by rewrite bind_throw in Hrun].
      rewrite bind_ret in Hrun.
      apply bind_Ok_inv in Hrun as ([] & s1 & l1 & l2 & Hdis & Hupd & ->).
      apply Connection_dispose_block in Hdis.
      unfold updBlock, modify in Hupd. injection Hupd as <- <-.
      exists (with_previousConnection None B).
      simpl. rewrite lookup_alter_eq, Hdis, HB.
      split_and!; try done. by right.
    + intros [= <- <-]. exists B. split_and!; try done.
      rewrite Hprev. split; [by intros [? [=]] | done].
Qed.

Lemma setPreviousStatement_exclusive_witness :
  ∃ st' B', setPreviousStatement 1 true None mid_connect = Ok tt st' []
            ∧ blocks st' !! 1 = Some B' ∧ one_plug B'
            ∧ (is_Some (previousConnection B') ↔ true = true).
Proof.
  assert (∃ st', setPreviousStatement 1 true None mid_connect = Ok tt st' [])
    as [st' Hrun] by (eexists; vm_compute; reflexivity).
  destruct (setPreviousStatement_exclusive 1 _ true None mid_connect st' [] eq_refl
              ltac:(by left) Hrun) as (B' & HB' & Hone & Hprev & _).
  by exists st', B'.
Defined.

(** X15.  What the connection setters refuse, leaving the store as it is:
    an output connection for a block that has a previous connection, a
    previous connection for a block that has an output connection, and the
    removal of an output, previous or next connection that is still
    connected. *)
Theorem connection_setters_refuse (this : nat) (B : Block)
    (opt_check : option (list string)) (st : State) :
  blocks st !! this = Some B →
  (outputConnection B = None → previousConnection B ≠ None →
   setOutput this true opt_check st
   = Throw "Remove previous connection prior to adding output connection." st [])
  ∧ (previousConnection B = None → outputConnection B ≠ None →
     setPreviousStatement this true opt_check st
     = Throw "Remove output connection prior to adding previous connection." st [])
  ∧ (∀ c C, connections st !! c = Some C → targetConnection C ≠ None →
       (outputConnection B = Some c →
        setOutput this false opt_check st
        = Throw "Must disconnect output value before removing connection." st [])
       ∧ (previousConnection B = Some c →
          setPreviousStatement this false opt_check st
          = Throw "Must disconnect previous statement before removing connection."
                  st [])
       ∧ (nextConnection B = Some c →
          setNextStatement this false opt_check st
          = Throw "Must disconnect next statement before removing connection."
                  st [])).
Proof.
  intros HB. split_and!.
  - intros Hout Hprev. unfold setOutput. mrun. rewrite Hout. unfold assert.
    rewrite bool_decide_false by done. by mrun.
  - intros Hprev Hout. unfold setPreviousStatement. mrun. rewrite Hprev. unfold assert.
    rewrite bool_decide_false by done. by mrun.
  - intros c C HC Htarget. split_and!; intros Hc.
    + unfold setOutput. mrun. rewrite Hc.
      rewrite (bind_run _ _ _ _ _ _ (isConnected_run st c C HC)).
      rewrite bool_decide_true by done. simpl. by mrun.
    + unfold setPreviousStatement. mrun. rewrite Hc.
      rewrite (bind_run _ _ _ _ _ _ (isConnected_run st c C HC)).
      rewrite bool_decide_true by done. simpl. by mrun.
    + unfold setNextStatement. mrun. rewrite Hc.
      rewrite (bind_run _ _ _ _ _ _ (isConnected_run st c C HC)).
      rewrite bool_decide_true by done. simpl. by mrun.
Qed.

Lemma connection_setters_refuse_witness :
  setOutput 3 true None stack3
  = Throw "Remove previous connection prior to adding output connection." stack3 []
  ∧ setPreviousStatement 3 false None stack3
    = Throw "Must disconnect previous statement before removing connection."
            stack3 [].
Proof.
  destruct (connection_setters_refuse 3 _ None stack3 eq_refl) as (Hout & _ & Hrem).
  split.
  - by apply Hout.
  - by apply (Hrem 13 _ eq_refl).
Defined.

(** X16.  On a block without an output and without a previous connection,
    [setOutput(true, check)] followed by [setOutput(false)] returns and
    restores every block: the connection made in between, under a name no
    connection had, is left behind disposed, and every connection the store
    had is as it was. *)
Theorem setOutput_round_trip (this : nat) (B : Block)
    (opt_check opt_check' : option (list string)) (st : State) :
  blocks st !! this = Some B →
  outputConnection B = None → previousConnection B = None →
  ∃ st1 st2 c,
    setOutput this true opt_check st = Ok tt st1 []
    ∧ setOutput this false opt_check' st1 = Ok tt st2 [EvConnectionDispose c]
    ∧ blocks st1 !! this = Some (with_outputConnection (Some c) B)
    ∧ blocks st2 = blocks st
    ∧ connections st !! c = None
    ∧ connections st2 !! c
      = Some (mkConnection this OUTPUT_VALUE None opt_check None false)
    ∧ (∀ c', c' ≠ c → connections st2 !! c' = connections st !! c').
Proof.
  intros HB Hout Hprev.
  set (c := fresh (dom (connections st))).
  assert (Hc : connections st !! c = None) by apply not_elem_of_dom, is_fresh.
  eexists _, _, c. split_and!.
  - unfold setOutput. mrun. rewrite Hout, Hprev. unfold assert.
    rewrite bool_decide_true by done. mrun. rewrite makeConnection__block. mrun.
    unfold setCheck. fold c.
    rewrite (bind_getConnection c _ _ (mkConnection this OUTPUT_VALUE None None None true));
      [| by simpl; rewrite lookup_insert_eq].
    unfold updConnection, modify. reflexivity.
  - set (C1 := with_check opt_check
                 (mkConnection this OUTPUT_VALUE None None None true)).
    set (st1 := set_connections (alter (with_check opt_check) c)
                  (set_blocks (alter (with_outputConnection (Some c)) this)
                     (set_connections
                        (insert c (mkConnection this OUTPUT_VALUE None None None true))
                        st))).
    assert (HB1 : blocks st1 !! this = Some (with_outputConnection (Some c) B)).
    { simpl. by rewrite lookup_alter_eq, HB. }
    assert (HC1 : connections st1 !! c = Some C1).
    { simpl. by rewrite lookup_alter_eq, lookup_insert_eq. }
    unfold setOutput. rewrite (bind_getBlock this _ _ _ HB1).
    change (outputConnection (with_outputConnection (Some c) B)) with (Some c).
    cbv iota.
    rewrite (bind_run _ _ _ _ _ _ (isConnected_run st1 c C1 HC1)).
    rewrite bool_decide_false by (by intros H; apply H). simpl negb. unfold assert.
    mrun.
    rewrite (bind_run _ _ _ _ _ _ (Connection_dispose_run st1 c C1 HC1 eq_refl)).
    unfold updBlock, modify. simpl. reflexivity.
  - simpl. by rewrite lookup_alter_eq, HB.
  - simpl. apply map_eq. intros b. destruct (decide (b = this)) as [->|Hne].
    + rewrite !lookup_alter_eq, HB. simpl. f_equal. destruct B. simpl in *.
      unfold with_outputConnection. simpl. by rewrite Hout.
    + by rewrite !lookup_alter_ne.
  - done.
  - simpl. by rewrite !lookup_alter_eq, lookup_insert_eq.
  - intros c' Hne. simpl. by rewrite !lookup_alter_ne, lookup_insert_ne.
Qed.

Lemma setOutput_round_trip_witness :
  ∃ st1 st2 c,
    setOutput 1 true (Some ["Int"]) mid_connect = Ok tt st1 []
    ∧ setOutput 1 false None st1 = Ok tt st2 [EvConnectionDispose c]
    ∧ blocks st2 = blocks mid_connect.
Proof.
  destruct (setOutput_round_trip 1 _ (Some ["Int"]) None mid_connect eq_refl
              eq_refl eq_refl)
    as (st1 & st2 & c & H1 & H2 & _ & Hblocks & _).
  by exists st1, st2, c.
Defined.

(** ** Moving an input by name *)

Lemma index_of_None (name_ : string) (l : list Input) :
  name_ ∉ name <$> l → index_of name_ l = None.
Proof.
  induction l as [|input l IH]; [done |].
  rewrite fmap_cons. intros Hnot. apply not_elem_of_cons in Hnot as [Hne Hnot].
  simpl. rewrite bool_decide_false by done. by rewrite IH.
Qed.

Lemma shift_S (k : nat) (found acc : option nat) :
  shift (S k) found acc = shift k (S <$> found) acc.
Proof. destruct found; simpl; [f_equal; lia | done]. Qed.

(** With distinct names and a proper reference name, the search loop finds
    the index of each of the two names, if the list has it. *)
Lemma moveInputBefore_find_named (name_ r : string) (l : list Input) :
  r ≠ "" → r ≠ name_ → NoDup (name <$> l) →
  ∀ k ii ri,
    (ii = None ∨ name_ ∉ name <$> l) → (ri = None ∨ r ∉ name <$> l) →
    moveInputBefore_find name_ (Some r) k l ii ri
    = (shift k (index_of name_ l) ii, shift k (index_of r l) ri).
Proof.
  intros Hr Hne. induction l as [|input l IH]; intros Hnd k ii ri Hii Hri; [done |].
  rewrite fmap_cons in Hnd, Hii, Hri. apply NoDup_cons in Hnd as [Hfresh Hnd].
  simpl. case_bool_decide as Hname.
  - assert (Hrn : name input ≠ r) by congruence.
    rewrite (bool_decide_false (name input = r)) by done.
    case_bool_decide as Href.
    + destruct Hri as [-> | Hri]; [done |].
      apply not_elem_of_cons in Hri as [_ Hri].
      rewrite (index_of_None r l Hri). simpl. by rewrite Nat.add_0_r.
    + subst ri.
      rewrite IH; [| done | right; by rewrite <- Hname | by left].
      rewrite (index_of_None name_ l) by (by rewrite <- Hname).
      rewrite (shift_S k (index_of r l)). simpl. by rewrite Nat.add_0_r.
  - rewrite (bool_decide_false (r = "")) by done. simpl negb. simpl andb.
    case_bool_decide as Href.
    + injection Href as Href. rewrite (bool_decide_true (name input = r)) by done.
      case_bool_decide as Hin.
      * destruct Hii as [-> | Hii]; [done |].
        apply not_elem_of_cons in Hii as [_ Hii].
        rewrite (index_of_None name_ l Hii). simpl. by rewrite Nat.add_0_r.
      * subst ii.
        rewrite IH; [| done | by left | right; by rewrite Href].
        rewrite (index_of_None r l) by (by rewrite Href).
        rewrite (shift_S k (index_of name_ l)). simpl. by rewrite Nat.add_0_r.
    + rewrite (bool_decide_false (name input = r)) by congruence.
      rewrite IH; [by rewrite !shift_S | done | |].
      * destruct Hii as [-> | Hii]; [by left |]. right.
        by apply not_elem_of_cons in Hii as [_ ?].
      * destruct Hri as [-> | Hri]; [by left |]. right.
        by apply not_elem_of_cons in Hri as [_ ?].
Qed.

(** Without a reference name the loop stops at the first input of the
    name. *)
Lemma moveInputBefore_find_end (name_ : string) (refName : option string)
    (l : list Input) (k len : nat) :
  truthy refName = false →
  moveInputBefore_find name_ refName k l None (Some len)
  = (shift k (index_of name_ l) None, Some len).
Proof.
  intros Hfalsy. revert k. induction l as [|input l IH]; intros k; [done |].
  simpl. case_bool_decide as Hname.
  - simpl. by rewrite Nat.add_0_r.
  - rewrite Hfalsy. simpl. rewrite IH. by rewrite shift_S.
Qed.

(** X17.  On a block whose inputs have distinct names [moveInputBefore]
    resolves the two names to indices and hands over to
    [moveNumberedInputBefore]: the name to the index of the input of that
    name, the reference name to the index of its input, or to the length of
    the list when it is null or empty.  It throws, with the store unchanged,
    when the block has no input of the name, and, that found, when it has
    none of the reference name. *)
Theorem moveInputBefore_resolves_names (this : nat) (B : Block) (name_ : string)
    (refName : option string) (st : State) :
  blocks st !! this = Some B → NoDup (name <$> inputList B) →
  refName ≠ Some name_ →
  moveInputBefore this name_ refName st
  = match index_of name_ (inputList B) with
    | None => Throw "Named input not found." st []
    | Some inputIndex =>
        match reference_index refName (inputList B) with
        | None => Throw "Reference input not found." st []
        | Some refIndex => moveNumberedInputBefore this inputIndex refIndex st
        end
    end.
Proof.
  intros HB Hnd Hne. unfold moveInputBefore.
  rewrite bool_decide_false by done. mrun. cbv zeta.
  destruct (truthy refName) eqn:Htruthy.
  - destruct refName as [r|]; [| done]. simpl in Htruthy.
    apply negb_true_iff, bool_decide_eq_false in Htruthy.
    rewrite (moveInputBefore_find_named name_ r (inputList B) Htruthy
               ltac:(congruence) Hnd 0 None None (or_introl eq_refl)
               (or_introl eq_refl)).
    unfold reference_index. rewrite bool_decide_false by done.
    destruct (index_of name_ (inputList B)) as [i|]; simpl; [| done].
    by destruct (index_of r (inputList B)).
  - rewrite (moveInputBefore_find_end name_ refName (inputList B) 0 _ Htruthy).
    assert (Href : reference_index refName (inputList B)
                   = Some (length (inputList B))).
    { destruct refName as [r|]; [| done]. simpl in *.
      apply negb_false_iff in Htruthy. by rewrite Htruthy. }
    rewrite Href. by destruct (index_of name_ (inputList B)).
Qed.

Lemma moveInputBefore_resolves_names_witness :
  moveInputBefore 40 "B" (Some "A") one_plus_hole
  = moveNumberedInputBefore 40 1 0 one_plus_hole
  ∧ moveInputBefore 40 "A" None one_plus_hole
    = moveNumberedInputBefore 40 0 2 one_plus_hole
  ∧ moveInputBefore 40 "A" (Some "C") one_plus_hole
    = Throw "Reference input not found." one_plus_hole [].
Proof.
  assert (Hnd : NoDup (name <$> [mkInput "A" [] (Some 401);
                                  mkInput "B" [mkField (Some "OP_INT")
                                                 FIELD_VARIABLE_NONE None "+"]
                                          (Some 402)])) by nodup_list.
  split_and!.
  - by apply (moveInputBefore_resolves_names 40 _ "B" (Some "A") one_plus_hole
                eq_refl Hnd).
  - by apply (moveInputBefore_resolves_names 40 _ "A" None one_plus_hole
                eq_refl Hnd).
  - by apply (moveInputBefore_resolves_names 40 _ "A" (Some "C") one_plus_hole
                eq_refl Hnd).
Defined.

(** ** Reparenting, there and back *)

(** X18.  Giving a top-level block whose plug is free a parent and taking
    the parent away again brings the store back as it was.  In between the
    block is the last child of the parent and no top-level block. *)
Theorem setParent_round_trip (c p : nat) (C P : Block) (st : State) :
  blocks st !! c = Some C → blocks st !! p = Some P → p ≠ c →
  parentBlock_ C = None → workspace C = true → c ∈ topBlocks_ st →
  c ∉ childBlocks_ P →
  (∀ sc, sc ∈ option_list (previousConnection C) ++ option_list (outputConnection C) →
         ∃ SC, connections st !! sc = Some SC ∧ targetConnection SC = None) →
  ∃ st1, setParent c (Some p) st = Ok tt st1 []
         ∧ blocks st1 !! c = Some (with_parentBlock (Some p) C)
         ∧ blocks st1 !! p = Some (with_childBlocks (λ l, l ++ [c]) P)
         ∧ (c ∉ topBlocks_ st1)
         ∧ setParent c None st1 = Ok tt st [].
Proof.
  intros HC HP Hne Hpar Hlive Htop Hkid Hfree.
  set (st1 := set_blocks (alter (with_childBlocks (λ l, l ++ [c])) p)
                (set_blocks (alter (with_parentBlock (Some p)) c)
                   (set_topBlocks (λ s, s ∖ {[c]}) st))).
  assert (HC1 : blocks st1 !! c = Some (with_parentBlock (Some p) C)).
  { simpl. rewrite lookup_alter_ne by done. by rewrite lookup_alter_eq, HC. }
  assert (HP1 : blocks st1 !! p = Some (with_childBlocks (λ l, l ++ [c]) P)).
  { simpl. rewrite lookup_alter_eq, lookup_alter_ne by done. by rewrite HP. }
  exists st1. split_and!; [| done | done | |].
  - unfold setParent. mrun. rewrite Hpar.
    rewrite bool_decide_false by done. rewrite Hlive.
    unfold removeTopBlock. mrun.
    rewrite (bind_getBlock p _ _ P)
      by (simpl; by rewrite lookup_alter_ne, HP by done).
    unfold updBlock, modify. done.
  - simpl. apply not_elem_of_difference. right. by apply elem_of_singleton.
  - unfold setParent. mrun.
    change (parentBlock_ (with_parentBlock (Some p) C)) with (Some p).
    rewrite bool_decide_false by done. cbv iota. mrun.
    set (st2 := set_blocks (alter (with_childBlocks (array_remove c)) p) st1).
    assert (Hplug : ∀ (slot : option nat) (k : bool → M unit),
               (∀ sc, slot = Some sc →
                      ∃ SC, connections st !! sc = Some SC ∧ targetConnection SC = None) →
               ((match slot with
                 | Some sc => isConnected sc
                 | None => ret false
                 end ≫= k) st2)
               = k false st2).
    { intros slot k Hslot. destruct slot as [sc|]; [| by mrun].
      destruct (Hslot sc eq_refl) as (SC & HSC & Ht).
      rewrite (bind_run _ _ _ _ _ _ (isConnected_run st2 sc SC HSC)).
      rewrite bool_decide_false by (by rewrite Ht; intros H; apply H).
      by rewrite prepend_nil. }
    rewrite Hplug; [mrun; rewrite Hplug; [mrun |] |].
    + change (workspace (with_parentBlock (Some p) C)) with (workspace C).
      rewrite Hlive. unfold addTopBlock, updBlock, modify. simpl. f_equal.
      apply state_eq; simpl; try done.
      * apply map_eq. intros x.
        destruct (decide (x = c)) as [->|Hxc].
        -- rewrite !lookup_alter_eq. rewrite !lookup_alter_ne by done.
           rewrite lookup_alter_eq, HC. simpl. f_equal.
           destruct C. simpl in *. unfold with_parentBlock. simpl. by rewrite Hpar.
        -- rewrite !(lookup_alter_ne _ _ c) by done.
           destruct (decide (x = p)) as [->|Hxp].
           ++ rewrite !lookup_alter_eq. rewrite lookup_alter_ne by done.
              rewrite HP. simpl. f_equal. destruct P. simpl in *.
              unfold with_childBlocks. simpl. f_equal.
              by apply array_remove_last.
           ++ by rewrite !lookup_alter_ne.
      * apply set_eq. intros x. rewrite elem_of_union, elem_of_difference.
        rewrite elem_of_singleton. split.
        -- by intros [[? _] | ->].
        -- intros Hx. destruct (decide (x = c)); [by right | by left].
    + intros sc Hsc. change (outputConnection C = Some sc) in Hsc.
      apply Hfree. rewrite Hsc. apply elem_of_app. right. by left.
    + intros sc Hsc. change (previousConnection C = Some sc) in Hsc.
      apply Hfree. rewrite Hsc. apply elem_of_app. left. by left.
Qed.

Lemma setParent_round_trip_witness :
  ∃ st1, setParent 3 (Some 1) loose_pair = Ok tt st1 []
         ∧ (3 ∉ topBlocks_ st1)
         ∧ setParent 3 None st1 = Ok tt loose_pair [].
Proof.
  destruct (setParent_round_trip 3 1
              (statement_block (Some 13) (Some 14) None [])
              (statement_block None (Some 10) None []) loose_pair)
    as (st1 & Hrun & _ & _ & Htop & Hback); try done.
  - intros H. by apply elem_of_nil in H.
  - intros sc Hsc. vm_compute in Hsc. elem_of_each Hsc. by eexists.
  - by exists st1.
Defined.

(** ** Disposal of a whole tree *)

(** Unplugging the root of a tree that hangs from nothing does nothing. *)
Lemma unplug_detached (st : State) (fuel b : nat) (ks : list Tree) :
  block_tree st (Node b ks) → detached st b →
  unplug fuel b false st = Ok tt st [EvUnplug b false].
Proof.
  intros Ht (B & HB & Hpar & Hfree).
  inversion Ht as [b' ks' B' HB' Hok Hch Hlinks Hinf Hkids]; subst b' ks'.
  rewrite HB in HB'. injection HB' as <-.
  unfold unplug. rewrite bind_emit. mrun.
  destruct (outputConnection B) as [oc|] eqn:Hout.
  - assert (Hsup : superior B = Some oc) by (unfold superior; by rewrite Hout).
    destruct (ok_owned _ _ _ Hok oc (superior_own _ _ Hsup)) as (OC & HOC & _).
    rewrite (bind_run _ _ _ _ _ _ (isConnected_run st oc OC HOC)).
    rewrite (Hfree oc OC Hsup HOC).
    rewrite bool_decide_false by (by intros H; apply H). done.
  - destruct (previousConnection B) as [pc|] eqn:Hprev; [| done].
    assert (Hsup : superior B = Some pc) by (unfold superior; by rewrite Hout).
    destruct (ok_owned _ _ _ Hok pc (superior_own _ _ Hsup)) as (PC & HPC & _).
    mrun. rewrite (Hfree pc PC Hsup HPC). mrun.
    assert (∃ r, getNextBlock b st = Ok r st []) as [r Hr].
    { unfold getNextBlock. mrun.
      destruct (nextConnection B) as [nc|] eqn:Hnc; [| by eexists].
      destruct (inferior_targetBlock st b ks B nc Ht HB) as (NC & HNC & Hcases).
      { unfold inferiors. rewrite Hnc. by left. }
      destruct Hcases as [[_ ?] | (k & _ & _ & _ & ?)]; eauto. }
    rewrite (bind_run _ _ _ _ _ _ Hr). by destruct r.
Qed.

Lemma deleted_blocks_app (l1 l2 : list Event) :
  deleted_blocks (l1 ++ l2) = deleted_blocks l1 ++ deleted_blocks l2.
Proof. apply omap_app. Qed.

Lemma deleted_blocks_none (l : list Event) :
  (∀ e, e ∈ l → ∀ b, e ≠ EvBlockDelete b) → deleted_blocks l = [].
Proof.
  induction l as [|e l IH]; intros Hl; [done |].
  unfold deleted_blocks. rewrite omap_cons_eq.
  fold (deleted_blocks l). rewrite IH by (intros e' He'; apply Hl; by right).
  pose proof (Hl e ltac:(by left)) as He. destruct e; try done. by destruct (He block).
Qed.

Lemma own_log_quiet (b : nat) (B : Block) (e : Event) :
  e ∈ own_log b B → ∀ x, e ≠ EvBlockDelete x.
Proof.
  unfold own_log. rewrite !elem_of_app. intros [He | [He | He]] x ->.
  - apply list_elem_of_join in He as (l & He & Hl).
    apply list_elem_of_fmap in Hl as (input & -> & _).
    unfold input_log in He. apply elem_of_cons in He as [He | He]; [done |].
    apply elem_of_app in He as [He | He];
      apply list_elem_of_fmap in He as (? & ? & _); done.
  - apply list_elem_of_fmap in He as (? & ? & _). done.
  - induction (typedValue B) as [|[n v] l IH]; simpl in He;
      [by apply elem_of_nil in He |].
    case_bool_decide; [by apply elem_of_nil in He |].
    apply elem_of_cons in He as [He | He]; [done | by apply IH].
Qed.

(** The teardown of the children announces no deletion. *)
Lemma teardown_log_quiet (st : State) (t : Tree) (e : Event) :
  e ∈ teardown_log st t → ∀ x, e ≠ EvBlockDelete x.
Proof.
  revert e. induction t as [b ks IH] using Tree_forall_ind. intros e.
  rewrite teardown_log_node. rewrite elem_of_app. intros [He | He].
  - induction ks as [|k ks IHks]; simpl in He; [by apply elem_of_nil in He |].
    apply Forall_cons in IH as [IHk IH].
    apply elem_of_app in He as [He | He]; [by apply IHks |].
    unfold kid_log in He.
    apply elem_of_cons in He as [-> | He]; [done |].
    apply elem_of_cons in He as [-> | He]; [done |].
    apply elem_of_app in He as [He | He]; [| by apply IHk].
    apply list_elem_of_fmap in He as (? & -> & _). done.
  - destruct (blocks st !! b) as [B|]; [| by apply elem_of_nil in He].
    by apply (own_log_quiet b B).
Qed.

Lemma dispose_detached_run (st : State) (t : Tree) (fuel : nat) :
  block_tree st t → detached st (root t) → NoDup (nodes t) →
  tree_size t ≤ S fuel →
  ∃ st', dispose (S fuel) (root t) false st
         = Ok tt st' (EvUnplug (root t) false
                      :: fire_log st (root t) ++ teardown_log st t)
         ∧ torn_down st t None st'.
Proof.
  intros Ht Hdet Hnd Hsize.
  destruct (teardown_detached t st fuel Hsize Ht Hdet Hnd) as (st' & Hrun & Htd).
  exists st'. split; [| done].
  destruct t as [b ks]. simpl root in *.
  inversion Ht as [b' ks' B HB Hok Hch Hlinks Hinf Hkids]; subst b' ks'.
  rewrite dispose_unfold. mrun. rewrite (ok_live _ _ _ Hok).
  change (negb true) with false. cbv iota.
  rewrite (bind_run _ _ _ _ _ _ (unplug_detached st (S fuel) b ks Ht Hdet)).
  by rewrite Hrun.
Qed.

(** X19.  Deleting, without healing, the root of a well-formed tree that
    hangs from nothing returns and takes exactly the blocks of the tree out
    of the registry of blocks and out of the top-level blocks.  Every block
    outside the tree and every connection that is not of the tree is as it
    was; no bound variable is created or deleted; the bindings of the type
    variables and the nesting depth of the notification switch are as
    before. *)
Theorem dispose_tree_footprint (st : State) (t : Tree) (fuel : nat) :
  block_tree st t → detached st (root t) → NoDup (nodes t) →
  tree_size t ≤ S fuel →
  ∃ st' l,
    dispose (S fuel) (root t) false st = Ok tt st' l
    ∧ blockDB_ st' = blockDB_ st ∖ list_to_set (nodes t)
    ∧ topBlocks_ st' = topBlocks_ st ∖ list_to_set (nodes t)
    ∧ (∀ x, x ∉ nodes t → blocks st' !! x = blocks st !! x)
    ∧ (∀ c, c ∉ tree_connections st t → connections st' !! c = connections st !! c)
    ∧ (∀ v, is_Some (variables st' !! v) ↔ is_Some (variables st !! v))
    ∧ typeCells st' = typeCells st
    ∧ eventsDisabled_ st' = eventsDisabled_ st.
Proof.
  intros Ht Hdet Hnd Hsize.
  destruct (dispose_detached_run st t fuel Ht Hdet Hnd Hsize) as (st' & Hrun & Htd).
  eexists st', _. split; [exact Hrun |]. split_and!.
  - apply (td_blockDB _ _ _ _ Htd).
  - apply (td_topBlocks _ _ _ _ Htd).
  - intros x Hx. by apply (td_blocks_frame _ _ _ _ Htd).
  - intros c Hc. by apply (td_connections_frame _ _ _ _ Htd).
  - apply (td_variables _ _ _ _ Htd).
  - apply (td_typeCells _ _ _ _ Htd).
  - apply (td_events _ _ _ _ Htd).
Qed.

Lemma dispose_tree_footprint_witness :
  ∃ st' l,
    dispose 3 40 false one_plus_hole = Ok tt st' l
    ∧ blockDB_ st' = blockDB_ one_plus_hole ∖ list_to_set [40; 41]
    ∧ topBlocks_ st' = topBlocks_ one_plus_hole ∖ list_to_set [40; 41].
Proof.
  destruct (dispose_tree_footprint one_plus_hole (Node 40 [Node 41 []]) 2)
    as (st' & l & Hrun & HDB & Htop & _).
  - exact one_plus_hole_tree.
  - eexists. split; [reflexivity |]. split; [reflexivity |].
    by intros sc SC [= <-] [= <-].
  - nodup_list.
  - vm_compute. lia.
  - by exists st', l.
Defined.

(** X20.  Deleting, without healing, the root of a well-formed tree that
    hangs from nothing announces one deletion at most: that of the root,
    and only if notifications are switched on.  The descendants are
    disposed while notifications are off, so none of them is announced. *)
Theorem dispose_announces_root_only (st : State) (t : Tree) (fuel : nat) :
  block_tree st t → detached st (root t) → NoDup (nodes t) →
  tree_size t ≤ S fuel →
  ∃ st' l,
    dispose (S fuel) (root t) false st = Ok tt st' l
    ∧ deleted_blocks l
      = if bool_decide (eventsDisabled_ st = 0) then [root t] else [].
Proof.
  intros Ht Hdet Hnd Hsize.
  destruct (dispose_detached_run st t fuel Ht Hdet Hnd Hsize) as (st' & Hrun & _).
  eexists st', _. split; [exact Hrun |].
  change (EvUnplug (root t) false :: fire_log st (root t) ++ teardown_log st t)
    with ([EvUnplug (root t) false] ++ fire_log st (root t) ++ teardown_log st t).
  rewrite !deleted_blocks_app.
  rewrite (deleted_blocks_none (teardown_log st t))
    by (intros e He; by apply (teardown_log_quiet st t)).
  rewrite app_nil_r. unfold fire_log. by case_bool_decide.
Qed.

Lemma dispose_announces_root_only_witness :
  ∃ st' l, dispose 3 40 false one_plus_hole = Ok tt st' l
           ∧ deleted_blocks l = [40].
Proof.
  destruct (dispose_announces_root_only one_plus_hole (Node 40 [Node 41 []]) 2)
    as (st' & l & Hrun & Hdel).
  - exact one_plus_hole_tree.
  - eexists. split; [reflexivity |]. split; [reflexivity |].
    by intros sc SC [= <-] [= <-].
  - nodup_list.
  - vm_compute. lia.
  - by exists st', l.
Defined.

(** ** Unplugging a child *)

(** X21.  [unplug(false)] on a block that is plugged into a parent, with a
    well-formed tree of distinct blocks below it, returns and leaves the
    block, its subtree intact, as a top-level block that hangs from
    nothing: one disconnect is logged, the parent has lost this child, and
    the connection the block sat in is free and registered again. *)
Theorem unplug_child_detaches (st : State) (fuel b c tc : nat) (kks : list Tree)
    (Bb : Block) (TC : Connection) :
  block_tree st (Node c kks) → linked st b c tc →
  blocks st !! b = Some Bb → connections st !! tc = Some TC →
  b ∉ nodes (Node c kks) → NoDup (nodes (Node c kks)) →
  ∃ sc st',
    unplug fuel c false st = Ok tt st' [EvUnplug c false; EvConnectionDisconnect sc]
    ∧ block_tree st' (Node c kks) ∧ detached st' c
    ∧ c ∈ topBlocks_ st'
    ∧ blocks st' !! b = Some (with_childBlocks (array_remove c) Bb)
    ∧ connections st' !! tc = Some (freed_connection TC).
Proof.
  intros Ht Hl HBb HTC Hb Hnd.
  destruct (linked_facts st b tc c kks Ht Hl Hb)
    as (C & sc & SC & TC' & HC & Hok & Hp & Hsup & HSC & Hsrc & Hplug & Htgt
        & HTC' & Htsrc & Hbc & Hne & Hsci & Htct).
  destruct (block_tree_unlinked st b c tc kks Ht Hl Hb Hnd)
    as (sc' & Hsc' & Htu & Hdet).
  rewrite HC in Hsc'. simpl in Hsc'. rewrite Hsup in Hsc'. injection Hsc' as <-.
  exists sc, (unlinked b c sc tc st). split_and!; [| done | done | | |].
  - apply (unplug_linked st fuel b c sc tc Bb C SC TC); try done.
    + apply (ok_live _ _ _ Hok).
    + apply (ok_one_plug _ _ _ Hok).
    + intros nc Hnc. apply (inferior_target_exists st c kks C); try done.
      unfold inferiors. rewrite Hnc. by left.
  - simpl. apply elem_of_union. right. by apply elem_of_singleton.
  - by apply unlinked_block_parent.
  - by apply unlinked_connection_tc.
Qed.

Lemma stack3_linked : linked stack3 1 2 10.
Proof. by repeat eexists. Qed.

Lemma unplug_child_detaches_witness :
  ∃ sc st',
    unplug 0 2 false stack3 = Ok tt st' [EvUnplug 2 false; EvConnectionDisconnect sc]
    ∧ block_tree st' (Node 2 [Node 3 []]) ∧ detached st' 2
    ∧ 2 ∈ topBlocks_ st'.
Proof.
  destruct (unplug_child_detaches stack3 0 1 2 10 [Node 3 []] _ _ stack3_tree
              stack3_linked eq_refl eq_refl)
    as (sc & st' & Hrun & Htree & Hdet & Htop & _).
  - vm_compute. intros H. elem_of_cases H.
  - nodup_list.
  - by exists sc, st'.
Defined.

(** ** The footprint of the two inference hooks *)

(** X22.  [clearTypes] never reads the bindings of the type variables and
    changes nothing in the store but the bindings of the variables it
    clears: if it returns on a store, then on the same store with any other
    bindings it returns with the same log, and the store it ends in is the
    one it started from with the cleared variables unbound. *)
Theorem clearTypes_only_clears (fuel this : nat) (st st' : State) (l : list Event) :
  clearTypes fuel this st = Ok tt st' l →
  ∀ cells, clearTypes fuel this (with_cells cells st)
           = Ok tt (with_cells (wipe (cleared_cells l) cells) st) l.
Proof.
  intros Hrun cells.
  destruct (deletes_clearTypes fuel this st) as (r & l0 & Hany).
  pose proof (Hany (typeCells st)) as Hst. rewrite with_cells_same, Hrun in Hst.
  destruct r as [[[]|msg]|]; simpl in Hst; [| done..].
  injection Hst as _ <-. apply Hany.
Qed.

Lemma clearTypes_only_clears_witness :
  ∃ l, ∀ cells, clearTypes 5 40 (with_cells cells one_plus_hole)
                = Ok tt (with_cells (wipe (cleared_cells l) cells) one_plus_hole) l.
Proof.
  assert (∃ st' l, clearTypes 5 40 one_plus_hole = Ok tt st' l)
    as (st' & l & Hrun) by (do 2 eexists; vm_compute; reflexivity).
  exists l. apply (clearTypes_only_clears 5 40 one_plus_hole st' l Hrun).
Defined.

(** X23.  Let [W] be a set of blocks that holds, with each of its blocks,
    the block plugged into any of its inputs, none of which names its
    variable [__proto__], and [D] a set of type variables that holds the
    variables of the type expressions on the sockets of the blocks of [W]
    and of what variables of [D] are bound to.  When [infer] returns on a
    block of [W], with an environment over [D] whose prototype no type
    expression has replaced, it has logged nothing and has changed nothing
    in the store but bindings of variables of [D]; the type it returns is
    over [D], and [W] and [D] are as closed after as before. *)
Theorem infer_only_binds
    (unify_through : TypeExpr → string → option TypeExpr → M unit)
    (D W : nat → Prop) (fuel this : nat) (env : TypeEnv) (st st' : State)
    (v : option TypeExpr) (l : list Event) :
  good D W st → W this → closed_env D env →
  infer unify_through fuel this env st = Ok v st' l →
  l = [] ∧ cells_frame D st st' ∧ closed_opt D v ∧ good D W st'.
Proof.
  intros Hg HW Henv Hrun.
  pose proof (within_infer D W unify_through fuel this env HW Henv st Hg) as Hw.
  rewrite Hrun in Hw. by destruct Hw as (? & ? & ? & ?).
Qed.

Lemma infer_only_binds_witness :
  ∃ v st',
    infer (λ _ _ _, TypeError) 10 20 empty_object (let_x_3_in_x (Some 50) ∅)
    = Ok v st' []
    ∧ (∀ x, x ∉ [0; 1; 2] →
            typeCells st' !! x = typeCells (let_x_3_in_x (Some 50) ∅) !! x)
    ∧ closed_opt (λ x, x ∈ [0; 1; 2]) v
    ∧ deref 10 (typeCells st') (TVAR 2) = Some INT.
Proof.
  assert (Hclear : clearTypes 10 20 (let_x_3_in_x (Some 50) ∅)
                   = Ok tt (let_x_3_in_x (Some 50) ∅)
                        [EvClearTypes 20; EvClear (TVAR 0); EvClear (TVAR 1);
                         EvClearTypes 22; EvClear (TVAR 2)])
    by (vm_compute; reflexivity).
  pose proof (typed_tree_good (let_x_3_in_x (Some 50) ∅) let_tree 10 _ _ _
                (let_tree_typed_tree (Some 50) ∅) eq_refl eq_refl Hclear) as Hg.
  assert (Hrun : ∃ v st' l,
            infer (λ _ _ _, TypeError) 10 20 empty_object
              (let_x_3_in_x (Some 50) ∅) = Ok v st' l
            ∧ deref 10 (typeCells st') (TVAR 2) = Some INT).
  { eexists _, _, _. split; vm_compute; reflexivity. }
  destruct Hrun as (v & st' & l & Hrun & Hint).
  destruct (infer_only_binds (λ _ _ _, TypeError) _ _ 10 20 empty_object _ st' v l Hg)
    as (-> & [_ Hframe] & Hv & _).
  { apply (root_in_nodes let_tree). }
  { apply closed_env_empty. }
  { exact Hrun. }
  exists v, st'. split; [exact Hrun |]. split; [exact Hframe |].
  split; [exact Hv | exact Hint].
Defined.

(** ** The surrounding block *)

Lemma getSurroundParent_loop_sound (st : State) (x : nat) (fuel : nat) :
  ∀ block r st' l,
    in_stack st block x →
    getSurroundParent_loop fuel block st = Ok r st' l →
    st' = st ∧ l = []
    ∧ ∃ y Y, in_stack st y x ∧ blocks st !! y = Some Y ∧ parentBlock_ Y = r
             ∧ ∀ p, r = Some p →
                    ∃ next, getNextBlock p st = Ok next st [] ∧ next ≠ Some y.
Proof.
  induction fuel as [|fuel IH]; intros block r st' l Hstack; [done |].
  simpl. unfold getParent. rewrite bind_bind. mcase; [| done]. mrun.
  destruct (parentBlock_ b) as [p|] eqn:Hpar.
  - intros Hrun.
    apply bind_Ok_inv in Hrun as (next & s1 & l1 & l2 & Hnext & Hrun & ->).
    destruct (quiet_run _ _ _ _ _ (quiet_getNextBlock p) Hnext) as [-> ->].
    case_bool_decide as Heq.
    + subst next. apply (IH p r st' l2); [| done].
      by apply (in_stack_next st p block x).
    + injection Hrun as <- <- <-. split_and!; [done | done |].
      exists block, b. split_and!; [done | done | done |].
      intros p' [= <-]. by exists next.
  - intros [= <- <- <-]. split_and!; [done | done |].
    exists block, b. by split_and!.
Qed.

Lemma getSurroundParent_loop_more (st : State) (fuel k block : nat)
    (r : option nat) :
  getSurroundParent_loop fuel block st = Ok r st [] →
  getSurroundParent_loop (fuel + k) block st = Ok r st [].
Proof.
  revert block. induction fuel as [|fuel IH]; intros block; [done |].
  simpl. unfold getParent. rewrite !bind_bind.
  destruct (blocks st !! block) as [B|] eqn:HB.
  - rewrite !(bind_getBlock _ _ _ _ HB). mrun.
    destruct (parentBlock_ B) as [p|]; [| done].
    pose proof (quiet_getNextBlock p st) as Hq.
    unfold mbind, M_bind, bind.
    destruct (getNextBlock p st) as [next s1 l1|msg s1 l1|]; [| done..].
    destruct Hq as [-> ->]. rewrite !prepend_nil.
    case_bool_decide; [apply IH | done].
  - by rewrite !(bind_getBlock_None _ _ _ HB).
Qed.

Lemma getSurroundParent_loop_inside (st : State) (t : Tree) :
  block_tree st t →
  ∀ n r x, getSurroundParent_loop n (root t) st = Ok r st [] → x ∈ nodes t →
           ∃ r', getSurroundParent_loop (tree_size t + n) x st = Ok r' st [].
Proof.
  induction t as [b ks IH] using Tree_forall_ind. intros Ht n r x Hroot Hx.
  rewrite nodes_node in Hx. apply elem_of_cons in Hx as [->|Hx].
  { exists r. rewrite Nat.add_comm. by apply getSurroundParent_loop_more. }
  apply list_elem_of_join in Hx as (l & Hx & Hl).
  apply list_elem_of_fmap in Hl as (k & -> & Hk).
  inversion Ht as [b' ks' B HB Hok Hch Hlinks Hinf Hkids]; subst b' ks'.
  destruct (kid_facts st b ks B k Ht HB Hk)
    as (C & sc & SC & tc & TC & HC & Hpar & _ & _ & _ & _ & _ & _ & _ & Htk).
  rewrite Forall_forall in IH.
  assert (∃ r1, getSurroundParent_loop (S n) (root k) st = Ok r1 st [])
    as [r1 Hup].
  { simpl. unfold getParent. mrun. rewrite Hpar.
    assert (∃ next, getNextBlock b st = Ok next st []) as [next Hnext].
    { unfold getNextBlock. mrun.
      destruct (nextConnection B) as [nc|] eqn:Hnc; [| by eexists].
      destruct (inferior_targetBlock st b ks B nc Ht HB) as (NC & HNC & Hcases).
      { unfold inferiors. rewrite Hnc. by left. }
      destruct Hcases as [[_ ?] | (k' & _ & _ & _ & ?)]; eauto. }
    rewrite (bind_run _ _ _ _ _ _ Hnext), prepend_nil.
    case_bool_decide; eauto. }
  destruct (IH k Hk Htk (S n) r1 x Hup Hx) as [r' Hrun].
  exists r'. pose proof (kid_size b ks k Hk) as Hsize.
  replace (tree_size (Node b ks) + n)
    with ((tree_size k + S n) + (tree_size (Node b ks) - S (tree_size k))) by lia.
  by apply getSurroundParent_loop_more.
Qed.

(** X24.  From any block [x] of a well-formed tree whose root hangs from
    nothing, [getSurroundParent] returns, reading the store only.  Going up
    from [x] while the block is the next block of its parent leads to the
    first block [y] of the stack that [x] is in; the answer is the parent
    of [y], which holds [y] elsewhere than as its next block, or null when
    [y] has no parent. *)
Theorem getSurroundParent_above_stack (st : State) (t : Tree) (x fuel : nat) :
  block_tree st t → detached st (root t) → x ∈ nodes t → tree_size t < fuel →
  ∃ r y Y,
    getSurroundParent fuel x st = Ok r st []
    ∧ in_stack st y x ∧ blocks st !! y = Some Y ∧ parentBlock_ Y = r
    ∧ ∀ p, r = Some p → ∃ next, getNextBlock p st = Ok next st [] ∧ next ≠ Some y.
Proof.
  intros Ht (R & HR & Hpar & _) Hx Hfuel.
  assert (Hroot : getSurroundParent_loop 1 (root t) st = Ok None st []).
  { simpl. unfold getParent. mrun. by rewrite Hpar. }
  destruct (getSurroundParent_loop_inside st t Ht 1 None x Hroot Hx) as [r Hrun].
  apply (getSurroundParent_loop_more st _ (fuel - (tree_size t + 1))) in Hrun.
  replace (tree_size t + 1 + (fuel - (tree_size t + 1))) with fuel in Hrun by lia.
  destruct (getSurroundParent_loop_sound st x fuel x r st [] (in_stack_here st x) Hrun)
    as (_ & _ & y & Y & Hstack & HY & HparY & Hnext).
  by exists r, y, Y.
Qed.

Lemma getSurroundParent_above_stack_witness :
  ∃ r y Y,
    getSurroundParent 4 3 stack3 = Ok r stack3 []
    ∧ in_stack stack3 y 3 ∧ blocks stack3 !! y = Some Y ∧ parentBlock_ Y = r
    ∧ ∀ p, r = Some p →
           ∃ next, getNextBlock p stack3 = Ok next stack3 [] ∧ next ≠ Some y.
Proof.
  apply (getSurroundParent_above_stack stack3 (Node 1 [Node 2 [Node 3 []]]) 3 4).
  - exact stack3_whole_tree.
  - exact stack3_detached.
  - vm_compute. elem_of_list.
  - vm_compute. lia.
Defined.

(** ** Removing an input that holds a block *)

(** X25.  [removeInput] of an input that holds a block which is not a
    shadow unplugs that block instead of deleting it.  With a well-formed
    tree of distinct blocks below the block, the call returns; the block,
    its subtree intact, is left as a top-level block that hangs from
    nothing; the input is gone from the input list and the block from the
    child list; the connection of the input is disposed. *)
Theorem removeInput_unplugs_block (isShadow : nat → bool) (fuel b c tc : nat)
    (kks : list Tree) (Bb : Block) (l1 l2 : list Input) (input : Input)
    (opt_quiet : bool) (st : State) :
  blocks st !! b = Some Bb →
  inputList Bb = l1 ++ input :: l2 → name input ∉ name <$> l1 →
  connection input = Some tc →
  block_tree st (Node c kks) → linked st b c tc →
  b ∉ nodes (Node c kks) → NoDup (nodes (Node c kks)) →
  isShadow c = false →
  ∃ sc st',
    removeInput isShadow fuel b (name input) opt_quiet st
    = Ok tt st' ([EvUnplug c false; EvConnectionDisconnect sc] ++ input_log b input)
    ∧ block_tree st' (Node c kks) ∧ detached st' c
    ∧ c ∈ topBlocks_ st'
    ∧ blocks st' !! b
      = Some (with_inputList (l1 ++ l2) (with_childBlocks (array_remove c) Bb))
    ∧ ∃ TC, connections st' !! tc = Some TC
            ∧ targetConnection TC = None ∧ inDB_ TC = false.
Proof.
  intros HBb Hlist Hnot Hconn Ht Hl Hb Hnd Hshadow.
  destruct (linked_facts st b tc c kks Ht Hl Hb)
    as (C & sc & SC & TC & HC & Hok & Hp & Hsup & HSC & Hsrc & Hplug & Htgt
        & HTC & Htsrc & Hbc & Hne & Hsci & Htct).
  assert (Hback : targetConnection TC = Some sc).
  { destruct Hl as (C' & sc' & SC' & TC' & HC' & _ & Hsup' & _ & _ & HTC'' & _ & Hback).
    rewrite HC in HC'. injection HC' as <-. rewrite Hsup in Hsup'.
    injection Hsup' as <-. rewrite HTC in HTC''. by injection HTC'' as <-. }
  destruct (block_tree_unlinked st b c tc kks Ht Hl Hb Hnd)
    as (sc' & Hsc' & Htu & Hdet).
  rewrite HC in Hsc'. simpl in Hsc'. rewrite Hsup in Hsc'. injection Hsc' as <-.
  set (su := unlinked b c sc tc st) in *.
  assert (Hun : unplug fuel c false st
                = Ok tt su [EvUnplug c false; EvConnectionDisconnect sc]).
  { apply (unplug_linked st fuel b c sc tc Bb C SC TC); try done.
    - apply (ok_live _ _ _ Hok).
    - apply (ok_one_plug _ _ _ Hok).
    - intros nc Hnc. apply (inferior_target_exists st c kks C); try done.
      unfold inferiors. rewrite Hnc. by left. }
  assert (HTCu : connections su !! tc = Some (freed_connection TC))
    by (by apply unlinked_connection_tc).
  assert (Hfree : ∀ c', connection input = Some c' →
                        ∃ C', connections su !! c' = Some C'
                              ∧ targetConnection C' = None).
  { intros c' Hc'. rewrite Hconn in Hc'. injection Hc' as <-. eauto. }
  set (st' := set_blocks
                (alter (λ B, with_inputList (splice (length l1) 1 [] (inputList B)) B) b)
                (set_connections
                   (λ m, foldr (alter (with_inDB false)) m
                           (option_list (connection input))) su)).
  assert (Hblocks : ∀ x, x ≠ b → blocks st' !! x = blocks su !! x).
  { intros x Hx. simpl. by rewrite lookup_alter_ne. }
  assert (Hconns : ∀ x, x ≠ tc → connections st' !! x = connections su !! x).
  { intros x Hx. simpl. rewrite Hconn. simpl. by rewrite lookup_alter_ne. }
  exists sc, st'. split_and!.
  - unfold removeInput. mrun. rewrite Hlist.
    rewrite (removeInput_loop_skip isShadow fuel b (name input) l1 _ 0 Hnot).
    simpl removeInput_loop. rewrite bool_decide_true by done. rewrite Hconn.
    rewrite !bind_bind.
    rewrite (bind_run _ _ _ _ _ _ (isConnected_run st tc TC HTC)), prepend_nil.
    rewrite bool_decide_true by (by rewrite Hback).
    assert (Htarget : targetBlock tc st = Ok (Some c) st []).
    { unfold targetBlock. mrun. rewrite Hback. mrun. by rewrite Hsrc. }
    rewrite !bind_bind. rewrite (bind_run _ _ _ _ _ _ Htarget), prepend_nil.
    rewrite Hshadow. rewrite (bind_run _ _ _ _ _ _ Hun). rewrite !bind_bind.
    rewrite (bind_run _ _ _ _ _ _ (Input_dispose_run su b input Hfree)).
    rewrite bind_bind, bind_updBlock, !bind_ret. simpl prepend.
    rewrite app_nil_r. done.
  - apply (block_tree_frame su st'); [done |].
    apply same_on_outside; [done | | | done].
    + intros x Hx. apply Hblocks. by intros ->.
    + intros x X HX Hsrcx. apply Hconns. intros ->.
      rewrite HTCu in HX. injection HX as <-. simpl in Hsrcx.
      rewrite Htsrc in Hsrcx. done.
  - destruct Hdet as (Cu & HCu & Hparu & Hfreeu).
    exists Cu. split_and!; [by rewrite Hblocks | done |].
    intros sc0 SC0 Hsup0 HSC0.
    assert (Hsc0 : sc0 ≠ tc).
    { intros ->. unfold su in HCu.
      rewrite (unlinked_block_child st b c sc tc C Hbc HC) in HCu.
      injection HCu as <-. simpl in Hsup0.
      change (superior (with_parentBlock None C)) with (superior C) in Hsup0.
      congruence. }
    rewrite Hconns in HSC0 by done. by apply (Hfreeu sc0 SC0).
  - simpl. apply elem_of_union. right. by apply elem_of_singleton.
  - simpl. rewrite lookup_alter_eq. rewrite lookup_alter_ne by done.
    rewrite lookup_alter_eq, HBb. simpl. f_equal.
    unfold with_inputList. simpl. f_equal. rewrite Hlist. unfold splice. simpl.
    rewrite take_app_length, drop_app_ge by lia.
    by replace (length l1 + 1 - length l1) with 1 by lia.
  - exists (with_inDB false (freed_connection TC)). split_and!; [| done | done].
    simpl. rewrite Hconn. simpl. rewrite lookup_alter_eq.
    change (alter freed_connection tc (alter freed_connection sc (connections st)) !! tc)
      with (connections su !! tc). by rewrite HTCu.
Qed.

Lemma one_plus_hole_linked : linked one_plus_hole 40 41 401.
Proof. by repeat eexists. Qed.

Lemma literal_tree : block_tree one_plus_hole (Node 41 []).
Proof.
  pose proof one_plus_hole_tree as Ht.
  inversion Ht as [b ks B HB Hok Hch Hlinks Hinf Hkids]; subst.
  rewrite Forall_singleton in Hkids. exact Hkids.
Qed.

Lemma removeInput_unplugs_block_witness :
  ∃ sc st',
    removeInput (λ _, false) 5 40 "A" false one_plus_hole
    = Ok tt st' ([EvUnplug 41 false; EvConnectionDisconnect sc]
                 ++ input_log 40 (mkInput "A" [] (Some 401)))
    ∧ block_tree st' (Node 41 []) ∧ detached st' 41 ∧ 41 ∈ topBlocks_ st'.
Proof.
  destruct (removeInput_unplugs_block (λ _, false) 5 40 41 401 [] _ []
              [mkInput "B" [mkField (Some "OP_INT") FIELD_VARIABLE_NONE None "+"]
                       (Some 402)]
              (mkInput "A" [] (Some 401)) false one_plus_hole eq_refl eq_refl)
    as (sc & st' & Hrun & Htree & Hdet & Htop & _).
  - intros H. by apply elem_of_nil in H.
  - reflexivity.
  - exact literal_tree.
  - exact one_plus_hole_linked.
  - vm_compute. intros H. elem_of_cases H.
  - nodup_list.
  - reflexivity.
  - by exists sc, st'.
Defined.
